(** * A segregated-list allocator with mini blocks (malloc/mm.c)

    The allocator of [src/malloc/mm.c] is embedded over a byte-addressed
    memory.  Words are 64-bit unsigned integers, represented as [Z] with the
    wrap-around written out; pointers are addresses, [0] is [NULL].  The
    globals [heap_start] and [free_root] and the state of the heap-growth
    service live in one record that every function threads explicitly. *)

From Stdlib Require Import ZArith Lia List Bool Permutation.
Import ListNotations.
Local Open Scope Z_scope.

(** ** Machine words *)

Definition wrap (x : Z) : Z := x mod 2 ^ 64.

(** Bitwise complement of a 64-bit word ([~x] at type [word_t]/[size_t]). *)
Definition not64 (x : Z) : Z := wrap (Z.lnot x).

(** ** Byte-addressed memory, little-endian 64-bit accesses *)

Definition mem := Z -> Z.

Fixpoint load_bytes (n : nat) (m : mem) (a : Z) : Z :=
  match n with
  | O => 0
  | S k => m a mod 256 + 256 * load_bytes k m (a + 1)
  end.

Fixpoint store_bytes (n : nat) (m : mem) (a v : Z) : mem :=
  match n with
  | O => m
  | S k => store_bytes k (fun x => if x =? a then v mod 256 else m x) (a + 1) (v / 256)
  end.

Definition load (m : mem) (a : Z) : Z := load_bytes 8 m a.
Definition store (m : mem) (a v : Z) : mem := store_bytes 8 m a v.

(** [memset] and [memcpy] of the C library, on bytes. *)
Definition memset (m : mem) (p c n : Z) : mem :=
  fun x => if (p <=? x) && (x <? p + n) then c mod 256 else m x.

Definition memcpy (m : mem) (dst src n : Z) : mem :=
  fun x => if (dst <=? x) && (x <? dst + n) then m (src + (x - dst)) else m x.

(** ** Constants of mm.c *)

Definition seglist_length : Z := 15.
Definition wsize : Z := 8.
Definition dsize : Z := 2 * wsize.
Definition min_block_size : Z := dsize.
Definition chunksize : Z := Z.shiftl 1 12.
Definition alloc_mask : Z := 1.
Definition alloc_prev_mask : Z := 2.
Definition mini_mask : Z := 4.
Definition size_mask : Z := not64 15.

(** Offsets of the fields of [block_t]: the header is at offset 0, the union
    of [payload] and the pair ([successor], [predecessor]) starts at 8. *)
Definition off_payload : Z := 8.
Definition off_successor : Z := 8.
Definition off_predecessor : Z := 16.

(** ** Global state *)

Record state := mkState {
  st_mem : mem;
  (** memlib: first byte of the arena, current break, and arena limit *)
  mem_heap_lo : Z;
  mem_brk : Z;
  mem_max_addr : Z;
  (** mm.c globals *)
  heap_start : Z;
  free_root : Z -> Z
}.

Definition set_mem (st : state) (m : mem) : state :=
  mkState m (mem_heap_lo st) (mem_brk st) (mem_max_addr st) (heap_start st) (free_root st).

Definition set_brk (st : state) (b : Z) : state :=
  mkState (st_mem st) (mem_heap_lo st) b (mem_max_addr st) (heap_start st) (free_root st).

Definition set_heap_start (st : state) (h : Z) : state :=
  mkState (st_mem st) (mem_heap_lo st) (mem_brk st) (mem_max_addr st) h (free_root st).

Definition set_roots (st : state) (r : Z -> Z) : state :=
  mkState (st_mem st) (mem_heap_lo st) (mem_brk st) (mem_max_addr st) (heap_start st) r.

Definition set_root (st : state) (i v : Z) : state :=
  set_roots st (fun j => if j =? i then v else free_root st j).

(** Modelled from the spec: the heap-growth service [mem_sbrk] of memlib is
    not part of the sources.  It takes a signed byte count, extends the arena
    by that many bytes and returns the old break; it fails, returning
    [(void * )-1] and changing nothing, when the count is negative or the
    arena is exhausted. *)
Definition mem_sbrk (incr : Z) (st : state) : Z * state :=
  if (2 ^ 63 <=? incr) || (mem_max_addr st - mem_brk st <? incr)
  then (wrap (-1), st)
  else (mem_brk st, set_brk st (mem_brk st + incr)).

(** ** Short helper functions *)

Definition max (x y : Z) : Z := if x >? y then x else y.
Definition min (x y : Z) : Z := if x <? y then x else y.

Definition round_up (size n : Z) : Z := wrap (n * (wrap (size + (n - 1)) / n)).

Definition pack (size : Z) (alloc prev_alloc : bool) : Z :=
  let word := size in
  let word := if alloc then Z.lor word alloc_mask else word in
  let word := if prev_alloc then Z.lor word alloc_prev_mask else word in
  let word := if size =? min_block_size then Z.lor word mini_mask else word in
  word.

Definition extract_size (word : Z) : Z := Z.land word size_mask.

Definition extract_mini (word : Z) : bool :=
  negb (Z.shiftr (Z.land word mini_mask) 2 =? 0).

Definition get_mini (m : mem) (block : Z) : bool := extract_mini (load m block).

Definition get_size (m : mem) (block : Z) : Z :=
  if extract_mini (load m block) then min_block_size else extract_size (load m block).

Definition payload_to_header (bp : Z) : Z := wrap (bp - off_payload).

Definition header_to_payload (block : Z) : Z := wrap (block + off_payload).

Definition header_to_footer (m : mem) (block : Z) : Z :=
  wrap (wrap (wrap (block + off_payload) + get_size m block) - dsize).

Definition footer_to_header (m : mem) (footer : Z) : Z :=
  let size := extract_size (load m footer) in
  wrap (wrap (footer + wsize) - size).

Definition get_payload_size (m : mem) (block : Z) : Z :=
  let asize := get_size m block in
  wrap (asize - wsize).

Definition extract_alloc (word : Z) : bool := negb (Z.land word alloc_mask =? 0).

Definition get_alloc (m : mem) (block : Z) : bool := extract_alloc (load m block).

Definition extract_prev_alloc (word : Z) : bool :=
  negb (Z.shiftr (Z.land word alloc_prev_mask) 1 =? 0).

Definition get_prev_alloc (m : mem) (block : Z) : bool :=
  extract_prev_alloc (load m block).

Definition set_prev_alloc (m : mem) (block : Z) (prev_alloc : bool) : mem :=
  if prev_alloc
  then store m block (Z.lor (load m block) alloc_prev_mask)
  else store m block (Z.land (load m block) (not64 alloc_prev_mask)).

Definition write_epilogue (m : mem) (block : Z) : mem :=
  store m block (pack 0 true false).

Definition write_block (m : mem) (block size : Z) (alloc prev_alloc : bool) : mem :=
  let m1 := store m block (pack size alloc prev_alloc) in
  if negb alloc && negb (size =? min_block_size)
  then store m1 (header_to_footer m1 block) (pack size alloc prev_alloc)
  else m1.

Definition write_footer (m : mem) (block : Z) : mem :=
  store m (header_to_footer m block) (load m block).

Definition find_next (m : mem) (block : Z) : Z := wrap (block + get_size m block).

Definition find_prev_footer (block : Z) : Z := wrap (block - wsize).

Definition find_prev (m : mem) (block : Z) : Z :=
  let footerp := find_prev_footer block in
  if extract_mini (load m footerp) then wrap (footerp - 8)
  else if extract_size (load m footerp) =? 0 then 0
  else footer_to_header m footerp.

Definition get_next_free (m : mem) (block : Z) : Z :=
  Z.land (load m (wrap (block + off_successor))) (not64 7).

(** The loop [for (i = size >> 4; i != 0; i = i >> 1) count++]; a 64-bit
    value is exhausted after at most 64 shifts. *)
Fixpoint count_bits (fuel : nat) (i count : Z) : Z :=
  match fuel with
  | O => count
  | S k => if i =? 0 then count else count_bits k (Z.shiftr i 1) (count + 1)
  end.

Definition get_seglist_ind (size : Z) : Z :=
  let count := if size <=? 16 then 1 else count_bits 64 (Z.shiftr size 4) 0 in
  min (wrap (count - 1)) (wrap (seglist_length - 1)).

Definition get_prev_free (m : mem) (block : Z) : Z :=
  if get_mini m block then Z.land (load m block) (not64 7)
  else load m (wrap (block + off_predecessor)).

Definition set_prev_free (m : mem) (block prev : Z) : mem :=
  if get_mini m block
  then store m block (Z.lor (Z.land (load m block) 7) prev)
  else store m (wrap (block + off_predecessor)) prev.

Definition set_next_free (m : mem) (block next : Z) : mem :=
  let m1 := store m (wrap (block + off_successor)) next in
  if get_mini m1 block
  then store m1 (wrap (block + off_successor))
             (Z.lor (load m1 (wrap (block + off_successor))) mini_mask)
  else m1.

(** ** Free-list manager *)

Definition remove_from_free (st : state) (block : Z) : state :=
  let m := st_mem st in
  let prev := get_prev_free m block in
  let next := get_next_free m block in
  let seglist_ind := get_seglist_ind (get_size m block) in
  if (next =? 0) && (prev =? 0) then set_root st seglist_ind 0
  else if next =? 0 then set_mem st (set_next_free m prev 0)
  else if prev =? 0 then
    set_root (set_mem st (set_prev_free m next 0)) seglist_ind next
  else
    let m1 := set_next_free m prev next in
    set_mem st (set_prev_free m1 next prev).

Definition add_to_free (st : state) (block : Z) : state :=
  let m := st_mem st in
  let seglist_ind := get_seglist_ind (get_size m block) in
  if free_root st seglist_ind =? 0 then
    let st1 := set_root st seglist_ind block in
    let m1 := set_prev_free m (free_root st1 seglist_ind) 0 in
    let m2 := set_next_free m1 (free_root st1 seglist_ind) 0 in
    set_mem st1 m2
  else
    let m1 := set_prev_free m (free_root st seglist_ind) block in
    let m2 := set_next_free m1 block (free_root st seglist_ind) in
    let m3 := set_prev_free m2 block 0 in
    set_root (set_mem st m3) seglist_ind block.

(** ** Coalescing, heap extension, splitting *)

Definition coalesce_block (st : state) (block : Z) : Z * state :=
  let m := st_mem st in
  let prev_alloced := get_prev_alloc m block in
  let next := find_next m block in
  let next_alloced := get_alloc m next in
  if negb next_alloced && negb prev_alloced then
    let prev := find_prev m block in
    let new_size := wrap (wrap (get_size m prev + get_size m block) + get_size m next) in
    let st1 := remove_from_free st prev in
    let st2 := remove_from_free st1 next in
    let st3 := remove_from_free st2 block in
    let st4 := set_mem st3 (write_block (st_mem st3) prev new_size false true) in
    (prev, add_to_free st4 prev)
  else if negb next_alloced then
    let new_size := wrap (get_size m next + get_size m block) in
    let st1 := remove_from_free st next in
    let st2 := remove_from_free st1 block in
    let st3 := set_mem st2 (write_block (st_mem st2) block new_size false true) in
    (block, add_to_free st3 block)
  else if negb prev_alloced then
    let prev := find_prev m block in
    let new_size := wrap (get_size m block + get_size m prev) in
    let st1 := remove_from_free st prev in
    let st2 := remove_from_free st1 block in
    let st3 := set_mem st2 (write_block (st_mem st2) prev new_size false true) in
    (prev, add_to_free st3 prev)
  else (block, st).

Definition extend_heap (size : Z) (st : state) : Z * state :=
  let size := round_up size dsize in
  let '(bp, st1) := mem_sbrk size st in
  if bp =? wrap (-1) then (0, st1)
  else
    let block := payload_to_header bp in
    let old_epi := wrap (bp - 8) in
    let m1 := write_block (st_mem st1) block size false (get_prev_alloc (st_mem st1) old_epi) in
    let st2 := add_to_free (set_mem st1 m1) block in
    let block_next := find_next (st_mem st2) block in
    let st3 := set_mem st2 (write_epilogue (st_mem st2) block_next) in
    coalesce_block st3 block.

Definition split_block (st : state) (block asize : Z) : state :=
  let block_size := get_size (st_mem st) block in
  if wrap (block_size - asize) >=? min_block_size then
    let m1 := write_block (st_mem st) block asize true true in
    let block_next := find_next m1 block in
    let m2 := write_block m1 block_next (wrap (block_size - asize)) false true in
    add_to_free (set_mem st m2) block_next
  else st.

(** ** Fit finder *)

Definition max_check : Z := 9.

(** The scan of the home bucket.  [Some (b, true)] is the early [return min]
    inside the loop, [Some (min, false)] is the loop running to its end with
    the candidate [min]; [None] is the fuel running out. *)
Fixpoint find_fit_scan (fuel : nat) (m : mem) (asize block min checked : Z)
  : option (Z * bool) :=
  match fuel with
  | O => None
  | S k =>
    if block =? 0 then Some (min, false)
    else if asize <=? get_size m block then
      let min := if min =? 0 then block else min in
      let min := if get_size m block <? get_size m min then block else min in
      if negb (min =? 0) && (checked >? max_check) then Some (min, true)
      else find_fit_scan k m asize (get_next_free m block) min (checked + 1)
    else find_fit_scan k m asize (get_next_free m block) min (checked + 1)
  end.

(** [for (i = from; i < seglist_length; i++) if (free_root[i] != NULL) return free_root[i];]
    with [n] iterations left; [0] when the loop ends without returning. *)
Fixpoint find_fit_fallback (n : nat) (roots : Z -> Z) (i : Z) : Z :=
  match n with
  | O => 0
  | S k =>
    if i <? seglist_length then
      if negb (roots i =? 0) then roots i else find_fit_fallback k roots (wrap (i + 1))
    else 0
  end.

Definition find_fit (fuel : nat) (st : state) (asize : Z) : option Z :=
  let seglist_ind := get_seglist_ind asize in
  match find_fit_scan fuel (st_mem st) asize (free_root st seglist_ind) 0 0 with
  | None => None
  | Some (min, true) => Some min
  | Some (min, false) =>
    if min =? 0
    then
      let r := find_fit_fallback (Z.to_nat seglist_length) (free_root st) (wrap (seglist_ind + 1)) in
      if negb (r =? 0) then Some r else Some min
    else Some min
  end.

(** ** Top-level operations *)

Definition update_next (m : mem) (block : Z) (alloc : bool) : mem :=
  let next_block := find_next m block in
  let m1 := set_prev_alloc m next_block alloc in
  if negb alloc && negb (get_mini m1 block) then write_footer m1 block else m1.

Definition free_root_init (st : state) : state :=
  set_roots st (fun i => if (0 <=? i) && (i <? seglist_length) then 0 else free_root st i).

Definition mm_init (st : state) : bool * state :=
  let '(start, st1) := mem_sbrk (2 * wsize) st in
  let st2 := free_root_init st1 in
  if start =? wrap (-1) then (false, st2)
  else
    let m1 := store (st_mem st2) start (pack 0 true true) in
    let m2 := store m1 (wrap (start + 8)) (pack 0 true true) in
    let st3 := set_heap_start (set_mem st2 m2) (wrap (start + 8)) in
    let '(b, st4) := extend_heap chunksize st3 in
    if b =? 0 then (false, st4) else (true, st4).

Definition malloc (fuel : nat) (size : Z) (st : state) : option (Z * state) :=
  let st := if heap_start st =? 0 then snd (mm_init st) else st in
  if size =? 0 then Some (0, st)
  else
    let asize := max (round_up (wrap (size + wsize)) dsize) min_block_size in
    match find_fit fuel st asize with
    | None => None
    | Some block =>
      let '(block, st) :=
        if block =? 0 then extend_heap (max asize chunksize) st else (block, st) in
      if block =? 0 then Some (0, st)
      else
        let st := remove_from_free st block in
        let block_size := get_size (st_mem st) block in
        let st := set_mem st (write_block (st_mem st) block block_size true true) in
        let st := split_block st block asize in
        let st := set_mem st (update_next (st_mem st) block true) in
        Some (header_to_payload block, st)
    end.

Definition free (bp : Z) (st : state) : state :=
  if bp =? 0 then st
  else
    let block := payload_to_header bp in
    let size := get_size (st_mem st) block in
    let prev_alloc := get_prev_alloc (st_mem st) block in
    let st := set_mem st (write_block (st_mem st) block size false prev_alloc) in
    let st := add_to_free st block in
    let '(block, st) := coalesce_block st block in
    set_mem st (update_next (st_mem st) block false).

Definition realloc (fuel : nat) (ptr size : Z) (st : state) : option (Z * state) :=
  let block := payload_to_header ptr in
  if size =? 0 then Some (0, free ptr st)
  else if ptr =? 0 then malloc fuel size st
  else
    match malloc fuel size st with
    | None => None
    | Some (newptr, st) =>
      if newptr =? 0 then Some (0, st)
      else
        let copysize := get_payload_size (st_mem st) block in
        let copysize := if size <? copysize then size else copysize in
        let st := set_mem st (memcpy (st_mem st) newptr ptr copysize) in
        Some (newptr, free ptr st)
    end.

Definition calloc (fuel : nat) (elements size : Z) (st : state) : option (Z * state) :=
  let asize := wrap (elements * size) in
  if elements =? 0 then Some (0, st)
  else if negb (asize / elements =? size) then Some (0, st)
  else
    match malloc fuel asize st with
    | None => None
    | Some (bp, st) =>
      if bp =? 0 then Some (0, st)
      else Some (bp, set_mem st (memset (st_mem st) bp 0 asize))
    end.

(** * Specification vocabulary *)

(** [m'] differs from [m] at most on the bytes of [[lo, hi)]. *)
Definition same_out (m m' : mem) (lo hi : Z) : Prop :=
  forall x, x < lo \/ hi <= x -> m' x = m x.

Definition b2z (b : bool) : Z := if b then 1 else 0.

(** The spec's [clamp(x, lo, hi)]. *)
Definition clamp (x lo hi : Z) : Z := Z.max lo (Z.min x hi).

(** ** Abstract view of the heap

    A block of the implicit list: its address, size, allocation flag and the
    previous-allocated flag its header carries.  The epilogue is the block of
    size 0 at the end of the arena. *)
Record blk := mkBlk { b_addr : Z; b_size : Z; b_alloc : bool; b_pa : bool }.

(** What the memory holds for a block: the flag bits of its header, the size
    in the header unless the block is a mini block, and the footer of a free
    block that is not a mini block. *)
Definition blk_ok (m : mem) (b : blk) : Prop :=
  let h := load m (b_addr b) in
  extract_alloc h = b_alloc b /\
  extract_prev_alloc h = b_pa b /\
  extract_mini h = (b_size b =? 16) /\
  (b_size b <> 16 -> extract_size h = b_size b) /\
  (b_alloc b = false -> b_size b <> 16 ->
     extract_size (load m (b_addr b + b_size b - 8)) = b_size b /\
     extract_mini (load m (b_addr b + b_size b - 8)) = false).

(** The blocks [B] tile the arena from [hs] to the epilogue at [e]. *)
Record layout (hs e : Z) (B : blk -> Prop) : Prop := {
  lay_range : forall b, B b -> hs <= b_addr b <= e /\ b_addr b + b_size b <= e;
  lay_size : forall b, B b -> b_addr b < e -> 16 <= b_size b /\ b_size b mod 16 = 0;
  lay_epi : forall b, B b -> b_addr b = e -> b_size b = 0 /\ b_alloc b = true;
  lay_align : forall b, B b -> b_addr b mod 16 = 8;
  lay_disj : forall b1 b2, B b1 -> B b2 -> b_addr b1 < b_addr b2 ->
             b_addr b1 + b_size b1 <= b_addr b2;
  lay_uniq : forall b1 b2, B b1 -> B b2 -> b_addr b1 = b_addr b2 -> b1 = b2;
  lay_next : forall b, B b -> b_addr b < e ->
             exists n, B n /\ b_addr n = b_addr b + b_size b;
  lay_prev : forall n, B n -> b_addr n <> hs ->
             exists p, B p /\ b_addr p + b_size p = b_addr n /\ b_addr p < b_addr n;
  lay_first : exists b, B b /\ b_addr b = hs;
  lay_last : exists b, B b /\ b_addr b = e
}.

(** A bucket as a doubly-linked list: [fwd] follows the successor links from
    the root, [bwd] checks the predecessor links. *)
Fixpoint fwd (nx : Z -> Z) (c : Z) (l : list Z) : Prop :=
  match l with
  | [] => c = 0
  | x :: t => c = x /\ x <> 0 /\ fwd nx (nx x) t
  end.

Fixpoint bwd (pv : Z -> Z) (p : Z) (l : list Z) : Prop :=
  match l with
  | [] => True
  | x :: t => pv x = p /\ bwd pv x t
  end.

(** The word after the header of a listed mini block carries the mini bit:
    it is read as a footer by [find_prev] on the block that follows. *)
Definition tag (m : mem) (x : Z) : bool := extract_mini (load m (x + 8)).

Definition dlist (m : mem) (root : Z) (l : list Z) : Prop :=
  fwd (get_next_free m) root l /\
  bwd (get_prev_free m) 0 l /\
  (forall x, In x l -> get_mini m x = true -> tag m x = true) /\
  NoDup l.

(** The links of the listed block at [y] read the same in [m'] as in [m]. *)
Definition links_same (m m' : mem) (y : Z) : Prop :=
  get_mini m' y = get_mini m y /\
  get_next_free m' y = get_next_free m y /\
  get_prev_free m' y = get_prev_free m y /\
  tag m' y = tag m y.

(** The representation invariant that holds between any two steps of an
    operation: [B] is the implicit list, [L i] the content of bucket [i]. *)
Record hinv (st : state) (B : blk -> Prop) (L : Z -> list Z) : Prop := {
  hi_lo : 0 < mem_heap_lo st /\ mem_heap_lo st mod 16 = 0;
  hi_start : mem_heap_lo st + 8 <= heap_start st;
  hi_brk : mem_heap_lo st + 16 <= mem_brk st <= mem_max_addr st /\
           mem_max_addr st < 2 ^ 64;
  hi_lay : layout (heap_start st) (mem_brk st - 8) B;
  hi_mem : forall b, B b -> blk_ok (st_mem st) b;
  hi_dl : forall i, 0 <= i < 15 -> dlist (st_mem st) (free_root st i) (L i);
  hi_in : forall i x, 0 <= i < 15 -> In x (L i) ->
          exists b, B b /\ b_addr b = x /\ b_alloc b = false /\
                    get_seglist_ind (b_size b) = i
}.

(** The part of the invariant that does not mention the buckets. *)
Record hmem (st : state) (B : blk -> Prop) : Prop := {
  hm_lo : 0 < mem_heap_lo st /\ mem_heap_lo st mod 16 = 0;
  hm_start : mem_heap_lo st + 8 <= heap_start st;
  hm_brk : mem_heap_lo st + 16 <= mem_brk st <= mem_max_addr st /\
           mem_max_addr st < 2 ^ 64;
  hm_lay : layout (heap_start st) (mem_brk st - 8) B;
  hm_mem : forall b, B b -> blk_ok (st_mem st) b
}.

(** A write to the link fields of the free block at [x]: outside that area
    nothing changes, and the flag bits of the header stay ([set_prev_free]
    overwrites the upper header bits of a mini block). *)
Definition link_write (m m' : mem) (x : Z) : Prop :=
  same_out m m' x (x + (if get_mini m x then 16 else 24)) /\
  load m' x mod 8 = load m x mod 8 /\
  (get_mini m x = false -> load m' x = load m x).

(** [B] with the block at the address of [y'] replaced by [y']. *)
Definition breplace (B : blk -> Prop) (y' : blk) : blk -> Prop :=
  fun b => (B b /\ b_addr b <> b_addr y') \/ b = y'.

(** [B] with the blocks of [[lo, hi)] replaced by the blocks [N]. *)
Definition bregion (B : blk -> Prop) (lo hi : Z) (N : blk -> Prop) : blk -> Prop :=
  fun b => (B b /\ (b_addr b < lo \/ hi <= b_addr b)) \/ N b.

(** Bucket contents [L] with bucket [i] set to [l]. *)
Definition lupd (L : Z -> list Z) (i : Z) (l : list Z) : Z -> list Z :=
  fun j => if j =? i then l else L j.

(** Every free block is in the bucket of its size. *)
Definition all_listed (B : blk -> Prop) (L : Z -> list Z) : Prop :=
  forall b, B b -> b_alloc b = false -> In (b_addr b) (L (get_seglist_ind (b_size b))).

(** The previous-allocated flags agree with the implicit list, except
    possibly the flag of the block that follows the block at [x]. *)
Definition pa_except (B : blk -> Prop) (hs x : Z) : Prop :=
  (forall p n, B p -> B n -> b_addr p + b_size p = b_addr n -> b_addr p < b_addr n ->
               b_addr p <> x -> b_pa n = b_alloc p) /\
  (forall b, B b -> b_addr b = hs -> b_pa b = true).

(** No free block follows a free block, except possibly the block at [x]. *)
Definition nf_except (B : blk -> Prop) (x : Z) : Prop :=
  forall c, B c -> b_alloc c = false -> b_addr c <> x -> b_pa c = true.

(** The state in which [coalesce_block] is called on the free block [bx]. *)
Record semi_ok (st : state) (B : blk -> Prop) (L : Z -> list Z) (bx : blk) : Prop := {
  so_inv : hinv st B L;
  so_all : all_listed B L;
  so_pa : pa_except B (heap_start st) (b_addr bx);
  so_nf : nf_except B (b_addr bx);
  so_x : B bx /\ b_alloc bx = false
}.

(** The state in which [coalesce_block] returns the block [r]. *)
Record coalesced (st : state) (B : blk -> Prop) (L : Z -> list Z) (r : blk) : Prop := {
  co_inv : hinv st B L;
  co_all : all_listed B L;
  co_pa : pa_except B (heap_start st) (b_addr r);
  co_nf : forall c, B c -> b_alloc c = false -> b_pa c = true;
  co_r : B r /\ b_alloc r = false /\ b_pa r = true;
  co_next : forall n, B n -> b_addr n = b_addr r + b_size r -> b_alloc n = true
}.

(** What [coalesce_block], called on [bx] in state [st] with implicit list
    [B], returns: the block at [ra] in a state [st'] where the blocks outside
    the merged run are those of [B]. *)
Definition co_post (st : state) (B : blk -> Prop) (bx : blk) (ra : Z) (st' : state) : Prop :=
  exists B' L' r,
    b_addr r = ra /\
    coalesced st' B' L' r /\
    b_addr r <= b_addr bx /\ b_addr bx + b_size bx <= b_addr r + b_size r /\
    (forall c, b_addr c < b_addr r \/ b_addr r + b_size r <= b_addr c -> (B' c <-> B c)) /\
    (forall c, B c -> b_alloc c = true -> B' c) /\
    mem_heap_lo st' = mem_heap_lo st /\ mem_brk st' = mem_brk st /\
    mem_max_addr st' = mem_max_addr st /\ heap_start st' = heap_start st.

(** [m'] is [m] after the word [v] has been stored at [a], byte for byte. *)
Definition store_after (a v : Z) (m m' : mem) : Prop :=
  forall z, m' z = store m a v z.

(** The invariant between public operations.  [live] lists the payload
    pointers handed out and not yet released. *)
Definition heap_inv (st : state) (live : list Z) (B : blk -> Prop) (L : Z -> list Z) : Prop :=
  hinv st B L /\
  (forall p n, B p -> B n -> b_addr p + b_size p = b_addr n ->
               b_addr p < b_addr n -> b_pa n = b_alloc p) /\
  (forall b, B b -> b_addr b = heap_start st -> b_pa b = true) /\
  (forall b, B b -> b_alloc b = false -> b_pa b = true) /\
  all_listed B L /\
  (forall p, In p live ->
     exists b, B b /\ b_addr b + 8 = p /\ b_alloc b = true /\ 16 <= b_size b) /\
  NoDup live.

Definition heap_ok (st : state) (live : list Z) : Prop :=
  exists B L, heap_inv st live B L.

(** ** The heap checker's walks *)

(** [consecutive_free]: the block and the block before it are both free
    (the code after the first [return] is never run). *)
Definition consecutive_free (m : mem) (block : Z) : bool :=
  negb (get_alloc m block) && negb (get_prev_alloc m block).

(** The blocks visited by the loop
    [for (block = heap_start; get_size(block) > 0; block = find_next(block))]
    of [count_free] and [mm_checkheap], in the order of the visit; [None] is
    the fuel running out. *)
Fixpoint implicit_walk (fuel : nat) (m : mem) (block : Z) : option (list Z) :=
  match fuel with
  | O => None
  | S k =>
    if get_size m block >? 0 then
      match implicit_walk k m (find_next m block) with
      | Some l => Some (block :: l)
      | None => None
      end
    else Some []
  end.

(** The visited blocks for which [count_free] increments its counter. *)
Definition free_blocks (m : mem) (l : list Z) : list Z :=
  filter (fun block => negb (get_alloc m block)) l.

(** [count_free]; the counter is not bounded here. *)
Definition count_free (fuel : nat) (st : state) : option Z :=
  match implicit_walk fuel (st_mem st) (heap_start st) with
  | Some l => Some (Z.of_nat (length (free_blocks (st_mem st) l)))
  | None => None
  end.

(** The blocks visited by
    [for (block = free_root[i]; block != NULL; block = get_next_free(block))]. *)
Fixpoint bucket_walk (fuel : nat) (m : mem) (block : Z) : option (list Z) :=
  match fuel with
  | O => None
  | S k =>
    if block =? 0 then Some []
    else
      match bucket_walk k m (get_next_free m block) with
      | Some l => Some (block :: l)
      | None => None
      end
  end.

(** The loop of [mm_checkheap] over the buckets from [i] on, with [n]
    iterations left: all the blocks its inner loop counts. *)
Fixpoint explicit_walk (fuel : nat) (st : state) (n : nat) (i : Z) : option (list Z) :=
  match n with
  | O => Some []
  | S k =>
    if i <? seglist_length then
      match bucket_walk fuel (st_mem st) (free_root st i), explicit_walk fuel st k (i + 1) with
      | Some l, Some r => Some (l ++ r)
      | _, _ => None
      end
    else Some []
  end.

(** The count [num_free] that [mm_checkheap] compares with [count_free]. *)
Definition explicit_count (fuel : nat) (st : state) : option Z :=
  match explicit_walk fuel st (Z.to_nat seglist_length) 0 with
  | Some l => Some (Z.of_nat (length l))
  | None => None
  end.

(** Two blocks visited one after the other are both free. *)
Fixpoint two_free_in_a_row (m : mem) (l : list Z) : bool :=
  match l with
  | x :: t =>
    match t with
    | y :: _ => (negb (get_alloc m x) && negb (get_alloc m y)) || two_free_in_a_row m t
    | [] => false
    end
  | [] => false
  end.

(** ** Reachable states *)

(** Modelled from the spec: what memlib, which is not part of the sources,
    guarantees of its arena when [mm_init] is called: the arena is a range of
    addresses below 2^64 that starts at a non-null 16-byte aligned address,
    and the break is 16-byte aligned inside it. *)
Definition init_pre (st : state) : Prop :=
  0 < mem_heap_lo st /\ mem_heap_lo st mod 16 = 0 /\
  mem_heap_lo st <= mem_brk st <= mem_max_addr st /\ mem_max_addr st < 2 ^ 64 /\
  mem_brk st mod 16 = 0.

(** A request size that leaves room for the header below 2^64. *)
Definition fits (size : Z) : Prop := 0 <= size /\ size + 23 < 2 ^ 64.

Definition live_add (p : Z) (live : list Z) : list Z :=
  if p =? 0 then live else p :: live.

Definition realloc_live (p size q : Z) (live : list Z) : list Z :=
  if size =? 0 then remove Z.eq_dec p live
  else if p =? 0 then live_add q live
  else if q =? 0 then live
  else q :: remove Z.eq_dec p live.

(** The states reached from a successful [mm_init] by calls of the public
    operations, with the payload pointers that are live in them.  The caller
    keeps the contract of the interface: it releases or reallocates only
    pointers it holds, asks [realloc] and [calloc] only for sizes that fit,
    and writes only into the payloads it holds. *)
Inductive reach : state -> list Z -> Prop :=
| reach_init st0 st :
    init_pre st0 -> mm_init st0 = (true, st) -> reach st []
| reach_malloc st live fuel size p st' :
    reach st live -> 0 <= size < 2 ^ 64 ->
    malloc fuel size st = Some (p, st') ->
    reach st' (live_add p live)
| reach_free st live p :
    reach st live -> p = 0 \/ In p live ->
    reach (free p st) (remove Z.eq_dec p live)
| reach_realloc st live fuel p size q st' :
    reach st live -> p = 0 \/ In p live -> fits size ->
    realloc fuel p size st = Some (q, st') ->
    reach st' (realloc_live p size q live)
| reach_calloc st live fuel elements size p st' :
    reach st live -> 0 <= elements < 2 ^ 64 -> 0 <= size < 2 ^ 64 ->
    (elements * size < 2 ^ 64 -> fits (elements * size)) ->
    calloc fuel elements size st = Some (p, st') ->
    reach st' (live_add p live)
| reach_write st live p m' :
    reach st live -> In p live ->
    same_out (st_mem st) m' p (p + get_payload_size (st_mem st) (payload_to_header p)) ->
    reach (set_mem st m') live.

(** What [malloc] returns on a heap that satisfies the invariant. *)
Definition malloc_post (st : state) (live : list Z) (size p : Z) (st' : state) : Prop :=
  mem_heap_lo st' = mem_heap_lo st /\ mem_max_addr st' = mem_max_addr st /\
  heap_start st' = heap_start st /\
  (p = 0 -> st' = st) /\
  (p <> 0 ->
     p mod 16 = 0 /\
     exists B' L' b,
       heap_inv st' (p :: live) B' L' /\ B' b /\ b_addr b + 8 = p /\ b_alloc b = true /\
       (size + 23 < 2 ^ 64 -> size + 8 <= b_size b)).

(** The blocks of the buckets [i], [i + 1], ... ([n] of them), given the
    content [L] of each bucket. *)
Fixpoint buckets_from (L : Z -> list Z) (n : nat) (i : Z) : list Z :=
  match n with
  | O => []
  | S k => L i ++ buckets_from L k (i + 1)
  end.

(** ** Concrete heaps *)

(** An arena of 16 + 4096 bytes at address 4096, before [mm_init]: the
    static variables of mm.c are zero. *)
Definition arena0 : state :=
  mkState (fun _ => 0) 4096 4096 (4096 + 16 + 4096) 0 (fun _ => 0).

(** The heap after [mm_init]: one free block of 4096 bytes. *)
Definition heap1 : state := snd (mm_init arena0).

(** The heap after [malloc(100)], and the pointer returned. *)
Definition heap2 : state :=
  match malloc 10 100 heap1 with Some (_, st) => st | None => heap1 end.

Definition ptr2 : Z :=
  match malloc 10 100 heap1 with Some (p, _) => p | None => 0 end.

(** The buckets of [heap1]: its one free block is in bucket 8. *)
Definition buckets1 (i : Z) : list Z := if i =? 8 then [4104] else [].

(** A memory with the header of a free mini block at address 4104. *)
Definition mini_mem : mem := store (fun _ => 0) 4104 (pack 16 false true).

(** ** Payload frames *)

(** The bytes from [a + 8] up to [a + s] are not the allocator's to write:
    they are the payload of the allocated block of [B] at [a], of [s] bytes,
    or they lie below the first block of [B], or [a] is at or above the last
    block of [B], the epilogue, so that they lie at the break or above it. *)
Definition guarded (B : blk -> Prop) (a s : Z) : Prop :=
  (exists c, B c /\ b_addr c = a /\ b_size c = s /\ b_alloc c = true) \/
  (16 <= s /\ forall c, B c -> a + s <= b_addr c) \/
  (forall c, B c -> b_addr c <= a).

(** The payload bytes of the block at [a], of [s] bytes, are in [m'] what
    they are in [m]. *)
Definition keeps (m m' : mem) (a s : Z) : Prop :=
  forall z, a + 8 <= z < a + s -> m' z = m z.

(** No byte below [heap_start] and no byte at or above the break of [st']
    differs between [st] and [st']. *)
Definition heap_frame (st st' : state) : Prop :=
  forall z, z < heap_start st \/ mem_brk st' <= z -> st_mem st' z = st_mem st z.

(** The payloads of the live pointers have in [st'] the size and the bytes
    they have in [st]. *)
Definition live_kept (st st' : state) (live : list Z) : Prop :=
  forall q, In q live ->
    get_payload_size (st_mem st') (payload_to_header q) =
    get_payload_size (st_mem st) (payload_to_header q) /\
    forall z, q <= z < q + get_payload_size (st_mem st) (payload_to_header q) ->
              st_mem st' z = st_mem st z.

(** ** The tests of the heap checker *)

(** Modelled from the spec: [mem_heap_hi] of memlib, which is not part of
    the sources, is the address of the last byte of the heap, so that the
    epilogue word, which ends the heap, starts seven bytes before it. *)
Definition mem_heap_hi (st : state) : Z := wrap (mem_brk st - 1).

Definition check_address_alignment (block : Z) : bool :=
  let pload := header_to_payload block in
  Z.land pload 15 =? 0.

Definition check_prologue (st : state) : bool :=
  let prologue := mem_heap_lo st in
  (get_size (st_mem st) prologue =? 0) && get_alloc (st_mem st) prologue &&
  get_prev_alloc (st_mem st) prologue.

Definition check_epilogue (st : state) : bool :=
  let epilogue := wrap (mem_heap_hi st - 7) in
  (get_size (st_mem st) epilogue =? 0) && get_alloc (st_mem st) epilogue.

Definition within_heap_boundaries (st : state) (block : Z) : bool :=
  let above_min := block >? mem_heap_lo st in
  let below_max := block <? mem_heap_hi st in
  below_max && above_min.

Definition explicit_list_pointer_consistency (m : mem) (block : Z) : bool :=
  let prev := get_prev_free m block in
  if prev =? 0 then false
  else
    let current := get_next_free m prev in
    if negb (current =? block) then false else true.

(** [check_explicit_list(seglist_ind)], its loop entered at [block];
    [None] is the fuel running out. *)
Fixpoint check_explicit_list (fuel : nat) (st : state) (seglist_ind block : Z)
  : option bool :=
  match fuel with
  | O => None
  | S k =>
    let m := st_mem st in
    if block =? 0 then Some true
    else if get_alloc m block then Some false
    else if get_mini m block && negb (get_size m block =? min_block_size) then Some false
    else if negb (block =? free_root st seglist_ind) &&
            negb (explicit_list_pointer_consistency m block) then Some false
    else if negb (within_heap_boundaries st block) then Some false
    else if negb (seglist_ind =? get_seglist_ind (get_size m block)) then Some false
    else check_explicit_list k st seglist_ind (get_next_free m block)
  end.

(** The heap after [realloc(ptr2, 200)], and the pointer returned. *)
Definition heap3 : state :=
  match realloc 10 ptr2 200 heap2 with Some (_, st) => st | None => heap2 end.

Definition ptr3 : Z :=
  match realloc 10 ptr2 200 heap2 with Some (p, _) => p | None => 0 end.

(** The heap after a second [malloc(200)], and the pointer returned. *)
Definition heap4 : state :=
  match malloc 10 200 heap2 with Some (_, st) => st | None => heap2 end.

Definition ptr4 : Z :=
  match malloc 10 200 heap2 with Some (p, _) => p | None => 0 end.

(** The heap after [free(ptr2)] and [malloc(50)], and the pointer returned. *)
Definition heap5 : state :=
  match malloc 10 50 (free ptr2 heap2) with Some (_, st) => st | None => heap2 end.

Definition ptr5 : Z :=
  match malloc 10 50 (free ptr2 heap2) with Some (p, _) => p | None => 0 end.

(** The heap after [calloc(4, 25)] in [heap2], and the pointer returned. *)
Definition heap6 : state :=
  match calloc 10 4 25 heap2 with Some (_, st) => st | None => heap2 end.

Definition ptr6 : Z :=
  match calloc 10 4 25 heap2 with Some (p, _) => p | None => 0 end.

(** One call of a public operation in state [st], where the pointers [live]
    are live, that ends in state [st']; the caller keeps the contract of the
    interface, as in [reach]. *)
Inductive op_step (st : state) (live : list Z) (st' : state) : Prop :=
| step_malloc fuel size p :
    0 <= size < 2 ^ 64 -> malloc fuel size st = Some (p, st') -> op_step st live st'
| step_free p :
    p = 0 \/ In p live -> st' = free p st -> op_step st live st'
| step_realloc fuel p size q :
    p = 0 \/ In p live -> fits size ->
    realloc fuel p size st = Some (q, st') -> op_step st live st'
| step_calloc fuel elements size p :
    0 <= elements < 2 ^ 64 -> 0 <= size < 2 ^ 64 ->
    (elements * size < 2 ^ 64 -> fits (elements * size)) ->
    calloc fuel elements size st = Some (p, st') -> op_step st live st'.

(** * Machine words and bit masks *)

Lemma wrap_small x : 0 <= x < 2 ^ 64 -> wrap x = x.
Proof. intros; unfold wrap; apply Z.mod_small; assumption. Qed.

Lemma wrap_range x : 0 <= wrap x < 2 ^ 64.
Proof. unfold wrap; apply Z.mod_pos_bound; lia. Qed.

Lemma testbit_low16 q r n : 0 <= n < 4 -> Z.testbit (16 * q + r) n = Z.testbit r n.
Proof.
  intros Hn.
  rewrite <- (Z.mod_pow2_bits_low (16 * q + r) 4 n) by lia.
  rewrite <- (Z.mod_pow2_bits_low r 4 n) by lia.
  f_equal. change (2 ^ 4) with 16.
  rewrite Z.add_comm, Z.mul_comm, Z.mod_add by lia. reflexivity.
Qed.

Lemma testbit_small16 c n : 0 <= c < 16 -> 4 <= n -> Z.testbit c n = false.
Proof.
  intros Hc Hn. destruct (Z.eq_dec c 0) as [->|Hz].
  - apply Z.testbit_0_l.
  - apply Z.bits_above_log2; [lia|].
    assert (Z.log2 c < 4) by (apply Z.log2_lt_pow2; lia). lia.
Qed.

Lemma land_low q r c : 0 <= r < 16 -> 0 <= c < 16 -> Z.land (16 * q + r) c = Z.land r c.
Proof.
  intros Hr Hc. apply Z.bits_inj'. intros n Hn.
  rewrite !Z.land_spec.
  destruct (Z.lt_ge_cases n 4).
  - rewrite testbit_low16 by lia. reflexivity.
  - rewrite (testbit_small16 c n) by lia. rewrite !andb_false_r. reflexivity.
Qed.

Lemma lor_low q r c :
  0 <= r < 16 -> 0 <= c < 16 -> Z.lor (16 * q + r) c = 16 * q + Z.lor r c.
Proof.
  intros Hr Hc.
  assert (Hd : forall t, 0 <= t < 16 -> Z.lor (16 * q) t = 16 * q + t).
  { intros t Ht. rewrite <- Z.lxor_lor, <- Z.add_nocarry_lxor; auto;
      replace (16 * q) with (16 * q + 0) by lia; rewrite land_low by lia; reflexivity. }
  assert (Hl : 0 <= Z.lor r c < 16).
  { split; [apply Z.lor_nonneg; lia|].
    destruct (Z.eq_dec (Z.lor r c) 0) as [->|Hz]; [lia|].
    assert (0 <= Z.lor r c) by (apply Z.lor_nonneg; lia).
    apply (Z.log2_lt_cancel _ 16). change (Z.log2 16) with 4.
    rewrite Z.log2_lor by lia.
    assert (Z.log2 r < 4) by (destruct (Z.eq_dec r 0) as [->|]; [cbn; lia|apply Z.log2_lt_pow2; lia]).
    assert (Z.log2 c < 4) by (destruct (Z.eq_dec c 0) as [->|]; [cbn; lia|apply Z.log2_lt_pow2; lia]).
    lia. }
  rewrite <- (Hd r), <- Z.lor_assoc, Hd by lia. reflexivity.
Qed.

Lemma low_split x : x = 16 * (x / 16) + x mod 16 /\ 0 <= x mod 16 < 16.
Proof. split; [apply Z.div_mod; lia | apply Z.mod_pos_bound; lia]. Qed.

Ltac low_cases r H :=
  assert (r = 0 \/ r = 1 \/ r = 2 \/ r = 3 \/ r = 4 \/ r = 5 \/ r = 6 \/ r = 7 \/
          r = 8 \/ r = 9 \/ r = 10 \/ r = 11 \/ r = 12 \/ r = 13 \/ r = 14 \/ r = 15)
    as H by lia;
  repeat (destruct H as [H|H]).

Lemma land_not64 x c : 0 <= x < 2 ^ 64 -> 0 <= c < 16 -> Z.land x (not64 c) = x - Z.land x c.
Proof.
  intros Hx Hc.
  assert (E : Z.land x (not64 c) = Z.ldiff x c).
  { apply Z.bits_inj'. intros n Hn. unfold not64, wrap.
    rewrite Z.land_spec, Z.ldiff_spec.
    destruct (Z.lt_ge_cases n 64).
    - rewrite Z.mod_pow2_bits_low, Z.lnot_spec by lia. reflexivity.
    - rewrite Z.mod_pow2_bits_high by lia.
      replace (Z.testbit x n) with false; [reflexivity|].
      symmetry. destruct (Z.eq_dec x 0) as [->|]; [apply Z.testbit_0_l|].
      apply Z.bits_above_log2; [lia|].
      assert (Z.log2 x < 64) by (apply Z.log2_lt_pow2; lia). lia. }
  rewrite E. symmetry.
  replace (Z.ldiff x c) with (Z.ldiff x (Z.land x c)).
  - apply Z.sub_nocarry_ldiff. apply Z.bits_inj'. intros n Hn.
    rewrite Z.ldiff_spec, Z.land_spec, Z.testbit_0_l.
    destruct (Z.testbit x n), (Z.testbit c n); reflexivity.
  - apply Z.bits_inj'. intros n Hn. rewrite !Z.ldiff_spec, Z.land_spec.
    destruct (Z.testbit x n), (Z.testbit c n); reflexivity.
Qed.

(** Arithmetic reading of the masks used by mm.c. *)

Lemma land_1 x : Z.land x 1 = x mod 2.
Proof. change 1 with (Z.ones 1). rewrite Z.land_ones by lia. reflexivity. Qed.

Lemma land_7 x : Z.land x 7 = x mod 8.
Proof. change 7 with (Z.ones 3). rewrite Z.land_ones by lia. reflexivity. Qed.

Lemma land_15 x : Z.land x 15 = x mod 16.
Proof. change 15 with (Z.ones 4). rewrite Z.land_ones by lia. reflexivity. Qed.

Lemma land_2 x : Z.land x 2 = 2 * ((x / 2) mod 2).
Proof.
  destruct (low_split x) as [E R]. rewrite E at 1. rewrite land_low by lia.
  remember (x mod 16) as r. remember (x / 16) as q.
  replace ((x / 2) mod 2) with ((r / 2) mod 2) by (rewrite E; Z.div_mod_to_equations; lia).
  clear E Heqr Heqq. low_cases r H; subst r; reflexivity.
Qed.

Lemma land_4 x : Z.land x 4 = 4 * ((x / 4) mod 2).
Proof.
  destruct (low_split x) as [E R]. rewrite E at 1. rewrite land_low by lia.
  remember (x mod 16) as r. remember (x / 16) as q.
  replace ((x / 4) mod 2) with ((r / 4) mod 2) by (rewrite E; Z.div_mod_to_equations; lia).
  clear E Heqr Heqq. low_cases r H; subst r; reflexivity.
Qed.

Lemma lor_1 x : Z.lor x 1 = x + 1 - x mod 2.
Proof.
  destruct (low_split x) as [E R]. rewrite E at 1. rewrite lor_low by lia.
  remember (x mod 16) as r. remember (x / 16) as q.
  replace (x mod 2) with (r mod 2) by (rewrite E; Z.div_mod_to_equations; lia).
  rewrite E. clear E Heqr Heqq. low_cases r H; subst r; cbn; lia.
Qed.

Lemma lor_2 x : Z.lor x 2 = x + 2 - 2 * ((x / 2) mod 2).
Proof.
  destruct (low_split x) as [E R]. rewrite E at 1. rewrite lor_low by lia.
  remember (x mod 16) as r. remember (x / 16) as q.
  replace ((x / 2) mod 2) with ((r / 2) mod 2) by (rewrite E; Z.div_mod_to_equations; lia).
  rewrite E. clear E Heqr Heqq. low_cases r H; subst r; cbn; lia.
Qed.

Lemma lor_4 x : Z.lor x 4 = x + 4 - 4 * ((x / 4) mod 2).
Proof.
  destruct (low_split x) as [E R]. rewrite E at 1. rewrite lor_low by lia.
  remember (x mod 16) as r. remember (x / 16) as q.
  replace ((x / 4) mod 2) with ((r / 4) mod 2) by (rewrite E; Z.div_mod_to_equations; lia).
  rewrite E. clear E Heqr Heqq. low_cases r H; subst r; cbn; lia.
Qed.

Lemma lor_low8 r p : 0 <= r < 8 -> p mod 8 = 0 -> Z.lor r p = r + p.
Proof.
  intros Hr Hp. rewrite Z.lor_comm, (Z.add_comm r p).
  destruct (low_split p) as [E R]. rewrite E.
  rewrite lor_low by lia. rewrite <- Z.add_assoc. f_equal.
  assert (p mod 16 = 0 \/ p mod 16 = 8) as [->| ->] by (Z.div_mod_to_equations; lia).
  - cbn. destruct r; reflexivity.
  - assert (r = 0 \/ r = 1 \/ r = 2 \/ r = 3 \/ r = 4 \/ r = 5 \/ r = 6 \/ r = 7) as H by lia.
    repeat (destruct H as [H|H]); subst r; reflexivity.
Qed.

Ltac Zify.zify_post_hook ::= Z.to_euclidean_division_equations.

Lemma extract_alloc_eq x : extract_alloc x = negb (x mod 2 =? 0).
Proof. unfold extract_alloc, alloc_mask. rewrite land_1. reflexivity. Qed.

Lemma extract_prev_alloc_eq x : extract_prev_alloc x = negb ((x / 2) mod 2 =? 0).
Proof.
  unfold extract_prev_alloc, alloc_prev_mask. rewrite land_2, Z.shiftr_div_pow2 by lia.
  change (2 ^ 1) with 2. rewrite Z.mul_comm, Z.div_mul by lia. reflexivity.
Qed.

Lemma extract_mini_eq x : extract_mini x = negb ((x / 4) mod 2 =? 0).
Proof.
  unfold extract_mini, mini_mask. rewrite land_4, Z.shiftr_div_pow2 by lia.
  change (2 ^ 2) with 4. rewrite Z.mul_comm, Z.div_mul by lia. reflexivity.
Qed.

Lemma extract_size_eq x : 0 <= x < 2 ^ 64 -> extract_size x = x - x mod 16.
Proof.
  intros. unfold extract_size, size_mask. rewrite land_not64, land_15 by lia. reflexivity.
Qed.

Lemma land_not7 x : 0 <= x < 2 ^ 64 -> Z.land x (not64 7) = x - x mod 8.
Proof. intros. rewrite land_not64, land_7 by lia. reflexivity. Qed.

Lemma land_not2 x : 0 <= x < 2 ^ 64 -> Z.land x (not64 2) = x - 2 * ((x / 2) mod 2).
Proof. intros. rewrite land_not64, land_2 by lia. reflexivity. Qed.

Lemma pack_eq s a p :
  0 <= s -> s mod 16 = 0 ->
  pack s a p = s + b2z a + 2 * b2z p + 4 * b2z (s =? 16).
Proof.
  intros Hs Hm. unfold pack, alloc_mask, alloc_prev_mask, mini_mask, min_block_size, dsize, wsize.
  change (2 * 8) with 16.
  destruct a, p, (s =? 16); cbn [b2z];
    rewrite ?lor_4, ?lor_2, ?lor_1; lia.
Qed.

(** * Memory *)

Lemma load_bytes_range n m a : 0 <= load_bytes n m a < 256 ^ Z.of_nat n.
Proof.
  revert a. induction n; intros a.
  - cbn. lia.
  - rewrite Nat2Z.inj_succ, Z.pow_succ_r by lia. cbn [load_bytes].
    specialize (IHn (a + 1)). assert (0 <= m a mod 256 < 256) by (apply Z.mod_pos_bound; lia).
    nia.
Qed.

Lemma load_range m a : 0 <= load m a < 2 ^ 64.
Proof. unfold load. apply (load_bytes_range 8 m a). Qed.

Lemma store_bytes_out n m a v x : x < a \/ a + Z.of_nat n <= x -> store_bytes n m a v x = m x.
Proof.
  revert m a v. induction n; intros m a v H; cbn [store_bytes]; [reflexivity|].
  rewrite IHn by lia. destruct (Z.eqb_spec x a); [lia|reflexivity].
Qed.

Lemma store_out m a v x : x < a \/ a + 8 <= x -> store m a v x = m x.
Proof. intros. unfold store. apply store_bytes_out. cbn. lia. Qed.

Lemma load_bytes_ext n m m' a :
  (forall x, a <= x < a + Z.of_nat n -> m' x = m x) -> load_bytes n m' a = load_bytes n m a.
Proof.
  revert a. induction n; intros a H; cbn [load_bytes]; [reflexivity|].
  rewrite H by lia. rewrite IHn; [reflexivity|]. intros; apply H; lia.
Qed.

Lemma load_ext m m' a : (forall x, a <= x < a + 8 -> m' x = m x) -> load m' a = load m a.
Proof. intros. unfold load. apply load_bytes_ext. cbn. assumption. Qed.

Lemma load_store_bytes_same n m a v :
  load_bytes n (store_bytes n m a v) a = v mod 256 ^ Z.of_nat n.
Proof.
  revert m a v. induction n; intros m a v.
  - cbn. rewrite Z.mod_1_r. reflexivity.
  - cbn [load_bytes store_bytes]. rewrite IHn.
    rewrite store_bytes_out by lia. rewrite Z.eqb_refl.
    rewrite Z.mod_mod by lia.
    rewrite Nat2Z.inj_succ, Z.pow_succ_r by lia.
    assert (0 < 256 ^ Z.of_nat n) by (apply Z.pow_pos_nonneg; lia).
    rewrite (Z.rem_mul_r v 256 (256 ^ Z.of_nat n)) by lia. reflexivity.
Qed.

Lemma load_store_same m a v : load (store m a v) a = wrap v.
Proof. unfold load, store, wrap. apply (load_store_bytes_same 8). Qed.

Lemma load_same_out m m' lo hi a :
  same_out m m' lo hi -> a + 8 <= lo \/ hi <= a -> load m' a = load m a.
Proof. intros H Ha. apply load_ext. intros x Hx. apply H. lia. Qed.

Lemma same_out_refl m lo hi : same_out m m lo hi.
Proof. intros x _. reflexivity. Qed.

Lemma same_out_store m a v lo hi : lo <= a -> a + 8 <= hi -> same_out m (store m a v) lo hi.
Proof. intros ? ? x Hx. apply store_out. lia. Qed.

Lemma same_out_trans m1 m2 m3 lo hi :
  same_out m1 m2 lo hi -> same_out m2 m3 lo hi -> same_out m1 m3 lo hi.
Proof. intros H1 H2 x Hx. rewrite H2, H1 by assumption. reflexivity. Qed.

Lemma same_out_weaken m m' lo hi lo' hi' :
  same_out m m' lo hi -> lo' <= lo -> hi <= hi' -> same_out m m' lo' hi'.
Proof. intros H ? ? x Hx. apply H. lia. Qed.

Lemma load_store_other m a v b : b + 8 <= a \/ a + 8 <= b -> load (store m a v) b = load m b.
Proof.
  intros. apply (load_same_out m _ a (a + 8)); [apply same_out_store; lia | lia].
Qed.

(** * Size classes *)

Lemma count_bits_spec fuel : forall i c,
  0 <= i < 2 ^ Z.of_nat fuel ->
  count_bits fuel i c = c + (if i =? 0 then 0 else Z.log2 i + 1).
Proof.
  induction fuel; intros i c Hi.
  - cbn in Hi. assert (i = 0) by lia. subst. cbn. lia.
  - cbn [count_bits]. destruct (Z.eqb_spec i 0) as [->|Hz]; [lia|].
    rewrite Nat2Z.inj_succ, Z.pow_succ_r in Hi by lia.
    rewrite IHfuel by (rewrite Z.shiftr_div_pow2 by lia; change (2 ^ 1) with 2; lia).
    destruct (Z.eqb_spec (Z.shiftr i 1) 0) as [E|E].
    + rewrite Z.shiftr_div_pow2 in E by lia. change (2 ^ 1) with 2 in E.
      assert (i = 1) by lia. subst. cbn. lia.
    + rewrite Z.log2_shiftr by lia.
      rewrite Z.shiftr_div_pow2 in E by lia. change (2 ^ 1) with 2 in E.
      assert (1 <= Z.log2 i) by (apply Z.log2_le_pow2; [lia|]; change (2 ^ 1) with 2; lia).
      lia.
Qed.

Lemma get_seglist_ind_eq size :
  0 <= size < 2 ^ 64 ->
  get_seglist_ind size =
    if size <=? 16 then 0 else Z.min (Z.log2 (size / 16)) 14.
Proof.
  intros H. unfold get_seglist_ind, seglist_length, min.
  change (wrap (15 - 1)) with 14.
  destruct (Z.leb_spec size 16) as [L|L].
  - reflexivity.
  - rewrite count_bits_spec
      by (rewrite Z.shiftr_div_pow2 by lia; change (2 ^ 4) with 16;
          change (Z.of_nat 64) with 64; lia).
    rewrite Z.shiftr_div_pow2 by lia. change (2 ^ 4) with 16.
    destruct (Z.eqb_spec (size / 16) 0); [lia|].
    assert (0 <= Z.log2 (size / 16) < 64).
    { split; [apply Z.log2_nonneg|]. apply Z.log2_lt_pow2; lia. }
    replace (0 + (Z.log2 (size / 16) + 1) - 1) with (Z.log2 (size / 16)) by lia.
    rewrite wrap_small by lia.
    destruct (Z.ltb_spec (Z.log2 (size / 16)) 14); lia.
Qed.

Lemma get_seglist_ind_range size : 0 <= size < 2 ^ 64 -> 0 <= get_seglist_ind size < 15.
Proof.
  intros H. rewrite get_seglist_ind_eq by lia.
  destruct (size <=? 16); [lia|]. pose proof (Z.log2_nonneg (size / 16)). lia.
Qed.

Lemma get_seglist_ind_mono s t :
  0 <= s <= t -> t < 2 ^ 64 -> get_seglist_ind s <= get_seglist_ind t.
Proof.
  intros H Ht. rewrite !get_seglist_ind_eq by lia.
  destruct (Z.leb_spec s 16), (Z.leb_spec t 16); try lia.
  - pose proof (Z.log2_nonneg (t / 16)). lia.
  - assert (Z.log2 (s / 16) <= Z.log2 (t / 16)) by (apply Z.log2_le_mono; lia). lia.
Qed.

Lemma get_seglist_ind_zero size :
  0 < size < 2 ^ 64 -> size mod 16 = 0 -> (get_seglist_ind size = 0 <-> size = 16).
Proof.
  intros H Hm. rewrite get_seglist_ind_eq by lia.
  destruct (Z.leb_spec size 16); [lia|].
  assert (1 <= Z.log2 (size / 16)) by (apply Z.log2_le_pow2; [lia|]; change (2 ^ 1) with 2; lia).
  lia.
Qed.

(** C5: for a positive multiple of 16 the bucket index is
    [clamp(floor(log2(size / 16)), 0, 14)], and the minimum block size 16 is
    classified into bucket 0 (and is the only size there). *)
Theorem C5_get_seglist_ind_clamp_log2 :
  forall size,
    0 < size < 2 ^ 64 -> size mod 16 = 0 ->
    get_seglist_ind size = clamp (Z.log2 (size / 16)) 0 (seglist_length - 1) /\
    (size = min_block_size -> get_seglist_ind size = 0) /\
    (get_seglist_ind size = 0 -> size = min_block_size).
Proof.
  intros size H Hm. split; [|split].
  - rewrite get_seglist_ind_eq by lia. unfold clamp, seglist_length.
    pose proof (Z.log2_nonneg (size / 16)).
    destruct (Z.leb_spec size 16).
    + assert (size = 16) by lia. subst. cbn. reflexivity.
    + lia.
  - intros ->. reflexivity.
  - intros E. apply get_seglist_ind_zero in E; auto.
Qed.

Lemma C5_witness :
  get_seglist_ind 4096 = clamp (Z.log2 (4096 / 16)) 0 (seglist_length - 1) /\
  (4096 = min_block_size -> get_seglist_ind 4096 = 0) /\
  (get_seglist_ind 4096 = 0 -> 4096 = min_block_size).
Proof. apply (C5_get_seglist_ind_clamp_log2 4096); [lia | reflexivity]. Defined.

(** * The size accessor on mini blocks *)

Lemma extract_mini_testbit x : extract_mini x = Z.testbit x 2.
Proof.
  rewrite extract_mini_eq.
  pose proof (Z.testbit_spec' x 2 ltac:(lia)) as H. change (2 ^ 2) with 4 in H.
  destruct (Z.testbit x 2); cbn [Z.b2z] in H; rewrite <- H; reflexivity.
Qed.

Lemma extract_mini_set_prev_free h prev : extract_mini h = true ->
  extract_mini (Z.lor (Z.land h 7) prev) = true.
Proof.
  rewrite !extract_mini_testbit, Z.lor_spec, Z.land_spec. intros ->. reflexivity.
Qed.

(** C10: when the mini bit (bit 2) of a block's header is set, [get_size]
    returns the minimum block size whatever the size bits hold; this
    remains so after [set_prev_free] has overwritten the upper header bits
    of a mini block with the predecessor pointer. *)
Theorem C10_get_size_mini_bit :
  forall (m : mem) (block : Z),
    Z.testbit (load m block) 2 = true ->
    get_size m block = min_block_size /\
    forall prev, get_size (set_prev_free m block prev) block = min_block_size.
Proof.
  intros m block H. rewrite <- extract_mini_testbit in H. split.
  - unfold get_size. rewrite H. reflexivity.
  - intros prev. unfold set_prev_free, get_size, get_mini. rewrite H.
    rewrite load_store_same. unfold wrap.
    rewrite extract_mini_testbit, Z.mod_pow2_bits_low, <- extract_mini_testbit by lia.
    rewrite extract_mini_set_prev_free by assumption. reflexivity.
Qed.

(** * Headers and footers in memory *)

Ltac unwrap := rewrite ?wrap_small in * by lia.

Ltac zeqb :=
  repeat match goal with
  | H : context [?a =? ?b] |- _ => destruct (Z.eqb_spec a b)
  | |- context [?a =? ?b] => destruct (Z.eqb_spec a b)
  end.

Ltac flags :=
  rewrite ?extract_alloc_eq, ?extract_prev_alloc_eq, ?extract_mini_eq in *;
  zeqb; cbn [negb b2z] in *; try reflexivity; try discriminate; try lia.

Lemma const_2_64 : 2 ^ 64 = 18446744073709551616.
Proof. reflexivity. Qed.

Lemma blk_get_alloc m b : blk_ok m b -> get_alloc m (b_addr b) = b_alloc b.
Proof. intros H. apply H. Qed.

Lemma blk_get_prev_alloc m b : blk_ok m b -> get_prev_alloc m (b_addr b) = b_pa b.
Proof. intros H. apply H. Qed.

Lemma blk_get_mini m b : blk_ok m b -> get_mini m (b_addr b) = (b_size b =? 16).
Proof. intros H. apply H. Qed.

Lemma blk_get_size m b : blk_ok m b -> get_size m (b_addr b) = b_size b.
Proof.
  intros (_ & _ & Hm & Hs & _). unfold get_size. rewrite Hm.
  destruct (Z.eqb_spec (b_size b) 16); [symmetry; assumption | auto].
Qed.

Lemma blk_ok_frame m m' lo hi b :
  blk_ok m b -> same_out m m' lo hi ->
  (b_addr b + 8 <= lo /\ b_addr b + b_size b <= lo) \/ hi <= b_addr b ->
  16 <= b_size b \/ b_alloc b = true ->
  blk_ok m' b.
Proof.
  intros H S D Z. unfold blk_ok in *.
  rewrite (load_same_out m m' lo hi (b_addr b)) by (auto; lia).
  destruct H as (H1 & H2 & H3 & H4 & H5). repeat split; auto;
    rewrite (load_same_out m m' lo hi) by (first [assumption | destruct Z; [lia|congruence]]);
    apply H5; auto.
Qed.

(** * Link fields *)

Lemma links_same_frame m m' lo hi y :
  same_out m m' lo hi -> 0 <= y -> y + 24 < 2 ^ 64 ->
  hi <= y \/ y + (if get_mini m y then 16 else 24) <= lo ->
  links_same m m' y.
Proof.
  intros S Hy Hy' D.
  assert (Hh : load m' y = load m y)
    by (apply (load_same_out m m' lo hi); auto; destruct (get_mini m y); lia).
  assert (Hs : load m' (y + 8) = load m (y + 8))
    by (apply (load_same_out m m' lo hi); auto; destruct (get_mini m y); lia).
  unfold links_same, get_mini, get_next_free, get_prev_free, tag, get_mini,
    off_successor, off_predecessor in *.
  rewrite !wrap_small by lia. rewrite Hh, Hs. repeat split; auto.
  destruct (extract_mini (load m y)); auto.
  apply (load_same_out m m' lo hi); auto; lia.
Qed.

Lemma links_same_refl m y : links_same m m y.
Proof. repeat split. Qed.

Lemma links_same_trans m1 m2 m3 y :
  links_same m1 m2 y -> links_same m2 m3 y -> links_same m1 m3 y.
Proof.
  unfold links_same. intros (A1 & A2 & A3 & A4) (B1 & B2 & B3 & B4).
  repeat split; congruence.
Qed.

Lemma set_next_free_out m x v :
  0 <= x -> x + 16 < 2 ^ 64 -> same_out m (set_next_free m x v) (x + 8) (x + 16).
Proof.
  intros. unfold set_next_free, off_successor. rewrite wrap_small by lia.
  destruct (get_mini _ x).
  - eapply same_out_trans; apply same_out_store; lia.
  - apply same_out_store; lia.
Qed.

Lemma set_next_free_self m x v :
  0 <= x -> x + 16 < 2 ^ 64 -> 0 <= v < 2 ^ 64 -> v mod 8 = 0 ->
  get_next_free (set_next_free m x v) x = v /\
  (get_mini m x = true -> tag (set_next_free m x v) x = true).
Proof.
  intros Hx Hx' Hv Hm.
  unfold set_next_free, get_next_free, tag, get_mini, off_successor, mini_mask.
  rewrite !wrap_small by lia.
  rewrite (load_store_other m (x + 8) v x) by lia.
  rewrite (load_store_same m (x + 8) v). rewrite (wrap_small v) by lia.
  destruct (extract_mini (load m x)) eqn:E.
  - rewrite load_store_same. rewrite lor_4.
    rewrite wrap_small by lia. rewrite land_not7 by lia. split; [lia|].
    intros _. flags.
  - rewrite load_store_same, wrap_small by lia. rewrite land_not7 by lia.
    split; [lia | discriminate].
Qed.

Lemma set_prev_free_out m x v :
  0 <= x -> x + 24 < 2 ^ 64 ->
  same_out m (set_prev_free m x v)
    (if get_mini m x then x else x + 16) (if get_mini m x then x + 8 else x + 24).
Proof.
  intros. unfold set_prev_free, off_predecessor. rewrite wrap_small by lia.
  destruct (get_mini m x); apply same_out_store; lia.
Qed.

Lemma set_prev_free_self m x v :
  0 <= x -> x + 24 < 2 ^ 64 -> 0 <= v < 2 ^ 64 -> v mod 8 = 0 ->
  get_prev_free (set_prev_free m x v) x = v /\
  get_mini (set_prev_free m x v) x = get_mini m x /\
  load (set_prev_free m x v) x mod 8 = load m x mod 8 /\
  (get_mini m x = false -> load (set_prev_free m x v) x = load m x).
Proof.
  intros Hx Hx' Hv Hm. pose proof (load_range m x) as Hr.
  unfold set_prev_free, get_prev_free, get_mini, off_predecessor.
  rewrite !wrap_small by lia.
  destruct (extract_mini (load m x)) eqn:E.
  - rewrite load_store_same. rewrite land_7, lor_low8 by lia.
    rewrite wrap_small by lia.
    assert (extract_mini (load m x mod 8 + v) = true) as -> by flags.
    rewrite land_not7 by lia. repeat split; try lia; try discriminate.
  - rewrite load_store_other by lia. rewrite E.
    rewrite load_store_same, wrap_small by lia. auto.
Qed.

(** * Doubly-linked lists over abstract link functions *)

Lemma last_cons_default (a d : Z) l : last (a :: l) d = last l a.
Proof.
  revert a d. induction l as [|b l IH]; intros a d; [reflexivity|].
  change (last (a :: b :: l) d) with (last (b :: l) d).
  rewrite (IH b d), (IH b a). reflexivity.
Qed.

Lemma fwd_hd nx c l : fwd nx c l -> c = hd 0 l.
Proof. destruct l; cbn; intuition. Qed.

Lemma fwd_nonzero nx c l : fwd nx c l -> forall x, In x l -> x <> 0.
Proof.
  revert c. induction l as [|a l IH]; intros c H x Hx; [destruct Hx|].
  destruct H as (_ & Ha & H). destruct Hx as [->|Hx]; [assumption|].
  eapply IH; eauto.
Qed.

Lemma fwd_ext nx nx' c l :
  (forall x, In x l -> nx' x = nx x) -> fwd nx c l -> fwd nx' c l.
Proof.
  revert c. induction l as [|a l IH]; intros c E H; [exact H|].
  destruct H as (H1 & H2 & H3). cbn. repeat split; auto.
  rewrite E by (left; reflexivity). apply IH; auto. intros; apply E; right; auto.
Qed.

Lemma bwd_ext pv pv' p l :
  (forall x, In x l -> pv' x = pv x) -> bwd pv p l -> bwd pv' p l.
Proof.
  revert p. induction l as [|a l IH]; intros p E H; [exact H|].
  destruct H as (H1 & H2). cbn. split.
  - rewrite E by (left; reflexivity). assumption.
  - apply IH; auto. intros; apply E; right; auto.
Qed.

Lemma fwd_mid nx c l1 x l2 : fwd nx c (l1 ++ x :: l2) -> nx x = hd 0 l2.
Proof.
  revert c. induction l1 as [|a l1 IH]; intros c H.
  - destruct H as (_ & _ & H). apply fwd_hd in H. assumption.
  - destruct H as (_ & _ & H). eapply IH; eauto.
Qed.

Lemma bwd_mid pv p l1 x l2 : bwd pv p (l1 ++ x :: l2) -> pv x = last l1 p.
Proof.
  revert p. induction l1 as [|a l1 IH]; intros p H.
  - destruct H as (H & _). assumption.
  - destruct H as (_ & H). rewrite last_cons_default. eapply IH; eauto.
Qed.

Lemma fwd_remove nx nx' c l1 x l2 :
  fwd nx c (l1 ++ x :: l2) -> NoDup (l1 ++ x :: l2) ->
  (forall y, In y (l1 ++ l2) -> y <> last l1 0 -> nx' y = nx y) ->
  (l1 <> [] -> nx' (last l1 0) = hd 0 l2) ->
  fwd nx' (hd 0 (l1 ++ l2)) (l1 ++ l2).
Proof.
  revert c. induction l1 as [|a l1 IH]; intros c H ND E1 E2.
  - cbn [app] in *. destruct H as (_ & _ & H).
    pose proof (fwd_nonzero _ _ _ H) as NZ.
    apply fwd_hd in H as Hc. rewrite <- Hc.
    eapply fwd_ext; [|exact H]. intros y Hy. apply E1; auto; cbn; apply NZ; auto.
  - cbn [app hd] in *. destruct H as (Hc & Ha & H).
    inversion ND as [|? ? Hni ND']; subst.
    split; [reflexivity|]. split; [assumption|].
    destruct l1 as [|b l1].
    + cbn [app] in *. specialize (E2 ltac:(discriminate)). cbn [last] in E2, E1.
      rewrite E2. destruct H as (_ & _ & H).
      pose proof (fwd_nonzero _ _ _ H) as NZ.
      apply fwd_hd in H as Hc. rewrite <- Hc.
      eapply fwd_ext; [|exact H]. intros y Hy. apply E1; [right; auto|].
      intros ->. apply Hni. right. assumption.
    + assert (Hla : last (a :: b :: l1) 0 = last (b :: l1) 0) by reflexivity.
      rewrite Hla in *.
      assert (Hne : a <> last (b :: l1) 0).
      { intros Heq. apply Hni. apply in_or_app. left. rewrite Heq.
        destruct (exists_last (l := b :: l1) ltac:(discriminate)) as (l' & z & Hz).
        rewrite Hz. rewrite last_last. apply in_or_app. right. left. reflexivity. }
      rewrite E1 by (auto; left; reflexivity).
      specialize (IH (nx a) H ND').
      assert (Hh : hd 0 ((b :: l1) ++ l2) = nx a) by (cbn; symmetry; apply H).
      rewrite Hh in IH. apply IH.
      * intros y Hy Hn. apply E1; auto. right. assumption.
      * intros _. apply E2. discriminate.
Qed.

Lemma bwd_remove pv pv' p l1 x l2 :
  bwd pv p (l1 ++ x :: l2) -> NoDup (l1 ++ x :: l2) ->
  (forall y, In y (l1 ++ l2) -> y <> 0) ->
  (forall y, In y (l1 ++ l2) -> y <> hd 0 l2 -> pv' y = pv y) ->
  (l2 <> [] -> pv' (hd 0 l2) = last l1 p) ->
  bwd pv' p (l1 ++ l2).
Proof.
  revert p. induction l1 as [|a l1 IH]; intros p H ND NZ E1 E2.
  - cbn [app] in *. destruct H as (Hx & H).
    destruct l2 as [|n l2]; [exact I|].
    destruct H as (Hn & H). cbn. split.
    + apply E2. discriminate.
    + eapply bwd_ext; [|exact H]. intros y Hy. apply E1; [right; auto|].
      cbn. intros ->. inversion ND as [|? ? _ ND']; subst.
      inversion ND' as [|? ? Hni _]; subst. contradiction.
  - cbn [app] in *. destruct H as (Ha & H).
    inversion ND as [|? ? Hni ND']; subst. cbn. split.
    + rewrite E1; auto; [left; reflexivity|].
      destruct l2 as [|n l2]; cbn.
      * apply NZ. left. reflexivity.
      * intros ->. apply Hni. apply in_or_app. right. right. left. reflexivity.
    + apply IH; auto.
      * intros y Hy. apply NZ. right. assumption.
      * intros y Hy Hn. apply E1; auto. right; assumption.
      * intros Hl. rewrite last_cons_default in E2. auto.
Qed.

(** * Consequences of the representation invariant *)

Lemma hinv_hmem st B L : hinv st B L -> hmem st B.
Proof. intros H. constructor; apply H. Qed.

Section Hmem.
Variables (st : state) (B : blk -> Prop).
Hypothesis HM : hmem st B.

Lemma hmem_addr b :
  B b ->
  8 < b_addr b /\ b_addr b + b_size b + 8 <= mem_brk st /\ mem_brk st < 2 ^ 64 /\
  0 <= b_size b /\ b_addr b mod 16 = 8 /\ heap_start st <= b_addr b /\
  (b_addr b < mem_brk st - 8 -> 16 <= b_size b /\ b_size b mod 16 = 0) /\
  (b_alloc b = false -> 16 <= b_size b /\ b_size b mod 16 = 0).
Proof.
  intros Hb. destruct HM as [[Hlo Hal] Hs [Hbrk Hmax] Hlay _].
  pose proof (lay_range _ _ _ Hlay b Hb) as [Hr1 Hr2].
  pose proof (lay_align _ _ _ Hlay b Hb) as Ha.
  pose proof (lay_size _ _ _ Hlay b Hb) as Hsz.
  pose proof (lay_epi _ _ _ Hlay b Hb) as Hep.
  assert (b_addr b < mem_brk st - 8 \/ b_addr b = mem_brk st - 8) as [Hc|Hc] by lia.
  - specialize (Hsz Hc). repeat split; try lia.
  - specialize (Hep Hc). destruct Hep as [Hz Ht].
    repeat split; try lia; intros Hf; congruence.
Qed.

Lemma hmem_sep b1 b2 :
  B b1 -> B b2 -> b_addr b1 <> b_addr b2 ->
  (b_addr b1 + b_size b1 <= b_addr b2 /\ 16 <= b_size b1) \/
  (b_addr b2 + b_size b2 <= b_addr b1 /\ 16 <= b_size b2).
Proof.
  intros H1 H2 Hne. pose proof (hm_lay _ _ HM) as Hlay.
  pose proof (lay_range _ _ _ Hlay b1 H1). pose proof (lay_range _ _ _ Hlay b2 H2).
  assert (b_addr b1 < b_addr b2 \/ b_addr b2 < b_addr b1) as [Hc|Hc] by lia.
  - left. split; [eapply lay_disj; eauto|].
    apply (lay_size _ _ _ Hlay b1 H1). lia.
  - right. split; [eapply lay_disj; eauto|].
    apply (lay_size _ _ _ Hlay b2 H2). lia.
Qed.

Lemma hmem_free_size b :
  B b -> b_alloc b = false -> b_size b = 16 \/ 32 <= b_size b.
Proof. intros Hb Hf. pose proof (hmem_addr b Hb) as (_ & _ & _ & _ & _ & _ & _ & H). lia. Qed.

Lemma hmem_same b b' : B b -> B b' -> b_addr b = b_addr b' -> b = b'.
Proof. intros. eapply lay_uniq; eauto using hm_lay. Qed.

Lemma hmem_blk_frame m' lo hi y b :
  same_out (st_mem st) m' lo hi ->
  B y -> b_addr y <= lo -> hi <= b_addr y + Z.max (b_size y) 8 ->
  B b -> b_addr b <> b_addr y ->
  blk_ok m' b.
Proof.
  intros S Hy Hlo Hhi Hb Hne.
  pose proof (hmem_addr b Hb) as (? & ? & ? & ? & ? & ? & Hsz & ?).
  pose proof (hmem_addr y Hy) as (? & ? & ? & ? & ? & ? & ? & ?).
  pose proof (lay_epi _ _ _ (hm_lay _ _ HM) b Hb) as Hep.
  eapply blk_ok_frame; eauto using hm_mem.
  - destruct (hmem_sep b y Hb Hy Hne) as [[? ?]|[? ?]]; lia.
  - assert (b_addr b < mem_brk st - 8 \/ b_addr b = mem_brk st - 8) as [Hc|Hc] by lia.
    + left. apply Hsz. assumption.
    + right. apply Hep. assumption.
Qed.

(** A change of the memory inside one block leaves the links of every
    other free block as they were. *)
Lemma hmem_links_frame m' lo hi y b :
  same_out (st_mem st) m' lo hi ->
  B y -> b_addr y <= lo -> hi <= b_addr y + Z.max (b_size y) 8 ->
  B b -> b_alloc b = false -> b_addr b <> b_addr y ->
  links_same (st_mem st) m' (b_addr b).
Proof.
  intros S Hy Hlo Hhi Hb Hf Hne.
  pose proof (hmem_addr b Hb) as (? & ? & ? & ? & ? & ? & ? & ?).
  pose proof (hmem_addr y Hy) as (? & ? & ? & ? & ? & ? & ? & ?).
  pose proof (hmem_free_size b Hb Hf).
  eapply links_same_frame; eauto; try lia.
  rewrite (blk_get_mini _ _ (hm_mem _ _ HM b Hb)).
  destruct (hmem_sep b y Hb Hy Hne) as [[? ?]|[? ?]];
    destruct (Z.eqb_spec (b_size b) 16); lia.
Qed.
End Hmem.

Section Hinv.
Variables (st : state) (B : blk -> Prop) (L : Z -> list Z).
Hypothesis HI : hinv st B L.

Lemma hinv_listed i x :
  0 <= i < 15 -> In x (L i) ->
  exists b, B b /\ b_addr b = x /\ b_alloc b = false /\ get_seglist_ind (b_size b) = i /\
            blk_ok (st_mem st) b /\ get_mini (st_mem st) x = (b_size b =? 16).
Proof.
  intros Hi Hx. destruct (hi_in _ _ _ HI i x Hi Hx) as (b & Hb & Ha & Hf & Hd).
  exists b. pose proof (hi_mem _ _ _ HI b Hb) as Hok. subst x.
  do 5 (split; [first [assumption | reflexivity]|]). apply blk_get_mini. assumption.
Qed.

Lemma hinv_bucket_of i b :
  0 <= i < 15 -> B b -> In (b_addr b) (L i) -> i = get_seglist_ind (b_size b).
Proof.
  intros Hi Hb Hx. destruct (hi_in _ _ _ HI i _ Hi Hx) as (b' & Hb' & Ha & _ & Hd).
  assert (b' = b) by (eapply (hmem_same st B (hinv_hmem st B L HI)); eauto). subst. auto.
Qed.

(** A change of the memory inside one block leaves the links of every
    other listed block as they were. *)
Lemma hinv_links_frame m' lo hi y i x :
  same_out (st_mem st) m' lo hi ->
  B y -> b_addr y <= lo -> hi <= b_addr y + Z.max (b_size y) 8 ->
  0 <= i < 15 -> In x (L i) -> x <> b_addr y ->
  links_same (st_mem st) m' x.
Proof.
  intros S Hy Hlo Hhi Hi Hx Hne.
  destruct (hinv_listed i x Hi Hx) as (b & Hb & Ha & Hf & _ & Hok & Hm).
  pose proof (hmem_addr st B (hinv_hmem st B L HI) b Hb) as (? & ? & ? & ? & ? & ? & ? & ?).
  pose proof (hmem_addr st B (hinv_hmem st B L HI) y Hy) as (? & ? & ? & ? & ? & ? & ? & ?).
  pose proof (hmem_free_size st B (hinv_hmem st B L HI) b Hb Hf).
  subst x. eapply links_same_frame; eauto; try lia.
  rewrite Hm.
  destruct (hmem_sep st B (hinv_hmem st B L HI) b y Hb Hy Hne) as [[? ?]|[? ?]];
    destruct (Z.eqb_spec (b_size b) 16); lia.
Qed.

End Hinv.

Lemma dlist_same m m' r l :
  dlist m r l -> (forall x, In x l -> links_same m m' x) -> dlist m' r l.
Proof.
  intros (Hf & Hb & Ht & Hn) S. repeat split; auto.
  - eapply fwd_ext; [|exact Hf]. intros x Hx. apply (S x Hx).
  - eapply bwd_ext; [|exact Hb]. intros x Hx. apply (S x Hx).
  - intros x Hx Hm. destruct (S x Hx) as (S1 & _ & _ & S4). rewrite S4. apply Ht; auto.
    rewrite <- S1. assumption.
Qed.

(** Assembling the invariant after a change of the memory that leaves the
    buckets as they were. *)
Lemma hinv_mem st B L m' B' :
  hinv st B L ->
  layout (heap_start st) (mem_brk st - 8) B' ->
  (forall b, B' b -> blk_ok m' b) ->
  (forall i x, 0 <= i < 15 -> In x (L i) -> links_same (st_mem st) m' x) ->
  (forall b, B b -> b_alloc b = false -> (exists i, 0 <= i < 15 /\ In (b_addr b) (L i)) ->
             exists b', B' b' /\ b_addr b' = b_addr b /\ b_alloc b' = false /\
                        b_size b' = b_size b) ->
  hinv (set_mem st m') B' L.
Proof.
  intros HI Hlay Hmem Hlk Hin.
  constructor; cbn; try apply HI; auto.
  - intros i Hi. eapply dlist_same; [apply (hi_dl _ _ _ HI i Hi)|]. intros. eapply Hlk; eauto.
  - intros i x Hi Hx. destruct (hi_in _ _ _ HI i x Hi Hx) as (b & Hb & Ha & Hf & Hd).
    destruct (Hin b Hb Hf) as (b' & Hb' & Ha' & Hf' & Hs').
    { exists i. subst x. split; auto. }
    exists b'. repeat split; auto; congruence.
Qed.

(** * Payloads of allocated blocks *)

(** A write inside [[lo, hi)], where a block of [B] starts at [lo], leaves
    a guarded range that starts below [lo] or whose bytes start at [hi] or
    above. *)
Lemma region_keeps st B m' lo hi a s :
  hmem st B -> same_out (st_mem st) m' lo hi ->
  (exists y, B y /\ b_addr y = lo) ->
  guarded B a s -> a < lo \/ hi <= a + 8 ->
  keeps (st_mem st) m' a s.
Proof.
  intros HM S (y & By & Ey) G Ha z Hz. apply S.
  destruct Ha as [Ha|Ha]; [left|right; lia].
  destruct G as [(c & Bc & Ec & Es & _)|[(Hs & Hb)|Hab]].
  - pose proof (lay_disj _ _ _ (hm_lay _ _ HM) c y Bc By ltac:(lia)). lia.
  - specialize (Hb y By). lia.
  - specialize (Hab y By). lia.
Qed.

Lemma keeps_refl m a s : keeps m m a s.
Proof. intros z _. reflexivity. Qed.

Lemma keeps_trans m1 m2 m3 a s : keeps m1 m2 a s -> keeps m2 m3 a s -> keeps m1 m3 a s.
Proof. intros H1 H2 z Hz. rewrite H2, H1 by assumption. reflexivity. Qed.

(** A free block is not the epilogue: a block of [B] follows it. *)
Lemma free_next st B y :
  hmem st B -> B y -> b_alloc y = false ->
  16 <= b_size y /\ exists n, B n /\ b_addr n = b_addr y + b_size y.
Proof.
  intros HM By Fy.
  pose proof (hmem_addr _ _ HM y By) as (? & ? & ? & ? & ? & ? & _ & Hs). specialize (Hs Fy).
  split; [lia|]. apply (lay_next _ _ _ (hm_lay _ _ HM) y By).
  pose proof (lay_range _ _ _ (hm_lay _ _ HM) y By) as (? & ?).
  destruct (Z.eq_dec (b_addr y) (mem_brk st - 8)) as [E|E]; [|lia].
  destruct (lay_epi _ _ _ (hm_lay _ _ HM) y By E). congruence.
Qed.

(** A guarded range and a free block. *)
Lemma guarded_sep st B a s y :
  hmem st B -> guarded B a s -> B y -> b_alloc y = false -> b_addr y <> a ->
  (a + s <= b_addr y /\ 16 <= s) \/ (b_addr y + b_size y <= a /\ 16 <= b_size y).
Proof.
  intros HM G By Fy Hne. destruct (free_next st B y HM By Fy) as (Hs & n & Bn & En).
  destruct G as [(c & Bc & Ec & Es & _)|[(Hs' & Hb)|Hab]].
  - subst a s. destruct (hmem_sep _ _ HM c y Bc By ltac:(lia)) as [?|?]; [left|right]; lia.
  - left. specialize (Hb y By). lia.
  - right. specialize (Hab n Bn). lia.
Qed.

Lemma guarded_not_free st B a s y :
  hmem st B -> guarded B a s -> B y -> b_alloc y = false -> b_addr y <> a.
Proof.
  intros HM G By Fy E. destruct (free_next st B y HM By Fy) as (Hs & n & Bn & En).
  destruct G as [(c & Bc & Ec & Es & Ac)|[(Hs' & Hb)|Hab]].
  - assert (c = y) by (apply (hmem_same _ _ HM); auto; lia). congruence.
  - specialize (Hb y By). lia.
  - specialize (Hab n Bn). lia.
Qed.

(** A guarded range stays guarded when the blocks change between the same
    bounds and the allocated block at its place, if there is one, stays. *)
Lemma guarded_transfer st st' B B' a s :
  hmem st B -> hmem st' B' ->
  heap_start st' = heap_start st -> mem_brk st' = mem_brk st ->
  guarded B a s ->
  (forall c, B c -> b_addr c = a -> b_size c = s -> b_alloc c = true ->
     exists c', B' c' /\ b_addr c' = a /\ b_size c' = s /\ b_alloc c' = true) ->
  guarded B' a s.
Proof.
  intros HM HM' Es Eb G Hc.
  destruct (lay_first _ _ _ (hm_lay _ _ HM)) as (f & Bf & Ef).
  destruct (lay_last _ _ _ (hm_lay _ _ HM)) as (l & Bl & El).
  destruct G as [(c & Bc & Ec & Esz & Ac)|[(Hs' & Hb)|Hab]].
  - left. apply (Hc c); assumption.
  - right. left. split; [exact Hs'|]. intros c' Bc'.
    pose proof (lay_range _ _ _ (hm_lay _ _ HM') c' Bc') as (? & ?).
    specialize (Hb f Bf). lia.
  - right. right. intros c' Bc'.
    pose proof (lay_range _ _ _ (hm_lay _ _ HM') c' Bc') as (? & ?).
    specialize (Hab l Bl). lia.
Qed.

(** A guarded range and a block before the epilogue that is not at its
    place. *)
Lemma guarded_sep_real st B a s y :
  hmem st B -> guarded B a s -> B y -> b_addr y < mem_brk st - 8 -> b_addr y <> a ->
  (a + s <= b_addr y /\ 16 <= s) \/ b_addr y + b_size y <= a.
Proof.
  intros HM G By Hr Hne.
  destruct (lay_next _ _ _ (hm_lay _ _ HM) y By Hr) as (n & Bn & En).
  destruct G as [(c & Bc & Ec & Es & _)|[(Hs' & Hb)|Hab]].
  - subst a s. destruct (hmem_sep _ _ HM c y Bc By ltac:(lia)) as [?|?]; [left|right]; lia.
  - left. specialize (Hb y By). lia.
  - right. specialize (Hab n Bn). lia.
Qed.

(** * Rewriting a region of the implicit list *)

Section Region.
Variables (hs e : Z) (B : blk -> Prop) (lo hi : Z) (N : blk -> Prop) (ylo yhi : blk).
Hypothesis Hlay : layout hs e B.
Hypothesis Hlt : lo < hi.
Hypothesis Hylo : B ylo /\ b_addr ylo = lo.
Hypothesis Hyhi : B yhi /\ b_addr yhi = hi.
Hypothesis N1 : forall b, N b ->
  lo <= b_addr b /\ b_addr b + b_size b <= hi /\ 16 <= b_size b /\
  b_size b mod 16 = 0 /\ b_addr b mod 16 = 8.
Hypothesis N2 : forall b1 b2, N b1 -> N b2 -> b_addr b1 < b_addr b2 ->
  b_addr b1 + b_size b1 <= b_addr b2.
Hypothesis N3 : forall b1 b2, N b1 -> N b2 -> b_addr b1 = b_addr b2 -> b1 = b2.
Hypothesis N4 : forall b, N b ->
  b_addr b + b_size b = hi \/ exists n, N n /\ b_addr n = b_addr b + b_size b.
Hypothesis N5 : forall n, N n ->
  b_addr n = lo \/ exists p, N p /\ b_addr p + b_size p = b_addr n.
Hypothesis N6 : exists b, N b /\ b_addr b = lo.
Hypothesis N7 : exists b, N b /\ b_addr b + b_size b = hi.

Lemma layout_region : layout hs e (bregion B lo hi N).
Proof.
  destruct Hylo as [Bylo Eylo], Hyhi as [Byhi Eyhi].
  pose proof (lay_range _ _ _ Hlay ylo Bylo) as Rlo.
  pose proof (lay_range _ _ _ Hlay yhi Byhi) as Rhi.
  constructor.
  - intros b [[Hb _]|Hb]; [eapply lay_range; eauto|].
    specialize (N1 b Hb). lia.
  - intros b [[Hb _]|Hb] Hc; [eapply lay_size; eauto|].
    specialize (N1 b Hb). lia.
  - intros b [[Hb _]|Hb] Hc; [eapply lay_epi; eauto|].
    specialize (N1 b Hb). lia.
  - intros b [[Hb _]|Hb]; [eapply lay_align; eauto|].
    specialize (N1 b Hb). lia.
  - intros b1 b2 [[H1 O1]|H1] [[H2 O2]|H2] Hc.
    + eapply lay_disj; eauto.
    + pose proof (N1 b2 H2).
      assert (b_addr b1 < lo) by lia.
      pose proof (lay_disj _ _ _ Hlay b1 ylo H1 Bylo ltac:(lia)). lia.
    + pose proof (N1 b1 H1). lia.
    + eapply N2; eauto.
  - intros b1 b2 [[H1 O1]|H1] [[H2 O2]|H2] Hc.
    + eapply lay_uniq; eauto.
    + pose proof (N1 b2 H2). lia.
    + pose proof (N1 b1 H1). lia.
    + eapply N3; eauto.
  - intros b [[Hb Ob]|Hb] Hc.
    + destruct (lay_next _ _ _ Hlay b Hb Hc) as (n & Hn & En).
      pose proof (lay_size _ _ _ Hlay b Hb Hc).
      destruct Ob as [Ob|Ob].
      * pose proof (lay_disj _ _ _ Hlay b ylo Hb Bylo ltac:(lia)).
        assert (b_addr n < lo \/ b_addr n = lo) as [Hd|Hd] by lia.
        -- exists n. split; [left; split; auto|auto].
        -- destruct N6 as (f & Hf & Ef). exists f. split; [right; auto|lia].
      * exists n. split; [left; split; auto; lia|auto].
    + destruct (N4 b Hb) as [Hd|(n & Hn & En)].
      * exists yhi. split; [left; split; auto; lia|lia].
      * exists n. split; [right; auto|auto].
  - intros n [[Hn On]|Hn] Hc.
    + destruct (lay_prev _ _ _ Hlay n Hn Hc) as (p & Hp & Ep & Lp).
      destruct On as [On|On].
      * exists p. split; [left; split; auto; lia|auto].
      * assert (b_addr n = hi \/ hi < b_addr n) as [Hd|Hd] by lia.
        -- destruct N7 as (f & Hf & Ef). pose proof (N1 f Hf).
           exists f. split; [right; auto|lia].
        -- assert (hi <= b_addr p).
           { assert (b_addr p < hi \/ hi <= b_addr p) as [Hq|Hq] by lia; [|lia].
             pose proof (lay_disj _ _ _ Hlay p yhi Hp Byhi ltac:(lia)). lia. }
           exists p. split; [left; split; auto|auto].
    + pose proof (N1 n Hn). destruct (N5 n Hn) as [Hd|(p & Hp & Ep)].
      * destruct (lay_prev _ _ _ Hlay ylo Bylo ltac:(lia)) as (p & Hp & Ep & Lp).
        exists p. split; [left; split; auto; lia|lia].
      * pose proof (N1 p Hp). exists p. split; [right; auto|lia].
  - destruct (lay_first _ _ _ Hlay) as (f & Hf & Ef).
    assert (hs < lo \/ hs = lo) as [Hd|Hd] by lia.
    + exists f. split; [left; split; auto; lia|auto].
    + destruct N6 as (g & Hg & Eg). exists g. split; [right; auto|lia].
  - destruct (lay_last _ _ _ Hlay) as (f & Hf & Ef).
    exists f. split; [left; split; auto; lia|auto].
Qed.
End Region.

Lemma hinv_region st B L lo hi N ylo yhi m' :
  hinv st B L -> lo < hi ->
  B ylo /\ b_addr ylo = lo -> B yhi /\ b_addr yhi = hi ->
  (forall i x, 0 <= i < 15 -> In x (L i) -> x < lo \/ hi <= x) ->
  same_out (st_mem st) m' lo hi ->
  (forall b, N b ->
    lo <= b_addr b /\ b_addr b + b_size b <= hi /\ 16 <= b_size b /\
    b_size b mod 16 = 0 /\ b_addr b mod 16 = 8) ->
  (forall b, N b -> blk_ok m' b) ->
  (forall b1 b2, N b1 -> N b2 -> b_addr b1 < b_addr b2 ->
    b_addr b1 + b_size b1 <= b_addr b2) ->
  (forall b1 b2, N b1 -> N b2 -> b_addr b1 = b_addr b2 -> b1 = b2) ->
  (forall b, N b ->
    b_addr b + b_size b = hi \/ exists n, N n /\ b_addr n = b_addr b + b_size b) ->
  (forall n, N n ->
    b_addr n = lo \/ exists p, N p /\ b_addr p + b_size p = b_addr n) ->
  (exists b, N b /\ b_addr b = lo) ->
  (exists b, N b /\ b_addr b + b_size b = hi) ->
  hinv (set_mem st m') (bregion B lo hi N) L.
Proof.
  intros HI Hlt Hylo Hyhi Hout S N1 Nok N2 N3 N4 N5 N6 N7.
  destruct Hylo as [Bylo Eylo], Hyhi as [Byhi Eyhi].
  pose proof (hi_lay _ _ _ HI) as Hlay.
  pose proof (hmem_addr _ _ (hinv_hmem _ _ _ HI) ylo Bylo) as (? & ? & ? & ? & ? & ? & ? & ?).
  pose proof (hmem_addr _ _ (hinv_hmem _ _ _ HI) yhi Byhi) as (? & ? & ? & ? & ? & ? & ? & ?).
  apply (hinv_mem st B L); auto.
  - eapply layout_region; eauto.
  - intros b [[Hb Ob]|Hb]; [|auto].
    pose proof (hmem_addr _ _ (hinv_hmem _ _ _ HI) b Hb) as (? & ? & ? & ? & ? & ? & Hsz & ?).
    eapply blk_ok_frame; eauto using hi_mem.
    + destruct Ob; [left|right; lia].
      pose proof (lay_disj _ _ _ Hlay b ylo Hb Bylo ltac:(lia)).
      specialize (Hsz ltac:(lia)). lia.
    + pose proof (lay_epi _ _ _ Hlay b Hb) as Hep.
      assert (b_addr b < mem_brk st - 8 \/ b_addr b = mem_brk st - 8) as [Hc|Hc] by lia;
        [left; apply Hsz; auto | right; apply Hep; auto].
  - intros i x Hi Hx.
    destruct (hinv_listed _ _ _ HI i x Hi Hx) as (b & Hb & Ha & Hf & _ & Hok & Hm).
    pose proof (hmem_addr _ _ (hinv_hmem _ _ _ HI) b Hb) as (? & ? & ? & ? & ? & ? & ? & ?).
    pose proof (hmem_free_size _ _ (hinv_hmem _ _ _ HI) b Hb Hf).
    eapply links_same_frame; eauto; try lia.
    rewrite Hm. destruct (Hout i x Hi Hx); [right|left; lia].
    pose proof (lay_disj _ _ _ Hlay b ylo Hb Bylo ltac:(lia)).
    destruct (Z.eqb_spec (b_size b) 16); lia.
  - intros b Hb Hf (i & Hi & Hx). exists b. repeat split; auto.
    left. split; auto. apply (Hout i _ Hi Hx).
Qed.

(** * Updating the header of one block *)

Lemma layout_breplace hs e B y y' :
  layout hs e B -> B y ->
  b_addr y' = b_addr y -> b_size y' = b_size y -> (b_addr y = e -> b_alloc y' = true) ->
  layout hs e (breplace B y').
Proof.
  intros Hlay Hy Ea Es Hal.
  assert (Hin : forall b, B b -> exists b', breplace B y' b' /\ b_addr b' = b_addr b /\
                                            b_size b' = b_size b).
  { intros b Hb. destruct (Z.eq_dec (b_addr b) (b_addr y')) as [E|E].
    - exists y'. assert (b = y) by (eapply lay_uniq; eauto; congruence). subst b.
      split; [right; reflexivity|auto].
    - exists b. split; [left; auto|auto]. }
  assert (Hold : forall b, breplace B y' b ->
                 exists b0, B b0 /\ b_addr b0 = b_addr b /\ b_size b0 = b_size b /\
                            (b_addr b <> b_addr y -> b0 = b)).
  { intros b [[Hb Hn]| ->]; [exists b; auto|exists y; repeat split; auto; congruence]. }
  constructor.
  - intros b Hb. destruct (Hold b Hb) as (b0 & H0 & Ea0 & Es0 & _).
    rewrite <- Ea0, <- Es0. eapply lay_range; eauto.
  - intros b Hb Hc. destruct (Hold b Hb) as (b0 & H0 & Ea0 & Es0 & _).
    rewrite <- Es0. eapply lay_size; eauto. lia.
  - intros b [[Hb Hn]| ->] Hc; [eapply lay_epi; eauto|].
    rewrite Es. split; [|apply Hal; congruence].
    eapply lay_epi; eauto. congruence.
  - intros b Hb. destruct (Hold b Hb) as (b0 & H0 & Ea0 & Es0 & _).
    rewrite <- Ea0. eapply lay_align; eauto.
  - intros b1 b2 H1 H2 Hc.
    destruct (Hold b1 H1) as (c1 & C1 & Ea1 & Es1 & _).
    destruct (Hold b2 H2) as (c2 & C2 & Ea2 & Es2 & _).
    rewrite <- Ea1, <- Es1, <- Ea2. eapply lay_disj; eauto. lia.
  - intros b1 b2 [[H1 O1]| ->] [[H2 O2]| ->] Hc; try congruence.
    eapply lay_uniq; eauto.
  - intros b Hb Hc. destruct (Hold b Hb) as (b0 & H0 & Ea0 & Es0 & _).
    destruct (lay_next _ _ _ Hlay b0 H0 ltac:(lia)) as (n & Hn & En).
    destruct (Hin n Hn) as (n' & Hn' & Ean & _). exists n'. split; auto. lia.
  - intros n Hn Hc. destruct (Hold n Hn) as (n0 & H0 & Ea0 & Es0 & _).
    destruct (lay_prev _ _ _ Hlay n0 H0 ltac:(lia)) as (p & Hp & Ep & Lp).
    destruct (Hin p Hp) as (p' & Hp' & Eap & Esp). exists p'. split; auto. lia.
  - destruct (lay_first _ _ _ Hlay) as (f & Hf & Ef).
    destruct (Hin f Hf) as (f' & Hf' & Eaf & _). exists f'. split; auto. lia.
  - destruct (lay_last _ _ _ Hlay) as (f & Hf & Ef).
    destruct (Hin f Hf) as (f' & Hf' & Eaf & _). exists f'. split; auto. lia.
Qed.

Lemma set_prev_alloc_load m x v :
  load (set_prev_alloc m x v) x =
    load m x - 2 * ((load m x / 2) mod 2) + 2 * b2z v /\
  same_out m (set_prev_alloc m x v) x (x + 8).
Proof.
  pose proof (load_range m x) as Hr. rewrite const_2_64 in Hr.
  unfold set_prev_alloc, alloc_prev_mask. destruct v; cbn [b2z].
  - rewrite load_store_same, lor_2. rewrite wrap_small by (rewrite const_2_64; lia).
    split; [lia | apply same_out_store; lia].
  - rewrite load_store_same, land_not2 by (rewrite const_2_64; lia).
    rewrite wrap_small by (rewrite const_2_64; lia).
    split; [lia | apply same_out_store; lia].
Qed.

Lemma hinv_set_pa st B L n v :
  hinv st B L -> B n ->
  hinv (set_mem st (set_prev_alloc (st_mem st) (b_addr n) v))
       (breplace B (mkBlk (b_addr n) (b_size n) (b_alloc n) v)) L.
Proof.
  intros HI Hn. set (m := st_mem st). set (x := b_addr n).
  set (n' := mkBlk x (b_size n) (b_alloc n) v).
  destruct (set_prev_alloc_load m x v) as [Hl S]. fold m.
  pose proof (load_range m x) as Hr. rewrite const_2_64 in Hr.
  pose proof (hmem_addr _ _ (hinv_hmem _ _ _ HI) n Hn) as (? & ? & ? & ? & ? & ? & Hsz & Hfs).
  pose proof (hi_mem _ _ _ HI n Hn) as Hok.
  apply (hinv_mem st B L); auto.
  - eapply layout_breplace; eauto using hi_lay; cbn; intros Hc;
      apply (lay_epi _ _ _ (hi_lay _ _ _ HI) n Hn Hc).
  - intros b [[Hb Hne]| ->].
    + eapply (hmem_blk_frame st B (hinv_hmem st B L HI) _ x (x + 8) n); eauto; try lia.
    + destruct Hok as (K1 & K2 & K3 & K4 & K5). fold x m in K1, K2, K3, K4, K5.
      unfold blk_ok, n'; cbn [b_addr b_size b_alloc b_pa].
      rewrite Hl. split; [|split; [|split; [|split]]].
      * clear K4 K5. destruct v, (b_alloc n); flags.
      * clear K4 K5. destruct v, (b_alloc n); flags.
      * clear K4 K5. destruct v, (b_size n =? 16); flags.
      * intros Hne. specialize (K4 Hne). rewrite extract_size_eq in *
          by (rewrite const_2_64; destruct v; cbn [b2z]; lia).
        destruct v; cbn [b2z]; lia.
      * intros Hf Hne. specialize (Hfs Hf).
        rewrite (load_same_out m _ x (x + 8)) by (auto; lia). auto.
  - intros i y Hi Hy. destruct (Z.eq_dec y x) as [->|Hne].
    + destruct (hinv_listed _ _ _ HI i x Hi Hy) as (b & Hb & Ha & Hf & _ & _ & Hm).
      assert (b = n) by (eapply (hmem_same _ _ (hinv_hmem _ _ _ HI)); eauto). subst b.
      specialize (Hfs Hf).
      assert (Em : get_mini (set_prev_alloc m x v) x = get_mini m x).
      { unfold get_mini. rewrite Hl. destruct v; flags. }
      assert (E8 : load (set_prev_alloc m x v) (x + 8) = load m (x + 8))
        by (apply (load_same_out m _ x (x + 8)); auto; lia).
      assert (E16 : load (set_prev_alloc m x v) (x + 16) = load m (x + 16))
        by (apply (load_same_out m _ x (x + 8)); auto; lia).
      unfold links_same. split; [exact Em|]. split; [|split].
      * unfold get_next_free, off_successor.
        rewrite !wrap_small by (rewrite const_2_64; lia). rewrite E8. reflexivity.
      * unfold get_prev_free, off_predecessor. rewrite Em.
        rewrite !wrap_small by (rewrite const_2_64; lia). rewrite E16, Hl.
        subst m. destruct (get_mini (st_mem st) x); [|reflexivity].
        rewrite !land_not7 by (rewrite const_2_64; destruct v; cbn [b2z]; lia).
        destruct v; cbn [b2z]; lia.
      * unfold tag. rewrite E8. reflexivity.
    + eapply (hinv_links_frame st B L HI _ x (x + 8) n); eauto; lia.
  - intros b Hb Hf _. destruct (Z.eq_dec (b_addr b) x) as [E|E].
    + assert (b = n) by (eapply (hmem_same _ _ (hinv_hmem _ _ _ HI)); eauto). subst b.
      exists n'. repeat split; auto. right. reflexivity.
    + exists b. repeat split; auto. left. split; auto.
Qed.

Lemma header_to_footer_eq m x s :
  get_size m x = s -> 16 <= s -> 0 <= x -> x + s + 8 < 2 ^ 64 ->
  header_to_footer m x = x + s - 8.
Proof.
  intros Hs ? ? ?. unfold header_to_footer, off_payload, dsize, wsize. rewrite Hs.
  rewrite (wrap_small (x + 8)) by lia. rewrite (wrap_small (x + 8 + s)) by lia.
  rewrite wrap_small by lia. lia.
Qed.

Lemma hinv_write_footer st B L b :
  hinv st B L -> B b -> b_alloc b = false -> b_size b <> 16 ->
  hinv (set_mem st (write_footer (st_mem st) (b_addr b))) B L.
Proof.
  intros HI Hb Hf Hne. set (m := st_mem st). set (x := b_addr b).
  pose proof (hmem_addr _ _ (hinv_hmem _ _ _ HI) b Hb) as (? & ? & ? & ? & ? & ? & Hsz & Hfs).
  specialize (Hfs Hf).
  pose proof (hi_mem _ _ _ HI b Hb) as Hok. pose proof (blk_get_size _ _ Hok) as Hgs.
  fold m x in Hgs.
  assert (Ef : write_footer m x = store m (x + b_size b - 8) (load m x)).
  { unfold write_footer. rewrite (header_to_footer_eq m x (b_size b)); auto; lia. }
  rewrite Ef.
  assert (S : same_out m (store m (x + b_size b - 8) (load m x))
                (x + b_size b - 8) (x + b_size b)) by (apply same_out_store; lia).
  pose proof (load_range m x) as Hr.
  apply (hinv_mem st B L); auto.
  - apply (hi_lay _ _ _ HI).
  - intros c Hc. destruct (Z.eq_dec (b_addr c) x) as [E|E].
    + assert (c = b) by (eapply (hmem_same _ _ (hinv_hmem _ _ _ HI)); eauto). subst c.
      destruct Hok as (K1 & K2 & K3 & K4 & K5). fold x m in K1, K2, K3, K4, K5.
      unfold blk_ok. fold x. rewrite load_store_other by lia.
      repeat split; auto; rewrite load_store_same, wrap_small by lia; auto.
      rewrite K3. destruct (Z.eqb_spec (b_size b) 16); congruence.
    + eapply (hmem_blk_frame st B (hinv_hmem st B L HI) _ _ _ b); eauto; lia.
  - intros i y Hi Hy. destruct (Z.eq_dec y x) as [->|E].
    + eapply links_same_frame; eauto; try lia.
      right. subst m x. rewrite (blk_get_mini _ _ Hok). destruct (Z.eqb_spec (b_size b) 16); lia.
    + eapply (hinv_links_frame st B L HI _ _ _ b); eauto; lia.
  - intros c Hc Hfc _. exists c. auto.
Qed.

(** * Payloads under header and footer updates *)

Lemma set_pa_keeps st B n v a s :
  hmem st B -> B n -> guarded B a s ->
  keeps (st_mem st) (set_prev_alloc (st_mem st) (b_addr n) v) a s.
Proof.
  intros HM Bn Ha. destruct (set_prev_alloc_load (st_mem st) (b_addr n) v) as (_ & S).
  apply (region_keeps st B _ _ _ a s HM S); [exists n; auto|exact Ha|lia].
Qed.

Lemma guarded_breplace B y y' a s :
  b_addr y' = b_addr y -> b_size y' = b_size y -> b_alloc y' = b_alloc y -> B y ->
  (forall c, B c -> b_addr c = b_addr y -> c = y) ->
  guarded B a s -> guarded (breplace B y') a s.
Proof.
  intros E1 E2 E3 By Hu [(c & Bc & Ec & Es & Ac)|[(Hs & Hb)|Hab]].
  - left. destruct (Z.eq_dec (b_addr c) (b_addr y')) as [E|E].
    + assert (c = y) by (apply Hu; auto; congruence). subst c.
      exists y'. split; [right; reflexivity|]. split; [congruence|]. split; congruence.
    + exists c. split; [left; split; auto|auto].
  - right. left. split; [exact Hs|]. intros c [[Bc _]| ->]; [apply Hb; exact Bc|].
    rewrite E1. apply Hb. exact By.
  - right. right. intros c [[Bc _]| ->]; [apply Hab; exact Bc|].
    rewrite E1. apply Hab. exact By.
Qed.

Lemma write_footer_keeps st B L b a s :
  hinv st B L -> B b -> b_alloc b = false -> b_size b <> 16 -> guarded B a s ->
  keeps (st_mem st) (write_footer (st_mem st) (b_addr b)) a s.
Proof.
  intros HI Hb Hf Hne Ha. pose proof (hinv_hmem _ _ _ HI) as HM.
  pose proof (hmem_addr _ _ HM b Hb) as (? & ? & ? & ? & ? & ? & Hsz & Hfs).
  specialize (Hfs Hf).
  pose proof (blk_get_size _ _ (hi_mem _ _ _ HI b Hb)) as Hgs.
  assert (Ef : write_footer (st_mem st) (b_addr b) =
               store (st_mem st) (b_addr b + b_size b - 8) (load (st_mem st) (b_addr b))).
  { unfold write_footer. rewrite (header_to_footer_eq _ _ (b_size b)); auto; lia. }
  rewrite Ef.
  assert (S : same_out (st_mem st)
                (store (st_mem st) (b_addr b + b_size b - 8) (load (st_mem st) (b_addr b)))
                (b_addr b) (b_addr b + b_size b)) by (apply same_out_store; lia).
  apply (region_keeps st B _ _ _ a s HM S); [exists b; auto|exact Ha|].
  pose proof (guarded_not_free st B a s b HM Ha Hb Hf) as Hna.
  destruct (guarded_sep st B a s b HM Ha Hb Hf Hna) as [(? & ?)|(? & ?)]; lia.
Qed.

(** * Writes to link fields *)

Lemma snf_links m x v :
  0 <= x -> x + 24 < 2 ^ 64 -> 0 <= v < 2 ^ 64 -> v mod 8 = 0 ->
  link_write m (set_next_free m x v) x /\
  get_mini (set_next_free m x v) x = get_mini m x /\
  get_next_free (set_next_free m x v) x = v /\
  get_prev_free (set_next_free m x v) x = get_prev_free m x /\
  (get_mini m x = true -> tag (set_next_free m x v) x = true).
Proof.
  intros Hx Hx' Hv Hm.
  pose proof (set_next_free_out m x v Hx ltac:(lia)) as S.
  destruct (set_next_free_self m x v Hx ltac:(lia) Hv Hm) as [Hn Ht].
  assert (Eh : load (set_next_free m x v) x = load m x)
    by (apply (load_same_out m _ (x + 8) (x + 16)); auto; lia).
  assert (Em : get_mini (set_next_free m x v) x = get_mini m x)
    by (unfold get_mini; rewrite Eh; reflexivity).
  split; [|split; [|split; [|split]]]; auto.
  - split; [|split]; [|rewrite Eh; reflexivity|intros _; exact Eh].
    eapply same_out_weaken; [exact S| |]; destruct (get_mini m x); lia.
  - unfold get_prev_free, off_predecessor. rewrite Em, Eh.
    rewrite wrap_small by lia.
    rewrite (load_same_out m _ (x + 8) (x + 16) (x + 16)) by (auto; lia). reflexivity.
Qed.

Lemma spf_links m x v :
  0 <= x -> x + 24 < 2 ^ 64 -> 0 <= v < 2 ^ 64 -> v mod 8 = 0 ->
  link_write m (set_prev_free m x v) x /\
  get_mini (set_prev_free m x v) x = get_mini m x /\
  get_next_free (set_prev_free m x v) x = get_next_free m x /\
  get_prev_free (set_prev_free m x v) x = v /\
  tag (set_prev_free m x v) x = tag m x.
Proof.
  intros Hx Hx' Hv Hm.
  pose proof (set_prev_free_out m x v Hx Hx') as S.
  destruct (set_prev_free_self m x v Hx Hx' Hv Hm) as (Hp & Hg & H8 & Hh).
  assert (E8 : load (set_prev_free m x v) (x + 8) = load m (x + 8))
    by (eapply load_same_out; [exact S|]; destruct (get_mini m x); lia).
  split; [|split; [|split; [|split]]]; auto.
  - split; [|split]; auto.
    eapply same_out_weaken; [exact S| |]; destruct (get_mini m x); lia.
  - unfold get_next_free, off_successor. rewrite wrap_small by lia. rewrite E8. reflexivity.
  - unfold tag. rewrite E8. reflexivity.
Qed.

Section LinkWrite.
Variables (st : state) (B : blk -> Prop) (m' : mem) (p : blk).
Hypothesis HM : hmem st B.
Hypothesis Hp : B p.
Hypothesis Hf : b_alloc p = false.
Hypothesis HW : link_write (st_mem st) m' (b_addr p).

Lemma link_write_region :
  same_out (st_mem st) m' (b_addr p) (b_addr p + (if b_size p =? 16 then 16 else 24)) /\
  b_addr p + (if b_size p =? 16 then 16 else 24) <= b_addr p + b_size p.
Proof.
  destruct HW as (S & _ & _).
  rewrite (blk_get_mini _ _ (hm_mem _ _ HM p Hp)) in S. split; [exact S|].
  pose proof (hmem_free_size _ _ HM p Hp Hf).
  destruct (Z.eqb_spec (b_size p) 16); lia.
Qed.

Lemma hmem_link_write : hmem (set_mem st m') B.
Proof.
  destruct link_write_region as [S Hle].
  destruct HW as (_ & H8 & Hh).
  pose proof (hmem_addr _ _ HM p Hp) as (? & ? & ? & ? & ? & ? & ? & Hfs).
  specialize (Hfs Hf).
  constructor; cbn; try apply HM.
  intros b Hb. destruct (Z.eq_dec (b_addr b) (b_addr p)) as [E|E].
  - assert (b = p) by (eapply hmem_same; eauto). subst b.
    pose proof (hm_mem _ _ HM p Hp) as Hok.
    rewrite (blk_get_mini _ _ Hok) in Hh.
    destruct Hok as (K1 & K2 & K3 & K4 & K5).
    unfold blk_ok. split; [|split; [|split; [|split]]].
    + clear K4 K5 Hh. destruct (b_alloc p); flags.
    + clear K4 K5 Hh. destruct (b_pa p); flags.
    + clear K4 K5 Hh. destruct (b_size p =? 16); flags.
    + intros Hne. rewrite Hh; auto. destruct (Z.eqb_spec (b_size p) 16); congruence.
    + intros _ Hne. rewrite (load_same_out _ _ _ _ _ S); auto.
      destruct (Z.eqb_spec (b_size p) 16); [congruence|lia].
  - eapply (hmem_blk_frame st B HM _ _ _ p); eauto; lia.
Qed.

Lemma hmem_links_other y :
  B y -> b_alloc y = false -> b_addr y <> b_addr p ->
  links_same (st_mem st) m' (b_addr y).
Proof.
  intros Hy Hfy Hne. destruct link_write_region as [S Hle].
  eapply (hmem_links_frame st B HM _ _ _ p); eauto; lia.
Qed.
Lemma link_write_keeps a s : guarded B a s -> keeps (st_mem st) m' a s.
Proof.
  intros Ha. destruct link_write_region as [S Hle].
  apply (region_keeps st B m' _ _ a s HM S); [exists p; auto|exact Ha|].
  pose proof (guarded_not_free st B a s p HM Ha Hp Hf) as Hne.
  destruct (guarded_sep st B a s p HM Ha Hp Hf Hne) as [(? & ?)|(? & ?)]; lia.
Qed.
End LinkWrite.

(** * Bucket lists in memory: removing and adding an element *)

Lemma remove_links m m' r l1 x l2 :
  dlist m r (l1 ++ x :: l2) ->
  (forall y, In y (l1 ++ l2) -> y <> last l1 0 -> y <> hd 0 l2 -> links_same m m' y) ->
  (l1 <> [] ->
     get_mini m' (last l1 0) = get_mini m (last l1 0) /\
     get_next_free m' (last l1 0) = hd 0 l2 /\
     get_prev_free m' (last l1 0) = get_prev_free m (last l1 0) /\
     (get_mini m (last l1 0) = true -> tag m' (last l1 0) = true)) ->
  (l2 <> [] ->
     get_mini m' (hd 0 l2) = get_mini m (hd 0 l2) /\
     get_prev_free m' (hd 0 l2) = last l1 0 /\
     get_next_free m' (hd 0 l2) = get_next_free m (hd 0 l2) /\
     tag m' (hd 0 l2) = tag m (hd 0 l2)) ->
  dlist m' (hd 0 (l1 ++ l2)) (l1 ++ l2).
Proof.
  intros (Hfw & Hbw & Htag & Hnd) R1 R2 R3.
  pose proof (fwd_nonzero _ _ _ Hfw) as NZ.
  assert (NZ' : forall y, In y (l1 ++ l2) -> y <> 0).
  { intros y Hy. apply NZ. apply in_app_or in Hy. apply in_or_app.
    destruct Hy; [left|right; right]; auto. }
  assert (Hl2 : forall y, y = hd 0 l2 -> y <> 0 -> l2 <> []).
  { intros y -> Hy ->. apply Hy. reflexivity. }
  assert (Hl1 : forall y, y = last l1 0 -> y <> 0 -> l1 <> []).
  { intros y -> Hy ->. apply Hy. reflexivity. }
  split; [|split; [|split]].
  - eapply fwd_remove; eauto.
    + intros y Hy Hne. destruct (Z.eq_dec y (hd 0 l2)) as [E|E].
      * rewrite E. apply R3. eapply Hl2; eauto.
      * apply R1; auto.
    + intros H. apply R2; auto.
  - eapply bwd_remove; eauto.
    + intros y Hy Hne. destruct (Z.eq_dec y (last l1 0)) as [E|E].
      * rewrite E. apply R2. eapply Hl1; eauto.
      * apply R1; auto.
    + intros H. apply R3; auto.
  - intros y Hy Hm.
    assert (Hy0 : In y (l1 ++ x :: l2)).
    { apply in_app_or in Hy. apply in_or_app. destruct Hy; [left|right; right]; auto. }
    destruct (Z.eq_dec y (last l1 0)) as [E|E].
    + assert (Hne : l1 <> []) by (eapply Hl1; eauto).
      destruct (R2 Hne) as (A1 & _ & _ & A4). rewrite E in *. apply A4. congruence.
    + destruct (Z.eq_dec y (hd 0 l2)) as [E2|E2].
      * assert (Hne : l2 <> []) by (eapply Hl2; eauto).
        destruct (R3 Hne) as (A1 & _ & _ & A4). rewrite E2 in *. rewrite A4.
        apply Htag; auto. congruence.
      * destruct (R1 y Hy E E2) as (A1 & _ & _ & A4). rewrite A4.
        apply Htag; auto. congruence.
  - eapply NoDup_remove_1; eauto.
Qed.

Lemma add_links m m' r l x :
  dlist m r l -> ~ In x l -> x <> 0 ->
  (forall y, In y l -> y <> hd 0 l -> links_same m m' y) ->
  (l <> [] ->
     get_mini m' (hd 0 l) = get_mini m (hd 0 l) /\
     get_next_free m' (hd 0 l) = get_next_free m (hd 0 l) /\
     get_prev_free m' (hd 0 l) = x /\
     tag m' (hd 0 l) = tag m (hd 0 l)) ->
  get_next_free m' x = hd 0 l ->
  get_prev_free m' x = 0 ->
  (get_mini m' x = true -> tag m' x = true) ->
  dlist m' x (x :: l).
Proof.
  intros (Hfw & Hbw & Htag & Hnd) Hni Hx A1 A2 A3 A4 A5.
  split; [|split; [|split]].
  - cbn. split; [reflexivity|]. split; [assumption|]. rewrite A3.
    apply fwd_hd in Hfw as Hr. rewrite <- Hr.
    eapply fwd_ext; [|exact Hfw]. intros y Hy.
    destruct (Z.eq_dec y (hd 0 l)) as [E|E].
    + rewrite E. apply A2. intros ->. destruct Hy.
    + apply A1; auto.
  - cbn. split; [assumption|]. destruct l as [|h l]; [exact I|].
    destruct Hbw as (Hh & Hbw). cbn in A2. cbn. split; [apply A2; discriminate|].
    eapply bwd_ext; [|exact Hbw]. intros y Hy. apply A1; [right; auto|].
    cbn. intros ->. inversion Hnd; subst. contradiction.
  - intros y [->|Hy] Hm; [auto|].
    destruct (Z.eq_dec y (hd 0 l)) as [E|E].
    + assert (Hne : l <> []) by (intros ->; destruct Hy).
      destruct (A2 Hne) as (B1 & _ & _ & B4). rewrite E in *. rewrite B4.
      apply Htag; auto. congruence.
    + destruct (A1 y Hy E) as (B1 & _ & _ & B4). rewrite B4. apply Htag; auto. congruence.
  - constructor; auto.
Qed.

(** Assembling the invariant after bucket [i] has been relinked. *)
Lemma hinv_relink st B L st' i l' :
  hinv st B L -> 0 <= i < 15 ->
  hmem st' B ->
  dlist (st_mem st') (free_root st' i) l' ->
  (forall y, In y l' -> exists b, B b /\ b_addr b = y /\ b_alloc b = false /\
                                  get_seglist_ind (b_size b) = i) ->
  (forall j, 0 <= j < 15 -> j <> i -> free_root st' j = free_root st j) ->
  (forall j y, 0 <= j < 15 -> j <> i -> In y (L j) ->
               links_same (st_mem st) (st_mem st') y) ->
  hinv st' B (lupd L i l').
Proof.
  intros HI Hi HM Hd Hin Hr Hl.
  constructor; try apply HM.
  - intros j Hj. unfold lupd. destruct (Z.eqb_spec j i) as [->|Hne]; [assumption|].
    rewrite Hr by auto. eapply dlist_same; [apply (hi_dl _ _ _ HI j Hj)|].
    intros y Hy. eapply Hl; eauto.
  - intros j y Hj. unfold lupd. destruct (Z.eqb_spec j i) as [->|Hne]; [apply Hin|].
    apply (hi_in _ _ _ HI j y Hj).
Qed.

(** * [remove_from_free] *)

Lemma hmem_fields st st' B :
  hmem st B ->
  st_mem st' = st_mem st -> mem_heap_lo st' = mem_heap_lo st ->
  mem_brk st' = mem_brk st -> mem_max_addr st' = mem_max_addr st ->
  heap_start st' = heap_start st ->
  hmem st' B.
Proof.
  intros HM E1 E2 E3 E4 E5. constructor; rewrite ?E1, ?E2, ?E3, ?E4, ?E5; apply HM.
Qed.

Lemma last_in (l : list Z) d : l <> [] -> In (last l d) l.
Proof.
  intros H. destruct (exists_last H) as (l' & z & ->).
  rewrite last_last. apply in_or_app. right. left. reflexivity.
Qed.

Lemma hd_in (l : list Z) d : l <> [] -> In (hd d l) l.
Proof. destruct l; [congruence|]. intros _. left. reflexivity. Qed.

Section Remove.
Variables (st : state) (B : blk -> Prop) (L : Z -> list Z) (b : blk) (l1 l2 : list Z).
Hypothesis HI : hinv st B L.
Hypothesis Hb : B b.
Hypothesis Hf : b_alloc b = false.
Hypothesis HL : L (get_seglist_ind (b_size b)) = l1 ++ b_addr b :: l2.

Let i := get_seglist_ind (b_size b).
Let x := b_addr b.
Let m := st_mem st.
Let p := last l1 0.
Let n := hd 0 l2.
Let m1 := match l1 with [] => m | _ => set_next_free m p n end.
Let m2 := match l2 with [] => m1 | _ => set_prev_free m1 n p end.

Lemma rm_index : 0 <= i < 15.
Proof.
  pose proof (hmem_addr _ _ (hinv_hmem _ _ _ HI) b Hb) as (? & ? & ? & ? & ? & ? & ? & ?).
  apply get_seglist_ind_range. lia.
Qed.

Lemma rm_dlist : dlist m (free_root st i) (l1 ++ x :: l2).
Proof. unfold x. rewrite <- HL. apply (hi_dl _ _ _ HI). apply rm_index. Qed.

Lemma rm_member y :
  In y (l1 ++ x :: l2) ->
  exists c, B c /\ b_addr c = y /\ b_alloc c = false /\
            8 < y /\ y + 24 < 2 ^ 64 /\ y mod 8 = 0 /\ y <> 0.
Proof.
  intros Hy. unfold x in Hy. rewrite <- HL in Hy.
  destruct (hinv_listed _ _ _ HI i y rm_index Hy) as (c & Hc & Ha & Hfc & _).
  pose proof (hmem_addr _ _ (hinv_hmem _ _ _ HI) c Hc) as (? & ? & ? & ? & ? & ? & ? & Hs).
  specialize (Hs Hfc). exists c. repeat split; auto; lia.
Qed.

Lemma rm_p : l1 <> [] -> In p (l1 ++ x :: l2) /\ p <> x /\ (l2 <> [] -> p <> n).
Proof.
  intros H. pose proof (last_in l1 0 H) as Hp. fold p in Hp.
  destruct rm_dlist as (_ & _ & _ & ND).
  split; [apply in_or_app; left; assumption|].
  split.
  - intros E. apply NoDup_remove_2 in ND. apply ND. apply in_or_app. left. congruence.
  - intros H2 E. pose proof (hd_in l2 0 H2) as Hn. fold n in Hn.
    apply NoDup_remove_1 in ND. revert ND Hp Hn. rewrite E. clear.
    induction l1 as [|a l IH]; cbn; intros ND Hp Hn; [destruct Hp|].
    inversion ND; subst. destruct Hp as [->|Hp]; [|auto].
    apply H1. apply in_or_app. right. assumption.
Qed.

Lemma rm_n : l2 <> [] -> In n (l1 ++ x :: l2) /\ n <> x.
Proof.
  intros H. pose proof (hd_in l2 0 H) as Hn. fold n in Hn.
  destruct rm_dlist as (_ & _ & _ & ND).
  split; [apply in_or_app; right; right; assumption|].
  intros E. apply NoDup_remove_2 in ND. apply ND. apply in_or_app. right. congruence.
Qed.

Lemma rm_pn_range : 0 <= p < 2 ^ 64 /\ p mod 8 = 0 /\ 0 <= n < 2 ^ 64 /\ n mod 8 = 0.
Proof.
  assert (Hp : l1 = [] \/ l1 <> []) by (destruct l1; [left|right]; congruence).
  assert (Hn : l2 = [] \/ l2 <> []) by (destruct l2; [left|right]; congruence).
  split; [|split; [|split]].
  - destruct Hp as [E|E]; [unfold p; rewrite E; cbn; lia|].
    destruct (rm_member p (proj1 (rm_p E))) as (c & _ & _ & _ & ? & ? & ? & _). lia.
  - destruct Hp as [E|E]; [unfold p; rewrite E; reflexivity|].
    destruct (rm_member p (proj1 (rm_p E))) as (c & _ & _ & _ & ? & ? & ? & _). lia.
  - destruct Hn as [E|E]; [unfold n; rewrite E; cbn; lia|].
    destruct (rm_member n (proj1 (rm_n E))) as (c & _ & _ & _ & ? & ? & ? & _). lia.
  - destruct Hn as [E|E]; [unfold n; rewrite E; reflexivity|].
    destruct (rm_member n (proj1 (rm_n E))) as (c & _ & _ & _ & ? & ? & ? & _). lia.
Qed.

Lemma rm_cases :
  (l1 = [] /\ m1 = m \/ l1 <> [] /\ m1 = set_next_free m p n) /\
  (l2 = [] /\ m2 = m1 \/ l2 <> [] /\ m2 = set_prev_free m1 n p).
Proof.
  unfold m2, m1. split.
  - destruct l1; [left|right]; split; congruence.
  - destruct l2; [left|right]; split; congruence.
Qed.

(** First write: the successor link of the list predecessor. *)
Lemma rm_step1 :
  hmem (set_mem st m1) B /\
  (forall y, B y -> b_alloc y = false -> (l1 <> [] -> b_addr y <> p) ->
             links_same m m1 (b_addr y)) /\
  (l1 <> [] ->
     get_mini m1 p = get_mini m p /\ get_next_free m1 p = n /\
     get_prev_free m1 p = get_prev_free m p /\
     (get_mini m p = true -> tag m1 p = true)).
Proof.
  pose proof rm_pn_range as (Rp & Mp & Rn & Mn).
  destruct (proj1 rm_cases) as [[El1 Em1]|[Hne Em1]]; rewrite Em1.
  - split; [|split].
    + eapply hmem_fields; [apply (hinv_hmem _ _ _ HI)|..]; reflexivity.
    + intros. apply links_same_refl.
    + congruence.
  - destruct (rm_member p (proj1 (rm_p Hne))) as (c & Hc & Ha & Hfc & ? & ? & ? & ?).
    destruct (snf_links m p n ltac:(lia) ltac:(lia) Rn Mn) as (W0 & A1 & A2 & A3 & A4).
    assert (W : link_write (st_mem st) (set_next_free m p n) (b_addr c))
      by (rewrite Ha; exact W0).
    split; [|split].
    + apply (hmem_link_write st B _ c (hinv_hmem _ _ _ HI) Hc Hfc W).
    + intros y Hy Hfy Hne'.
      apply (hmem_links_other st B _ c (hinv_hmem _ _ _ HI) Hc Hfc W y Hy Hfy).
      rewrite Ha. auto.
    + intros _. auto.
Qed.

(** Second write: the predecessor link of the list successor. *)
Lemma rm_step2 :
  hmem (set_mem st m2) B /\
  (forall y, B y -> b_alloc y = false -> (l2 <> [] -> b_addr y <> n) ->
             links_same m1 m2 (b_addr y)) /\
  (l2 <> [] ->
     get_mini m2 n = get_mini m1 n /\ get_next_free m2 n = get_next_free m1 n /\
     get_prev_free m2 n = p /\ tag m2 n = tag m1 n).
Proof.
  pose proof rm_pn_range as (Rp & Mp & Rn & Mn).
  destruct rm_step1 as (HM1 & _ & _).
  destruct (proj2 rm_cases) as [[El2 Em2]|[Hne Em2]]; rewrite Em2.
  - split; [|split].
    + exact HM1.
    + intros. apply links_same_refl.
    + congruence.
  - destruct (rm_member n (proj1 (rm_n Hne))) as (c & Hc & Ha & Hfc & ? & ? & ? & ?).
    destruct (spf_links m1 n p ltac:(lia) ltac:(lia) Rp Mp) as (W0 & A1 & A2 & A3 & A4).
    assert (W : link_write (st_mem (set_mem st m1)) (set_prev_free m1 n p) (b_addr c))
      by (rewrite Ha; exact W0).
    split; [|split].
    + apply (hmem_link_write (set_mem st m1) B _ c HM1 Hc Hfc W).
    + intros y Hy Hfy Hne'.
      apply (hmem_links_other (set_mem st m1) B _ c HM1 Hc Hfc W y Hy Hfy).
      rewrite Ha. auto.
    + intros _. auto.
Qed.

Lemma rm_links y c :
  B c -> b_addr c = y -> b_alloc c = false ->
  (l1 <> [] -> y <> p) -> (l2 <> [] -> y <> n) -> links_same m m2 y.
Proof.
  intros Hc Ha Hfc H1 H2. subst y.
  destruct rm_step1 as (_ & S1 & _). destruct rm_step2 as (_ & S2 & _).
  eapply links_same_trans; [apply S1 | apply S2]; auto.
Qed.

Lemma rm_dlist' : dlist m2 (hd 0 (l1 ++ l2)) (l1 ++ l2).
Proof.
  destruct rm_step1 as (_ & S1 & P1). destruct rm_step2 as (_ & S2 & P2).
  apply (remove_links m m2 (free_root st i) l1 x l2 rm_dlist).
  - intros y Hy Hp Hn.
    destruct (rm_member y) as (c & Hc & Ha & Hfc & _).
    { apply in_app_or in Hy. apply in_or_app. destruct Hy; [left|right; right]; auto. }
    apply (rm_links y c); auto.
  - intros Hne. destruct (P1 Hne) as (A1 & A2 & A3 & A4).
    destruct (rm_member p (proj1 (rm_p Hne))) as (c & Hc & Ha & Hfc & _).
    assert (S : links_same m1 m2 p).
    { rewrite <- Ha. apply S2; auto. rewrite Ha. apply rm_p; auto. }
    destruct S as (C1 & C2 & C3 & C4).
    fold p n. repeat split; try congruence. intros Hm. rewrite C4. auto.
  - intros Hne. destruct (P2 Hne) as (A1 & A2 & A3 & A4).
    destruct (rm_member n (proj1 (rm_n Hne))) as (c & Hc & Ha & Hfc & _).
    assert (S : links_same m m1 n).
    { rewrite <- Ha. apply S1; auto. rewrite Ha. intros H1 E.
      destruct (rm_p H1) as (_ & _ & Hpn). apply Hpn; auto. }
    destruct S as (C1 & C2 & C3 & C4).
    fold p n. repeat split; congruence.
Qed.

Lemma rm_shape :
  let st' := remove_from_free st x in
  st_mem st' = m2 /\ mem_heap_lo st' = mem_heap_lo st /\ mem_brk st' = mem_brk st /\
  mem_max_addr st' = mem_max_addr st /\ heap_start st' = heap_start st /\
  free_root st' i = hd 0 (l1 ++ l2) /\
  (forall j, j <> i -> free_root st' j = free_root st j).
Proof.
  destruct rm_dlist as (Hfw & Hbw & _ & _).
  pose proof (fwd_mid _ _ _ _ _ Hfw) as En. pose proof (bwd_mid _ _ _ _ _ Hbw) as Ep.
  pose proof (fwd_hd _ _ _ Hfw) as Er.
  pose proof (blk_get_size _ _ (hi_mem _ _ _ HI b Hb)) as Es.
  fold m x in Es. fold n in En. fold p in Ep.
  unfold remove_from_free. fold m. rewrite En, Ep, Es. fold i.
  assert (Hn0 : l2 = [] /\ n = 0 \/ l2 <> [] /\ n <> 0).
  { assert (Hc : l2 = [] \/ l2 <> []) by (destruct l2; [left|right]; congruence).
    destruct Hc as [E|Hne]; [left; split; auto; unfold n; rewrite E; reflexivity|right].
    split; auto.
    destruct (rm_member n (proj1 (rm_n Hne))) as (_ & _ & _ & _ & _ & _ & _ & ?). auto. }
  assert (Hp0 : l1 = [] /\ p = 0 \/ l1 <> [] /\ p <> 0).
  { assert (Hc : l1 = [] \/ l1 <> []) by (destruct l1; [left|right]; congruence).
    destruct Hc as [E|Hne]; [left; split; auto; unfold p; rewrite E; reflexivity|right].
    split; auto.
    destruct (rm_member p (proj1 (rm_p Hne))) as (_ & _ & _ & _ & _ & _ & _ & ?). auto. }
  assert (Hh : hd 0 (l1 ++ l2) = match l1 with [] => n | _ => free_root st i end).
  { rewrite Er. unfold n. destruct l1; reflexivity. }
  rewrite Hh.
  destruct rm_cases as [C1 C2].
  destruct Hn0 as [[E2 N0]|[E2 N0]], Hp0 as [[E1 P0]|[E1 P0]];
    destruct C1 as [[? C1]|[? C1]]; try contradiction;
    destruct C2 as [[? C2]|[? C2]]; try contradiction;
    rewrite C2, C1;
    try rewrite N0; try rewrite P0;
    try (apply Z.eqb_neq in N0; rewrite N0);
    try (apply Z.eqb_neq in P0; rewrite P0);
    cbn [andb Z.eqb].
  all: repeat split; cbn; auto.
  all: try (intros j Hj; destruct (Z.eqb_spec j i); [contradiction|reflexivity]).
  all: try (rewrite Z.eqb_refl).
  all: try (destruct l1; [reflexivity|congruence]).
  all: try (destruct l1; [congruence|reflexivity]).
Qed.

Lemma hinv_remove :
  hinv (remove_from_free st (b_addr b)) B (lupd L (get_seglist_ind (b_size b)) (l1 ++ l2)).
Proof.
  destruct rm_shape as (E1 & E2 & E3 & E4 & E5 & E6 & E7). fold x i.
  destruct rm_step2 as (HM2 & _ & _).
  apply (hinv_relink st B L _ i (l1 ++ l2) HI rm_index).
  - eapply hmem_fields; [exact HM2|..]; cbn; auto.
  - rewrite E1, E6. apply rm_dlist'.
  - intros y Hy. apply (hi_in _ _ _ HI i y rm_index). unfold i. rewrite HL.
    apply in_app_or in Hy. apply in_or_app. destruct Hy; [left|right; right]; auto.
  - intros j Hj Hne. apply E7. assumption.
  - intros j y Hj Hne Hy. rewrite E1.
    destruct (hinv_listed _ _ _ HI j y Hj Hy) as (c & Hc & Ha & Hfc & Hd & _).
    assert (Hni : ~ In y (L i)).
    { intros Hyi. subst y. apply Hne. rewrite <- Hd.
      apply (hinv_bucket_of _ _ _ HI i c rm_index Hc) in Hyi. congruence. }
    unfold i in Hni. rewrite HL in Hni.
    apply (rm_links y c); auto.
    + intros H1 E. apply Hni. rewrite E. apply rm_p. assumption.
    + intros H2 E. apply Hni. rewrite E. apply rm_n. assumption.
Qed.
(** The two writes of [remove_from_free] go to link fields of free blocks. *)
Lemma rm_keeps a s :
  guarded B a s -> keeps (st_mem st) (st_mem (remove_from_free st (b_addr b))) a s.
Proof.
  intros Ha. destruct rm_shape as (E1 & _). fold x. rewrite E1.
  pose proof rm_pn_range as (Rp & Mp & Rn & Mn).
  apply (keeps_trans m m1 m2).
  - destruct (proj1 rm_cases) as [[_ Em1]|[Hne Em1]]; rewrite Em1; [apply keeps_refl|].
    destruct (rm_member p (proj1 (rm_p Hne))) as (c & Hc & Hac & Hfc & ? & ? & ? & ?).
    destruct (snf_links m p n ltac:(lia) ltac:(lia) Rn Mn) as (W0 & _).
    assert (W : link_write (st_mem st) (set_next_free m p n) (b_addr c))
      by (rewrite Hac; exact W0).
    apply (link_write_keeps st B _ c (hinv_hmem _ _ _ HI) Hc Hfc W a s Ha).
  - destruct rm_step1 as (HM1 & _ & _).
    destruct (proj2 rm_cases) as [[_ Em2]|[Hne Em2]]; rewrite Em2; [apply keeps_refl|].
    destruct (rm_member n (proj1 (rm_n Hne))) as (c & Hc & Hac & Hfc & ? & ? & ? & ?).
    destruct (spf_links m1 n p ltac:(lia) ltac:(lia) Rp Mp) as (W0 & _).
    assert (W : link_write (st_mem (set_mem st m1)) (set_prev_free m1 n p) (b_addr c))
      by (rewrite Hac; exact W0).
    apply (link_write_keeps (set_mem st m1) B _ c HM1 Hc Hfc W a s Ha).
Qed.
End Remove.

(** * [add_to_free] *)

Section Add.
Variables (st : state) (B : blk -> Prop) (L : Z -> list Z) (b : blk).
Hypothesis HI : hinv st B L.
Hypothesis Hb : B b.
Hypothesis Hf : b_alloc b = false.
Hypothesis Hni : forall j, 0 <= j < 15 -> ~ In (b_addr b) (L j).

Let i := get_seglist_ind (b_size b).
Let x := b_addr b.
Let m := st_mem st.
Let r := free_root st i.

Lemma add_index : 0 <= i < 15.
Proof.
  pose proof (hmem_addr _ _ (hinv_hmem _ _ _ HI) b Hb) as (? & ? & ? & ? & ? & ? & ? & ?).
  apply get_seglist_ind_range. lia.
Qed.

Lemma add_x : 8 < x /\ x + 24 < 2 ^ 64 /\ x mod 8 = 0.
Proof.
  pose proof (hmem_addr _ _ (hinv_hmem _ _ _ HI) b Hb) as (? & ? & ? & ? & ? & ? & ? & Hs).
  specialize (Hs Hf). unfold x. repeat split; lia.
Qed.

Lemma add_dlist : dlist m r (L i).
Proof. apply (hi_dl _ _ _ HI). apply add_index. Qed.

Lemma add_root : r = hd 0 (L i) /\ (r = 0 -> L i = []) /\ (r <> 0 -> In r (L i)).
Proof.
  destruct add_dlist as (Hfw & _). pose proof (fwd_hd _ _ _ Hfw) as E.
  pose proof (fwd_nonzero _ _ _ Hfw) as NZ.
  split; [exact E|]. destruct (L i) as [|a l]; cbn in *.
  - split; auto; intros; congruence.
  - split; [|intros; left; congruence]. intros E0. exfalso. apply (NZ a); [left|]; congruence.
Qed.

Lemma add_member j y :
  0 <= j < 15 -> In y (L j) ->
  exists c, B c /\ b_addr c = y /\ b_alloc c = false /\ y <> x /\
            8 < y /\ y + 24 < 2 ^ 64 /\ y mod 8 = 0.
Proof.
  intros Hj Hy.
  destruct (hinv_listed _ _ _ HI j y Hj Hy) as (c & Hc & Ha & Hfc & _).
  pose proof (hmem_addr _ _ (hinv_hmem _ _ _ HI) c Hc) as (? & ? & ? & ? & ? & ? & ? & Hs).
  specialize (Hs Hfc). exists c. repeat split; auto; try lia.
  intros E. apply (Hni j Hj). fold x. congruence.
Qed.

(** Two writes to the links of a free block, as [add_to_free] does them on
    the block it inserts. *)
Lemma add_two st0 m0 (w1 w2 : mem -> mem) :
  hmem st0 B -> st_mem st0 = m0 ->
  (forall m', link_write m' (w1 m') x /\ get_mini (w1 m') x = get_mini m' x) ->
  (forall m', link_write m' (w2 m') x /\ get_mini (w2 m') x = get_mini m' x) ->
  hmem (set_mem st0 (w2 (w1 m0))) B /\
  (forall y, B y -> b_alloc y = false -> b_addr y <> x ->
             links_same m0 (w2 (w1 m0)) (b_addr y)).
Proof.
  intros HM0 E W1 W2. subst m0.
  destruct (W1 (st_mem st0)) as [L1 _]. destruct (W2 (w1 (st_mem st0))) as [L2 _].
  assert (HM1 : hmem (set_mem st0 (w1 (st_mem st0))) B)
    by (apply (hmem_link_write st0 B _ b HM0 Hb Hf L1)).
  split.
  - apply (hmem_link_write (set_mem st0 (w1 (st_mem st0))) B _ b HM1 Hb Hf L2).
  - intros y Hy Hfy Hne. eapply links_same_trans.
    + apply (hmem_links_other st0 B _ b HM0 Hb Hf L1 y Hy Hfy Hne).
    + apply (hmem_links_other (set_mem st0 (w1 (st_mem st0))) B _ b HM1 Hb Hf L2 y Hy Hfy Hne).
Qed.

Lemma add_w_spf v : 0 <= v < 2 ^ 64 -> v mod 8 = 0 ->
  forall m', link_write m' (set_prev_free m' x v) x /\
             get_mini (set_prev_free m' x v) x = get_mini m' x.
Proof.
  intros Hv Hm m'. destruct add_x as (? & ? & ?).
  destruct (spf_links m' x v ltac:(lia) ltac:(lia) Hv Hm) as (W & A & _). auto.
Qed.

Lemma add_w_snf v : 0 <= v < 2 ^ 64 -> v mod 8 = 0 ->
  forall m', link_write m' (set_next_free m' x v) x /\
             get_mini (set_next_free m' x v) x = get_mini m' x.
Proof.
  intros Hv Hm m'. destruct add_x as (? & ? & ?).
  destruct (snf_links m' x v ltac:(lia) ltac:(lia) Hv Hm) as (W & A & _). auto.
Qed.

Lemma add_x_links_a m0 :
  let m' := set_next_free (set_prev_free m0 x 0) x 0 in
  get_next_free m' x = 0 /\ get_prev_free m' x = 0 /\
  (get_mini m' x = true -> tag m' x = true).
Proof.
  destruct add_x as (? & ? & ?). cbn zeta.
  destruct (spf_links m0 x 0 ltac:(lia) ltac:(lia) ltac:(lia) eq_refl)
    as (_ & A1 & A2 & A3 & A4).
  destruct (snf_links (set_prev_free m0 x 0) x 0 ltac:(lia) ltac:(lia) ltac:(lia) eq_refl)
    as (_ & C1 & C2 & C3 & C4).
  repeat split; try congruence. intros Hm. apply C4. congruence.
Qed.

Lemma add_x_links_b m0 v : 0 <= v < 2 ^ 64 -> v mod 8 = 0 ->
  let m' := set_prev_free (set_next_free m0 x v) x 0 in
  get_next_free m' x = v /\ get_prev_free m' x = 0 /\
  (get_mini m' x = true -> tag m' x = true).
Proof.
  intros Hv Hm. destruct add_x as (? & ? & ?). cbn zeta.
  destruct (snf_links m0 x v ltac:(lia) ltac:(lia) Hv Hm) as (_ & A1 & A2 & A3 & A4).
  destruct (spf_links (set_next_free m0 x v) x 0 ltac:(lia) ltac:(lia) ltac:(lia) eq_refl)
    as (_ & C1 & C2 & C3 & C4).
  repeat split; try congruence. intros Hmi. rewrite C4. apply A4. congruence.
Qed.

Lemma add_assemble st' m' :
  st_mem st' = m' -> mem_heap_lo st' = mem_heap_lo st -> mem_brk st' = mem_brk st ->
  mem_max_addr st' = mem_max_addr st -> heap_start st' = heap_start st ->
  free_root st' i = x -> (forall j, j <> i -> free_root st' j = free_root st j) ->
  hmem (set_mem st m') B ->
  (forall j y c, 0 <= j < 15 -> In y (L j) -> B c -> b_addr c = y -> b_alloc c = false ->
                 y <> r -> links_same m m' y) ->
  (r <> 0 ->
     get_mini m' r = get_mini m r /\ get_next_free m' r = get_next_free m r /\
     get_prev_free m' r = x /\ tag m' r = tag m r) ->
  get_next_free m' x = r -> get_prev_free m' x = 0 ->
  (get_mini m' x = true -> tag m' x = true) ->
  hinv st' B (lupd L i (x :: L i)).
Proof.
  intros E1 E2 E3 E4 E5 E6 E7 HM Hl Hr A3 A4 A5.
  destruct add_root as (Er & Er0 & Er1). destruct add_x as (? & ? & ?).
  apply (hinv_relink st B L st' i (x :: L i) HI add_index).
  - eapply hmem_fields; [exact HM|..]; cbn; auto.
  - rewrite E1, E6. apply (add_links m m' r (L i) x add_dlist).
    + apply (Hni i add_index).
    + lia.
    + intros y Hy Hne. destruct (add_member i y add_index Hy) as (c & Hc & Ha & Hfc & _).
      apply (Hl i y c add_index); auto. congruence.
    + intros Hne. rewrite <- Er. apply Hr. intros E0. apply Hne. auto.
    + congruence.
    + assumption.
    + assumption.
  - intros y [<-|Hy].
    + exists b. auto.
    + apply (hi_in _ _ _ HI i y add_index Hy).
  - intros j Hj Hne. apply E7. assumption.
  - intros j y Hj Hne Hy. rewrite E1.
    destruct (add_member j y Hj Hy) as (c & Hc & Ha & Hfc & _).
    apply (Hl j y c Hj); auto.
    intros E. destruct (Z.eq_dec r 0) as [E0|E0].
    + destruct (hinv_listed _ _ _ HI j y Hj Hy) as (c' & Hc' & Ha' & _).
      pose proof (hmem_addr _ _ (hinv_hmem _ _ _ HI) c' Hc') as (? & _). lia.
    + specialize (Er1 E0). rewrite <- E in Er1. subst y.
      apply Hne. rewrite (hinv_bucket_of _ _ _ HI j c Hj Hc Hy).
      rewrite (hinv_bucket_of _ _ _ HI i c add_index Hc Er1). reflexivity.
Qed.

Lemma hinv_add :
  hinv (add_to_free st (b_addr b)) B
       (lupd L (get_seglist_ind (b_size b)) (b_addr b :: L (get_seglist_ind (b_size b)))).
Proof.
  fold i x. destruct add_root as (Er & Er0 & Er1). destruct add_x as (Hx1 & Hx2 & Hx3).
  pose proof (blk_get_size _ _ (hi_mem _ _ _ HI b Hb)) as Es. fold m x in Es.
  pose proof (hinv_hmem _ _ _ HI) as HM.
  unfold add_to_free. fold m. rewrite Es. fold i r.
  destruct (Z.eqb_spec r 0) as [E0|E0].
  - (* empty bucket *)
    assert (Hrx : free_root (set_root st i x) i = x) by (cbn; rewrite Z.eqb_refl; reflexivity).
    rewrite Hrx.
    destruct (add_two st m (fun m' => set_prev_free m' x 0) (fun m' => set_next_free m' x 0)
                HM eq_refl (add_w_spf 0 ltac:(lia) eq_refl) (add_w_snf 0 ltac:(lia) eq_refl))
      as (HM2 & S2).
    destruct (add_x_links_a m) as (A3 & A4 & A5).
    apply (add_assemble _ (set_next_free (set_prev_free m x 0) x 0)); auto.
    + cbn. intros j Hj. destruct (Z.eqb_spec j i); [contradiction|reflexivity].
    + intros j y c Hj Hy Hc Ha Hfc _. subst y. apply S2; auto.
      destruct (add_member j _ Hj Hy) as (_ & _ & _ & _ & ? & _). auto.
    + intros; contradiction.
    + rewrite E0. assumption.
  - (* the bucket has a head [r] *)
    specialize (Er1 E0).
    destruct (add_member i r add_index Er1) as (c & Hc & Ha & Hfc & Hrx & ? & ? & ?).
    destruct (spf_links m r x ltac:(lia) ltac:(lia) ltac:(lia) Hx3) as (W0 & R1 & R2 & R3 & R4).
    assert (W : link_write (st_mem st) (set_prev_free m r x) (b_addr c))
      by (rewrite Ha; exact W0).
    pose proof (hmem_link_write st B _ c HM Hc Hfc W) as HM1.
    destruct (add_two (set_mem st (set_prev_free m r x)) (set_prev_free m r x)
                (fun m' => set_next_free m' x r) (fun m' => set_prev_free m' x 0)
                HM1 eq_refl (add_w_snf r ltac:(lia) ltac:(lia)) (add_w_spf 0 ltac:(lia) eq_refl))
      as (HM3 & S3).
    destruct (add_x_links_b (set_prev_free m r x) r ltac:(lia) ltac:(lia)) as (A3 & A4 & A5).
    apply (add_assemble _ (set_prev_free (set_next_free (set_prev_free m r x) x r) x 0)); auto.
    + cbn. rewrite Z.eqb_refl. reflexivity.
    + cbn. intros j Hj. destruct (Z.eqb_spec j i); [contradiction|reflexivity].
    + intros j y c' Hj Hy Hc' Ha' Hfc' Hne. subst y.
      eapply links_same_trans.
      * apply (hmem_links_other st B _ c HM Hc Hfc W c' Hc' Hfc'). congruence.
      * apply S3; auto. destruct (add_member j _ Hj Hy) as (_ & _ & _ & _ & ? & _). auto.
    + intros _. specialize (S3 c Hc Hfc ltac:(congruence)). rewrite Ha in S3.
      destruct S3 as (C1 & C2 & C3 & C4). repeat split; congruence.
Qed.
Lemma add_two_keeps st0 m0 (w1 w2 : mem -> mem) a s :
  hmem st0 B -> st_mem st0 = m0 ->
  (forall m', link_write m' (w1 m') x /\ get_mini (w1 m') x = get_mini m' x) ->
  (forall m', link_write m' (w2 m') x /\ get_mini (w2 m') x = get_mini m' x) ->
  guarded B a s -> keeps m0 (w2 (w1 m0)) a s.
Proof.
  intros HM0 E W1 W2 Ha. subst m0.
  destruct (W1 (st_mem st0)) as [L1 _]. destruct (W2 (w1 (st_mem st0))) as [L2 _].
  assert (HM1 : hmem (set_mem st0 (w1 (st_mem st0))) B)
    by (apply (hmem_link_write st0 B _ b HM0 Hb Hf L1)).
  eapply keeps_trans.
  - apply (link_write_keeps st0 B _ b HM0 Hb Hf L1 a s Ha).
  - apply (link_write_keeps (set_mem st0 (w1 (st_mem st0))) B _ b HM1 Hb Hf L2 a s Ha).
Qed.

(** The writes of [add_to_free] go to link fields of free blocks. *)
Lemma add_keeps a s :
  guarded B a s -> keeps (st_mem st) (st_mem (add_to_free st (b_addr b))) a s.
Proof.
  intros Ha.
  fold x. destruct add_root as (Er & Er0 & Er1). destruct add_x as (Hx1 & Hx2 & Hx3).
  pose proof (blk_get_size _ _ (hi_mem _ _ _ HI b Hb)) as Es. fold m x in Es.
  pose proof (hinv_hmem _ _ _ HI) as HM.
  unfold add_to_free. fold m. rewrite Es. fold i r.
  destruct (Z.eqb_spec r 0) as [E0|E0].
  - assert (Hrx : free_root (set_root st i x) i = x) by (cbn; rewrite Z.eqb_refl; reflexivity).
    rewrite Hrx. cbn [st_mem set_mem].
    apply (add_two_keeps st m (fun m' => set_prev_free m' x 0) (fun m' => set_next_free m' x 0)
             a s HM eq_refl (add_w_spf 0 ltac:(lia) eq_refl) (add_w_snf 0 ltac:(lia) eq_refl) Ha).
  - specialize (Er1 E0).
    destruct (add_member i r add_index Er1) as (c & Hc & Hac & Hfc & Hrx & ? & ? & ?).
    destruct (spf_links m r x ltac:(lia) ltac:(lia) ltac:(lia) Hx3) as (W0 & _).
    assert (W : link_write (st_mem st) (set_prev_free m r x) (b_addr c))
      by (rewrite Hac; exact W0).
    pose proof (hmem_link_write st B _ c HM Hc Hfc W) as HM1.
    cbn [st_mem set_mem set_root set_roots].
    eapply keeps_trans.
    + apply (link_write_keeps st B _ c HM Hc Hfc W a s Ha).
    + apply (add_two_keeps (set_mem st (set_prev_free m r x)) (set_prev_free m r x)
               (fun m' => set_next_free m' x r) (fun m' => set_prev_free m' x 0) a s
               HM1 eq_refl (add_w_snf r ltac:(lia) ltac:(lia)) (add_w_spf 0 ltac:(lia) eq_refl)
               Ha).
Qed.
End Add.

(** * List operations, stated on membership *)

Lemma hinv_remove_in st B L b :
  hinv st B L -> B b -> b_alloc b = false ->
  In (b_addr b) (L (get_seglist_ind (b_size b))) ->
  exists L',
    hinv (remove_from_free st (b_addr b)) B L' /\
    (forall j y, 0 <= j < 15 -> (In y (L' j) <-> In y (L j) /\ y <> b_addr b)).
Proof.
  intros HI Hb Hf Hin.
  set (i := get_seglist_ind (b_size b)) in *.
  assert (Hi : 0 <= i < 15).
  { pose proof (hmem_addr _ _ (hinv_hmem _ _ _ HI) b Hb) as (? & ? & ? & ? & ? & ? & ? & ?).
    apply get_seglist_ind_range. lia. }
  destruct (in_split _ _ Hin) as (l1 & l2 & HL).
  exists (lupd L i (l1 ++ l2)). split; [apply hinv_remove; auto|].
  destruct (hi_dl _ _ _ HI i Hi) as (_ & _ & _ & ND). rewrite HL in ND.
  intros j y Hj. unfold lupd. destruct (Z.eqb_spec j i) as [->|Hne].
  - rewrite HL. split.
    + intros Hy. split.
      * apply in_app_or in Hy. apply in_or_app. destruct Hy; [left|right; right]; auto.
      * intros ->. apply NoDup_remove_2 in ND. contradiction.
    + intros [Hy Hn]. apply in_app_or in Hy. apply in_or_app.
      destruct Hy as [Hy|[Hy|Hy]]; [left| |right]; auto. congruence.
  - split; [|tauto]. intros Hy. split; auto. intros ->.
    apply Hne. apply (hinv_bucket_of _ _ _ HI j b Hj Hb Hy).
Qed.

Lemma remove_keeps st B L b a s :
  hinv st B L -> B b -> b_alloc b = false ->
  In (b_addr b) (L (get_seglist_ind (b_size b))) ->
  guarded B a s ->
  keeps (st_mem st) (st_mem (remove_from_free st (b_addr b))) a s.
Proof.
  intros HI Hb Hf Hin Ha. destruct (in_split _ _ Hin) as (l1 & l2 & HL).
  apply (rm_keeps st B L b l1 l2 HI Hb Hf HL a s Ha).
Qed.

Lemma hinv_add_in st B L b :
  hinv st B L -> B b -> b_alloc b = false ->
  (forall j, 0 <= j < 15 -> ~ In (b_addr b) (L j)) ->
  exists L',
    hinv (add_to_free st (b_addr b)) B L' /\
    (forall j y, 0 <= j < 15 ->
       (In y (L' j) <-> In y (L j) \/ (y = b_addr b /\ j = get_seglist_ind (b_size b)))) /\
    free_root (add_to_free st (b_addr b)) (get_seglist_ind (b_size b)) = b_addr b.
Proof.
  intros HI Hb Hf Hni.
  set (i := get_seglist_ind (b_size b)) in *.
  exists (lupd L i (b_addr b :: L i)).
  pose proof (hinv_add st B L b HI Hb Hf Hni) as HA. fold i in HA.
  split; [exact HA|]. split.
  - intros j y Hj. unfold lupd. destruct (Z.eqb_spec j i) as [->|Hne].
    + cbn. split; [intros [E|H]; auto | intros [H|[E _]]; auto].
    + split; [auto|]. intros [H|[_ E]]; [auto|contradiction].
  - assert (Hi : 0 <= i < 15).
    { pose proof (hmem_addr _ _ (hinv_hmem _ _ _ HI) b Hb) as (? & ? & ? & ? & ? & ? & ? & ?).
      apply get_seglist_ind_range. lia. }
    destruct (hi_dl _ _ _ HA i Hi) as (Hfw & _). apply fwd_hd in Hfw.
    unfold lupd in Hfw. rewrite Z.eqb_refl in Hfw. exact Hfw.
Qed.

(** * [write_block], [find_next], [find_prev] *)

Lemma pack_range s a p :
  0 <= s -> s + 16 <= 2 ^ 64 -> s mod 16 = 0 -> 0 <= pack s a p < 2 ^ 64.
Proof.
  intros. rewrite pack_eq by lia. rewrite const_2_64 in *.
  destruct a, p, (s =? 16); cbn [b2z]; lia.
Qed.

Lemma pack_blk_ok m x s a p :
  0 <= s -> s + 16 <= 2 ^ 64 -> s mod 16 = 0 ->
  load m x = pack s a p ->
  (a = false -> s <> 16 -> load m (x + s - 8) = pack s a p) ->
  blk_ok m (mkBlk x s a p).
Proof.
  intros Hs Hs' Hm Hh Hft. pose proof (pack_range s a p Hs Hs' Hm) as Hr.
  rewrite const_2_64 in *.
  assert (K : forall w, w = pack s a p ->
            extract_alloc w = a /\ extract_prev_alloc w = p /\
            extract_mini w = (s =? 16) /\ extract_size w = s).
  { intros w ->. rewrite extract_size_eq by (rewrite const_2_64; lia).
    rewrite pack_eq in * by lia.
    destruct a, p, (Z.eqb_spec s 16); cbn [b2z] in *; repeat split; flags. }
  destruct (K _ Hh) as (K1 & K2 & K3 & K4).
  unfold blk_ok; cbn [b_addr b_size b_alloc b_pa].
  split; [|split; [|split; [|split]]]; auto.
  intros Ha Hne. destruct (K _ (Hft Ha Hne)) as (_ & _ & F3 & F4).
  split; auto. rewrite F3. apply Z.eqb_neq. assumption.
Qed.

Lemma write_block_spec m x s a p :
  0 <= x -> 16 <= s -> s mod 16 = 0 -> x + s + 8 < 2 ^ 64 ->
  same_out m (write_block m x s a p) x (x + (if a then 8 else s)) /\
  blk_ok (write_block m x s a p) (mkBlk x s a p).
Proof.
  intros Hx Hs Hm Hr. pose proof (pack_range s a p ltac:(lia) ltac:(lia) Hm) as Hp.
  unfold write_block, min_block_size, dsize, wsize. change (2 * 8) with 16.
  set (m1 := store m x (pack s a p)).
  assert (E1 : load m1 x = pack s a p)
    by (unfold m1; rewrite load_store_same, wrap_small by lia; reflexivity).
  destruct (negb a && negb (s =? 16)) eqn:Ec.
  - apply andb_prop in Ec. destruct Ec as [Ea Es].
    apply negb_true_iff in Ea, Es. subst a. apply Z.eqb_neq in Es.
    assert (Eg : get_size m1 x = s).
    { unfold get_size. rewrite E1.
      assert (extract_mini (pack s false p) = false) as ->.
      { rewrite pack_eq by lia. destruct p, (Z.eqb_spec s 16); cbn [b2z]; flags. }
      rewrite extract_size_eq by lia. rewrite pack_eq by lia.
      destruct p, (Z.eqb_spec s 16); cbn [b2z]; lia. }
    rewrite (header_to_footer_eq m1 x s) by (auto; lia).
    split.
    + eapply same_out_trans; apply same_out_store; lia.
    + apply pack_blk_ok; try lia; cbn [b_addr b_size].
      * rewrite load_store_other by lia. exact E1.
      * intros _ _. rewrite load_store_same, wrap_small by lia. reflexivity.
  - split.
    + unfold m1. apply same_out_store; destruct a; lia.
    + apply pack_blk_ok; try lia; auto.
      intros Ha Hne. subst a. apply Z.eqb_neq in Hne. rewrite Hne in Ec. discriminate.
Qed.

Section Neighbours.
Variables (st : state) (B : blk -> Prop) (L : Z -> list Z).
Hypothesis HI : hinv st B L.

Lemma find_next_spec b :
  B b -> find_next (st_mem st) (b_addr b) = b_addr b + b_size b.
Proof.
  intros Hb. pose proof (hmem_addr _ _ (hinv_hmem _ _ _ HI) b Hb) as (? & ? & ? & ? & _).
  unfold find_next. rewrite (blk_get_size _ _ (hi_mem _ _ _ HI b Hb)).
  apply wrap_small. lia.
Qed.

(** [find_prev] on a block whose predecessor in the implicit list is a
    listed free block. *)
Lemma find_prev_spec b p i :
  B b -> B p -> b_addr p + b_size p = b_addr b -> b_alloc p = false ->
  0 <= i < 15 -> In (b_addr p) (L i) ->
  find_prev (st_mem st) (b_addr b) = b_addr p.
Proof.
  intros Hb Hp Ea Hf Hi Hin.
  pose proof (hmem_addr _ _ (hinv_hmem _ _ _ HI) b Hb) as (? & ? & ? & ? & _).
  pose proof (hmem_addr _ _ (hinv_hmem _ _ _ HI) p Hp) as (? & ? & ? & ? & ? & ? & ? & Hs).
  specialize (Hs Hf).
  pose proof (hi_mem _ _ _ HI p Hp) as (K1 & K2 & K3 & K4 & K5).
  destruct (hi_dl _ _ _ HI i Hi) as (_ & _ & Htag & _).
  unfold find_prev, find_prev_footer, footer_to_header, wsize.
  rewrite (wrap_small (b_addr b - 8)) by lia.
  destruct (Z.eq_dec (b_size p) 16) as [E|E].
  - specialize (Htag _ Hin). unfold get_mini, tag in Htag. rewrite K3, E in Htag.
    specialize (Htag eq_refl). replace (b_addr b - 8) with (b_addr p + 8) by lia.
    rewrite Htag. rewrite wrap_small by lia. lia.
  - destruct (K5 Hf E) as (F1 & F2).
    replace (b_addr p + b_size p - 8) with (b_addr b - 8) in F1, F2 by lia.
    rewrite F2, F1. destruct (Z.eqb_spec (b_size p) 0); [lia|].
    rewrite (wrap_small (b_addr b - 8 + 8)) by lia. rewrite wrap_small by lia. lia.
Qed.
End Neighbours.

(** * Merging a run of free blocks *)

Lemma hmem_in_range st B c b :
  hmem st B -> B c -> B b -> b_addr b <= b_addr c < b_addr b + b_size b -> c = b.
Proof.
  intros HM Hc Hb Hr. eapply hmem_same; eauto.
  destruct (Z.eq_dec (b_addr c) (b_addr b)) as [E|E]; [assumption|].
  pose proof (hmem_addr _ _ HM c Hc) as (? & ? & ? & ? & _).
  destruct (hmem_sep _ _ HM c b Hc Hb E) as [[? ?]|[? ?]]; lia.
Qed.

Lemma blk_eq_dec_addr (c r : blk) : c = r \/ c <> r.
Proof.
  destruct c as [a1 s1 f1 p1], r as [a2 s2 f2 p2].
  destruct (Z.eq_dec a1 a2), (Z.eq_dec s1 s2), (bool_dec f1 f2), (bool_dec p1 p2);
    subst; first [left; reflexivity | right; congruence].
Qed.

Lemma add_to_free_fields st x :
  mem_heap_lo (add_to_free st x) = mem_heap_lo st /\
  mem_brk (add_to_free st x) = mem_brk st /\
  mem_max_addr (add_to_free st x) = mem_max_addr st /\
  heap_start (add_to_free st x) = heap_start st.
Proof. unfold add_to_free. destruct (_ =? 0); cbn; auto. Qed.

Lemma remove_from_free_fields st x :
  mem_heap_lo (remove_from_free st x) = mem_heap_lo st /\
  mem_brk (remove_from_free st x) = mem_brk st /\
  mem_max_addr (remove_from_free st x) = mem_max_addr st /\
  heap_start (remove_from_free st x) = heap_start st.
Proof.
  unfold remove_from_free.
  destruct (_ && _); [cbn; auto|]. destruct (_ =? 0); [cbn; auto|].
  destruct (_ =? 0); cbn; auto.
Qed.

Section Merge.
Variables (st : state) (B : blk -> Prop) (L : Z -> list Z) (bx : blk).
Variables (lo hi : Z) (ylo yhi : blk) (st2 : state) (L2 : Z -> list Z).
Hypothesis HS : semi_ok st B L bx.
Hypothesis Hylo : B ylo /\ b_addr ylo = lo /\ b_pa ylo = true.
Hypothesis Hyhi : B yhi /\ b_addr yhi = hi /\ b_alloc yhi = true.
Hypothesis Hx : lo <= b_addr bx /\ b_addr bx + b_size bx <= hi.
Hypothesis Hfree : forall c, B c -> lo <= b_addr c < hi -> b_alloc c = false.
Hypothesis H2 : hinv st2 B L2.
Hypothesis HL2 : forall j y, 0 <= j < 15 ->
  (In y (L2 j) <-> In y (L j) /\ (y < lo \/ hi <= y)).
Hypothesis Hhs : heap_start st2 = heap_start st.

Let r := mkBlk lo (hi - lo) false true.
Let B' := bregion B lo hi (eq r).
Let st3 := set_mem st2 (write_block (st_mem st2) lo (hi - lo) false true).

Lemma merge_geom :
  8 < lo /\ lo < hi /\ hi + 8 <= mem_brk st2 /\ mem_brk st2 < 2 ^ 64 /\
  16 <= hi - lo /\ (hi - lo) mod 16 = 0 /\ lo mod 16 = 8.
Proof.
  destruct Hylo as (Bylo & Elo & _), Hyhi as (Byhi & Ehi & _).
  destruct (so_x _ _ _ _ HS) as (Bx & Fx).
  pose proof (hinv_hmem _ _ _ H2) as HM.
  pose proof (hmem_addr _ _ HM ylo Bylo) as (? & ? & ? & ? & ? & ? & ? & ?).
  pose proof (hmem_addr _ _ HM yhi Byhi) as (? & ? & ? & ? & ? & ? & ? & ?).
  pose proof (hmem_addr _ _ HM bx Bx) as (? & ? & ? & ? & ? & ? & ? & Hs).
  specialize (Hs Fx). repeat split; lia.
Qed.

Lemma merge_region : hinv st3 B' L2.
Proof.
  destruct Hylo as (Bylo & Elo & _), Hyhi as (Byhi & Ehi & _).
  destruct merge_geom as (? & ? & ? & ? & ? & ? & ?).
  destruct (write_block_spec (st_mem st2) lo (hi - lo) false true
              ltac:(lia) ltac:(lia) ltac:(lia) ltac:(lia)) as [S Hok].
  replace (lo + (hi - lo)) with hi in S by lia.
  apply (hinv_region st2 B L2 lo hi (eq r) ylo yhi); auto.
  - intros j y Hj Hy. apply (HL2 j y Hj) in Hy. tauto.
  - intros c <-. cbn. repeat split; lia.
  - intros c <-. exact Hok.
  - intros c1 c2 <- <-. lia.
  - intros c1 c2 <- <-. reflexivity.
  - intros c <-. left. cbn. lia.
  - intros c <-. left. reflexivity.
  - exists r. split; reflexivity.
  - exists r. split; [reflexivity|cbn; lia].
Qed.

Lemma merge_not_listed j : 0 <= j < 15 -> ~ In (b_addr r) (L2 j).
Proof.
  intros Hj Hin. apply (HL2 j _ Hj) in Hin. destruct merge_geom as (? & ? & _).
  cbn in Hin. lia.
Qed.

Lemma merge_ok :
  exists L',
    coalesced (add_to_free st3 lo) B' L' r /\
    (forall c, b_addr c < lo \/ hi <= b_addr c -> (B' c <-> B c)) /\
    (forall c, B c -> b_alloc c = true -> B' c).
Proof.
  destruct Hylo as (Bylo & Elo & Plo), Hyhi as (Byhi & Ehi & Ahi).
  destruct merge_geom as (? & ? & ? & ? & ? & ? & ?).
  destruct (so_x _ _ _ _ HS) as (Bx & Fx).
  destruct (so_pa _ _ _ _ HS) as (PA1 & PA2).
  pose proof (so_nf _ _ _ _ HS) as NF. pose proof (so_all _ _ _ _ HS) as AL.
  pose proof (hinv_hmem _ _ _ H2) as HM.
  pose proof (hmem_addr _ _ HM bx Bx) as (_ & _ & _ & _ & _ & _ & _ & Hsx).
  specialize (Hsx Fx).
  assert (Br : B' r) by (right; reflexivity).
  destruct (hinv_add_in st3 B' L2 r merge_region Br eq_refl merge_not_listed)
    as (L' & HI' & HL' & _).
  change (b_addr r) with lo in HI', HL'. change (b_size r) with (hi - lo) in HL'.
  assert (Hout : forall c, b_addr c < lo \/ hi <= b_addr c -> (B' c <-> B c)).
  { intros c Hc. unfold B', bregion. split; [intros [[? _]| <-]; [auto|cbn in Hc; lia]|].
    intros; left; auto. }
  assert (Hin : forall c, B' c -> lo <= b_addr c < hi -> c = r).
  { intros c [[Hc Ho]| <-] Hr; [lia|reflexivity]. }
  assert (Hold : forall c, B' c -> c <> r -> B c /\ (b_addr c < lo \/ hi <= b_addr c)).
  { intros c [[Hc Ho]| <-] Hr; [auto|congruence]. }
  exists L'. split; [|split; [exact Hout|]].
  - constructor.
    + exact HI'.
    + intros c Hc Hf. apply (HL' _ _).
      { apply get_seglist_ind_range.
        pose proof (hmem_addr _ _ (hinv_hmem _ _ _ HI') c Hc) as (? & ? & ? & ? & _). lia. }
      destruct (blk_eq_dec_addr c r) as [E|E].
      * right. subst c. split; reflexivity.
      * left. destruct (Hold c Hc E) as (Bc & Oc).
        apply HL2.
        { apply get_seglist_ind_range.
          pose proof (hmem_addr _ _ HM c Bc) as (? & ? & ? & ? & _). lia. }
        split; [apply AL; auto|exact Oc].
    + split.
      * intros p n Hp Hn Ea Hlt Hne. change (b_addr r) with lo in Hne.
        destruct (blk_eq_dec_addr p r) as [Ep|Ep]; [subst p; cbn in Hne; lia|].
        destruct (Hold p Hp Ep) as (Bp & Op).
        destruct (blk_eq_dec_addr n r) as [En|En].
        -- subst n. change (b_addr r) with lo in *. cbn [b_pa r].
           assert (b_addr p <> b_addr bx) by lia.
           rewrite <- (PA1 p ylo Bp Bylo ltac:(lia) ltac:(lia) ltac:(lia)). auto.
        -- destruct (Hold n Hn En) as (Bn & On).
           apply PA1; auto.
           intros E. lia.
      * intros c Hc Ec.
        destruct (blk_eq_dec_addr c r) as [E|E]; [subst c; reflexivity|].
        destruct (Hold c Hc E) as (Bc & Oc). apply PA2; auto.
        rewrite Ec. rewrite (proj2 (proj2 (proj2 (add_to_free_fields st3 lo)))).
        cbn. exact Hhs.
    + intros c Hc Hf.
      destruct (blk_eq_dec_addr c r) as [E|E]; [subst c; reflexivity|].
      destruct (Hold c Hc E) as (Bc & Oc). apply NF; auto. lia.
    + auto.
    + intros n Hn En. cbn in En. replace (lo + (hi - lo)) with hi in En by lia.
      destruct (blk_eq_dec_addr n r) as [E|E]; [subst n; cbn in En; lia|].
      destruct (Hold n Hn E) as (Bn & On).
      assert (n = yhi) by (eapply hmem_same; eauto; lia). subst n. exact Ahi.
  - intros c Hc Ha. left. split; auto.
    assert (b_addr c < lo \/ hi <= b_addr c \/ lo <= b_addr c < hi) as [?|[?|Hr]] by lia; auto.
    rewrite (Hfree c Hc Hr) in Ha. discriminate.
Qed.
Lemma merge_keeps a s :
  guarded B a s -> keeps (st_mem st2) (st_mem (add_to_free st3 lo)) a s.
Proof.
  intros Ha. destruct Hylo as (Bylo & Elo & _). destruct Hyhi as (Byhi & Ehi & _).
  destruct merge_geom as (? & ? & ? & ? & ? & ? & ?).
  pose proof (hinv_hmem _ _ _ H2) as HM.
  destruct (write_block_spec (st_mem st2) lo (hi - lo) false true
              ltac:(lia) ltac:(lia) ltac:(lia) ltac:(lia)) as [S _].
  replace (lo + (hi - lo)) with hi in S by lia.
  assert (Hout : a < lo \/ hi <= a).
  { destruct Ha as [(c & Bc & Ec & Es & Ac)|[(Hs & Hb)|Hab]].
    - assert (a < lo \/ hi <= a \/ lo <= b_addr c < hi) as [?|[?|Hr]] by lia; auto.
      rewrite (Hfree c Bc Hr) in Ac. discriminate.
    - left. specialize (Hb ylo Bylo). lia.
    - right. specialize (Hab yhi Byhi). lia. }
  apply (keeps_trans _ (st_mem st3)).
  - apply (region_keeps st2 B _ lo hi a s HM S); [exists ylo; auto|exact Ha|].
    destruct Hout; [left|right]; lia.
  - assert (Br : B' r) by (right; reflexivity).
    apply (add_keeps st3 B' L2 r merge_region Br eq_refl merge_not_listed a s).
    destruct Ha as [(c & Bc & Ec & Es & Ac)|[(Hs & Hb)|Hab]].
    + left. exists c. split; [|auto]. left. split; [exact Bc|lia].
    + right. left. split; [exact Hs|].
      intros c [[Bc _]| <-]; [apply Hb; exact Bc|]. cbn [b_addr r]. rewrite <- Elo.
      apply Hb. exact Bylo.
    + right. right. intros c [[Bc _]| <-]; [apply Hab; exact Bc|].
      cbn [b_addr r]. rewrite <- Elo. apply Hab. exact Bylo.
Qed.
End Merge.

(** * Removing several blocks, then merging them *)

Lemma remove_chain B (bl : list blk) : forall st L,
  hinv st B L ->
  (forall c, In c bl -> B c /\ b_alloc c = false /\
                        In (b_addr c) (L (get_seglist_ind (b_size c)))) ->
  NoDup (map b_addr bl) ->
  let st' := fold_left remove_from_free (map b_addr bl) st in
  exists L',
    hinv st' B L' /\
    (forall j y, 0 <= j < 15 -> (In y (L' j) <-> In y (L j) /\ ~ In y (map b_addr bl))) /\
    mem_heap_lo st' = mem_heap_lo st /\ mem_brk st' = mem_brk st /\
    mem_max_addr st' = mem_max_addr st /\ heap_start st' = heap_start st.
Proof.
  induction bl as [|c bl IH]; intros st L HI Hbl ND; cbn [map fold_left].
  - exists L. cbn. split; [exact HI|]. split; [intros j y Hj; tauto|auto].
  - destruct (Hbl c (or_introl eq_refl)) as (Bc & Fc & Ic).
    destruct (hinv_remove_in st B L c HI Bc Fc Ic) as (L1 & HI1 & HL1).
    destruct (remove_from_free_fields st (b_addr c)) as (F1 & F2 & F3 & F4).
    inversion ND as [|? ? Hni ND']; subst.
    destruct (IH (remove_from_free st (b_addr c)) L1 HI1) as (L' & HI' & HL' & G1 & G2 & G3 & G4);
      auto.
    { intros d Hd. destruct (Hbl d (or_intror Hd)) as (Bd & Fd & Id).
      repeat split; auto. apply HL1.
      - apply get_seglist_ind_range.
        pose proof (hmem_addr _ _ (hinv_hmem _ _ _ HI) d Bd) as (? & ? & ? & ? & _). lia.
      - split; auto. intros E. apply Hni. rewrite <- E. apply in_map. assumption. }
    exists L'. split; [exact HI'|]. split; [|repeat split; congruence].
    intros j y Hj. rewrite (HL' j y Hj), (HL1 j y Hj). cbn. intuition.
Qed.

Lemma remove_chain_keeps B (bl : list blk) : forall st L,
  hinv st B L ->
  (forall c, In c bl -> B c /\ b_alloc c = false /\
                        In (b_addr c) (L (get_seglist_ind (b_size c)))) ->
  NoDup (map b_addr bl) ->
  forall a s, guarded B a s ->
  keeps (st_mem st) (st_mem (fold_left remove_from_free (map b_addr bl) st)) a s.
Proof.
  induction bl as [|c bl IH]; intros st L HI Hbl ND a s Ha; cbn [map fold_left].
  - apply keeps_refl.
  - destruct (Hbl c (or_introl eq_refl)) as (Bc & Fc & Ic).
    destruct (hinv_remove_in st B L c HI Bc Fc Ic) as (L1 & HI1 & HL1).
    inversion ND as [|? ? Hni ND']; subst.
    apply (keeps_trans _ (st_mem (remove_from_free st (b_addr c)))).
    + apply (remove_keeps st B L c a s HI Bc Fc Ic Ha).
    + apply (IH (remove_from_free st (b_addr c)) L1 HI1); auto.
      intros d Hd. destruct (Hbl d (or_intror Hd)) as (Bd & Fd & Id).
      repeat split; auto. apply HL1.
      * apply get_seglist_ind_range.
        pose proof (hmem_addr _ _ (hinv_hmem _ _ _ HI) d Bd) as (? & ? & ? & ? & _). lia.
      * split; auto. intros E. apply Hni. rewrite <- E. apply in_map. assumption.
Qed.

Section CoalesceMerge.
Variables (st : state) (B : blk -> Prop) (L : Z -> list Z) (bx : blk).
Variables (lo hi : Z) (ylo yhi : blk) (bl : list blk).
Hypothesis HS : semi_ok st B L bx.
Hypothesis Hylo : B ylo /\ b_addr ylo = lo /\ b_pa ylo = true.
Hypothesis Hyhi : B yhi /\ b_addr yhi = hi /\ b_alloc yhi = true.
Hypothesis Hx : lo <= b_addr bx /\ b_addr bx + b_size bx <= hi.
Hypothesis Hbl : forall c, In c bl -> B c /\ b_alloc c = false /\ lo <= b_addr c < hi.
Hypothesis Hcov : forall c, B c -> lo <= b_addr c < hi -> In c bl.
Hypothesis Hnd : NoDup (map b_addr bl).

Lemma coalesce_merge :
  let st2 := fold_left remove_from_free (map b_addr bl) st in
  let st' := add_to_free (set_mem st2 (write_block (st_mem st2) lo (hi - lo) false true)) lo in
  exists B' L' r,
    b_addr r = lo /\ b_size r = hi - lo /\
    coalesced st' B' L' r /\
    (forall c, b_addr c < lo \/ hi <= b_addr c -> (B' c <-> B c)) /\
    (forall c, B c -> b_alloc c = true -> B' c) /\
    mem_heap_lo st' = mem_heap_lo st /\ mem_brk st' = mem_brk st /\
    mem_max_addr st' = mem_max_addr st /\ heap_start st' = heap_start st /\
    (forall a s, guarded B a s -> keeps (st_mem st) (st_mem st') a s).
Proof.
  intros st2 st'.
  pose proof (so_inv _ _ _ _ HS) as HI. pose proof (so_all _ _ _ _ HS) as AL.
  destruct (remove_chain B bl st L HI) as (L2 & HI2 & HL2 & G1 & G2 & G3 & G4); auto.
  { intros c Hc. destruct (Hbl c Hc) as (Bc & Fc & _). auto. }
  fold st2 in HI2, G1, G2, G3, G4.
  assert (HL2' : forall j y, 0 <= j < 15 ->
            (In y (L2 j) <-> In y (L j) /\ (y < lo \/ hi <= y))).
  { intros j y Hj. rewrite (HL2 j y Hj). split; intros [Hy Ho]; split; auto.
    - assert (y < lo \/ hi <= y \/ lo <= y < hi) as [?|[?|Hr]] by lia; auto.
      exfalso. apply Ho.
      destruct (hi_in _ _ _ HI j y Hj Hy) as (c & Bc & Ec & _). subst y.
      apply in_map. apply Hcov; auto.
    - intros Hin. apply in_map_iff in Hin. destruct Hin as (c & Ec & Hc).
      destruct (Hbl c Hc) as (_ & _ & ?). lia. }
  destruct (merge_ok st B L bx lo hi ylo yhi st2 L2 HS Hylo Hyhi Hx) as (L' & HC & Hout & Hal);
    auto.
  { intros c Bc Hr. apply (Hbl c). apply Hcov; auto. }
  exists (bregion B lo hi (eq (mkBlk lo (hi - lo) false true))), L',
    (mkBlk lo (hi - lo) false true).
  destruct (add_to_free_fields
              (set_mem st2 (write_block (st_mem st2) lo (hi - lo) false true)) lo)
    as (A1 & A2 & A3 & A4).
  cbn [set_mem mem_heap_lo mem_brk mem_max_addr heap_start] in A1, A2, A3, A4.
  split; [reflexivity|]. split; [reflexivity|]. split; [exact HC|].
  split; [exact Hout|]. split; [exact Hal|].
  unfold st'. split; [congruence|]. split; [congruence|]. split; [congruence|].
  split; [congruence|].
  intros a s Ha. apply (keeps_trans _ (st_mem st2)).
  - apply (remove_chain_keeps B bl st L HI); auto.
    intros c Hc. destruct (Hbl c Hc) as (Bc & Fc & _). auto.
  - apply (merge_keeps st B L bx lo hi ylo yhi st2 L2 HS Hylo Hyhi Hx); auto.
    intros c Bc Hr. apply (Hbl c). apply Hcov; auto.
Qed.
End CoalesceMerge.

Lemma fold_left_2 {A E : Type} (f : A -> E -> A) s a b :
  fold_left f [a; b] s = f (f s a) b.
Proof. reflexivity. Qed.

Lemma fold_left_3 {A E : Type} (f : A -> E -> A) s a b c :
  fold_left f [a; b; c] s = f (f (f s a) b) c.
Proof. reflexivity. Qed.

(** * [coalesce_block] *)

Section Coalesce.
Variables (st : state) (B : blk -> Prop) (L : Z -> list Z) (bx : blk).
Hypothesis HS : semi_ok st B L bx.

Let x := b_addr bx.
Let s := b_size bx.
Let m := st_mem st.

Lemma co_HI : hinv st B L.
Proof. apply (so_inv _ _ _ _ HS). Qed.

Lemma co_HM : hmem st B.
Proof. apply (hinv_hmem _ _ _ co_HI). Qed.

Lemma co_bx :
  B bx /\ b_alloc bx = false /\ 8 < x /\ x + s + 8 <= mem_brk st /\ mem_brk st < 2 ^ 64 /\
  16 <= s /\ s mod 16 = 0 /\ get_size m x = s /\ get_prev_alloc m x = b_pa bx /\
  find_next m x = x + s /\ In x (L (get_seglist_ind s)).
Proof.
  destruct (so_x _ _ _ _ HS) as (Bx & Fx).
  pose proof (hmem_addr _ _ co_HM bx Bx) as (? & ? & ? & ? & ? & ? & ? & Hs).
  specialize (Hs Fx). pose proof (hi_mem _ _ _ co_HI bx Bx) as Hok.
  repeat split; auto; try lia.
  - apply (blk_get_size _ _ Hok).
  - apply (blk_get_prev_alloc _ _ Hok).
  - apply (find_next_spec _ _ _ co_HI bx Bx).
  - apply (so_all _ _ _ _ HS bx Bx Fx).
Qed.

Lemma co_free_block c :
  B c -> b_alloc c = false ->
  16 <= b_size c /\ b_size c mod 16 = 0 /\ get_size m (b_addr c) = b_size c /\
  In (b_addr c) (L (get_seglist_ind (b_size c))) /\
  (b_addr c <> x -> b_pa c = true) /\ b_addr c + b_size c + 8 <= mem_brk st.
Proof.
  intros Bc Fc.
  pose proof (hmem_addr _ _ co_HM c Bc) as (? & ? & ? & ? & ? & ? & ? & Hs).
  specialize (Hs Fc). repeat split; try lia.
  - apply (blk_get_size _ _ (hi_mem _ _ _ co_HI c Bc)).
  - apply (so_all _ _ _ _ HS c Bc Fc).
  - intros Hne. apply (so_nf _ _ _ _ HS c Bc Fc Hne).
Qed.

Lemma co_next_block :
  exists n, B n /\ b_addr n = x + s /\ get_alloc m (x + s) = b_alloc n /\
    (b_alloc n = false ->
       exists n2, B n2 /\ b_addr n2 = b_addr n + b_size n /\ b_alloc n2 = true).
Proof.
  destruct co_bx as (Bx & Fx & ? & ? & ? & ? & ? & _).
  pose proof (hi_lay _ _ _ co_HI) as Hlay.
  destruct (lay_next _ _ _ Hlay bx Bx ltac:(fold x s; lia)) as (n & Bn & En).
  exists n. fold x s in En. split; [exact Bn|]. split; [exact En|]. split.
  - rewrite <- En. apply (blk_get_alloc _ _ (hi_mem _ _ _ co_HI n Bn)).
  - intros Fn. destruct (co_free_block n Bn Fn) as (? & ? & _ & _ & Pn & ?).
    destruct (lay_next _ _ _ Hlay n Bn ltac:(lia)) as (n2 & Bn2 & En2).
    exists n2. split; [exact Bn2|]. split; [exact En2|].
    destruct (so_pa _ _ _ _ HS) as (PA1 & _).
    pose proof (PA1 n n2 Bn Bn2 ltac:(lia) ltac:(lia) ltac:(fold x; lia)) as E.
    destruct (b_alloc n2) eqn:A2; [reflexivity|].
    pose proof (so_nf _ _ _ _ HS n2 Bn2 A2 ltac:(fold x; lia)). congruence.
Qed.

Lemma co_prev_block :
  b_pa bx = false ->
  exists p, B p /\ b_addr p + b_size p = x /\ b_alloc p = false /\ b_pa p = true /\
            find_prev m x = b_addr p.
Proof.
  intros Pf. destruct co_bx as (Bx & Fx & ? & ? & ? & ? & ? & _).
  pose proof (hi_lay _ _ _ co_HI) as Hlay.
  destruct (so_pa _ _ _ _ HS) as (PA1 & PA2).
  assert (Hne : b_addr bx <> heap_start st).
  { intros E. rewrite (PA2 bx Bx E) in Pf. discriminate. }
  destruct (lay_prev _ _ _ Hlay bx Bx Hne) as (p & Bp & Ep & Lp).
  assert (Fp : b_alloc p = false).
  { rewrite <- (PA1 p bx Bp Bx Ep Lp ltac:(lia)). exact Pf. }
  destruct (co_free_block p Bp Fp) as (? & ? & _ & Ip & Pp & _).
  exists p. repeat split; auto. 
  - apply Pp. fold x. lia.
  - eapply (find_prev_spec _ _ _ co_HI bx p); eauto.
    apply get_seglist_ind_range.
    pose proof (hmem_addr _ _ co_HM p Bp) as (? & ? & ? & ? & _). lia.
Qed.

Lemma co_from_merge lo hi st' :
  lo <= x -> x + s <= hi ->
  (exists B' L' r,
    b_addr r = lo /\ b_size r = hi - lo /\
    coalesced st' B' L' r /\
    (forall c, b_addr c < lo \/ hi <= b_addr c -> (B' c <-> B c)) /\
    (forall c, B c -> b_alloc c = true -> B' c) /\
    mem_heap_lo st' = mem_heap_lo st /\ mem_brk st' = mem_brk st /\
    mem_max_addr st' = mem_max_addr st /\ heap_start st' = heap_start st /\
    (forall a0 s0, guarded B a0 s0 -> keeps (st_mem st) (st_mem st') a0 s0)) ->
  co_post st B bx lo st' /\
  (forall a0 s0, guarded B a0 s0 -> keeps (st_mem st) (st_mem st') a0 s0).
Proof.
  intros Hlo Hhi (B' & L' & r & Ea & Es & HC & Hout & Hal & F1 & F2 & F3 & F4 & K).
  split; [|exact K].
  exists B', L', r. rewrite Ea, Es. fold x s.
  split; [reflexivity|]. split; [exact HC|]. split; [lia|]. split; [lia|].
  split; [|split; [exact Hal|auto]].
  intros c Hc. apply Hout. lia.
Qed.

Lemma coalesce_none :
  b_pa bx = true -> (forall n, B n -> b_addr n = x + s -> b_alloc n = true) ->
  co_post st B bx x st /\
  (forall a0 s0, guarded B a0 s0 -> keeps (st_mem st) (st_mem st) a0 s0).
Proof.
  intros Pt Hn. destruct co_bx as (Bx & Fx & _).
  split; [|intros a0 s0 _; apply keeps_refl].
  exists B, L, bx. split; [reflexivity|]. split.
  - constructor.
    + apply co_HI.
    + apply (so_all _ _ _ _ HS).
    + apply (so_pa _ _ _ _ HS).
    + intros c Bc Fc. destruct (Z.eq_dec (b_addr c) (b_addr bx)) as [E|E].
      * assert (c = bx) by (eapply hmem_same; eauto using co_HM). subst c. exact Pt.
      * apply (so_nf _ _ _ _ HS c Bc Fc E).
    + auto.
    + exact Hn.
  - fold x s. repeat split; auto; try lia; tauto.
Qed.
End Coalesce.

Lemma coalesce_full st B L bx :
  semi_ok st B L bx ->
  co_post st B bx (fst (coalesce_block st (b_addr bx))) (snd (coalesce_block st (b_addr bx))) /\
  (forall a s, guarded B a s ->
     keeps (st_mem st) (st_mem (snd (coalesce_block st (b_addr bx)))) a s).
Proof.
  intros HS.
  destruct (co_bx st B L bx HS) as (Bx & Fx & Hx1 & Hx2 & Hx3 & Hs1 & Hs2 & Gs & Gp & Gn & Ix).
  destruct (co_next_block st B L bx HS) as (n & Bn & En & Ga & Hn2).
  pose proof (co_HM st B L bx HS) as HM.
  unfold coalesce_block. rewrite Gp, Gn, Ga.
  destruct (b_alloc n) eqn:An, (b_pa bx) eqn:Pb; cbn [negb andb fst snd].
  - (* both neighbours allocated *)
    apply (coalesce_none st B L bx HS Pb). intros n' Bn' En'.
    assert (n' = n) by (eapply hmem_same; eauto; lia). subst n'. exact An.
  - (* previous free, next allocated *)
    destruct (co_prev_block st B L bx HS Pb) as (p & Bp & Ep & Fp & Pp & Gf).
    destruct (co_free_block st B L bx HS p Bp Fp) as (Hp1 & Hp2 & Gsp & Ip & _ & _).
    pose proof (hmem_addr _ _ HM p Bp) as (? & _).
    rewrite Gf, Gs, Gsp. rewrite (wrap_small (b_size bx + b_size p)) by lia.
    replace (b_size bx + b_size p) with (b_addr bx + b_size bx - b_addr p) by lia.
    apply co_from_merge with (hi := (b_addr bx + b_size bx)); [lia|lia|].
    pose proof (coalesce_merge st B L bx (b_addr p) (b_addr bx + b_size bx) p n [p; bx] HS)
      as Hm.
    cbv zeta in Hm. cbn [map] in Hm. rewrite fold_left_2 in Hm.
    apply Hm; auto; try (repeat split; auto; lia).
    + intros c [<-|[<-|[]]]; repeat split; auto; lia.
    + intros c Bc Hr.
      assert (b_addr c < b_addr bx \/ b_addr bx <= b_addr c) as [Hc|Hc] by lia.
      * left. symmetry. apply (hmem_in_range st B c p HM Bc Bp). lia.
      * right. left. symmetry. apply (hmem_in_range st B c bx HM Bc Bx). lia.
    + cbn. constructor; [cbn; intros [E|[]]; lia|]. constructor; [intros []|constructor].
  - (* previous allocated, next free *)
    destruct (Hn2 eq_refl) as (n2 & Bn2 & En2 & An2).
    destruct (co_free_block st B L bx HS n Bn An) as (Hn1 & Hn3 & Gsn & In_ & _ & Hn4).
    rewrite En in Gsn. rewrite Gs, Gsn. rewrite (wrap_small (b_size n + b_size bx)) by lia.
    replace (b_size n + b_size bx) with (b_addr n + b_size n - b_addr bx) by lia.
    rewrite <- En.
    apply co_from_merge with (hi := (b_addr n + b_size n)); [lia|lia|].
    pose proof (coalesce_merge st B L bx (b_addr bx) (b_addr n + b_size n) bx n2 [n; bx] HS)
      as Hm.
    cbv zeta in Hm. cbn [map] in Hm. rewrite fold_left_2 in Hm.
    apply Hm; auto; try (repeat split; auto; lia).
    + intros c [<-|[<-|[]]]; repeat split; auto; lia.
    + intros c Bc Hr.
      assert (b_addr c < b_addr n \/ b_addr n <= b_addr c) as [Hc|Hc] by lia.
      * right. left. symmetry. apply (hmem_in_range st B c bx HM Bc Bx). lia.
      * left. symmetry. apply (hmem_in_range st B c n HM Bc Bn). lia.
    + cbn. constructor; [cbn; intros [E|[]]; lia|]. constructor; [intros []|constructor].
  - (* both neighbours free *)
    destruct (Hn2 eq_refl) as (n2 & Bn2 & En2 & An2).
    destruct (co_free_block st B L bx HS n Bn An) as (Hn1 & Hn3 & Gsn & In_ & _ & Hn4).
    destruct (co_prev_block st B L bx HS Pb) as (p & Bp & Ep & Fp & Pp & Gf).
    destruct (co_free_block st B L bx HS p Bp Fp) as (Hp1 & Hp2 & Gsp & Ip & _ & _).
    pose proof (hmem_addr _ _ HM p Bp) as (? & _).
    rewrite En in Gsn. rewrite Gf, Gs, Gsn, Gsp.
    rewrite (wrap_small (b_size p + b_size bx)) by lia.
    rewrite (wrap_small (b_size p + b_size bx + b_size n)) by lia.
    replace (b_size p + b_size bx + b_size n) with (b_addr n + b_size n - b_addr p) by lia.
    rewrite <- En.
    apply co_from_merge with (hi := (b_addr n + b_size n)); [lia|lia|].
    pose proof (coalesce_merge st B L bx (b_addr p) (b_addr n + b_size n) p n2 [p; n; bx] HS)
      as Hm.
    cbv zeta in Hm. cbn [map] in Hm. rewrite fold_left_3 in Hm.
    apply Hm; auto; try (repeat split; auto; lia).
    + intros c [<-|[<-|[<-|[]]]]; repeat split; auto; lia.
    + intros c Bc Hr.
      assert (b_addr c < b_addr bx \/ b_addr bx <= b_addr c < b_addr n \/
              b_addr n <= b_addr c) as [Hc|[Hc|Hc]] by lia.
      * left. symmetry. apply (hmem_in_range st B c p HM Bc Bp). lia.
      * right. right. left. symmetry. apply (hmem_in_range st B c bx HM Bc Bx). lia.
      * right. left. symmetry. apply (hmem_in_range st B c n HM Bc Bn). lia.
    + cbn. constructor; [cbn; intros [E|[E|[]]]; lia|].
      constructor; [cbn; intros [E|[]]; lia|]. constructor; [intros []|constructor].
Qed.

Lemma coalesce_spec st B L bx :
  semi_ok st B L bx ->
  co_post st B bx (fst (coalesce_block st (b_addr bx))) (snd (coalesce_block st (b_addr bx))).
Proof. intros HS. apply (coalesce_full st B L bx HS). Qed.

(** [coalesce_block] leaves the payloads of the allocated blocks. *)
Lemma coalesce_keeps st B L bx a s :
  semi_ok st B L bx -> guarded B a s ->
  keeps (st_mem st) (st_mem (snd (coalesce_block st (b_addr bx)))) a s.
Proof. intros HS. apply (coalesce_full st B L bx HS). Qed.

(** * [update_next] after coalescing *)

Lemma hmem_same_end st B p r :
  hmem st B -> B p -> B r -> 0 < b_size p -> 0 < b_size r ->
  b_addr p + b_size p = b_addr r + b_size r -> p = r.
Proof.
  intros HM Bp Br Hp Hr E. eapply hmem_same; eauto.
  destruct (Z.eq_dec (b_addr p) (b_addr r)) as [Ea|Ea]; [assumption|].
  destruct (hmem_sep _ _ HM p r Bp Br Ea) as [[? ?]|[? ?]]; lia.
Qed.

Lemma update_next_free st B L r :
  coalesced st B L r ->
  exists B',
    hinv (set_mem st (update_next (st_mem st) (b_addr r) false)) B' L /\
    (forall p n, B' p -> B' n -> b_addr p + b_size p = b_addr n ->
                 b_addr p < b_addr n -> b_pa n = b_alloc p) /\
    (forall b, B' b -> b_addr b = heap_start st -> b_pa b = true) /\
    (forall b, B' b -> b_alloc b = false -> b_pa b = true) /\
    all_listed B' L /\
    (forall c, B c -> b_alloc c = true ->
               exists c', B' c' /\ b_addr c' = b_addr c /\ b_alloc c' = true /\
                          b_size c' = b_size c) /\
    (forall c, B' c -> exists c0, B c0 /\ b_addr c0 = b_addr c /\ b_size c0 = b_size c /\
                                  b_alloc c0 = b_alloc c) /\
    B' r.
Proof.
  intros HC. destruct HC as [HI AL [PA1 PA2] NF (Br & Fr & Pr) Hnx].
  pose proof (hinv_hmem _ _ _ HI) as HM.
  pose proof (hmem_addr _ _ HM r Br) as (? & ? & ? & ? & ? & ? & ? & Hs).
  specialize (Hs Fr).
  destruct (lay_next _ _ _ (hi_lay _ _ _ HI) r Br ltac:(lia)) as (n & Bn & En).
  pose proof (Hnx n Bn En) as An.
  set (n' := mkBlk (b_addr n) (b_size n) (b_alloc n) false).
  set (B' := breplace B n').
  unfold update_next. rewrite (find_next_spec _ _ _ HI r Br), <- En.
  pose proof (hinv_set_pa st B L n false HI Bn) as HI1. fold n' B' in HI1.
  set (m1 := set_prev_alloc (st_mem st) (b_addr n) false) in *.
  assert (Br' : B' r) by (left; split; auto; cbn; lia).
  assert (Hold : forall c, B' c -> c = n' \/ (B c /\ b_addr c <> b_addr n)).
  { intros c [[Bc Hc]| ->]; [right; auto|left; reflexivity]. }
  exists B'. split; [|split; [|split; [|split; [|split; [|split; [|split; [|exact Br']]]]]]].
  - cbn [negb andb].
    replace (get_mini m1 (b_addr r)) with (b_size r =? 16)
      by (symmetry; apply (blk_get_mini _ _ (hi_mem _ _ _ HI1 r Br'))).
    destruct (Z.eqb_spec (b_size r) 16) as [E|E]; cbn [negb]; [exact HI1|].
    apply (hinv_write_footer _ B' L r HI1 Br' Fr E).
  - intros p0 n0 Hp0 Hn0 Ea Hlt.
    destruct (Hold n0 Hn0) as [->|(Bn0 & Nn0)]; destruct (Hold p0 Hp0) as [->|(Bp0 & Np0)];
      cbn [b_addr b_size b_alloc b_pa n'] in *; try lia.
    + assert (p0 = r); [|subst p0; congruence].
      pose proof (hmem_addr _ _ HM p0 Bp0) as (? & ? & ? & ? & _).
      apply (hmem_same_end st B p0 r HM Bp0 Br); lia.
    + apply (PA1 n n0 Bn Bn0 Ea Hlt). lia.
    + apply (PA1 p0 n0 Bp0 Bn0 Ea Hlt). intros E.
      assert (p0 = r) by (eapply hmem_same; eauto). subst p0. lia.
  - intros c Hc Ec. destruct (Hold c Hc) as [->|(Bc & Nc)]; [cbn in Ec; lia|].
    apply PA2; auto.
  - intros c Hc Fc. destruct (Hold c Hc) as [->|(Bc & Nc)]; [cbn in Fc; congruence|].
    apply NF; auto.
  - intros c Hc Fc. destruct (Hold c Hc) as [->|(Bc & Nc)]; [cbn in Fc; congruence|].
    apply AL; auto.
  - intros c Bc Ac. destruct (Z.eq_dec (b_addr c) (b_addr n)) as [E|E].
    + assert (c = n) by (eapply hmem_same; eauto). subst c.
      exists n'. split; [right; reflexivity|]. split; [reflexivity|]. split; [exact An|reflexivity].
    + exists c. split; [left; split; auto|auto].
  - intros c Hc. destruct (Hold c Hc) as [->|(Bc & Nc)].
    + exists n. auto.
    + exists c. auto.
Qed.

Lemma update_next_keeps st B L r a s :
  coalesced st B L r -> guarded B a s ->
  keeps (st_mem st) (update_next (st_mem st) (b_addr r) false) a s.
Proof.
  intros HC Ha. destruct HC as [HI AL [PA1 PA2] NF (Br & Fr & Pr) Hnx].
  pose proof (hinv_hmem _ _ _ HI) as HM.
  pose proof (hmem_addr _ _ HM r Br) as (? & ? & ? & ? & ? & ? & ? & Hs).
  specialize (Hs Fr).
  destruct (lay_next _ _ _ (hi_lay _ _ _ HI) r Br ltac:(lia)) as (n & Bn & En).
  set (n' := mkBlk (b_addr n) (b_size n) (b_alloc n) false).
  unfold update_next. rewrite (find_next_spec _ _ _ HI r Br), <- En.
  pose proof (hinv_set_pa st B L n false HI Bn) as HI1. fold n' in HI1.
  pose proof (set_pa_keeps st B n false a s HM Bn Ha) as K1.
  set (m1 := set_prev_alloc (st_mem st) (b_addr n) false) in *.
  assert (Br' : breplace B n' r) by (left; split; auto; cbn; lia).
  cbn [negb andb].
  replace (get_mini m1 (b_addr r)) with (b_size r =? 16)
    by (symmetry; apply (blk_get_mini _ _ (hi_mem _ _ _ HI1 r Br'))).
  destruct (Z.eqb_spec (b_size r) 16) as [E|E]; cbn [negb]; [exact K1|].
  apply (keeps_trans _ m1); [exact K1|].
  apply (write_footer_keeps _ (breplace B n') L r a s HI1 Br' Fr E).
  apply (guarded_breplace B n n'); auto.
  intros c Bc Ec. apply (hmem_same _ _ HM); auto.
Qed.

(** * [free] *)

Lemma payload_header b st B :
  hmem st B -> B b ->
  payload_to_header (b_addr b + 8) = b_addr b /\ header_to_payload (b_addr b) = b_addr b + 8.
Proof.
  intros HM Bb. pose proof (hmem_addr _ _ HM b Bb) as (? & ? & ? & ? & _).
  unfold payload_to_header, header_to_payload, off_payload.
  split; [replace (b_addr b + 8 - 8) with (b_addr b) by lia|]; apply wrap_small; lia.
Qed.

Section Free.
Variables (st : state) (B : blk -> Prop) (L : Z -> list Z) (b : blk).
Hypothesis HI : hinv st B L.
Hypothesis PA : pa_except B (heap_start st) 0.
Hypothesis NF : forall c, B c -> b_alloc c = false -> b_pa c = true.
Hypothesis AL : all_listed B L.
Hypothesis Bb : B b.
Hypothesis Ab : b_alloc b = true.
Hypothesis Hreal : b_addr b < mem_brk st - 8.

Let x := b_addr b.
Let s := b_size b.
Let b1 := mkBlk x s false (b_pa b).
Let B1 := bregion B x (x + s) (eq b1).
Let st1 := set_mem st (write_block (st_mem st) x s false (b_pa b)).

Lemma free_geom :
  8 < x /\ x + s + 8 <= mem_brk st /\ mem_brk st < 2 ^ 64 /\ 16 <= s /\ s mod 16 = 0 /\
  x mod 16 = 8.
Proof.
  pose proof (hmem_addr _ _ (hinv_hmem _ _ _ HI) b Bb) as (? & ? & ? & ? & ? & ? & Hs & _).
  specialize (Hs Hreal). unfold x, s. repeat split; lia.
Qed.

Lemma free_not_listed j y : 0 <= j < 15 -> In y (L j) -> y < x \/ x + s <= y.
Proof.
  intros Hj Hy. destruct (hi_in _ _ _ HI j y Hj Hy) as (c & Bc & Ec & Fc & _).
  assert (y < x \/ x + s <= y \/ x <= y < x + s) as [?|[?|Hr]] by lia; auto.
  assert (c = b) by (apply (hmem_in_range st B c b (hinv_hmem _ _ _ HI) Bc Bb); fold x s; lia).
  subst c. congruence.
Qed.

Lemma free_region : hinv st1 B1 L.
Proof.
  destruct free_geom as (? & ? & ? & ? & ? & ?).
  destruct (lay_next _ _ _ (hi_lay _ _ _ HI) b Bb Hreal) as (n & Bn & En). fold x s in En.
  destruct (write_block_spec (st_mem st) x s false (b_pa b)
              ltac:(lia) ltac:(lia) ltac:(lia) ltac:(lia)) as [S Hok].
  apply (hinv_region st B L x (x + s) (eq b1) b n); auto; try lia.
  - apply free_not_listed.
  - intros c <-. cbn. repeat split; lia.
  - intros c <-. exact Hok.
  - intros c1 c2 <- <-. lia.
  - intros c1 c2 <- <-. reflexivity.
  - intros c <-. left. reflexivity.
  - intros c <-. left. reflexivity.
  - exists b1. split; reflexivity.
  - exists b1. split; reflexivity.
Qed.

Lemma free_semi :
  exists L2, semi_ok (add_to_free st1 x) B1 L2 b1.
Proof.
  destruct free_geom as (? & ? & ? & ? & ? & ?). destruct PA as (PA1 & PA2).
  assert (Bb1 : B1 b1) by (right; reflexivity).
  assert (Hni : forall j, 0 <= j < 15 -> ~ In (b_addr b1) (L j)).
  { intros j Hj Hin. destruct (free_not_listed j _ Hj Hin); cbn in *; lia. }
  destruct (hinv_add_in st1 B1 L b1 free_region Bb1 eq_refl Hni) as (L2 & HI2 & HL2 & _).
  assert (Hold : forall c, B1 c -> c = b1 \/ (B c /\ (b_addr c < x \/ x + s <= b_addr c))).
  { intros c [[Bc Hc]| <-]; [right; auto|left; reflexivity]. }
  exists L2. constructor.
  - exact HI2.
  - intros c Hc Fc. apply HL2.
    { apply get_seglist_ind_range.
      pose proof (hmem_addr _ _ (hinv_hmem _ _ _ HI2) c Hc) as (? & ? & ? & ? & _). lia. }
    destruct (Hold c Hc) as [->|(Bc & Oc)]; [right; split; reflexivity|].
    left. apply AL; auto.
  - rewrite (proj2 (proj2 (proj2 (add_to_free_fields st1 x)))).
    change (heap_start st1) with (heap_start st). change (b_addr b1) with x. split.
    + intros p0 n0 Hp0 Hn0 Ea Hlt Hne.
      destruct (Hold p0 Hp0) as [->|(Bp0 & Op0)]; [cbn in Hne; lia|].
      pose proof (hmem_addr _ _ (hinv_hmem _ _ _ HI) p0 Bp0) as (? & _).
      destruct (Hold n0 Hn0) as [->|(Bn0 & On0)].
      * cbn [b_addr b_pa b1] in *. apply (PA1 p0 b Bp0 Bb); fold x; lia.
      * apply (PA1 p0 n0 Bp0 Bn0); lia.
    + intros c Hc Ec. destruct (Hold c Hc) as [->|(Bc & Oc)].
      * cbn [b_addr b_pa b1] in *. apply (PA2 b Bb). exact Ec.
      * apply PA2; auto.
  - intros c Hc Fc Hne. destruct (Hold c Hc) as [->|(Bc & Oc)]; [cbn in Hne; lia|].
    apply NF; auto.
  - split; [exact Bb1|reflexivity].
Qed.
End Free.

Lemma NoDup_remove_elt (x : Z) l : NoDup l -> NoDup (remove Z.eq_dec x l).
Proof.
  induction 1 as [|a l Hni ND IH]; cbn; [constructor|].
  destruct (Z.eq_dec x a); [assumption|].
  constructor; [|assumption]. intros Hin. apply in_remove in Hin. tauto.
Qed.

Lemma free_null st : free 0 st = st.
Proof. reflexivity. Qed.

(** [free] of a live pointer: the invariant holds again, the bytes of the
    block released lie in a free block, and the arena is the same. *)
Lemma free_full st live B L p :
  heap_inv st live B L -> In p live ->
  exists B'' L'' r,
    heap_inv (free p st) (remove Z.eq_dec p live) B'' L'' /\
    (B'' r /\ b_alloc r = false /\
     b_addr r <= payload_to_header p /\
     payload_to_header p + get_size (st_mem st) (payload_to_header p)
       <= b_addr r + b_size r) /\
    mem_heap_lo (free p st) = mem_heap_lo st /\ mem_brk (free p st) = mem_brk st /\
    mem_max_addr (free p st) = mem_max_addr st /\ heap_start (free p st) = heap_start st.
Proof.
  intros (HI & PA1 & PA2 & NF & AL & LV & ND) Hp.
  destruct (LV p Hp) as (b & Bb & Eb & Ab & Sb).
  pose proof (hinv_hmem _ _ _ HI) as HM.
  pose proof (hmem_addr _ _ HM b Bb) as (? & ? & ? & ? & ? & ? & ? & ?).
  assert (Hreal : b_addr b < mem_brk st - 8) by lia.
  destruct (payload_header b st B HM Bb) as [Eph _]. rewrite Eb in Eph.
  assert (PA : pa_except B (heap_start st) 0) by (split; auto).
  destruct (free_semi st B L b HI PA NF AL Bb Ab Hreal) as (L2 & HS).
  unfold free. destruct (Z.eqb_spec p 0) as [E0|_]; [lia|].
  rewrite Eph.
  rewrite (blk_get_size _ _ (hi_mem _ _ _ HI b Bb)).
  rewrite (blk_get_prev_alloc _ _ (hi_mem _ _ _ HI b Bb)).
  set (st1 := set_mem st (write_block (st_mem st) (b_addr b) (b_size b) false (b_pa b))) in *.
  set (b1 := mkBlk (b_addr b) (b_size b) false (b_pa b)) in *.
  pose proof (coalesce_spec _ _ _ _ HS) as HP. change (b_addr b1) with (b_addr b) in HP.
  destruct (coalesce_block (add_to_free st1 (b_addr b)) (b_addr b)) as [ra st3].
  cbn [fst snd] in HP.
  destruct HP as (B' & L' & r & Er & HC & Hr1 & Hr2 & Hout & Hal & F1 & F2 & F3 & F4).
  subst ra.
  destruct (update_next_free st3 B' L' r HC) as (B'' & HI'' & Q1 & Q2 & Q3 & Q4 & Q5 & _ & Br'').
  assert (FF : mem_heap_lo st3 = mem_heap_lo st /\ mem_brk st3 = mem_brk st /\
               mem_max_addr st3 = mem_max_addr st /\ heap_start st3 = heap_start st).
  { destruct (add_to_free_fields st1 (b_addr b)) as (A1 & A2 & A3 & A4).
    rewrite F1, F2, F3, F4, A1, A2, A3, A4. repeat split; reflexivity. }
  exists B'', L', r.
  split; [|split; [split; [exact Br''|split; [apply (co_r _ _ _ _ HC)|
                   split; [exact Hr1|exact Hr2]]]|exact FF]].
  split; [exact HI''|]. split; [exact Q1|]. split; [exact Q2|].
  split; [exact Q3|]. split; [exact Q4|]. split.
  - intros q Hq. apply in_remove in Hq. destruct Hq as [Hq Hne].
    destruct (LV q Hq) as (c & Bc & Ec & Ac & Sc).
    assert (Hb1 : bregion B (b_addr b) (b_addr b + b_size b) (eq b1) c).
    { left. split; auto.
      assert (b_addr c <> b_addr b) by lia.
      destruct (hmem_sep _ _ HM c b Bc Bb ltac:(assumption)) as [[? ?]|[? ?]]; lia. }
    specialize (Hal c Hb1 Ac).
    destruct (Q5 c Hal Ac) as (c' & Bc' & Ec' & Ac' & Sc').
    exists c'. repeat split; auto; lia.
  - apply NoDup_remove_elt. exact ND.
Qed.

Lemma free_ok st live p :
  heap_ok st live -> In p live -> heap_ok (free p st) (remove Z.eq_dec p live).
Proof.
  intros (B & L & HV) Hp. destruct (free_full st live B L p HV Hp) as (B'' & L'' & _ & HV' & _).
  exists B'', L''. exact HV'.
Qed.

(** [free] leaves the payloads of the other live pointers, bytes and size. *)
Lemma free_kept st live B L p :
  heap_inv st live B L -> In p live ->
  live_kept st (free p st) (remove Z.eq_dec p live).
Proof.
  intros (HI & PA1 & PA2 & NF & AL & LV & ND) Hp.
  destruct (LV p Hp) as (b & Bb & Eb & Ab & Sb).
  pose proof (hinv_hmem _ _ _ HI) as HM.
  pose proof (hmem_addr _ _ HM b Bb) as (? & ? & ? & ? & ? & ? & ? & ?).
  assert (Hreal : b_addr b < mem_brk st - 8) by lia.
  destruct (payload_header b st B HM Bb) as [Eph _]. rewrite Eb in Eph.
  assert (PA : pa_except B (heap_start st) 0) by (split; auto).
  destruct (free_semi st B L b HI PA NF AL Bb Ab Hreal) as (L2 & HS).
  pose proof (free_region st B L b HI Bb Ab Hreal) as HR.
  destruct (write_block_spec (st_mem st) (b_addr b) (b_size b) false (b_pa b)
              ltac:(lia) ltac:(lia) ltac:(lia) ltac:(lia)) as [S _].
  unfold free. destruct (Z.eqb_spec p 0) as [E0|_]; [lia|].
  rewrite Eph.
  rewrite (blk_get_size _ _ (hi_mem _ _ _ HI b Bb)).
  rewrite (blk_get_prev_alloc _ _ (hi_mem _ _ _ HI b Bb)).
  set (st1 := set_mem st (write_block (st_mem st) (b_addr b) (b_size b) false (b_pa b))) in *.
  set (b1 := mkBlk (b_addr b) (b_size b) false (b_pa b)) in *.
  set (B1 := bregion B (b_addr b) (b_addr b + b_size b) (eq b1)) in *.
  pose proof (coalesce_spec _ _ _ _ HS) as HP. change (b_addr b1) with (b_addr b) in HP.
  pose proof (fun a s => coalesce_keeps _ _ _ _ a s HS) as KC.
  change (b_addr b1) with (b_addr b) in KC.
  destruct (coalesce_block (add_to_free st1 (b_addr b)) (b_addr b)) as [ra st3].
  cbn [fst snd] in HP, KC.
  destruct HP as (B' & L' & r & Er & HC & Hr1 & Hr2 & Hout & Hal & F1 & F2 & F3 & F4).
  subst ra.
  destruct (update_next_free st3 B' L' r HC) as (B'' & HI'' & Q1 & Q2 & Q3 & Q4 & Q5 & _).
  intros q Hq. apply in_remove in Hq. destruct Hq as [Hq Hne].
  destruct (LV q Hq) as (c & Bc & Ec & Ac & Sc).
  pose proof (hmem_addr _ _ HM c Bc) as (? & ? & ? & ? & ? & ? & ? & ?).
  assert (Hcb : b_addr c <> b_addr b) by lia.
  assert (Hsep : b_addr c + b_size c <= b_addr b \/ b_addr b + b_size b <= b_addr c)
    by (destruct (hmem_sep _ _ HM c b Bc Bb Hcb) as [[? ?]|[? ?]]; lia).
  assert (Ha : guarded B (b_addr c) (b_size c)) by (left; exists c; auto).
  assert (Hb1 : B1 c) by (left; split; auto; lia).
  assert (Ha1 : guarded B1 (b_addr c) (b_size c)) by (left; exists c; auto).
  assert (Ha' : guarded B' (b_addr c) (b_size c)) by (left; exists c; auto).
  destruct (Q5 c (Hal c Hb1 Ac) Ac) as (c' & Bc' & Ec' & Ac' & Sc').
  destruct (payload_header c st B HM Bc) as [Ephc _]. rewrite Ec in Ephc.
  rewrite Ephc. cbn [st_mem set_mem].
  assert (Egs : get_payload_size (st_mem st) (b_addr c) = b_size c - 8).
  { unfold get_payload_size, wsize. rewrite (blk_get_size _ _ (hi_mem _ _ _ HI c Bc)).
    apply wrap_small. lia. }
  rewrite Egs. split.
  - unfold get_payload_size, wsize. rewrite <- Ec'.
    pose proof (blk_get_size _ _ (hi_mem _ _ _ HI'' c' Bc')) as G.
    cbn [st_mem set_mem] in G. rewrite G, Sc'. apply wrap_small. lia.
  - intros z Hz.
    assert (K1 : keeps (st_mem st) (st_mem st1) (b_addr c) (b_size c)).
    { apply (region_keeps st B _ _ _ _ _ HM S); [exists b; auto|exact Ha|lia]. }
    assert (K2 : keeps (st_mem st1) (st_mem (add_to_free st1 (b_addr b)))
                   (b_addr c) (b_size c)).
    { apply (add_keeps st1 B1 L b1 HR (or_intror eq_refl) eq_refl); [|exact Ha1].
      intros j Hj Hin. destruct (free_not_listed st B L b HI Bb Ab j _ Hj Hin); cbn in *; lia. }
    pose proof (KC _ _ Ha1) as K3.
    pose proof (update_next_keeps st3 B' L' r _ _ HC Ha') as K4.
    rewrite K4, K3, K2, K1 by lia. reflexivity.
Qed.

(** [free] of a live pointer keeps every guarded range but the payload it
    releases. *)
Lemma free_keeps st live B L p a s :
  heap_inv st live B L -> In p live -> guarded B a s -> a <> payload_to_header p ->
  keeps (st_mem st) (st_mem (free p st)) a s.
Proof.
  intros (HI & PA1 & PA2 & NF & AL & LV & ND) Hp Ha Hap.
  destruct (LV p Hp) as (b & Bb & Eb & Ab & Sb).
  pose proof (hinv_hmem _ _ _ HI) as HM.
  pose proof (hmem_addr _ _ HM b Bb) as (? & ? & ? & ? & ? & ? & ? & ?).
  assert (Hreal : b_addr b < mem_brk st - 8) by lia.
  destruct (payload_header b st B HM Bb) as [Eph _]. rewrite Eb in Eph.
  rewrite Eph in Hap.
  assert (PA : pa_except B (heap_start st) 0) by (split; auto).
  destruct (free_semi st B L b HI PA NF AL Bb Ab Hreal) as (L2 & HS).
  pose proof (free_region st B L b HI Bb Ab Hreal) as HR.
  destruct (write_block_spec (st_mem st) (b_addr b) (b_size b) false (b_pa b)
              ltac:(lia) ltac:(lia) ltac:(lia) ltac:(lia)) as [S _].
  unfold free. destruct (Z.eqb_spec p 0) as [E0|_]; [lia|].
  rewrite Eph.
  rewrite (blk_get_size _ _ (hi_mem _ _ _ HI b Bb)).
  rewrite (blk_get_prev_alloc _ _ (hi_mem _ _ _ HI b Bb)).
  set (st1 := set_mem st (write_block (st_mem st) (b_addr b) (b_size b) false (b_pa b))) in *.
  set (b1 := mkBlk (b_addr b) (b_size b) false (b_pa b)) in *.
  set (B1 := bregion B (b_addr b) (b_addr b + b_size b) (eq b1)) in *.
  pose proof (coalesce_spec _ _ _ _ HS) as HP. change (b_addr b1) with (b_addr b) in HP.
  pose proof (fun a s => coalesce_keeps _ _ _ _ a s HS) as KC.
  change (b_addr b1) with (b_addr b) in KC.
  pose proof (so_inv _ _ _ _ HS) as HIa.
  destruct (add_to_free_fields st1 (b_addr b)) as (_ & A2 & _ & A4).
  destruct (coalesce_block (add_to_free st1 (b_addr b)) (b_addr b)) as [ra st3].
  cbn [fst snd] in HP, KC.
  destruct HP as (B' & L' & r & Er & HC & Hr1 & Hr2 & Hout & Hal & F1 & F2 & F3 & F4).
  subst ra.
  assert (Hsep : a + s <= b_addr b /\ 16 <= s \/ b_addr b + b_size b <= a)
    by (apply (guarded_sep_real st B a s b HM Ha Bb Hreal); congruence).
  assert (Ha1 : guarded B1 a s).
  { apply (guarded_transfer st st1 B B1 a s HM (hinv_hmem _ _ _ HR) eq_refl eq_refl Ha).
    intros c Bc Ec Es Ac. exists c. split; [|auto]. left. split; [exact Bc|lia]. }
  assert (Ha' : guarded B' a s).
  { apply (guarded_transfer _ st3 B1 B' a s (hinv_hmem _ _ _ HIa)
             (hinv_hmem _ _ _ (co_inv _ _ _ _ HC)) F4 F2 Ha1).
    intros c Bc Ec Es Ac. exists c. split; [apply Hal; assumption|auto]. }
  cbn [st_mem set_mem].
  assert (K1 : keeps (st_mem st) (st_mem st1) a s).
  { apply (region_keeps st B _ _ _ _ _ HM S); [exists b; auto|exact Ha|lia]. }
  assert (K2 : keeps (st_mem st1) (st_mem (add_to_free st1 (b_addr b))) a s).
  { apply (add_keeps st1 B1 L b1 HR (or_intror eq_refl) eq_refl); [|exact Ha1].
    intros j Hj Hin. destruct (free_not_listed st B L b HI Bb Ab j _ Hj Hin); cbn in *; lia. }
  pose proof (KC _ _ Ha1) as K3.
  pose proof (update_next_keeps st3 B' L' r _ _ HC Ha') as K4.
  exact (keeps_trans _ _ _ _ _ (keeps_trans _ _ _ _ _ (keeps_trans _ _ _ _ _ K1 K2) K3) K4).
Qed.

(** * The fit finder *)

Lemma get_size_range m x : 0 <= get_size m x < 2 ^ 64.
Proof.
  unfold get_size. destruct (extract_mini _); [cbn; lia|].
  pose proof (load_range m x). rewrite extract_size_eq by assumption. lia.
Qed.

Lemma fwd_nil_root nx l : fwd nx 0 l -> l = [].
Proof. destruct l as [|y t]; [reflexivity|]. intros (E & N & _). congruence. Qed.

Lemma find_fit_scan_spec m asize l : forall c min checked,
  fwd (get_next_free m) c l ->
  exists r early,
    (forall fuel, (length l < fuel)%nat ->
       find_fit_scan fuel m asize c min checked = Some (r, early)) /\
    (r = min \/ (In r l /\ asize <= get_size m r)) /\
    (early = true -> r <> 0) /\
    (min <> 0 -> r <> 0) /\
    (r = 0 -> forall y, In y l -> get_size m y < asize).
Proof.
  induction l as [|y t IH]; intros c min checked Hf.
  - cbn in Hf. subst c. exists min, false. split; [|split; [|split; [|split]]].
    + intros [|k] Hk; [cbn in Hk; lia|reflexivity].
    + left; reflexivity.
    + discriminate.
    + auto.
    + intros _ z [].
  - destruct Hf as (-> & Ny & Hf).
    destruct (Z.leb_spec asize (get_size m y)) as [Hfit|Hno].
    + set (min1 := if min =? 0 then y else min).
      set (min2 := if get_size m y <? get_size m min1 then y else min1).
      assert (H2 : min2 <> 0 /\ (min2 = min \/ min2 = y)).
      { unfold min2, min1. destruct (Z.eqb_spec min 0); destruct (_ <? _); auto. }
      destruct H2 as (N2 & C2).
      destruct (checked >? max_check) eqn:Ec.
      * exists min2, true. split; [|split; [|split; [|split]]].
        -- intros [|k] Hk; [cbn in Hk; lia|]. cbn [find_fit_scan].
           destruct (Z.eqb_spec y 0); [contradiction|].
           destruct (Z.leb_spec asize (get_size m y)); [|lia].
           fold min1. fold min2. rewrite Ec.
           destruct (Z.eqb_spec min2 0); [contradiction|]. reflexivity.
        -- destruct C2 as [->| ->]; [left; reflexivity|right]. split; [left; reflexivity|lia].
        -- auto.
        -- auto.
        -- contradiction.
      * destruct (IH (get_next_free m y) min2 (checked + 1) Hf)
          as (r & early & Hr & Hc & He & Hm & Hz).
        exists r, early. split; [|split; [|split; [|split]]].
        -- intros [|k] Hk; [cbn in Hk; lia|]. cbn [find_fit_scan].
           destruct (Z.eqb_spec y 0); [contradiction|].
           destruct (Z.leb_spec asize (get_size m y)); [|lia].
           fold min1. fold min2. rewrite Ec, andb_false_r.
           apply Hr. cbn in Hk. lia.
        -- destruct Hc as [->|[Hin Hs]].
           ++ destruct C2 as [->| ->]; [left; reflexivity|right].
              split; [left; reflexivity|lia].
           ++ right. split; [right; assumption|assumption].
        -- assumption.
        -- auto.
        -- intros E. exfalso. apply (Hm N2). assumption.
    + destruct (IH (get_next_free m y) min (checked + 1) Hf)
        as (r & early & Hr & Hc & He & Hm & Hz).
      exists r, early. split; [|split; [|split; [|split]]].
      * intros [|k] Hk; [cbn in Hk; lia|]. cbn [find_fit_scan].
        destruct (Z.eqb_spec y 0); [contradiction|].
        destruct (Z.leb_spec asize (get_size m y)); [lia|].
        apply Hr. cbn in Hk. lia.
      * destruct Hc as [->|[Hin Hs]]; [left; reflexivity|right].
        split; [right; assumption|assumption].
      * assumption.
      * assumption.
      * intros E z [<-|Hz']; [assumption|]. apply Hz; auto.
Qed.

Lemma find_fit_fallback_spec roots n : forall i,
  0 <= i -> 15 <= i + Z.of_nat n -> i + Z.of_nat n < 2 ^ 64 ->
  let r := find_fit_fallback n roots i in
  (r <> 0 -> exists j, i <= j < 15 /\ roots j = r) /\
  (r = 0 -> forall j, i <= j < 15 -> roots j = 0).
Proof.
  induction n as [|n IH]; intros i Hi Hn Hb; cbn [find_fit_fallback].
  - cbn in Hn. split; [congruence|]. intros _ j Hj. lia.
  - unfold seglist_length. destruct (Z.ltb_spec i 15) as [Hl|Hl].
    + destruct (Z.eqb_spec (roots i) 0) as [E|E]; cbn [negb].
      * rewrite wrap_small by lia.
        destruct (IH (i + 1) ltac:(lia) ltac:(lia) ltac:(lia)) as [I1 I2].
        split.
        -- intros Hr. destruct (I1 Hr) as (j & Hj & Ej). exists j. split; [lia|assumption].
        -- intros Hr j Hj. destruct (Z.eq_dec j i) as [->|Hne]; [assumption|].
           apply I2; auto. lia.
      * split; [|contradiction]. intros _. exists i. split; [lia|reflexivity].
    + split; [congruence|]. intros _ j Hj. lia.
Qed.

Section FindFit.
Variables (st : state) (L : Z -> list Z) (asize : Z).
Hypothesis Hfw : forall i, 0 <= i < 15 -> fwd (get_next_free (st_mem st)) (free_root st i) (L i).
Hypothesis Hbk : forall i x, 0 <= i < 15 -> In x (L i) ->
  get_alloc (st_mem st) x = false /\ get_seglist_ind (get_size (st_mem st) x) = i.
Hypothesis Has : 16 <= asize < 2 ^ 64.

Lemma find_fit_spec :
  exists r,
    (forall fuel, (length (L (get_seglist_ind asize)) < fuel)%nat ->
       find_fit fuel st asize = Some r) /\
    (r <> 0 ->
       (exists i, get_seglist_ind asize <= i < 15 /\ In r (L i)) /\
       get_alloc (st_mem st) r = false /\ asize <= get_size (st_mem st) r) /\
    (r = 0 -> forall i x, get_seglist_ind asize <= i < 15 -> In x (L i) ->
              get_size (st_mem st) x < asize).
Proof.
  set (h := get_seglist_ind asize).
  assert (Hh : 0 <= h < 15) by (apply get_seglist_ind_range; lia).
  destruct (find_fit_scan_spec (st_mem st) asize (L h) (free_root st h) 0 0 (Hfw h Hh))
    as (r & early & Hr & Hc & He & _ & Hz).
  assert (Hbig : forall i x, h < i < 15 -> In x (L i) -> asize <= get_size (st_mem st) x).
  { intros i x Hi Hx. destruct (Hbk i x ltac:(lia) Hx) as (_ & Ei).
    pose proof (get_size_range (st_mem st) x) as Hs.
    destruct (Z.le_gt_cases asize (get_size (st_mem st) x)) as [?|Hlt]; [assumption|].
    pose proof (get_seglist_ind_mono (get_size (st_mem st) x) asize ltac:(lia) ltac:(lia)).
    fold h in H. lia. }
  destruct (find_fit_fallback_spec (free_root st) (Z.to_nat seglist_length) (h + 1)
              ltac:(lia) ltac:(cbn; lia) ltac:(cbn; lia)) as [F1 F2].
  set (f := find_fit_fallback (Z.to_nat seglist_length) (free_root st) (h + 1)) in *.
  assert (Efind : forall fuel, (length (L h) < fuel)%nat ->
            find_fit fuel st asize =
            Some (if early then r else if r =? 0 then (if negb (f =? 0) then f else r) else r)).
  { intros fuel Hfuel. unfold find_fit. fold h. rewrite (Hr fuel Hfuel).
    rewrite (wrap_small (h + 1)) by lia. fold f.
    destruct early; [reflexivity|]. destruct (r =? 0); [|reflexivity].
    destruct (negb (f =? 0)); reflexivity. }
  destruct (Z.eq_dec r 0) as [Er|Er].
  - (* nothing in the home bucket *)
    assert (early = false) by (destruct early; [exfalso; apply He; auto|reflexivity]).
    subst early. exists f. split; [|split].
    + intros fuel Hfuel. rewrite (Efind fuel Hfuel). subst r. cbn [Z.eqb].
      destruct (Z.eqb_spec f 0) as [->|]; reflexivity.
    + intros Hf. destruct (F1 Hf) as (j & Hj & Ej).
      pose proof (Hfw j ltac:(lia)) as Hj'. rewrite Ej in Hj'.
      assert (Hin : In f (L j)).
      { destruct (L j) as [|y t]; [cbn in Hj'; contradiction|].
        destruct Hj' as (-> & _). left; reflexivity. }
      split; [exists j; split; [lia|assumption]|].
      split; [apply (Hbk j f ltac:(lia) Hin)|apply (Hbig j f ltac:(lia) Hin)].
    + intros Hf i x Hi Hx. destruct (Z.eq_dec i h) as [->|Hne].
      * apply Hz; auto.
      * pose proof (Hfw i ltac:(lia)) as Hi'. rewrite (F2 Hf i ltac:(lia)) in Hi'.
        apply fwd_nil_root in Hi'. rewrite Hi' in Hx. destruct Hx.
  - exists r. split; [|split].
    + intros fuel Hfuel. rewrite (Efind fuel Hfuel).
      destruct early; [reflexivity|]. destruct (Z.eqb_spec r 0); [contradiction|reflexivity].
    + intros _. destruct Hc as [->|[Hin Hs]]; [contradiction|].
      split; [exists h; split; [lia|assumption]|].
      split; [apply (Hbk h r Hh Hin)|assumption].
    + contradiction.
Qed.
End FindFit.

(** * Placing a request in a free block *)

Section Alloc.
Variables (st : state) (live : list Z) (B : blk -> Prop) (L : Z -> list Z) (b : blk).
Variable asize : Z.
Hypothesis HV : heap_inv st live B L.
Hypothesis Bb : B b.
Hypothesis Fb : b_alloc b = false.
Hypothesis Has : 16 <= asize /\ asize mod 16 = 0 /\ asize <= b_size b.

Let x := b_addr b.
Let S := b_size b.
Let st1 := remove_from_free st x.
Let b2 := mkBlk x S true true.
Let B2 := bregion B x (x + S) (eq b2).
Let st2 := set_mem st1 (write_block (st_mem st1) x S true true).

Lemma al_HI : hinv st B L.
Proof. apply HV. Qed.

Lemma al_geom :
  8 < x /\ x + S + 8 <= mem_brk st /\ mem_brk st < 2 ^ 64 /\ 16 <= S /\ S mod 16 = 0 /\
  x mod 16 = 8 /\ b_pa b = true.
Proof.
  pose proof (hmem_addr _ _ (hinv_hmem _ _ _ al_HI) b Bb) as (? & ? & ? & ? & ? & ? & _ & Hs).
  specialize (Hs Fb). destruct HV as (_ & _ & _ & NF & _).
  unfold x, S. repeat split; try lia. apply NF; auto.
Qed.

Lemma al_next :
  exists n, B n /\ b_addr n = x + S /\ b_alloc n = true /\ b_pa n = false.
Proof.
  destruct al_geom as (? & ? & ? & ? & ? & ? & ?).
  destruct HV as (HI & PA1 & _ & NF & _).
  destruct (lay_next _ _ _ (hi_lay _ _ _ HI) b Bb ltac:(fold x S; lia)) as (n & Bn & En).
  fold x S in En. exists n. split; [exact Bn|]. split; [exact En|].
  pose proof (PA1 b n Bb Bn ltac:(fold x S; lia) ltac:(fold x S; lia)) as Ep.
  rewrite Fb in Ep. split; [|exact Ep].
  destruct (b_alloc n) eqn:An; [reflexivity|]. rewrite (NF n Bn An) in Ep. discriminate.
Qed.

Lemma al_st1 :
  exists L1,
    hinv st1 B L1 /\
    (forall j y, 0 <= j < 15 -> (In y (L1 j) <-> In y (L j) /\ y <> x)).
Proof.
  destruct HV as (HI & _ & _ & _ & AL & _).
  apply (hinv_remove_in st B L b HI Bb Fb). apply AL; auto.
Qed.

Lemma al_fields1 :
  mem_heap_lo st1 = mem_heap_lo st /\ mem_brk st1 = mem_brk st /\
  mem_max_addr st1 = mem_max_addr st /\ heap_start st1 = heap_start st.
Proof. apply remove_from_free_fields. Qed.

Lemma al_st2 L1 :
  hinv st1 B L1 ->
  (forall j y, 0 <= j < 15 -> (In y (L1 j) <-> In y (L j) /\ y <> x)) ->
  hinv st2 B2 L1 /\ get_size (st_mem st1) x = S.
Proof.
  intros HI1 HL1. destruct al_geom as (? & ? & ? & ? & ? & ? & ?).
  destruct al_next as (n & Bn & En & _). destruct al_fields1 as (_ & Eb & _).
  split; [|apply (blk_get_size _ _ (hi_mem _ _ _ HI1 b Bb))].
  destruct (write_block_spec (st_mem st1) x S true true
              ltac:(lia) ltac:(lia) ltac:(lia) ltac:(lia)) as [S0 Hok].
  apply (hinv_region st1 B L1 x (x + S) (eq b2) b n); auto; try lia.
  - intros j y Hj Hy. apply HL1 in Hy; auto. destruct Hy as [Hy Hne].
    destruct (hi_in _ _ _ al_HI j y Hj Hy) as (c & Bc & Ec & _).
    assert (y < x \/ x + S <= y \/ x <= y < x + S) as [?|[?|Hr]] by lia; auto.
    assert (c = b) by (apply (hmem_in_range st B c b (hinv_hmem _ _ _ al_HI) Bc Bb);
                       fold x S; lia).
    subst c. exfalso. apply Hne. symmetry. exact Ec.
  - eapply same_out_weaken; [exact S0|lia|lia].
  - intros c <-. cbn. repeat split; lia.
  - intros c <-. exact Hok.
  - intros c1 c2 <- <-. lia.
  - intros c1 c2 <- <-. reflexivity.
  - intros c <-. left. reflexivity.
  - intros c <-. left. reflexivity.
  - exists b2. split; reflexivity.
  - exists b2. split; reflexivity.
Qed.

Lemma al_B2 c : B2 c -> c = b2 \/ (B c /\ b_addr c <> x /\ c <> b).
Proof.
  intros [[Bc Oc]| <-]; [right|left; reflexivity].
  destruct al_geom as (? & ? & ? & ? & _).
  split; [exact Bc|]. split; [lia|]. intros ->. fold x in Oc. lia.
Qed.

Lemma al_B2_old c : B c -> b_addr c <> x -> B2 c.
Proof.
  intros Bc Hne. left. split; [exact Bc|].
  destruct (hmem_sep _ _ (hinv_hmem _ _ _ al_HI) c b Bc Bb Hne) as [[? ?]|[? ?]];
    unfold x, S in *; lia.
Qed.

Lemma al_live_fresh : ~ In (x + 8) live.
Proof.
  intros Hin. destruct HV as (HI & _ & _ & _ & _ & LV & _).
  destruct (LV _ Hin) as (c & Bc & Ec & Ac & _).
  assert (c = b) by (eapply hmem_same; eauto using hinv_hmem; fold x; lia).
  subst c. congruence.
Qed.

(** The block is taken whole. *)
Lemma al_nosplit L1 :
  hinv st1 B L1 ->
  (forall j y, 0 <= j < 15 -> (In y (L1 j) <-> In y (L j) /\ y <> x)) ->
  exists B',
    heap_inv (set_mem st2 (set_prev_alloc (st_mem st2) (x + S) true)) ((x + 8) :: live) B' L1 /\
    B' b2 /\ (forall a s, guarded B a s -> guarded B' a s).
Proof.
  intros HI1 HL1. destruct (al_st2 L1 HI1 HL1) as (HI2 & _).
  destruct al_geom as (? & ? & ? & ? & ? & ? & Pb).
  destruct al_next as (n & Bn & En & An & Pn).
  destruct HV as (HI & PA1 & PA2 & NF & AL & LV & ND).
  pose proof (hinv_hmem _ _ _ HI) as HM.
  assert (Bn2 : B2 n) by (apply al_B2_old; auto; lia).
  pose proof (hinv_set_pa st2 B2 L1 n true HI2 Bn2) as HI4. rewrite En in HI4.
  set (n' := mkBlk (x + S) (b_size n) (b_alloc n) true) in *.
  set (B' := breplace B2 n') in *.
  assert (Hold : forall c, B' c ->
            c = n' \/ c = b2 \/ (B c /\ b_addr c <> x /\ b_addr c <> x + S)).
  { intros c [[Hc Nc]| ->]; [|left; reflexivity]. cbn in Nc.
    destruct (al_B2 c Hc) as [->|(Bc & Hx & _)]; auto. }
  assert (Hb2 : B' b2) by (left; split; [right; reflexivity|cbn; lia]).
  exists B'. split; [|split; [exact Hb2|]].
  2:{ intros a s G.
      apply (guarded_transfer st _ B B' a s HM (hinv_hmem _ _ _ HI4)
               (proj2 (proj2 (proj2 al_fields1))) (proj1 (proj2 al_fields1)) G).
      intros c Bc Ec Es Ac.
      assert (Xc : b_addr c <> x) by (intros E; assert (c = b) by
        (eapply hmem_same; eauto); subst c; congruence).
      destruct (Z.eq_dec (b_addr c) (x + S)) as [E|E].
      - assert (c = n) by (eapply hmem_same; eauto; lia). subst c.
        exists n'. split; [right; reflexivity|]. cbn. repeat split; auto; lia.
      - exists c. split; [|auto]. left. split; [apply al_B2_old; auto|cbn; assumption]. }
  split; [exact HI4|].
  split; [|split; [|split; [|split; [|split]]]].
  - intros p0 n0 Hp0 Hn0 Ea Hlt.
    destruct (Hold p0 Hp0) as [->|[->|(Bp0 & Xp0 & Np0)]];
      destruct (Hold n0 Hn0) as [->|[->|(Bn0 & Xn0 & Nn0)]];
      cbn [b_addr b_size b_alloc b_pa n' b2] in *; try lia; try reflexivity.
    + apply (PA1 n n0 Bn Bn0); lia.
    + assert (p0 = b); [|subst p0; fold x in Xp0; lia].
      pose proof (hmem_addr _ _ HM p0 Bp0) as (? & ? & ? & ? & _).
      apply (hmem_same_end st B p0 b HM Bp0 Bb); fold x S; lia.
    + rewrite <- Pb. apply (PA1 p0 b Bp0 Bb); fold x; lia.
    + apply (PA1 p0 n0 Bp0 Bn0); lia.
  - intros c Hc Ec. cbn in Ec. rewrite (proj2 (proj2 (proj2 al_fields1))) in Ec.
    destruct (Hold c Hc) as [->|[->|(Bc & Xc & Nc)]]; try reflexivity.
    apply PA2; auto.
  - intros c Hc Fc.
    destruct (Hold c Hc) as [->|[->|(Bc & Xc & Nc)]]; try reflexivity.
    apply NF; auto.
  - intros c Hc Fc.
    destruct (Hold c Hc) as [->|[->|(Bc & Xc & Nc)]]; cbn in Fc; try congruence.
    apply HL1.
    { apply get_seglist_ind_range.
      pose proof (hmem_addr _ _ HM c Bc) as (? & ? & ? & ? & _). lia. }
    split; [apply AL; auto|assumption].
  - intros q [<-|Hq].
    + exists b2. repeat split; auto; cbn; lia.
    + destruct (LV q Hq) as (c & Bc & Ec & Ac & Sc).
      assert (Xc : b_addr c <> x) by (intros E; assert (c = b) by
        (eapply hmem_same; eauto); subst c; congruence).
      destruct (Z.eq_dec (b_addr c) (x + S)) as [E|E].
      * assert (c = n) by (eapply hmem_same; eauto; lia). subst c.
        exists n'. split; [right; reflexivity|]. cbn. repeat split; auto; lia.
      * exists c. split; [|auto]. left. split; [apply al_B2_old; auto|cbn; assumption].
  - constructor; [apply al_live_fresh|exact ND].
Qed.

Lemma al_L1_out L1 j y :
  (forall j y, 0 <= j < 15 -> (In y (L1 j) <-> In y (L j) /\ y <> x)) ->
  0 <= j < 15 -> In y (L1 j) -> y < x \/ x + S <= y.
Proof.
  intros HL1 Hj Hy. apply HL1 in Hy; auto. destruct Hy as [Hy Hne].
  destruct (hi_in _ _ _ al_HI j y Hj Hy) as (c & Bc & Ec & _).
  assert (y < x \/ x + S <= y \/ x <= y < x + S) as [?|[?|Hr]] by lia; auto.
  assert (c = b) by (apply (hmem_in_range st B c b (hinv_hmem _ _ _ al_HI) Bc Bb);
                     unfold x, S in *; lia).
  subst c. exfalso. apply Hne. symmetry. exact Ec.
Qed.

Let c1 := mkBlk x asize true true.
Let c2 := mkBlk (x + asize) (S - asize) false true.
Let m3 := write_block (st_mem st2) x asize true true.
Let m4 := write_block m3 (x + asize) (S - asize) false true.
Let B3 := bregion B2 x (x + S) (fun c => c = c1 \/ c = c2).

Lemma al_split_region L1 :
  16 <= S - asize ->
  hinv st1 B L1 ->
  (forall j y, 0 <= j < 15 -> (In y (L1 j) <-> In y (L j) /\ y <> x)) ->
  hinv (set_mem st2 m4) B3 L1 /\ find_next m3 x = x + asize.
Proof.
  intros Hsp HI1 HL1. destruct (al_st2 L1 HI1 HL1) as (HI2 & _).
  destruct al_geom as (? & ? & ? & ? & ? & ? & Pb). destruct Has as (? & ? & ?).
  destruct al_next as (n & Bn & En & An & Pn). destruct al_fields1 as (_ & Eb & _).
  destruct (write_block_spec (st_mem st2) x asize true true
              ltac:(lia) ltac:(lia) ltac:(lia) ltac:(unfold S in *; lia)) as [S3 Hok3].
  fold m3 in S3, Hok3.
  destruct (write_block_spec m3 (x + asize) (S - asize) false true
              ltac:(lia) ltac:(lia) ltac:(lia) ltac:(lia)) as [S4 Hok4].
  fold m4 in S4, Hok4.
  split.
  - apply (hinv_region st2 B2 L1 x (x + S) (fun c => c = c1 \/ c = c2) b2 n); auto; try lia.
    + split; [right; reflexivity|reflexivity].
    + split; [apply al_B2_old; auto; lia|exact En].
    + intros j y Hj Hy. apply (al_L1_out L1 j y HL1 Hj Hy).
    + eapply same_out_trans; eapply same_out_weaken; eauto; lia.
    + intros c [->| ->]; cbn; unfold S in *; repeat split; lia.
    + intros c [->| ->]; [|exact Hok4].
      eapply blk_ok_frame; [exact Hok3|exact S4| |right; reflexivity]. cbn. lia.
    + intros d1 d2 [->| ->] [->| ->]; cbn; lia.
    + intros d1 d2 [->| ->] [->| ->]; cbn; try reflexivity; lia.
    + intros c [->| ->]; cbn; [right|left; lia].
      exists c2. split; [right; reflexivity|reflexivity].
    + intros c [->| ->]; cbn; [left; reflexivity|right].
      exists c1. split; [left; reflexivity|reflexivity].
    + exists c1. split; [left; reflexivity|reflexivity].
    + exists c2. split; [right; reflexivity|cbn; lia].
  - unfold find_next. pose proof (blk_get_size _ _ Hok3) as Eg. cbn [b_addr b_size] in Eg.
    rewrite Eg. apply wrap_small. lia.
Qed.

Lemma al_split L1 :
  16 <= S - asize ->
  hinv st1 B L1 ->
  (forall j y, 0 <= j < 15 -> (In y (L1 j) <-> In y (L j) /\ y <> x)) ->
  let st3 := add_to_free (set_mem st2 m4) (x + asize) in
  exists B' L',
    heap_inv (set_mem st3 (set_prev_alloc (st_mem st3) (x + asize) true))
             ((x + 8) :: live) B' L' /\
    B' c1 /\ find_next (st_mem st3) x = x + asize /\
    (forall a s, guarded B a s -> guarded B' a s).
Proof.
  intros Hsp HI1 HL1 st3. destruct (al_split_region L1 Hsp HI1 HL1) as (HI3 & _).
  destruct al_geom as (? & ? & ? & ? & ? & ? & Pb). destruct Has as (? & ? & ?).
  destruct al_next as (n & Bn & En & An & Pn).
  destruct HV as (HI & PA1 & PA2 & NF & AL & LV & ND).
  pose proof (hinv_hmem _ _ _ HI) as HM.
  assert (Bc2 : B3 c2) by (right; right; reflexivity).
  assert (Bc1 : B3 c1) by (right; left; reflexivity).
  assert (Hni : forall j, 0 <= j < 15 -> ~ In (b_addr c2) (L1 j)).
  { intros j Hj Hin. destruct (al_L1_out L1 j _ HL1 Hj Hin); cbn in *; lia. }
  destruct (hinv_add_in _ B3 L1 c2 HI3 Bc2 eq_refl Hni) as (L3 & HI3' & HL3 & _).
  change (b_addr c2) with (x + asize) in HI3', HL3. fold st3 in HI3'.
  pose proof (hinv_set_pa st3 B3 L3 c2 true HI3' Bc2) as HI4.
  change (mkBlk (b_addr c2) (b_size c2) (b_alloc c2) true) with c2 in HI4.
  change (b_addr c2) with (x + asize) in HI4.
  set (B' := breplace B3 c2) in *.
  assert (Hold : forall c, B' c ->
            c = c1 \/ c = c2 \/
            (B c /\ (b_addr c + b_size c <= x \/ x + S <= b_addr c) /\ 0 <= b_size c)).
  { intros c [[Hc Nc]| ->]; [|right; left; reflexivity].
    destruct Hc as [[Hc Oc]|[->| ->]]; auto.
    destruct (al_B2 c Hc) as [->|(Bc & Hx & Hb)]; [cbn in Oc; lia|].
    right. right. split; [exact Bc|].
    pose proof (hmem_addr _ _ HM c Bc) as (? & ? & ? & ? & _).
    destruct (hmem_sep _ _ HM c b Bc Bb Hx) as [[? ?]|[? ?]]; unfold x, S in *; split; lia. }
  assert (Hnew : forall c, B c -> b_addr c <> x -> B' c).
  { intros c Bc Hx. left.
    assert (O : b_addr c < x \/ x + S <= b_addr c).
    { destruct (hmem_sep _ _ HM c b Bc Bb Hx) as [[? ?]|[? ?]]; unfold x, S in *; lia. }
    split; [left; split; [apply al_B2_old; auto|exact O]|cbn; lia]. }
  assert (Hb1 : B' c1) by (left; split; [exact Bc1|cbn; lia]).
  exists B', L3.
  split; [|split; [exact Hb1|split; [apply (find_next_spec _ _ _ HI3' c1 Bc1)|]]].
  2:{ intros a s G.
      assert (Ehs : heap_start (set_mem st3 (set_prev_alloc (st_mem st3) (x + asize) true)) =
                    heap_start st /\
                    mem_brk (set_mem st3 (set_prev_alloc (st_mem st3) (x + asize) true)) =
                    mem_brk st).
      { cbn [heap_start mem_brk set_mem]. unfold st3.
        destruct (add_to_free_fields (set_mem st2 m4) (x + asize)) as (_ & A2 & _ & A4).
        rewrite A2, A4. cbn [heap_start mem_brk set_mem st2].
        split; apply al_fields1. }
      apply (guarded_transfer st _ B B' a s HM (hinv_hmem _ _ _ HI4)
               (proj1 Ehs) (proj2 Ehs) G).
      intros c Bc Ec Es Ac. exists c. split; [|auto]. apply Hnew; auto.
      intros E. assert (c = b) by (eapply hmem_same; eauto). subst c. congruence. }
  split; [exact HI4|]. split; [|split; [|split; [|split; [|split]]]].
  - intros p0 n0 Hp0 Hn0 Ea Hlt.
    destruct (Hold p0 Hp0) as [->|[->|(Bp0 & Op0 & Zp0)]];
      destruct (Hold n0 Hn0) as [->|[->|(Bn0 & On0 & Zn0)]];
      cbn [b_addr b_size b_alloc b_pa c1 c2] in *; try lia; try reflexivity.
    + assert (n0 = n) by (eapply hmem_same; eauto; lia). subst n0. exact Pn.
    + rewrite <- Pb. apply (PA1 p0 b Bp0 Bb); unfold x in *; lia.
    + apply (PA1 p0 n0 Bp0 Bn0); lia.
  - intros c Hc Ec.
    assert (Ehs : heap_start (set_mem st3 (set_prev_alloc (st_mem st3) (x + asize) true)) =
                  heap_start st).
    { cbn [heap_start set_mem]. unfold st3.
      rewrite (proj2 (proj2 (proj2 (add_to_free_fields (set_mem st2 m4) (x + asize))))).
      cbn [heap_start set_mem st2]. apply al_fields1. }
    rewrite Ehs in Ec.
    destruct (Hold c Hc) as [->|[->|(Bc & Oc & Zc)]]; try reflexivity.
    apply PA2; auto.
  - intros c Hc Fc.
    destruct (Hold c Hc) as [->|[->|(Bc & Oc & Zc)]]; try reflexivity.
    apply NF; auto.
  - intros c Hc Fc.
    assert (Hi : 0 <= get_seglist_ind (b_size c) < 15).
    { apply get_seglist_ind_range.
      pose proof (hmem_addr _ _ (hinv_hmem _ _ _ HI4) c Hc) as (? & ? & ? & ? & _). lia. }
    apply HL3; [exact Hi|].
    destruct (Hold c Hc) as [->|[->|(Bc & Oc & Zc)]]; cbn in Fc; try congruence.
    + right. split; reflexivity.
    + left. apply HL1; [exact Hi|]. split; [apply AL; auto|].
      pose proof (hmem_addr _ _ HM c Bc) as (? & ? & ? & ? & ? & ? & ? & Hs).
      specialize (Hs Fc). lia.
  - intros q [<-|Hq].
    + exists c1. repeat split; auto; cbn; lia.
    + destruct (LV q Hq) as (c & Bc & Ec & Ac & Sc).
      assert (Xc : b_addr c <> x) by (intros E; assert (c = b) by
        (eapply hmem_same; eauto); subst c; congruence).
      exists c. split; [apply Hnew; auto|auto].
  - constructor; [apply al_live_fresh|exact ND].
Qed.
(** The payloads of the allocated blocks during the placement. *)
Lemma al_keeps2 L1 a s :
  hinv st1 B L1 ->
  (forall j y, 0 <= j < 15 -> (In y (L1 j) <-> In y (L j) /\ y <> x)) ->
  guarded B a s ->
  keeps (st_mem st) (st_mem st2) a s /\ guarded B2 a s /\ (a < x \/ x + S <= a).
Proof.
  intros HI1 HL1 Ha. destruct al_geom as (? & ? & ? & ? & ? & ? & ?).
  pose proof (hinv_hmem _ _ _ al_HI) as HM.
  pose proof (guarded_not_free st B a s b HM Ha Bb Fb) as Hne.
  assert (Hout : a < x \/ x + S <= a).
  { destruct (guarded_sep st B a s b HM Ha Bb Fb Hne) as [(? & ?)|(? & ?)]; unfold x, S; lia. }
  destruct HV as (HI & _ & _ & _ & AL & _).
  destruct (write_block_spec (st_mem st1) x S true true
              ltac:(lia) ltac:(lia) ltac:(lia) ltac:(lia)) as [S0 _].
  split; [|split; [|exact Hout]].
  - apply (keeps_trans _ (st_mem st1)).
    + apply (remove_keeps st B L b a s HI Bb Fb); [apply AL; auto|exact Ha].
    + apply (region_keeps st1 B _ _ _ a s (hinv_hmem _ _ _ HI1) S0);
        [exists b; auto|exact Ha|lia].
  - destruct (al_st2 L1 HI1 HL1) as (HI2 & _).
    apply (guarded_transfer st st2 B B2 a s HM (hinv_hmem _ _ _ HI2)
             (proj2 (proj2 (proj2 al_fields1))) (proj1 (proj2 al_fields1)) Ha).
    intros c Bc Ec Es Ac. exists c. split; [|auto].
    apply al_B2_old; auto. fold x in Hne. lia.
Qed.

Lemma al_nosplit_keeps L1 a s :
  hinv st1 B L1 ->
  (forall j y, 0 <= j < 15 -> (In y (L1 j) <-> In y (L j) /\ y <> x)) ->
  guarded B a s ->
  keeps (st_mem st) (set_prev_alloc (st_mem st2) (x + S) true) a s.
Proof.
  intros HI1 HL1 Ha. destruct (al_st2 L1 HI1 HL1) as (HI2 & _).
  destruct (al_keeps2 L1 a s HI1 HL1 Ha) as (K2 & Ha2 & Hout).
  destruct al_geom as (? & ? & ? & ? & ? & ? & ?).
  destruct al_next as (n & Bn & En & An & Pn).
  assert (Bn2 : B2 n) by (apply al_B2_old; auto; lia).
  apply (keeps_trans _ (st_mem st2)); [exact K2|]. rewrite <- En.
  apply (set_pa_keeps st2 B2 n true a s (hinv_hmem _ _ _ HI2) Bn2 Ha2).
Qed.

Lemma al_split_keeps L1 a s :
  16 <= S - asize ->
  hinv st1 B L1 ->
  (forall j y, 0 <= j < 15 -> (In y (L1 j) <-> In y (L j) /\ y <> x)) ->
  guarded B a s ->
  let st3 := add_to_free (set_mem st2 m4) (x + asize) in
  keeps (st_mem st) (set_prev_alloc (st_mem st3) (x + asize) true) a s.
Proof.
  intros Hsp HI1 HL1 Ha st3. destruct (al_st2 L1 HI1 HL1) as (HI2 & _).
  destruct (al_split_region L1 Hsp HI1 HL1) as (HI3 & _).
  destruct (al_keeps2 L1 a s HI1 HL1 Ha) as (K2 & Ha2 & Hout).
  destruct al_geom as (? & ? & ? & ? & ? & ? & Pb). destruct Has as (? & ? & ?).
  destruct (write_block_spec (st_mem st2) x asize true true
              ltac:(lia) ltac:(lia) ltac:(lia) ltac:(unfold S in *; lia)) as [S3 _].
  fold m3 in S3.
  destruct (write_block_spec m3 (x + asize) (S - asize) false true
              ltac:(lia) ltac:(lia) ltac:(lia) ltac:(lia)) as [S4 _].
  fold m4 in S4.
  assert (S34 : same_out (st_mem st2) m4 x (x + S))
    by (eapply same_out_trans; eapply same_out_weaken; eauto; lia).
  assert (Bc2 : B3 c2) by (right; right; reflexivity).
  assert (Hni : forall j, 0 <= j < 15 -> ~ In (b_addr c2) (L1 j)).
  { intros j Hj Hin. destruct (al_L1_out L1 j _ HL1 Hj Hin); cbn in *; lia. }
  destruct (hinv_add_in _ B3 L1 c2 HI3 Bc2 eq_refl Hni) as (L3 & HI3' & _).
  change (b_addr c2) with (x + asize) in HI3'. fold st3 in HI3'.
  assert (Ha3 : guarded B3 a s).
  { apply (guarded_transfer st2 _ B2 B3 a s (hinv_hmem _ _ _ HI2) (hinv_hmem _ _ _ HI3)
             eq_refl eq_refl Ha2).
    intros c Bc Ec Es Ac. exists c. split; [|auto].
    left. split; [exact Bc|lia]. }
  apply (keeps_trans _ (st_mem st2)); [exact K2|].
  apply (keeps_trans _ m4).
  - apply (region_keeps st2 B2 _ _ _ a s (hinv_hmem _ _ _ HI2) S34);
      [exists b2; split; [right; reflexivity|reflexivity]|exact Ha2|lia].
  - apply (keeps_trans _ (st_mem st3)).
    + apply (add_keeps (set_mem st2 m4) B3 L1 c2 HI3 Bc2 eq_refl Hni a s Ha3).
    + apply (set_pa_keeps st3 B3 c2 true a s (hinv_hmem _ _ _ HI3') Bc2 Ha3).
Qed.
End Alloc.

Lemma place_ok st live B L b asize :
  heap_inv st live B L -> B b -> b_alloc b = false ->
  16 <= asize /\ asize mod 16 = 0 /\ asize <= b_size b ->
  let block := b_addr b in
  let st1 := remove_from_free st block in
  let block_size := get_size (st_mem st1) block in
  let st2 := set_mem st1 (write_block (st_mem st1) block block_size true true) in
  let st3 := split_block st2 block asize in
  let st4 := set_mem st3 (update_next (st_mem st3) block true) in
  exists B' L' b',
    heap_inv st4 ((block + 8) :: live) B' L' /\
    B' b' /\ b_addr b' = block /\ b_alloc b' = true /\ asize <= b_size b' /\
    mem_heap_lo st4 = mem_heap_lo st /\ mem_brk st4 = mem_brk st /\
    mem_max_addr st4 = mem_max_addr st /\ heap_start st4 = heap_start st /\
    (forall a s, guarded B a s -> guarded B' a s /\ keeps (st_mem st) (st_mem st4) a s) /\
    b_size b' = asize.
Proof.
  intros HV Bb Fb Has block st1 block_size st2 st3 st4.
  destruct (al_st1 st live B L b HV Bb Fb) as (L1 & HI1 & HL1).
  destruct (al_st2 st live B L b asize HV Bb Fb L1 HI1 HL1) as (HI2 & Egs).
  destruct (al_geom st live B L b asize HV Bb Fb) as (? & ? & ? & ? & ? & ? & Pb).
  destruct (remove_from_free_fields st block) as (F1 & F2 & F3 & F4).
  fold block st1 in HI1, HL1, HI2, Egs, F1, F2, F3, F4.
  assert (Ebs : block_size = b_size b) by exact Egs.
  unfold st4, st3, st2. rewrite Ebs.
  set (st2' := set_mem st1 (write_block (st_mem st1) block (b_size b) true true)) in *.
  set (b2 := mkBlk block (b_size b) true true) in *.
  assert (Bb2 : bregion B block (block + b_size b) (eq b2) b2) by (right; reflexivity).
  assert (Eg2 : get_size (st_mem st2') block = b_size b)
    by (apply (blk_get_size _ _ (hi_mem _ _ _ HI2 b2 Bb2))).
  unfold split_block. rewrite Eg2. unfold min_block_size, dsize, wsize. change (2 * 8) with 16.
  rewrite (wrap_small (b_size b - asize)) by lia.
  unfold update_next. cbn [negb andb].
  destruct (Z.geb_spec (b_size b - asize) 16) as [Hsp|Hsp].
  - destruct (al_split st live B L b asize HV Bb Fb Has L1 ltac:(lia) HI1 HL1)
      as (B' & L' & HV' & Bc1 & Efn & Hab).
    pose proof (fun a s => al_split_keeps st live B L b asize HV Bb Fb Has L1 a s
                             ltac:(lia) HI1 HL1) as HK. cbn zeta in HK.
    fold block st1 st2' in HK.
    destruct (al_split_region st live B L b asize HV Bb Fb Has L1 ltac:(lia) HI1 HL1)
      as (_ & Efn3).
    fold block st1 st2' in HV', Efn, Efn3, Bc1. rewrite Efn3, Efn.
    eexists B', L', _. split; [exact HV'|]. split; [exact Bc1|].
    cbn [b_addr b_alloc b_size].
    destruct (add_to_free_fields
      (set_mem st2' (write_block (write_block (st_mem st2') block asize true true)
                       (block + asize) (b_size b - asize) false true)) (block + asize))
      as (A1 & A2 & A3 & A4).
    cbn [set_mem mem_heap_lo mem_brk mem_max_addr heap_start] in *.
    assert (G1 : mem_heap_lo st2' = mem_heap_lo st1) by reflexivity.
    assert (G2 : mem_brk st2' = mem_brk st1) by reflexivity.
    assert (G3 : mem_max_addr st2' = mem_max_addr st1) by reflexivity.
    assert (G4 : heap_start st2' = heap_start st1) by reflexivity.
    do 3 (split; [first [reflexivity | lia]|]).
    do 4 (split; [congruence|]).
    split; [|reflexivity].
    intros a s Ha. split; [apply Hab; exact Ha|]. apply HK. exact Ha.
  - destruct (al_nosplit st live B L b asize HV Bb Fb Has L1 HI1 HL1)
      as (B' & HV' & Bb2' & Hab).
    pose proof (fun a s => al_nosplit_keeps st live B L b asize HV Bb Fb L1 a s
                             HI1 HL1) as HK.
    fold block st1 st2' b2 in HV', Bb2', HK.
    pose proof (find_next_spec _ _ _ HI2 b2 Bb2) as Efn. cbn [b_addr b_size b2] in Efn.
    rewrite Efn.
    eexists B', L1, _. split; [exact HV'|]. split; [exact Bb2'|].
    cbn [b_addr b_alloc b_size b2 set_mem mem_heap_lo mem_brk mem_max_addr heap_start].
    assert (G1 : mem_heap_lo st2' = mem_heap_lo st1) by reflexivity.
    assert (G2 : mem_brk st2' = mem_brk st1) by reflexivity.
    assert (G3 : mem_max_addr st2' = mem_max_addr st1) by reflexivity.
    assert (G4 : heap_start st2' = heap_start st1) by reflexivity.
    do 3 (split; [first [reflexivity | lia]|]).
    do 4 (split; [congruence|]).
    split; [|destruct Has as (? & ? & ?); lia].
    intros a s Ha. split; [apply Hab; exact Ha|]. apply HK. exact Ha.
Qed.

(** * Growing the heap *)

Section Extend.
Variables (st : state) (live : list Z) (B : blk -> Prop) (L : Z -> list Z) (sz : Z).
Variable ep : blk.
Hypothesis HV : heap_inv st live B L.
Hypothesis Hsz : 16 <= sz /\ sz mod 16 = 0.
Hypothesis Hfit : mem_brk st + sz <= mem_max_addr st.
Hypothesis Hep : B ep /\ b_addr ep = mem_brk st - 8.

Let e := mem_brk st - 8.
Let a := e + sz.
Let m := st_mem st.
Let st1 := set_brk st (mem_brk st + sz).
Let m1 := write_block m e sz false (b_pa ep).
Let m1e := store m1 a (pack 0 true false).
Let nb := mkBlk e sz false (b_pa ep).
Let ep' := mkBlk a 0 true false.
Let B1 : blk -> Prop := fun c => (B c /\ b_addr c < e) \/ c = nb \/ c = ep'.

Lemma ex_HI : hinv st B L.
Proof. apply HV. Qed.

Lemma ex_geom :
  8 < e /\ e + sz + 8 <= mem_max_addr st /\ mem_max_addr st < 2 ^ 64 /\ e mod 16 = 8 /\
  heap_start st <= e /\ b_size ep = 0 /\ b_alloc ep = true.
Proof.
  destruct Hep as (Bep & Eep). destruct Hsz as (? & ?).
  pose proof (hmem_addr _ _ (hinv_hmem _ _ _ ex_HI) ep Bep) as (? & ? & ? & ? & ? & ? & _).
  destruct (hi_brk _ _ _ ex_HI) as (? & ?).
  destruct (lay_epi _ _ _ (hi_lay _ _ _ ex_HI) ep Bep Eep) as (? & ?).
  unfold e. repeat split; auto; lia.
Qed.

Lemma ex_old c : B c -> b_addr c < e ->
  heap_start st <= b_addr c /\ b_addr c + b_size c <= e /\ 16 <= b_size c /\
  b_size c mod 16 = 0 /\ b_addr c mod 16 = 8 /\ 8 < b_addr c.
Proof.
  intros Bc Hc.
  pose proof (hmem_addr _ _ (hinv_hmem _ _ _ ex_HI) c Bc) as (? & ? & ? & ? & ? & ? & Hs & _).
  specialize (Hs Hc). unfold e in *. repeat split; lia.
Qed.

Lemma ex_layout : layout (heap_start st) a B1.
Proof.
  destruct ex_geom as (? & ? & ? & ? & ? & ? & ?). destruct Hsz as (? & ?).
  destruct Hep as (Bep & Eep). fold e in Eep.
  pose proof (hi_lay _ _ _ ex_HI) as Hlay. fold e in Hlay.
  assert (Hcase : forall c, B1 c ->
            (B c /\ b_addr c < e /\ b_addr c + b_size c <= e /\ 16 <= b_size c /\
             b_size c mod 16 = 0 /\ b_addr c mod 16 = 8 /\ heap_start st <= b_addr c) \/
            c = nb \/ c = ep').
  { intros c [[Bc Hc]|[->| ->]]; auto. left.
    destruct (ex_old c Bc Hc) as (? & ? & ? & ? & ? & ?). repeat split; auto. }
  constructor.
  - intros c Hc. destruct (Hcase c Hc) as [(? & ? & ? & ? & ? & ? & ?)|[->| ->]];
      cbn; unfold a; lia.
  - intros c Hc Hlt. destruct (Hcase c Hc) as [(? & ? & ? & ? & ? & ? & ?)|[->| ->]];
      cbn in *; unfold a in *; lia.
  - intros c Hc Heq. destruct (Hcase c Hc) as [(? & ? & ? & ? & ? & ? & ?)|[->| ->]];
      cbn in *; unfold a in *; try lia; split; reflexivity.
  - intros c Hc. destruct (Hcase c Hc) as [(? & ? & ? & ? & ? & ? & ?)|[->| ->]];
      cbn; unfold a; lia.
  - intros c d Hc Hd Hlt.
    destruct (Hcase c Hc) as [(Bc & ? & ? & ? & ? & ? & ?)|[->| ->]];
      destruct (Hcase d Hd) as [(Bd & ? & ? & ? & ? & ? & ?)|[->| ->]];
      cbn in *; unfold a in *; try lia.
    eapply lay_disj; eauto.
  - intros c d Hc Hd Heq.
    destruct (Hcase c Hc) as [(Bc & ? & ? & ? & ? & ? & ?)|[->| ->]];
      destruct (Hcase d Hd) as [(Bd & ? & ? & ? & ? & ? & ?)|[->| ->]];
      cbn in *; unfold a in *; try lia; try reflexivity.
    eapply lay_uniq; eauto.
  - intros c Hc Hlt. destruct (Hcase c Hc) as [(Bc & ? & ? & ? & ? & ? & ?)|[->| ->]].
    + destruct (lay_next _ _ _ Hlay c Bc ltac:(lia)) as (n & Bn & En).
      assert (b_addr n < e \/ b_addr n = e) as [Hn|Hn] by lia.
      * exists n. split; [left; split; auto|auto].
      * exists nb. split; [right; left; reflexivity|cbn; lia].
    + exists ep'. split; [right; right; reflexivity|reflexivity].
    + cbn in Hlt. lia.
  - intros n Hn Hne. destruct (Hcase n Hn) as [(Bn & ? & ? & ? & ? & ? & ?)|[->| ->]].
    + destruct (lay_prev _ _ _ Hlay n Bn Hne) as (p & Bp & Ep & Lp).
      exists p. split; [left; split; auto; lia|auto].
    + cbn in Hne. destruct (lay_prev _ _ _ Hlay ep Bep ltac:(lia)) as (p & Bp & Ep & Lp).
      exists p. cbn. split; [left; split; auto; lia|lia].
    + exists nb. split; [right; left; reflexivity|cbn; unfold a; lia].
  - destruct (lay_first _ _ _ Hlay) as (f & Bf & Ef).
    assert (heap_start st < e \/ heap_start st = e) as [Hc|Hc] by lia.
    + exists f. split; [left; split; auto; lia|auto].
    + exists nb. split; [right; left; reflexivity|cbn; lia].
  - exists ep'. split; [right; right; reflexivity|reflexivity].
Qed.

Lemma ex_mem :
  same_out m m1e e (a + 8) /\ blk_ok m1e nb /\ blk_ok m1e ep' /\ blk_ok m1 nb /\
  same_out m m1 e a.
Proof.
  destruct ex_geom as (? & ? & ? & ? & ? & ? & ?). destruct Hsz as (? & ?).
  destruct (write_block_spec m e sz false (b_pa ep) ltac:(lia) ltac:(lia) ltac:(lia)
              ltac:(lia)) as [S1 Hok]. fold m1 nb in S1, Hok. fold a in S1.
  assert (S2 : same_out m1 m1e a (a + 8)) by (apply same_out_store; lia).
  split; [|split; [|split; [|split]]]; auto.
  - eapply same_out_trans; eapply same_out_weaken; eauto; lia.
  - eapply blk_ok_frame; [exact Hok|exact S2| |left; cbn; lia]. cbn. unfold a. lia.
  - apply pack_blk_ok; [lia|rewrite const_2_64; lia|reflexivity| |discriminate].
    cbn [b_addr]. unfold m1e. rewrite load_store_same. apply wrap_small.
    apply pack_range; try lia; reflexivity.
Qed.

Lemma ex_hinv : hinv (set_mem st1 m1e) B1 L.
Proof.
  destruct ex_geom as (? & ? & ? & ? & ? & ? & ?). destruct Hsz as (? & ?).
  destruct ex_mem as (S & Hnb & Hep' & _).
  pose proof ex_HI as HI.
  constructor; cbn [set_mem st1 set_brk mem_heap_lo mem_brk mem_max_addr heap_start
                    st_mem free_root].
  - apply HI.
  - apply HI.
  - destruct (hi_brk _ _ _ HI) as ((? & ?) & ?). lia.
  - replace (mem_brk st + sz - 8) with a by (unfold a, e; lia). apply ex_layout.
  - intros c [[Bc Hc]|[->| ->]]; auto.
    destruct (ex_old c Bc Hc) as (? & ? & ? & ? & ? & ?).
    eapply blk_ok_frame; [apply (hi_mem _ _ _ HI c Bc)|exact S| |]; lia.
  - intros j Hj. eapply dlist_same; [apply (hi_dl _ _ _ HI j Hj)|].
    intros y Hy.
    destruct (hinv_listed _ _ _ HI j y Hj Hy) as (c & Bc & Ec & Fc & _ & _ & Em).
    assert (Hc : b_addr c < e).
    { destruct Hep as (Bep & Eep).
      pose proof (hmem_addr _ _ (hinv_hmem _ _ _ HI) c Bc) as (? & ? & ? & ? & ? & ? & ? & Hs).
      specialize (Hs Fc). unfold e. lia. }
    destruct (ex_old c Bc Hc) as (? & ? & ? & ? & ? & ?).
    pose proof (hmem_free_size _ _ (hinv_hmem _ _ _ HI) c Bc Fc).
    subst y. eapply links_same_frame; [exact S| | |]; try lia.
    right. unfold m. rewrite Em. destruct (Z.eqb_spec (b_size c) 16); lia.
  - intros j y Hj Hy. destruct (hi_in _ _ _ HI j y Hj Hy) as (c & Bc & Ec & Fc & Ei).
    exists c. repeat split; auto. left. split; auto.
    pose proof (hmem_addr _ _ (hinv_hmem _ _ _ HI) c Bc) as (? & ? & ? & ? & ? & ? & ? & Hs).
    specialize (Hs Fc). unfold e. lia.
Qed.
End Extend.

(** * A store that commutes with [add_to_free] *)

Lemma store_bytes_in n : forall m m' w v z,
  w <= z < w + Z.of_nat n -> store_bytes n m w v z = store_bytes n m' w v z.
Proof.
  induction n as [|n IH]; intros m m' w v z Hz; [cbn in Hz; lia|].
  cbn [store_bytes]. destruct (Z.eq_dec z w) as [->|Hne].
  - rewrite !store_bytes_out by lia. rewrite Z.eqb_refl. reflexivity.
  - apply IH. lia.
Qed.

Lemma store_in m m' w v z : w <= z < w + 8 -> store m w v z = store m' w v z.
Proof. intros. unfold store. apply store_bytes_in. cbn. lia. Qed.

Section StoreAfter.
Variables (a v : Z).

Lemma store_after_out m m' z : store_after a v m m' -> z < a \/ a + 8 <= z -> m' z = m z.
Proof. intros R Hz. rewrite (R z). apply store_out. assumption. Qed.

Lemma store_after_load m m' y :
  store_after a v m m' -> y + 8 <= a \/ a + 8 <= y -> load m' y = load m y.
Proof. intros R Hy. apply load_ext. intros z Hz. apply (store_after_out m m' z R). lia. Qed.

Lemma store_after_store m m' w val :
  store_after a v m m' -> w + 8 <= a \/ a + 8 <= w ->
  store_after a v (store m w val) (store m' w val).
Proof.
  intros R Hw z.
  assert (w <= z < w + 8 \/ a <= z < a + 8 \/ ((z < w \/ w + 8 <= z) /\ (z < a \/ a + 8 <= z)))
    as [Hz|[Hz|[Hz1 Hz2]]] by lia.
  - rewrite (store_out (store m w val) a v z) by lia. apply store_in. assumption.
  - rewrite (store_out m' w val z) by lia. rewrite (R z). apply store_in. assumption.
  - rewrite !store_out by lia. apply (store_after_out m m' z R). assumption.
Qed.

Lemma spf_after m m' y v' :
  store_after a v m m' -> 0 <= y -> y + 24 < 2 ^ 64 ->
  y + 8 <= a \/ a + 8 <= y ->
  (get_mini m' y = false -> y + 24 <= a \/ a + 8 <= y) ->
  store_after a v (set_prev_free m y v') (set_prev_free m' y v').
Proof.
  intros R Hy Hy' Hh Hn.
  pose proof (store_after_load m m' y R Hh) as El.
  unfold set_prev_free, get_mini, off_predecessor in *. rewrite El in *.
  rewrite wrap_small by lia.
  destruct (extract_mini (load m y)).
  - apply store_after_store; auto.
  - apply store_after_store; auto. specialize (Hn eq_refl). lia.
Qed.

Lemma snf_after m m' y v' :
  store_after a v m m' -> 0 <= y -> y + 16 < 2 ^ 64 ->
  y + 16 <= a \/ a + 8 <= y ->
  store_after a v (set_next_free m y v') (set_next_free m' y v').
Proof.
  intros R Hy Hy' Hh.
  unfold set_next_free, get_mini, off_successor. rewrite wrap_small by lia.
  assert (R1 : store_after a v (store m (y + 8) v') (store m' (y + 8) v'))
    by (apply store_after_store; auto; lia).
  rewrite (store_after_load _ _ y R1) by lia.
  destruct (extract_mini (load (store m (y + 8) v') y)); [|exact R1].
  rewrite !load_store_same. apply store_after_store; auto. lia.
Qed.
End StoreAfter.

(** Two states with the same fields, the same roots and the same bytes
    satisfy the same invariant. *)
Lemma hinv_ext st st' B L :
  hinv st B L ->
  (forall z, st_mem st' z = st_mem st z) ->
  mem_heap_lo st' = mem_heap_lo st -> mem_brk st' = mem_brk st ->
  mem_max_addr st' = mem_max_addr st -> heap_start st' = heap_start st ->
  (forall j, 0 <= j < 15 -> free_root st' j = free_root st j) ->
  hinv st' B L.
Proof.
  intros HI Em E1 E2 E3 E4 Er.
  assert (S : same_out (st_mem st) (st_mem st') 0 0) by (intros z _; apply Em).
  constructor; rewrite ?E1, ?E2, ?E3, ?E4; try apply HI.
  - intros c Bc.
    pose proof (hmem_addr _ _ (hinv_hmem _ _ _ HI) c Bc) as (? & ? & ? & ? & ? & ? & Hs & _).
    pose proof (lay_epi _ _ _ (hi_lay _ _ _ HI) c Bc) as He.
    eapply blk_ok_frame; [apply (hi_mem _ _ _ HI c Bc)|exact S|lia|].
    assert (b_addr c < mem_brk st - 8 \/ b_addr c = mem_brk st - 8) as [Hc|Hc] by lia;
      [left; apply Hs; auto|right; apply He; auto].
  - intros j Hj. rewrite (Er j Hj).
    eapply dlist_same; [apply (hi_dl _ _ _ HI j Hj)|]. intros y Hy.
    destruct (hinv_listed _ _ _ HI j y Hj Hy) as (c & Bc & Ec & Fc & _).
    pose proof (hmem_addr _ _ (hinv_hmem _ _ _ HI) c Bc) as (? & ? & ? & ? & ? & ? & ? & Hs).
    specialize (Hs Fc). subst y.
    eapply links_same_frame; [exact S|lia|lia|lia].
Qed.

Lemma add_to_free_unfold s x :
  let i := get_seglist_ind (get_size (st_mem s) x) in
  st_mem (add_to_free s x) =
    (if free_root s i =? 0
     then set_next_free (set_prev_free (st_mem s) x 0) x 0
     else set_prev_free (set_next_free (set_prev_free (st_mem s) (free_root s i) x)
                                       x (free_root s i)) x 0) /\
  (forall j, free_root (add_to_free s x) j = if j =? i then x else free_root s j).
Proof.
  cbn zeta. unfold add_to_free.
  destruct (free_root s (get_seglist_ind (get_size (st_mem s) x)) =? 0) eqn:E; cbn.
  - rewrite Z.eqb_refl. split; reflexivity.
  - split; reflexivity.
Qed.

Section Extend2.
Variables (st : state) (live : list Z) (B : blk -> Prop) (L : Z -> list Z) (sz : Z).
Variable ep : blk.
Hypothesis HV : heap_inv st live B L.
Hypothesis Hsz : 16 <= sz /\ sz mod 16 = 0.
Hypothesis Hfit : mem_brk st + sz <= mem_max_addr st.
Hypothesis Hep : B ep /\ b_addr ep = mem_brk st - 8.

Let e := mem_brk st - 8.
Let a := e + sz.
Let v := pack 0 true false.
Let st1 := set_brk st (mem_brk st + sz).
Let m1 := write_block (st_mem st) e sz false (b_pa ep).
Let m1e := store m1 a v.
Let nb := mkBlk e sz false (b_pa ep).
Let ep' := mkBlk a 0 true false.
Let B1 : blk -> Prop := fun c => (B c /\ b_addr c < e) \/ c = nb \/ c = ep'.
Let st2 := add_to_free (set_mem st1 m1) e.
Let st2h := add_to_free (set_mem st1 m1e) e.

Lemma ex2_hyp : hinv (set_mem st1 m1e) B1 L.
Proof. apply (ex_hinv st live B L sz ep HV Hsz Hfit Hep). Qed.

Lemma ex2_geom :
  8 < e /\ e + sz + 8 <= mem_max_addr st /\ mem_max_addr st < 2 ^ 64 /\ e mod 16 = 8.
Proof.
  destruct (ex_geom st live B L sz ep HV Hsz Hfit Hep) as (? & ? & ? & ? & _). auto.
Qed.

Lemma ex2_nb : B1 nb /\ get_size m1e e = sz /\ get_size m1 e = sz /\
               get_mini m1e e = (sz =? 16).
Proof.
  assert (Bnb : B1 nb) by (right; left; reflexivity).
  pose proof (hi_mem _ _ _ ex2_hyp nb Bnb) as Hok.
  destruct (ex_mem st live B L sz ep HV Hsz Hfit Hep) as (_ & _ & _ & Hok1 & _).
  split; [exact Bnb|]. split; [apply (blk_get_size _ _ Hok)|].
  split; [apply (blk_get_size _ _ Hok1)|apply (blk_get_mini _ _ Hok)].
Qed.

Lemma ex2_not_listed j : 0 <= j < 15 -> ~ In e (L j).
Proof.
  intros Hj Hin. destruct HV as (HI & _).
  destruct (hi_in _ _ _ HI j e Hj Hin) as (c & Bc & Ec & Fc & _).
  destruct Hep as (Bep & Eep).
  assert (c = ep) by (eapply hmem_same; eauto using hinv_hmem; unfold e in *; lia).
  subst c. destruct (lay_epi _ _ _ (hi_lay _ _ _ HI) ep Bep Eep). congruence.
Qed.

Lemma ex2_root_block r j :
  0 <= j < 15 -> free_root st j = r -> r <> 0 ->
  exists c, B c /\ b_addr c = r /\ b_alloc c = false /\ 8 < r /\ r + b_size c <= e /\
            16 <= b_size c /\ get_mini m1e r = (b_size c =? 16) /\
            (b_size c = 16 \/ 32 <= b_size c) /\ r mod 8 = 0.
Proof.
  intros Hj Er Hr. destruct HV as (HI & _).
  destruct (hi_dl _ _ _ HI j Hj) as (Hfw & _). apply fwd_hd in Hfw. rewrite Er in Hfw.
  assert (Hin : In r (L j)).
  { destruct (L j) as [|y t]; cbn in Hfw; [contradiction|]. left; congruence. }
  destruct (hinv_listed _ _ _ HI j r Hj Hin) as (c & Bc & Ec & Fc & _).
  pose proof (hmem_addr _ _ (hinv_hmem _ _ _ HI) c Bc) as (? & ? & ? & ? & ? & ? & ? & Hs).
  specialize (Hs Fc). pose proof (hmem_free_size _ _ (hinv_hmem _ _ _ HI) c Bc Fc).
  assert (Bc1 : B1 c) by (left; split; auto; unfold e; lia).
  exists c. repeat split; auto; try (unfold e; lia).
  rewrite <- Ec. apply (blk_get_mini _ _ (hi_mem _ _ _ ex2_hyp c Bc1)).
Qed.

(** The epilogue written after [add_to_free] or before it: same bytes. *)
Lemma ex2_commute :
  store_after a v (st_mem st2) (st_mem st2h) /\
  (forall j, free_root st2 j = free_root st2h j).
Proof.
  destruct ex2_geom as (? & ? & ? & ?). destruct Hsz as (? & ?).
  destruct ex2_nb as (_ & Eg & Eg1 & Em).
  assert (R0 : store_after a v m1 m1e) by (intros z; reflexivity).
  destruct (add_to_free_unfold (set_mem st1 m1) e) as (EA & RA).
  destruct (add_to_free_unfold (set_mem st1 m1e) e) as (EB & RB).
  cbn [st_mem set_mem free_root] in EA, RA, EB, RB. rewrite Eg in *. rewrite Eg1 in *.
  fold st2 in EA, RA. fold st2h in EB, RB.
  split; [|intros j; rewrite RA, RB; reflexivity].
  rewrite EA, EB. set (i := get_seglist_ind sz) in *.
  assert (Hi : 0 <= i < 15) by (apply get_seglist_ind_range; lia).
  assert (Hm : forall m', get_mini m' e = (sz =? 16) ->
                          get_mini m' e = false -> e + 24 <= a \/ a + 8 <= e).
  { intros m' -> Hf. apply Z.eqb_neq in Hf. unfold a. lia. }
  change (free_root st1 i) with (free_root st i).
  destruct (Z.eqb_spec (free_root st i) 0) as [E0|E0].
  - apply snf_after; try (unfold a; lia).
    apply spf_after; auto; try (unfold a; lia).
    apply Hm; exact Em.
  - destruct (ex2_root_block _ i Hi eq_refl E0) as (c & Bc & Ec & Fc & ? & ? & ? & Emr & Hs & ?).
    set (r := free_root st i) in *.
    assert (R1 : store_after a v (set_prev_free m1 r e) (set_prev_free m1e r e)).
    { apply spf_after; auto; try (unfold a; lia). }
    assert (R2 : store_after a v (set_next_free (set_prev_free m1 r e) e r)
                                 (set_next_free (set_prev_free m1e r e) e r)).
    { apply snf_after; auto; try (unfold a; lia). }
    apply spf_after; auto; try (unfold a; lia).
    apply Hm.
    destruct (snf_links (set_prev_free m1e r e) e r ltac:(lia) ltac:(lia) ltac:(lia)
                ltac:(lia)) as (_ & -> & _).
    rewrite <- Em. unfold get_mini. f_equal.
    pose proof (set_prev_free_out m1e r e ltac:(lia) ltac:(lia)) as So.
    eapply load_same_out; [exact So|]. rewrite Emr.
    destruct (Z.eqb_spec (b_size c) 16); lia.
Qed.
End Extend2.

Section Extend3.
Variables (st : state) (live : list Z) (B : blk -> Prop) (L : Z -> list Z) (sz : Z).
Variable ep : blk.
Hypothesis HV : heap_inv st live B L.
Hypothesis Hsz : 16 <= sz /\ sz mod 16 = 0.
Hypothesis Hfit : mem_brk st + sz <= mem_max_addr st.
Hypothesis Hep : B ep /\ b_addr ep = mem_brk st - 8.

Let e := mem_brk st - 8.
Let a := e + sz.
Let v := pack 0 true false.
Let st1 := set_brk st (mem_brk st + sz).
Let m1 := write_block (st_mem st) e sz false (b_pa ep).
Let m1e := store m1 a v.
Let nb := mkBlk e sz false (b_pa ep).
Let ep' := mkBlk a 0 true false.
Let B1 : blk -> Prop := fun c => (B c /\ b_addr c < e) \/ c = nb \/ c = ep'.
Let st2 := add_to_free (set_mem st1 m1) e.
Let st2h := add_to_free (set_mem st1 m1e) e.
Let st3 := set_mem st2 (write_epilogue (st_mem st2) (find_next (st_mem st2) e)).

Lemma ex3_fields :
  mem_heap_lo st3 = mem_heap_lo st /\ mem_brk st3 = mem_brk st + sz /\
  mem_max_addr st3 = mem_max_addr st /\ heap_start st3 = heap_start st /\
  mem_heap_lo st2h = mem_heap_lo st /\ mem_brk st2h = mem_brk st + sz /\
  mem_max_addr st2h = mem_max_addr st /\ heap_start st2h = heap_start st.
Proof.
  destruct (add_to_free_fields (set_mem st1 m1) e) as (? & ? & ? & ?).
  destruct (add_to_free_fields (set_mem st1 m1e) e) as (? & ? & ? & ?).
  unfold st3, st2, st2h. cbn in *. repeat split; assumption.
Qed.

Lemma ex3_semi :
  exists L2, semi_ok st3 B1 L2 nb /\
    (forall a0 s0, guarded B a0 s0 -> 16 <= s0 ->
       ((forall c, B c -> b_addr c <= a0) -> mem_brk st + sz - 8 <= a0) ->
       keeps (st_mem st) (st_mem st3) a0 s0 /\ guarded B1 a0 s0).
Proof.
  assert (HIh : hinv (set_mem st1 m1e) B1 L)
    by exact (ex2_hyp st live B L sz ep HV Hsz Hfit Hep).
  assert (Hg : 8 < e /\ e + sz + 8 <= mem_max_addr st /\ mem_max_addr st < 2 ^ 64 /\
               e mod 16 = 8) by exact (ex2_geom st live B L sz ep HV Hsz Hfit Hep).
  destruct Hg as (? & ? & ? & ?).
  assert (Bnb : B1 nb) by (right; left; reflexivity).
  assert (SR : store_after a v (st_mem st2) (st_mem st2h) /\
               (forall j, free_root st2 j = free_root st2h j))
    by exact (ex2_commute st live B L sz ep HV Hsz Hfit Hep).
  destruct SR as (SA & RA).
  assert (Hnl : forall j, 0 <= j < 15 -> ~ In (b_addr nb) (L j)).
  { intros j Hj. eapply ex2_not_listed; eauto. }
  destruct Hsz as (? & ?).
  destruct (hinv_add_in _ B1 L nb HIh Bnb eq_refl Hnl) as (L2 & HI2 & HL2 & _).
  change (b_addr nb) with e in HI2, HL2. change (b_size nb) with sz in HL2.
  fold st2h in HI2.
  destruct ex3_fields as (F1 & F2 & F3 & F4 & G1 & G2 & G3 & G4).
  assert (Egs : get_size (st_mem st2) e = sz).
  { transitivity (get_size (st_mem st2h) e);
      [|exact (blk_get_size _ _ (hi_mem _ _ _ HI2 nb Bnb))].
    unfold get_size, get_mini.
    rewrite (store_after_load a v _ _ e SA) by (unfold a; lia). reflexivity. }
  assert (Efn : find_next (st_mem st2) e = a).
  { unfold find_next. rewrite Egs. apply wrap_small. unfold a. lia. }
  assert (Hbyte : forall z, st_mem st3 z = st_mem st2h z).
  { intros z. unfold st3. cbn [st_mem set_mem]. rewrite Efn. unfold write_epilogue.
    symmetry. apply SA. }
  assert (HI3 : hinv st3 B1 L2).
  { apply (hinv_ext st2h); [exact HI2|exact Hbyte|congruence|congruence|congruence|congruence|].
    intros j _. unfold st3. cbn [free_root set_mem]. apply RA. }
  exists L2. pose proof HV as HV0. destruct HV as (HI & PA1 & PA2 & NF & AL & _).
  destruct Hep as (Bep & Eep). fold e in Eep.
  split.
  2:{ intros a0 s0 Ha Hs0 Hab.
      assert (Hlow : (a0 + s0 <= e \/ a <= a0) /\ guarded B1 a0 s0).
      { destruct Ha as [(c & Bc & Ec & Es & Ac)|[(Hs & Hb)|Habv]].
        - pose proof (hmem_addr _ _ (hinv_hmem _ _ _ HI) c Bc) as (? & ? & ? & ? & _).
          split; [left; unfold e; lia|]. left. exists c. split; [|auto]. left.
          split; [exact Bc|]. unfold e. lia.
        - pose proof (Hb ep Bep) as Hbe. rewrite Eep in Hbe.
          split; [left; exact Hbe|]. right. left. split; [exact Hs|].
          intros c [[Bc _]|[->| ->]]; [apply Hb; exact Bc|cbn; lia|cbn; unfold a; lia].
        - pose proof (Hab Habv) as Hge. fold e in Hge.
          split; [right; unfold a; lia|]. right. right.
          intros c [[Bc _]|[->| ->]]; [apply Habv; exact Bc|cbn; unfold a in *; lia|
                                       cbn; unfold a in *; lia]. }
      destruct Hlow as (Hlow & Ha1). split; [|exact Ha1].
      intros z Hz. rewrite Hbyte.
      pose proof (add_keeps (set_mem st1 m1e) B1 L nb HIh Bnb eq_refl Hnl a0 s0 Ha1) as K.
      change (b_addr nb) with e in K. fold st2h in K. rewrite (K z Hz).
      cbn [st_mem set_mem].
      destruct (ex_mem st live B L sz ep HV0 (conj H3 H4) Hfit (conj Bep Eep)) as (Sm & _).
      apply Sm. lia. }
  constructor.
  - exact HI3.
  - intros c [[Bc Hc]|[->| ->]] Fc; cbn in *; try discriminate.
    + apply HL2; [|left; apply AL; auto].
      apply get_seglist_ind_range.
      pose proof (hmem_addr _ _ (hinv_hmem _ _ _ HI) c Bc) as (? & ? & ? & ? & ?). lia.
    + apply HL2; [apply get_seglist_ind_range; lia|right; auto].
  - rewrite F4. change (b_addr nb) with e. split.
    + intros p0 n0 [[Bp Hp]|[->| ->]] Bn En Hlt Hne; cbn in *; try lia.
      destruct Bn as [[Bn Hn]|[->| ->]]; cbn in *.
      * apply PA1; auto.
      * apply (PA1 p0 ep); auto; lia.
      * pose proof (hmem_addr _ _ (hinv_hmem _ _ _ HI) p0 Bp) as (? & ? & ?).
        unfold a, e in *. lia.
    + intros c [[Bc Hc]|[->| ->]] Ec; cbn in *.
      * apply PA2; auto.
      * apply (PA2 ep); auto. congruence.
      * pose proof (hmem_addr _ _ (hinv_hmem _ _ _ HI) ep Bep) as (? & ? & ? & ? & ? & ? & ?).
        unfold a in *. lia.
  - intros c [[Bc Hc]|[->| ->]] Fc Hne; cbn in *; try discriminate; try lia.
    apply NF; auto.
  - split; [exact Bnb|reflexivity].
Qed.

Lemma ex3_ok :
  exists B' L' r,
    heap_inv (snd (coalesce_block st3 e)) live B' L' /\
    B' r /\ b_addr r = fst (coalesce_block st3 e) /\ b_alloc r = false /\
    sz <= b_size r /\
    b_addr r <= mem_brk st - 8 /\ b_addr r + b_size r = mem_brk st + sz - 8 /\
    mem_heap_lo (snd (coalesce_block st3 e)) = mem_heap_lo st /\
    mem_brk (snd (coalesce_block st3 e)) = mem_brk st + sz /\
    mem_max_addr (snd (coalesce_block st3 e)) = mem_max_addr st /\
    heap_start (snd (coalesce_block st3 e)) = heap_start st /\
    (forall a0 s0, guarded B a0 s0 -> 16 <= s0 ->
       ((forall c, B c -> b_addr c <= a0) -> mem_brk st + sz - 8 <= a0) ->
       guarded B' a0 s0 /\ keeps (st_mem st) (st_mem (snd (coalesce_block st3 e))) a0 s0).
Proof.
  destruct ex3_semi as (L2 & HS & HK).
  pose proof (coalesce_spec _ _ _ _ HS) as HC. change (b_addr nb) with e in HC.
  pose proof (fun a0 s0 => coalesce_keeps _ _ _ _ a0 s0 HS) as KC.
  change (b_addr nb) with e in KC.
  destruct HC as (B' & L' & r & Er & HCo & Hle & Hge & Hfr & Hal & F1 & F2 & F3 & F4).
  change (b_addr nb) with e in *. change (b_size nb) with sz in *.
  destruct ex3_fields as (G1 & G2 & G3 & G4 & _).
  assert (Hg : 8 < e /\ e + sz + 8 <= mem_max_addr st /\ mem_max_addr st < 2 ^ 64 /\
               e mod 16 = 8) by exact (ex2_geom st live B L sz ep HV Hsz Hfit Hep).
  destruct Hg as (? & ? & ? & ?).
  destruct HCo as [HI' AL' [PA1' PA2'] NF' (Br & Fr & Pr) Hnx].
  set (st' := snd (coalesce_block st3 e)) in *.
  pose proof (hmem_addr _ _ (hinv_hmem _ _ _ HI') r Br) as (? & Hre & ? & ? & ? & ? & _).
  rewrite F2, G2 in Hre.
  assert (Hend : b_addr r + b_size r = a) by (unfold a, e in *; lia).
  destruct HV as (HI & PA1 & PA2 & NF & AL & LV & ND).
  exists B', L', r.
  split; [|split; [exact Br|split; [exact Er|split; [exact Fr|
           split; [lia|split; [unfold a, e in *; lia|split; [unfold a, e in *; lia|
           split; [congruence|split; [congruence|split; [congruence|split; [congruence|]]]]]]]]]]].
  2:{ intros a0 s0 Ha Hs0 Hab. destruct (HK a0 s0 Ha Hs0 Hab) as (K1 & Ha1).
      split.
      - apply (guarded_transfer st3 st' B1 B' a0 s0 (hinv_hmem _ _ _ (so_inv _ _ _ _ HS))
                 (hinv_hmem _ _ _ HI') F4 F2 Ha1).
        intros c Bc Ec Es Ac. exists c. split; [|auto]. apply Hal; auto.
      - apply (keeps_trans _ (st_mem st3)); [exact K1|]. apply KC. exact Ha1. }
  split; [exact HI'|]. split; [|split; [|split; [|split; [|split]]]]; auto.
  - intros p0 n0 Bp Bn En Hlt.
    destruct (Z.eq_dec (b_addr p0) (b_addr r)) as [E|E]; [|apply PA1'; auto].
    assert (p0 = r) by (apply (hmem_same _ _ (hinv_hmem _ _ _ HI')); auto). subst p0.
    assert (Bn1 : B1 n0) by (apply Hfr; auto; lia).
    rewrite Fr. destruct Bn1 as [[Bn1 Hn1]|[->| ->]]; cbn in *; try reflexivity.
    + unfold a in *. destruct Hsz. lia.
    + unfold a in *. destruct Hsz. lia.
  - intros q Hq. destruct (LV q Hq) as (c & Bc & Ec & Ac & Sc).
    exists c. repeat split; auto. apply Hal; auto. left. split; auto.
    pose proof (hmem_addr _ _ (hinv_hmem _ _ _ HI) c Bc) as (? & ? & ?). unfold e. lia.
Qed.
End Extend3.

Lemma round_up_dsize size :
  0 < size -> size + 15 < 2 ^ 64 ->
  round_up size dsize = 16 * ((size + 15) / 16) /\
  16 <= round_up size dsize /\ round_up size dsize mod 16 = 0 /\
  size <= round_up size dsize < size + 16.
Proof.
  intros H1 H2. rewrite const_2_64 in *.
  assert (E : round_up size dsize = 16 * ((size + 15) / 16)).
  { unfold round_up, dsize, wsize. change (2 * 8 - 1) with 15. change (2 * 8) with 16.
    rewrite (wrap_small (size + 15)) by (rewrite const_2_64; lia).
    apply wrap_small. rewrite const_2_64. lia. }
  rewrite E. repeat split; lia.
Qed.

Lemma heap_inv_epilogue st live B L :
  heap_inv st live B L ->
  exists ep, B ep /\ b_addr ep = mem_brk st - 8 /\ b_size ep = 0 /\ b_alloc ep = true /\
             mem_brk st mod 16 = 0 /\ 16 < mem_brk st <= mem_max_addr st /\
             mem_max_addr st < 2 ^ 64.
Proof.
  intros (HI & _). destruct (lay_last _ _ _ (hi_lay _ _ _ HI)) as (ep & Bep & Eep).
  destruct (lay_epi _ _ _ (hi_lay _ _ _ HI) ep Bep Eep) as (? & ?).
  pose proof (lay_align _ _ _ (hi_lay _ _ _ HI) ep Bep).
  destruct (hi_brk _ _ _ HI) as ((? & ?) & ?). destruct (hi_lo _ _ _ HI).
  exists ep. repeat split; auto; lia.
Qed.

(** [extend_heap] on a heap that satisfies the invariant: when [mem_sbrk]
    refuses, nothing changes and 0 is returned; otherwise the heap grows by
    the rounded size, the invariant holds again, and the block returned is
    free and at least that large; every allocated block is still there with
    its payload bytes. *)
Lemma extend_heap_full st live B L size :
  heap_inv st live B L -> 0 < size -> size + 15 < 2 ^ 64 ->
  let sz := round_up size dsize in
  if (2 ^ 63 <=? sz) || (mem_max_addr st - mem_brk st <? sz)
  then extend_heap size st = (0, st)
  else exists B' L' r,
    heap_inv (snd (extend_heap size st)) live B' L' /\
    B' r /\ b_addr r = fst (extend_heap size st) /\ b_alloc r = false /\
    sz <= b_size r /\
    b_addr r <= mem_brk st - 8 /\ b_addr r + b_size r = mem_brk st + sz - 8 /\
    mem_heap_lo (snd (extend_heap size st)) = mem_heap_lo st /\
    mem_brk (snd (extend_heap size st)) = mem_brk st + sz /\
    mem_max_addr (snd (extend_heap size st)) = mem_max_addr st /\
    heap_start (snd (extend_heap size st)) = heap_start st /\
    (forall a0 s0, guarded B a0 s0 -> 16 <= s0 ->
       ((forall c, B c -> b_addr c <= a0) -> mem_brk st + sz - 8 <= a0) ->
       guarded B' a0 s0 /\ keeps (st_mem st) (st_mem (snd (extend_heap size st))) a0 s0).
Proof.
  intros HV H0 H1 sz.
  destruct (round_up_dsize size H0 H1) as (_ & Hs1 & Hs2 & _). fold sz in Hs1, Hs2.
  destruct (heap_inv_epilogue _ _ _ _ HV) as (ep & Bep & Eep & _ & _ & Hb16 & Hb & Hmx).
  unfold extend_heap, mem_sbrk. fold sz.
  destruct ((2 ^ 63 <=? sz) || (mem_max_addr st - mem_brk st <? sz)) eqn:Ec.
  - rewrite Z.eqb_refl. reflexivity.
  - apply orb_false_iff in Ec. destruct Ec as (Ec1 & Ec2).
    apply Z.leb_gt in Ec1. apply Z.ltb_ge in Ec2.
    assert (Ew : (mem_brk st =? wrap (-1)) = false).
    { apply Z.eqb_neq. unfold wrap. rewrite const_2_64 in *.
      change ((-1) mod 18446744073709551616) with 18446744073709551615. lia. }
    rewrite Ew.
    assert (Ee : wrap (mem_brk st - 8) = mem_brk st - 8) by (apply wrap_small; lia).
    unfold payload_to_header, off_payload. rewrite Ee.
    assert (Epa : get_prev_alloc (st_mem (set_brk st (mem_brk st + sz))) (mem_brk st - 8)
                  = b_pa ep).
    { destruct HV as (HI & _). rewrite <- Eep.
      apply (blk_get_prev_alloc _ _ (hi_mem _ _ _ HI ep Bep)). }
    rewrite Epa.
    apply (ex3_ok st live B L sz ep HV (conj Hs1 Hs2) ltac:(lia) (conj Bep Eep)).
Qed.

(** [extend_heap] on a heap that satisfies the invariant: when [mem_sbrk]
    refuses, nothing changes and 0 is returned; otherwise the heap grows by
    the rounded size, the invariant holds again, and the block returned is
    free and at least that large. *)
Lemma extend_heap_ok st live B L size :
  heap_inv st live B L -> 0 < size -> size + 15 < 2 ^ 64 ->
  let sz := round_up size dsize in
  if (2 ^ 63 <=? sz) || (mem_max_addr st - mem_brk st <? sz)
  then extend_heap size st = (0, st)
  else exists B' L' r,
    heap_inv (snd (extend_heap size st)) live B' L' /\
    B' r /\ b_addr r = fst (extend_heap size st) /\ b_alloc r = false /\
    sz <= b_size r /\
    b_addr r <= mem_brk st - 8 /\ b_addr r + b_size r = mem_brk st + sz - 8 /\
    mem_heap_lo (snd (extend_heap size st)) = mem_heap_lo st /\
    mem_brk (snd (extend_heap size st)) = mem_brk st + sz /\
    mem_max_addr (snd (extend_heap size st)) = mem_max_addr st /\
    heap_start (snd (extend_heap size st)) = heap_start st.
Proof.
  intros HV H0 H1 sz. pose proof (extend_heap_full st live B L size HV H0 H1) as F.
  cbv zeta in F. fold sz in F.
  destruct ((2 ^ 63 <=? sz) || (mem_max_addr st - mem_brk st <? sz)); [exact F|].
  destruct F as (B' & L' & r & F1 & F2 & F3 & F4 & F5 & F6 & F7 & F8 & F9 & F10 & F11 & _).
  exists B', L', r. repeat (split; [assumption|]). assumption.
Qed.

(** * [malloc] *)

(** The adjusted size that [malloc] computes from a request. *)
Lemma asize_spec size :
  0 <= size < 2 ^ 64 ->
  let asize := max (round_up (wrap (size + wsize)) dsize) min_block_size in
  16 <= asize < 2 ^ 64 /\ asize mod 16 = 0 /\
  (size + 23 < 2 ^ 64 -> size + 8 <= asize).
Proof.
  intros Hs. cbn zeta.
  unfold max, round_up, min_block_size, dsize, wsize.
  change (2 * 8 - 1) with 15. change (2 * 8) with 16.
  pose proof (wrap_range (size + 8)) as W1.
  pose proof (wrap_range (wrap (size + 8) + 15)) as W2.
  set (w := wrap (size + 8)) in *. set (w2 := wrap (w + 15)) in *.
  rewrite const_2_64 in *.
  rewrite (wrap_small (16 * (w2 / 16))) by (rewrite const_2_64; lia).
  destruct (Z.gtb_spec (16 * (w2 / 16)) 16).
  - repeat split; try lia. intros Hf.
    assert (w = size + 8) by (apply wrap_small; rewrite const_2_64; lia).
    assert (w2 = w + 15) by (apply wrap_small; rewrite const_2_64; lia). lia.
  - repeat split; try lia. intros Hf.
    assert (w = size + 8) by (apply wrap_small; rewrite const_2_64; lia).
    assert (w2 = w + 15) by (apply wrap_small; rewrite const_2_64; lia). lia.
Qed.

Lemma max_chunk asize :
  16 <= asize < 2 ^ 64 -> asize mod 16 = 0 ->
  0 < max asize chunksize /\ max asize chunksize + 15 < 2 ^ 64 /\
  round_up (max asize chunksize) dsize = max asize chunksize /\
  asize <= max asize chunksize.
Proof.
  intros H1 H2. unfold max, chunksize. change (Z.shiftl 1 12) with 4096.
  rewrite const_2_64 in *.
  assert (K : forall s, 16 <= s < 18446744073709551616 -> s mod 16 = 0 ->
                        round_up s dsize = s).
  { intros s Hs Hm. destruct (round_up_dsize s) as (E & _); [lia|rewrite const_2_64; lia|].
    rewrite E. lia. }
  destruct (Z.gtb_spec asize 4096); repeat split; try lia; apply K; lia.
Qed.

Lemma heap_inv_find_fit_full st live B L asize :
  heap_inv st live B L -> 16 <= asize < 2 ^ 64 ->
  exists r,
    (forall fuel, (length (L (get_seglist_ind asize)) < fuel)%nat ->
       find_fit fuel st asize = Some r) /\
    (r <> 0 -> exists b, B b /\ b_addr b = r /\ b_alloc b = false /\ asize <= b_size b) /\
    (r = 0 -> forall b, B b -> b_alloc b = false -> b_size b < asize).
Proof.
  intros (HI & _ & _ & _ & AL & _) Has.
  assert (Hfw : forall i, 0 <= i < 15 ->
            fwd (get_next_free (st_mem st)) (free_root st i) (L i))
    by (intros i Hi; apply (hi_dl _ _ _ HI i Hi)).
  assert (Hbk : forall i x, 0 <= i < 15 -> In x (L i) ->
            get_alloc (st_mem st) x = false /\
            get_seglist_ind (get_size (st_mem st) x) = i).
  { intros i x Hi Hx. destruct (hinv_listed _ _ _ HI i x Hi Hx) as (b & Bb & <- & Fb & Eb & Ok & _).
    rewrite (blk_get_alloc _ _ Ok), (blk_get_size _ _ Ok). auto. }
  destruct (find_fit_spec st L asize Hfw Hbk Has) as (r & Hr & Hnz & Hz).
  exists r. split; [exact Hr|]. split.
  2:{ intros E0 b Bb Fb. destruct (Z.lt_ge_cases (b_size b) asize) as [Hlt|Hge]; [exact Hlt|].
      pose proof (hmem_addr _ _ (hinv_hmem _ _ _ HI) b Bb) as (? & ? & ? & ? & ? & _).
      pose proof (get_seglist_ind_mono asize (b_size b) ltac:(lia) ltac:(lia)) as Hm.
      pose proof (get_seglist_ind_range (b_size b) ltac:(lia)) as Hr2.
      pose proof (Hz E0 _ _ (conj Hm (proj2 Hr2)) (AL b Bb Fb)) as Hx.
      rewrite (blk_get_size _ _ (hi_mem _ _ _ HI b Bb)) in Hx. exact Hx. }
  intros Hne.
  destruct (Hnz Hne) as ((i & Hi & Hin) & _ & Hsz).
  assert (Hi' : 0 <= i < 15).
  { pose proof (get_seglist_ind_range asize ltac:(lia)). lia. }
  destruct (hinv_listed _ _ _ HI i r Hi' Hin) as (b & Bb & Eb & Fb & _ & Ok & _).
  exists b. subst r. rewrite (blk_get_size _ _ Ok) in Hsz. auto.
Qed.

Lemma heap_inv_find_fit st live B L asize :
  heap_inv st live B L -> 16 <= asize < 2 ^ 64 ->
  exists r,
    (forall fuel, (length (L (get_seglist_ind asize)) < fuel)%nat ->
       find_fit fuel st asize = Some r) /\
    (r <> 0 -> exists b, B b /\ b_addr b = r /\ b_alloc b = false /\ asize <= b_size b).
Proof.
  intros HV Has. destruct (heap_inv_find_fit_full st live B L asize HV Has) as (r & H1 & H2 & _).
  exists r. split; [exact H1|exact H2].
Qed.

(** More fuel does not change a result. *)
Lemma find_fit_scan_mono m asize fuel : forall fuel' block min checked x,
  find_fit_scan fuel m asize block min checked = Some x -> (fuel <= fuel')%nat ->
  find_fit_scan fuel' m asize block min checked = Some x.
Proof.
  induction fuel as [|k IH]; intros fuel' block min checked x H Hle; [discriminate|].
  destruct fuel' as [|k']; [lia|]. cbn [find_fit_scan] in *.
  destruct (block =? 0); [exact H|].
  destruct (asize <=? get_size m block).
  - destruct (negb _ && _); [exact H|]. apply IH; [exact H|lia].
  - apply IH; [exact H|lia].
Qed.

Lemma find_fit_mono fuel fuel' st asize r :
  find_fit fuel st asize = Some r -> (fuel <= fuel')%nat ->
  find_fit fuel' st asize = Some r.
Proof.
  unfold find_fit. intros H Hle.
  destruct (find_fit_scan fuel (st_mem st) asize _ 0 0) as [x|] eqn:E; [|discriminate].
  rewrite (find_fit_scan_mono _ _ _ fuel' _ _ _ _ E Hle). exact H.
Qed.

Lemma malloc_mono fuel fuel' size st x :
  malloc fuel size st = Some x -> (fuel <= fuel')%nat -> malloc fuel' size st = Some x.
Proof.
  unfold malloc. intros H Hle. destruct (size =? 0); [exact H|].
  match type of H with
  | match find_fit fuel ?s ?a with _ => _ end = _ =>
    destruct (find_fit fuel s a) as [r|] eqn:E; [|discriminate];
    rewrite (find_fit_mono _ fuel' _ _ _ E Hle)
  end.
  exact H.
Qed.

Lemma live_kept_trans st1 st2 st3 live :
  live_kept st1 st2 live -> live_kept st2 st3 live -> live_kept st1 st3 live.
Proof.
  intros K1 K2 q Hq. destruct (K1 q Hq) as (E1 & B1). destruct (K2 q Hq) as (E2 & B2).
  split; [congruence|]. intros z Hz. rewrite B2 by (rewrite E1; exact Hz). apply B1. exact Hz.
Qed.

Lemma live_kept_refl st live : live_kept st st live.
Proof. intros q _. split; auto. Qed.

(** Allocated blocks that persist with their payload bytes keep the live
    payloads, bytes and size. *)
Lemma live_kept_of st st' live live' B L B' L' :
  heap_inv st live B L -> heap_inv st' live' B' L' ->
  heap_start st' = heap_start st -> mem_brk st <= mem_brk st' ->
  (forall a s, guarded B a s -> 16 <= s -> a + s <= mem_brk st - 8 ->
     guarded B' a s /\ keeps (st_mem st) (st_mem st') a s) ->
  live_kept st st' live.
Proof.
  intros HV HV' Ehs Hbrk HK q Hq.
  pose proof HV as (HI & _ & _ & _ & _ & LV & _). destruct HV' as (HI' & _).
  destruct (LV q Hq) as (b & Bb & Eb & Ab & Sb).
  pose proof (hinv_hmem _ _ _ HI) as HM.
  destruct (payload_header b st B HM Bb) as (E1 & _). rewrite Eb in E1.
  pose proof (hmem_addr _ _ HM b Bb) as (? & ? & ? & ? & ? & ? & _).
  destruct (HK (b_addr b) (b_size b) ltac:(left; exists b; auto) Sb ltac:(lia)) as (G & K).
  assert (Hc : exists c, B' c /\ b_addr c = b_addr b /\ b_size c = b_size b).
  { destruct G as [(c & Bc & Ec & Es & Ac)|[(Hs & Hb)|Hab]].
    - exists c. auto.
    - exfalso. destruct (lay_first _ _ _ (hi_lay _ _ _ HI')) as (f & Bf & Ef).
      specialize (Hb f Bf). lia.
    - exfalso. destruct (lay_last _ _ _ (hi_lay _ _ _ HI')) as (l & Bl & El).
      specialize (Hab l Bl). lia. }
  destruct Hc as (c & Bc & Ec & Es).
  rewrite E1. unfold get_payload_size.
  rewrite (blk_get_size _ _ (hi_mem _ _ _ HI b Bb)).
  rewrite <- Ec at 1. rewrite (blk_get_size _ _ (hi_mem _ _ _ HI' c Bc)).
  split; [congruence|].
  intros z Hz. apply K. unfold wsize in Hz. rewrite wrap_small in Hz by lia. lia.
Qed.

Lemma heap_frame_refl st : heap_frame st st.
Proof. intros z _. reflexivity. Qed.

Lemma heap_frame_trans st1 st2 st3 :
  heap_start st2 = heap_start st1 -> mem_brk st2 <= mem_brk st3 ->
  heap_frame st1 st2 -> heap_frame st2 st3 -> heap_frame st1 st3.
Proof.
  intros Eh Hb F1 F2 z Hz. rewrite F2 by (rewrite Eh; lia). apply F1. lia.
Qed.

(** Guarded ranges that are kept give the frame of the heap: no byte below
    [heap_start] and none at the new break or above it has changed. *)
Lemma frame_of_guarded st st' B :
  hmem st B -> mem_brk st <= mem_brk st' ->
  (forall a s, guarded B a s -> 16 <= s ->
     ((forall c, B c -> b_addr c <= a) -> mem_brk st' - 8 <= a) ->
     keeps (st_mem st) (st_mem st') a s) ->
  heap_frame st st'.
Proof.
  intros HM Hbrk HK z [Hz|Hz].
  - apply (HK (z - 15) 16); [|lia| |lia].
    + right. left. split; [lia|]. intros c Bc.
      pose proof (hmem_addr _ _ HM c Bc) as (? & ? & ? & ? & ? & ? & _). lia.
    + intros Hab. exfalso. destruct (lay_first _ _ _ (hm_lay _ _ HM)) as (f & Bf & Ef).
      specialize (Hab f Bf). lia.
  - apply (HK (z - 8) 16); [|lia| |lia].
    + right. right. intros c Bc.
      pose proof (lay_range _ _ _ (hm_lay _ _ HM) c Bc) as (? & ?). lia.
    + intros _. lia.
Qed.

(** The tail of [malloc]: the free block [rb] found or made is taken off its
    bucket, marked allocated, split, and its payload returned; the live payloads
    are kept. *)
Lemma malloc_place_full st0 st live B L rb size :
  heap_inv st live B L -> B rb -> b_alloc rb = false ->
  0 <= size < 2 ^ 64 ->
  let asize := max (round_up (wrap (size + wsize)) dsize) min_block_size in
  asize <= b_size rb ->
  mem_heap_lo st = mem_heap_lo st0 -> mem_max_addr st = mem_max_addr st0 ->
  heap_start st = heap_start st0 ->
  let block := b_addr rb in
  let st1 := remove_from_free st block in
  let block_size := get_size (st_mem st1) block in
  let st2 := set_mem st1 (write_block (st_mem st1) block block_size true true) in
  let st3 := split_block st2 block asize in
  let st4 := set_mem st3 (update_next (st_mem st3) block true) in
  header_to_payload block <> 0 /\
  malloc_post st0 live size (header_to_payload block) st4 /\
  live_kept st st4 live /\
  mem_brk st4 = mem_brk st /\
  get_size (st_mem st4) block = asize /\
  heap_frame st st4.
Proof.
  intros HV Brb Frb Hs asize Hfit F1 F2 F3.
  destruct (asize_spec size Hs) as (Ha1 & Ha2 & Ha3).
  change (max (round_up (wrap (size + wsize)) dsize) min_block_size) with asize
    in Ha1, Ha2, Ha3.
  pose proof (place_ok st live B L rb asize HV Brb Frb
                (conj (proj1 Ha1) (conj Ha2 Hfit))) as HP.
  cbn zeta in HP |- *.
  destruct HP as (B' & L' & b' & HV' & Bb' & Eb' & Ab' & Hs' & G1 & G2 & G3 & G4 & HK & Hex).
  pose proof HV as HV0.
  destruct HV as (HI & _).
  pose proof (hmem_addr _ _ (hinv_hmem _ _ _ HI) rb Brb) as (? & ? & ? & ? & ? & _).
  assert (Ep : header_to_payload (b_addr rb) = b_addr rb + 8).
  { unfold header_to_payload, off_payload. apply wrap_small. lia. }
  rewrite Ep. split; [lia|].
  split; [|split; [exact (live_kept_of _ _ _ _ _ _ _ _ HV0 HV' G4 (Z.eq_le_incl _ _ (eq_sym G2))
                            (fun a s Ha _ _ => HK a s Ha))|
                   split; [exact G2|split]]].
  2:{ destruct HV' as (HI' & _).
      pose proof (blk_get_size _ _ (hi_mem _ _ _ HI' b' Bb')) as G.
      rewrite Eb', Hex in G. exact G. }
  2:{ apply (frame_of_guarded _ _ B (hinv_hmem _ _ _ HI) (Z.eq_le_incl _ _ (eq_sym G2))).
      intros a s Ha _ _. apply HK. exact Ha. }
  unfold malloc_post.
  split; [congruence|]. split; [congruence|]. split; [congruence|].
  split; [intros; lia|]. intros _. split; [lia|].
  exists B', L', b'. rewrite Eb'.
  split; [exact HV'|]. split; [exact Bb'|]. split; [reflexivity|]. split; [exact Ab'|].
  intros Hf. specialize (Ha3 Hf). lia.
Qed.

(** The tail of [malloc]: the free block [rb] found or made is taken off its
    bucket, marked allocated, split, and its payload returned. *)
Lemma malloc_place st0 st live B L rb size :
  heap_inv st live B L -> B rb -> b_alloc rb = false ->
  0 <= size < 2 ^ 64 ->
  let asize := max (round_up (wrap (size + wsize)) dsize) min_block_size in
  asize <= b_size rb ->
  mem_heap_lo st = mem_heap_lo st0 -> mem_max_addr st = mem_max_addr st0 ->
  heap_start st = heap_start st0 ->
  let block := b_addr rb in
  let st1 := remove_from_free st block in
  let block_size := get_size (st_mem st1) block in
  let st2 := set_mem st1 (write_block (st_mem st1) block block_size true true) in
  let st3 := split_block st2 block asize in
  let st4 := set_mem st3 (update_next (st_mem st3) block true) in
  header_to_payload block <> 0 /\
  malloc_post st0 live size (header_to_payload block) st4.
Proof.
  intros HV Brb Frb Hs asize Hfit F1 F2 F3.
  destruct (malloc_place_full st0 st live B L rb size HV Brb Frb Hs Hfit F1 F2 F3)
    as (H1 & H2 & _).
  split; [exact H1|exact H2].
Qed.

Lemma heap_inv_start st live B L : heap_inv st live B L -> (heap_start st =? 0) = false.
Proof.
  intros (HI & _). apply Z.eqb_neq.
  pose proof (hi_start _ _ _ HI). destruct (hi_lo _ _ _ HI). lia.
Qed.

Lemma malloc_post_null st live size : malloc_post st live size 0 st.
Proof. unfold malloc_post. repeat split; auto; intros; contradiction. Qed.

(** With enough fuel for the scan of the home bucket, [malloc] returns; what
    it returns satisfies [malloc_post], the live payloads are kept, and the
    result is null exactly when the request is void, or no free block is
    large enough and [mem_sbrk] refuses the extension. *)
Lemma malloc_weak_full st live B L size :
  heap_inv st live B L -> 0 <= size < 2 ^ 64 ->
  let asize := max (round_up (wrap (size + wsize)) dsize) min_block_size in
  exists N, forall fuel, (N < fuel)%nat ->
    exists p st', malloc fuel size st = Some (p, st') /\ malloc_post st live size p st' /\
      live_kept st st' live /\
      (p = 0 <-> size = 0 \/
         ((forall b, B b -> b_alloc b = false -> b_size b < asize) /\
          (2 ^ 63 <=? max asize chunksize) ||
          (mem_max_addr st - mem_brk st <? max asize chunksize) = true)) /\
      (p <> 0 -> get_size (st_mem st') (payload_to_header p) = asize) /\
      (mem_brk st' = mem_brk st \/
       (forall b, B b -> b_alloc b = false -> b_size b < asize) /\
       mem_brk st' = mem_brk st + max asize chunksize) /\
      heap_frame st st'.
Proof.
  intros HV Hs asize0.
  destruct (asize_spec size Hs) as (Ha1 & Ha2 & _).
  set (asize := max (round_up (wrap (size + wsize)) dsize) min_block_size) in *.
  subst asize0.
  destruct (heap_inv_find_fit_full st live B L asize HV Ha1) as (r & Hr & Hb & Hno).
  exists (length (L (get_seglist_ind asize))). intros fuel Hf.
  unfold malloc. rewrite (heap_inv_start _ _ _ _ HV).
  destruct (Z.eqb_spec size 0) as [Ez|Ez].
  { exists 0, st. split; [reflexivity|]. split; [apply malloc_post_null|].
    split; [apply live_kept_refl|]. split; [split; auto|].
    split; [intros E0; contradiction|]. split; [left; reflexivity|apply heap_frame_refl]. }
  fold asize. rewrite (Hr fuel Hf).
  destruct (Z.eqb_spec r 0) as [Er|Er].
  - destruct (max_chunk asize Ha1 Ha2) as (M1 & M2 & M3 & M4).
    pose proof (extend_heap_full st live B L (max asize chunksize) HV M1 M2) as HE.
    cbn zeta in HE. rewrite M3 in HE.
    destruct ((2 ^ 63 <=? max asize chunksize) ||
              (mem_max_addr st - mem_brk st <? max asize chunksize)).
    + rewrite HE. rewrite Z.eqb_refl.
      exists 0, st. split; [reflexivity|]. split; [apply malloc_post_null|].
      split; [apply live_kept_refl|].
      split; [split; [|reflexivity]; intros _; right; split; [exact (Hno Er)|reflexivity]|].
      split; [intros E0; contradiction|]. split; [left; reflexivity|apply heap_frame_refl].
    + destruct HE as (B' & L' & rb & HV' & Brb & Erb & Frb & Hsz & _ & _ & F1 & F2 & F3 & F4 & HK).
      destruct (heap_inv_epilogue _ _ _ _ HV) as (ep & Bep & Eep & _).
      pose proof HV as (HI & _).
      assert (K1 : live_kept st (snd (extend_heap (max asize chunksize) st)) live).
      { apply (live_kept_of _ _ _ _ _ _ _ _ HV HV' F4); [lia|].
        intros a s Ha Hs16 Hle. apply (HK a s Ha Hs16).
        intros Hab. specialize (Hab ep Bep). lia. }
      assert (R1 : heap_frame st (snd (extend_heap (max asize chunksize) st))).
      { apply (frame_of_guarded _ _ B (hinv_hmem _ _ _ HI)); [lia|].
        intros a s Ha Hs16 Hab. apply (HK a s Ha Hs16). intros Hc. specialize (Hab Hc). lia. }
      destruct (extend_heap (max asize chunksize) st) as [blk st1]. cbn [fst snd] in *.
      subst blk.
      assert (Hnz : (b_addr rb =? 0) = false).
      { apply Z.eqb_neq. destruct HV' as (HI' & _).
        pose proof (hmem_addr _ _ (hinv_hmem _ _ _ HI') rb Brb) as (? & _). lia. }
      rewrite Hnz.
      destruct (malloc_place_full st st1 live B' L' rb size HV' Brb Frb Hs
                  ltac:(fold asize; lia) F1 F3 F4) as (Hp0 & HP & K2 & Eb2 & Eg2 & R2).
      assert (Ehp : payload_to_header (header_to_payload (b_addr rb)) = b_addr rb).
      { destruct HV' as (HI' & _).
        destruct (payload_header rb st1 B' (hinv_hmem _ _ _ HI') Brb) as (P1 & P2).
        rewrite P2. exact P1. }
      eexists _, _. split; [reflexivity|]. split; [exact HP|].
      split; [exact (live_kept_trans _ _ _ _ K1 K2)|].
      split; [split; [intros E0; contradiction|
                      intros [E0|(_ & E0)]; [contradiction|discriminate]]|].
      split; [intros _; rewrite Ehp; exact Eg2|].
      split; [right; split; [exact (Hno Er)|exact (eq_trans Eb2 F2)]|].
      apply (heap_frame_trans st st1); [exact F4|exact (Z.eq_le_incl _ _ (eq_sym Eb2))|
                                        exact R1|exact R2].
  - rewrite (proj2 (Z.eqb_neq r 0) Er).
    destruct (Hb Er) as (b & Bb & Eb & Fb & Hsz). subst r.
    destruct (malloc_place_full st st live B L b size HV Bb Fb Hs ltac:(fold asize; lia)
                eq_refl eq_refl eq_refl) as (Hp0 & HP & K2 & Eb2 & Eg2 & R2).
    assert (Ehp : payload_to_header (header_to_payload (b_addr b)) = b_addr b).
    { pose proof HV as (HI & _).
      destruct (payload_header b st B (hinv_hmem _ _ _ HI) Bb) as (P1 & P2).
      rewrite P2. exact P1. }
    eexists _, _. split; [reflexivity|]. split; [exact HP|]. split; [exact K2|].
    split; [split; [intros E0; contradiction|
                    intros [E0|(E0 & _)]; [contradiction|specialize (E0 b Bb Fb); lia]]|].
    split; [intros _; rewrite Ehp; exact Eg2|]. split; [left; exact Eb2|exact R2].
Qed.

(** With enough fuel for the scan of the home bucket, [malloc] returns, and
    what it returns satisfies [malloc_post]. *)
Lemma malloc_weak st live B L size :
  heap_inv st live B L -> 0 <= size < 2 ^ 64 ->
  exists N, forall fuel, (N < fuel)%nat ->
    exists p st', malloc fuel size st = Some (p, st') /\ malloc_post st live size p st'.
Proof.
  intros HV Hs. destruct (malloc_weak_full st live B L size HV Hs) as (N & HN).
  exists N. intros fuel Hf. destruct (HN fuel Hf) as (p & st' & E & HP & _).
  exists p, st'. split; [exact E|exact HP].
Qed.

Lemma malloc_sound st live B L size fuel p st' :
  heap_inv st live B L -> 0 <= size < 2 ^ 64 ->
  malloc fuel size st = Some (p, st') -> malloc_post st live size p st'.
Proof.
  intros HV Hs E. destruct (malloc_weak st live B L size HV Hs) as (N & HN).
  pose proof (Nat.le_max_l fuel N) as M1. pose proof (Nat.le_max_r fuel N) as M2.
  destruct (HN (S (Nat.max fuel N)) (proj2 (Nat.lt_succ_r _ _) M2)) as (p1 & st1 & E1 & HP).
  rewrite (malloc_mono fuel _ size st (p, st') E (Nat.le_trans _ _ _ M1 (Nat.le_succ_diag_r _)))
    in E1.
  injection E1 as <- <-. exact HP.
Qed.

Lemma malloc_total st live B L size :
  heap_inv st live B L -> 0 <= size < 2 ^ 64 ->
  exists N p st', forall fuel, (N < fuel)%nat -> malloc fuel size st = Some (p, st').
Proof.
  intros HV Hs. destruct (malloc_weak st live B L size HV Hs) as (N & HN).
  destruct (HN (S N) ltac:(lia)) as (p & st' & E & _).
  exists N, p, st'. intros fuel Hf. apply (malloc_mono (S N)); [exact E|lia].
Qed.

(** * Writes into payloads *)

(** The invariant does not depend on the payload bytes of allocated blocks. *)
Lemma heap_inv_payload st live B L b m' :
  heap_inv st live B L -> B b -> b_alloc b = true ->
  same_out (st_mem st) m' (b_addr b + 8) (b_addr b + b_size b) ->
  heap_inv (set_mem st m') live B L.
Proof.
  intros (HI & Rest) Bb Ab S. split; [|exact Rest].
  pose proof (hinv_hmem _ _ _ HI) as HM.
  apply (hinv_mem st B L m' B HI).
  - apply (hi_lay _ _ _ HI).
  - intros c Bc. destruct (Z.eq_dec (b_addr c) (b_addr b)) as [E|E].
    + assert (c = b) by (apply (hmem_same _ _ HM); auto). subst c.
      pose proof (hi_mem _ _ _ HI b Bb) as (K1 & K2 & K3 & K4 & _).
      unfold blk_ok. cbn zeta.
      rewrite (load_same_out _ _ _ _ (b_addr b) S) by lia.
      repeat split; auto; congruence.
    + apply (hmem_blk_frame st B HM m' _ _ b c S); auto; lia.
  - intros i x Hi Hx.
    apply (hinv_links_frame st B L HI m' _ _ b i x S); auto; try lia.
    intros ->. destruct (hinv_listed _ _ _ HI i _ Hi Hx) as (c & Bc & Ec & Fc & _).
    assert (c = b) by (apply (hmem_same _ _ HM); auto). congruence.
  - intros c Bc Fc _. exists c. auto.
Qed.

Lemma memset_out m p c n : same_out m (memset m p c n) p (p + n).
Proof.
  intros x Hx. unfold memset.
  destruct (Z.leb_spec p x), (Z.ltb_spec x (p + n)); cbn; try reflexivity. lia.
Qed.

Lemma memset_in m p c n z : p <= z < p + n -> memset m p c n z = c mod 256.
Proof.
  intros Hz. unfold memset.
  destruct (Z.leb_spec p z), (Z.ltb_spec z (p + n)); cbn; try reflexivity; lia.
Qed.

Lemma memcpy_out m dst src n : same_out m (memcpy m dst src n) dst (dst + n).
Proof.
  intros x Hx. unfold memcpy.
  destruct (Z.leb_spec dst x), (Z.ltb_spec x (dst + n)); cbn; try reflexivity. lia.
Qed.

Lemma memcpy_in m dst src n i : 0 <= i < n -> memcpy m dst src n (dst + i) = m (src + i).
Proof.
  intros Hi. unfold memcpy.
  destruct (Z.leb_spec dst (dst + i)), (Z.ltb_spec (dst + i) (dst + n)); cbn; try lia.
  f_equal. lia.
Qed.

(** A live pointer and its block. *)
Lemma live_block st live B L p :
  heap_inv st live B L -> In p live ->
  exists b, B b /\ b_addr b + 8 = p /\ b_alloc b = true /\ 16 <= b_size b /\
            payload_to_header p = b_addr b /\
            get_payload_size (st_mem st) (b_addr b) = b_size b - 8 /\
            p <> 0 /\ b_addr b + b_size b < 2 ^ 64.
Proof.
  intros HV Hp. pose proof HV as (HI & _ & _ & _ & _ & LV & _).
  destruct (LV p Hp) as (b & Bb & Eb & Ab & Sb). exists b.
  pose proof (hinv_hmem _ _ _ HI) as HM.
  destruct (payload_header b st B HM Bb) as (E1 & _).
  pose proof (hmem_addr _ _ HM b Bb) as (? & ? & ? & ? & ? & _).
  repeat split; auto; try lia.
  - rewrite <- Eb. exact E1.
  - unfold get_payload_size, wsize. rewrite (blk_get_size _ _ (hi_mem _ _ _ HI b Bb)).
    apply wrap_small. lia.
Qed.

Lemma live_not_null st live B L : heap_inv st live B L -> ~ In 0 live.
Proof. intros HV H0. destruct (live_block _ _ _ _ 0 HV H0) as (b & _ & _ & _ & _ & _ & _ & ? & _). lia. Qed.

(** The guard of [calloc] is exact. *)
Lemma calloc_guard elements size :
  0 < elements < 2 ^ 64 -> 0 <= size < 2 ^ 64 ->
  (wrap (elements * size) / elements =? size) = (elements * size <? 2 ^ 64).
Proof.
  intros He Hs. rewrite const_2_64 in *.
  destruct (Z.ltb_spec (elements * size) 18446744073709551616) as [Hlt|Hge].
  - rewrite wrap_small by (rewrite const_2_64; nia).
    apply Z.eqb_eq. rewrite Z.mul_comm. apply Z.div_mul. lia.
  - apply Z.eqb_neq. intros E.
    pose proof (Z.mul_div_le (wrap (elements * size)) elements ltac:(lia)) as Hle.
    rewrite E in Hle.
    assert (wrap (elements * size) <= elements * size - 18446744073709551616).
    { unfold wrap. rewrite const_2_64.
      pose proof (Z.div_mod (elements * size) 18446744073709551616 ltac:(lia)).
      assert (1 <= elements * size / 18446744073709551616)
        by (apply Z.div_le_lower_bound; lia).
      lia. }
    lia.
Qed.

(** * [calloc] and [realloc] keep the invariant *)

Lemma malloc_post_ok st live size p st' :
  heap_ok st live -> malloc_post st live size p st' -> heap_ok st' (live_add p live).
Proof.
  intros HO (_ & _ & _ & H0 & H1). unfold live_add.
  destruct (Z.eqb_spec p 0) as [E|E].
  - rewrite (H0 E). exact HO.
  - destruct (H1 E) as (_ & B' & L' & _ & HV & _). exists B', L'. exact HV.
Qed.

Lemma malloc_ok st live fuel size p st' :
  heap_ok st live -> 0 <= size < 2 ^ 64 ->
  malloc fuel size st = Some (p, st') -> heap_ok st' (live_add p live).
Proof.
  intros HO Hs E. pose proof HO as (B & L & HV).
  apply (malloc_post_ok st live size); [exact HO|].
  apply (malloc_sound st live B L size fuel); assumption.
Qed.

Lemma calloc_ok st live fuel elements size p st' :
  heap_ok st live -> 0 <= elements < 2 ^ 64 -> 0 <= size < 2 ^ 64 ->
  (elements * size < 2 ^ 64 -> fits (elements * size)) ->
  calloc fuel elements size st = Some (p, st') ->
  heap_ok st' (live_add p live).
Proof.
  intros HO He Hs Hfit E. pose proof HO as (B & L & HV). unfold calloc in E.
  destruct (Z.eqb_spec elements 0) as [E0|E0].
  { injection E as <- <-. exact HO. }
  rewrite (calloc_guard elements size ltac:(lia) Hs) in E.
  destruct (Z.ltb_spec (elements * size) (2 ^ 64)) as [Hlt|Hge]; cbn [negb] in E.
  2:{ injection E as <- <-. exact HO. }
  destruct (Hfit Hlt) as (F1 & F2).
  rewrite (wrap_small (elements * size)) in E by (split; assumption).
  destruct (malloc fuel (elements * size) st) as [[bp st1]|] eqn:EM; [|discriminate].
  pose proof (malloc_sound st live B L _ fuel bp st1 HV (conj F1 Hlt) EM) as HP.
  destruct (Z.eqb_spec bp 0) as [Eb|Eb].
  - injection E as <- <-. subst bp.
    apply (malloc_post_ok st live (elements * size)); assumption.
  - injection E as <- <-. unfold live_add. rewrite (proj2 (Z.eqb_neq bp 0) Eb).
    destruct HP as (_ & _ & _ & _ & H1).
    destruct (H1 Eb) as (_ & B' & L' & b & HV' & Bb & Eb' & Ab & Hsz).
    specialize (Hsz F2). exists B', L'.
    apply (heap_inv_payload st1 (bp :: live) B' L' b); auto.
    eapply same_out_weaken; [apply memset_out|lia|lia].
Qed.

Lemma remove_not_in (x : Z) l : ~ In x l -> remove Z.eq_dec x l = l.
Proof. intros H. apply notin_remove. exact H. Qed.

Lemma free_ok' st live p :
  heap_ok st live -> p = 0 \/ In p live -> heap_ok (free p st) (remove Z.eq_dec p live).
Proof.
  intros HO [->|Hp].
  - rewrite free_null. destruct HO as (B & L & HV).
    rewrite remove_not_in by (apply (live_not_null _ _ _ _ HV)). exists B, L. exact HV.
  - apply free_ok; assumption.
Qed.

Lemma realloc_ok st live fuel p size q st' :
  heap_ok st live -> p = 0 \/ In p live -> fits size ->
  realloc fuel p size st = Some (q, st') ->
  heap_ok st' (realloc_live p size q live).
Proof.
  intros HO Hp (F1 & F2) E. pose proof HO as (B & L & HV).
  unfold realloc in E. unfold realloc_live.
  destruct (Z.eqb_spec size 0) as [Ez|Ez].
  { injection E as <- <-. apply free_ok'; assumption. }
  destruct (Z.eqb_spec p 0) as [Ep|Ep].
  { apply (malloc_ok st live fuel size); auto. rewrite const_2_64 in *. lia. }
  destruct Hp as [Hp|Hp]; [contradiction|].
  destruct (malloc fuel size st) as [[np st1]|] eqn:EM; [|discriminate].
  pose proof (malloc_sound st live B L size fuel np st1 HV
                ltac:(rewrite const_2_64 in *; lia) EM) as HP.
  destruct (Z.eqb_spec np 0) as [En|En].
  - injection E as <- <-. rewrite Z.eqb_refl.
    destruct HP as (_ & _ & _ & H0 & _). rewrite (H0 En). exact HO.
  - injection E as <- <-. rewrite (proj2 (Z.eqb_neq np 0) En).
    destruct HP as (_ & _ & _ & _ & H1).
    destruct (H1 En) as (_ & B' & L' & b & HV' & Bb & Eb' & Ab & Hsz).
    specialize (Hsz F2).
    set (n := if size <? get_payload_size (st_mem st1) (payload_to_header p)
              then size else get_payload_size (st_mem st1) (payload_to_header p)).
    assert (Hn : n <= size) by (unfold n; destruct (Z.ltb_spec size
                 (get_payload_size (st_mem st1) (payload_to_header p))); lia).
    assert (HV2 : heap_inv (set_mem st1 (memcpy (st_mem st1) np p n)) (np :: live) B' L').
    { apply (heap_inv_payload st1 (np :: live) B' L' b); auto.
      eapply same_out_weaken; [apply memcpy_out|lia|lia]. }
    assert (Hne : p <> np).
    { destruct HV' as (_ & _ & _ & _ & _ & _ & ND). inversion ND; subst. congruence. }
    pose proof (free_ok _ (np :: live) p (ex_intro _ B' (ex_intro _ L' HV2))
                  (or_intror Hp)) as HF.
    cbn [remove] in HF. destruct (Z.eq_dec p np) as [?|_]; [contradiction|]. exact HF.
Qed.

(** * [mm_init] *)

Section Init.
Variable st0 : state.
Hypothesis Hpre : init_pre st0.
Hypothesis Hroom : 16 <= mem_max_addr st0 - mem_brk st0.

Let s := mem_brk st0.
Let m2 := store (store (st_mem st0) s (pack 0 true true)) (s + 8) (pack 0 true true).
Let st3 := set_heap_start (set_mem (free_root_init (set_brk st0 (s + 16))) m2) (s + 8).
Let ep0 := mkBlk (s + 8) 0 true true.

(** The empty heap that [mm_init] builds before it extends it: a prologue
    word and the epilogue. *)
Lemma init_empty : heap_inv st3 [] (eq ep0) (fun _ => []).
Proof.
  destruct Hpre as (H1 & H2 & H3 & H4 & H5). fold s in H3, H5, Hroom.
  rewrite const_2_64 in *.
  split; [|split; [|split; [|split; [|split; [|split]]]]].
  - constructor; cbn [st3 set_heap_start set_mem free_root_init set_roots set_brk
                      mem_heap_lo mem_brk mem_max_addr heap_start st_mem free_root].
    + auto.
    + lia.
    + rewrite const_2_64. lia.
    + replace (s + 16 - 8) with (s + 8) by lia.
      constructor; try (intros b <-; cbn; lia); try (exists ep0; split; reflexivity).
      * intros b1 b2 <- <-. cbn. lia.
      * intros b1 b2 <- <- _. reflexivity.
    + intros b <-. apply pack_blk_ok; try (rewrite ?const_2_64; lia).
      cbn [b_addr]. unfold m2. rewrite load_store_same. reflexivity.
    + intros i Hi. unfold seglist_length.
      replace ((0 <=? i) && (i <? 15)) with true
        by (symmetry; apply andb_true_iff; split; [apply Z.leb_le|apply Z.ltb_lt]; lia).
      repeat split; cbn; auto. constructor.
    + intros i x _ [].
  - intros p n <- <-. cbn. lia.
  - intros b <- _. reflexivity.
  - intros b <-. discriminate.
  - intros b <-. discriminate.
  - intros p [].
  - constructor.
Qed.

Lemma init_unfold :
  mm_init st0 =
    (let '(b, st4) := extend_heap chunksize st3 in
     if b =? 0 then (false, st4) else (true, st4)).
Proof.
  destruct Hpre as (H1 & H2 & H3 & H4 & H5). fold s in H3, H5, Hroom.
  rewrite const_2_64 in *.
  unfold mm_init, mem_sbrk, wsize. change (2 * 8) with 16.
  replace ((2 ^ 63 <=? 16) || (mem_max_addr st0 - mem_brk st0 <? 16)) with false.
  2:{ symmetry. apply orb_false_iff. split; [reflexivity|apply Z.ltb_ge; exact Hroom]. }
  fold s.
  assert (Ew : (s =? wrap (-1)) = false).
  { apply Z.eqb_neq. unfold wrap. rewrite const_2_64.
    change ((-1) mod 18446744073709551616) with 18446744073709551615. lia. }
  rewrite Ew. rewrite (wrap_small (s + 8)) by (rewrite const_2_64; lia).
  reflexivity.
Qed.
End Init.

(** A successful [mm_init] leaves a heap that satisfies the invariant. *)
Lemma mm_init_ok st0 st :
  init_pre st0 -> mm_init st0 = (true, st) -> heap_ok st [].
Proof.
  intros Hpre E.
  destruct (Z.ltb_spec (mem_max_addr st0 - mem_brk st0) 16) as [Hno|Hroom].
  { unfold mm_init, mem_sbrk, wsize in E. change (2 * 8) with 16 in E.
    apply Z.ltb_lt in Hno. rewrite Hno, orb_true_r in E. rewrite Z.eqb_refl in E.
    discriminate. }
  rewrite (init_unfold st0 Hpre Hroom) in E.
  pose proof (init_empty st0 Hpre Hroom) as HV.
  pose proof (extend_heap_ok _ _ _ _ chunksize HV) as HE.
  unfold chunksize in HE at 1 2. change (Z.shiftl 1 12) with 4096 in HE.
  specialize (HE ltac:(lia) ltac:(rewrite const_2_64; lia)). cbn zeta in HE.
  match type of HE with
  | if ?c then _ else _ => destruct c
  end.
  - rewrite HE in E. cbn in E. discriminate.
  - destruct HE as (B' & L' & r & HV' & _).
    destruct (extend_heap chunksize _) as [b st4]. cbn [snd] in HV'.
    destruct (b =? 0); [discriminate|]. injection E as <-. exists B', L'. exact HV'.
Qed.

(** * Every reachable state satisfies the invariant *)
Lemma reach_ok st live : reach st live -> heap_ok st live.
Proof.
  induction 1 as [st0 st Hp Hi
                 |st live fuel size p st' Hr IH Hs Hm
                 |st live p Hr IH Hp
                 |st live fuel p size q st' Hr IH Hp Hf Hre
                 |st live fuel n size p st' Hr IH Hn Hs Hf Hc
                 |st live p m' Hr IH Hp Hw].
  - apply (mm_init_ok st0); assumption.
  - apply (malloc_ok st live fuel size); assumption.
  - apply free_ok'; assumption.
  - apply (realloc_ok st live fuel p size q); assumption.
  - apply (calloc_ok st live fuel n size); assumption.
  - destruct IH as (B & L & HV).
    destruct (live_block _ _ _ _ p HV Hp) as (b & Bb & Eb & Ab & Sb & Eh & Eg & _).
    exists B, L. apply (heap_inv_payload st live B L b); auto.
    rewrite Eh, Eg in Hw. rewrite <- Eb in Hw.
    eapply same_out_weaken; [exact Hw|lia|lia].
Qed.

(** * The two walks of the heap checker *)

Lemma bucket_walk_spec m l : forall root fuel,
  fwd (get_next_free m) root l -> (length l < fuel)%nat ->
  bucket_walk fuel m root = Some l.
Proof.
  induction l as [|x t IH]; intros root fuel Hf Hl.
  - cbn in Hf. subst root. destruct fuel; [cbn in Hl; lia|reflexivity].
  - destruct Hf as (-> & Hx & Hf). destruct fuel as [|k]; [cbn in Hl; lia|].
    cbn [bucket_walk]. rewrite (proj2 (Z.eqb_neq x 0) Hx).
    rewrite (IH _ k Hf) by (cbn in Hl; lia). reflexivity.
Qed.

Lemma buckets_from_in L n : forall i x,
  In x (buckets_from L n i) <-> exists j, i <= j < i + Z.of_nat n /\ In x (L j).
Proof.
  induction n as [|k IH]; intros i x.
  - cbn. split; [intros []|intros (j & Hj & _); lia].
  - cbn [buckets_from]. rewrite in_app_iff, IH. split.
    + intros [H|(j & Hj & H)]; [exists i|exists j]; split; auto; lia.
    + intros (j & Hj & H). destruct (Z.eq_dec j i) as [->|Hne]; [left; exact H|].
      right. exists j. split; [lia|exact H].
Qed.

Lemma buckets_from_length L n : forall i j,
  i <= j < i + Z.of_nat n -> (length (L j) <= length (buckets_from L n i))%nat.
Proof.
  induction n as [|k IH]; intros i j Hj; [lia|].
  cbn [buckets_from]. rewrite length_app.
  destruct (Z.eq_dec j i) as [->|Hne]; [lia|].
  pose proof (IH (i + 1) j ltac:(lia)). lia.
Qed.

Lemma explicit_walk_spec st L fuel n : forall i,
  0 <= i -> i + Z.of_nat n <= 15 ->
  (forall j, 0 <= j < 15 -> fwd (get_next_free (st_mem st)) (free_root st j) (L j)) ->
  (forall j, 0 <= j < 15 -> (length (L j) < fuel)%nat) ->
  explicit_walk fuel st n i = Some (buckets_from L n i).
Proof.
  induction n as [|k IH]; intros i Hi Hn Hfw Hfu; [reflexivity|].
  cbn [explicit_walk buckets_from]. unfold seglist_length.
  destruct (Z.ltb_spec i 15) as [_|?]; [|lia].
  rewrite (bucket_walk_spec _ (L i) _ fuel (Hfw i ltac:(lia)) (Hfu i ltac:(lia))).
  rewrite (IH (i + 1)) by (auto; lia). reflexivity.
Qed.

Section Walks.
Variables (st : state) (live : list Z) (B : blk -> Prop) (L : Z -> list Z).
Hypothesis HV : heap_inv st live B L.

Let m := st_mem st.
Let e := mem_brk st - 8.

Lemma walk_HI : hinv st B L.
Proof. apply HV. Qed.

Lemma buckets_nodup : NoDup (buckets_from L 15 0).
Proof.
  assert (K : forall n i, 0 <= i -> i + Z.of_nat n <= 15 -> NoDup (buckets_from L n i)).
  { induction n as [|k IH]; intros i Hi Hn; [constructor|].
    cbn [buckets_from]. apply NoDup_app.
    - apply (hi_dl _ _ _ walk_HI i ltac:(lia)).
    - apply IH; lia.
    - intros x Hx Hx'. apply buckets_from_in in Hx'. destruct Hx' as (j & Hj & Hx').
      destruct (hi_in _ _ _ walk_HI i x ltac:(lia) Hx) as (c & Bc & Ec & _ & Ic).
      destruct (hi_in _ _ _ walk_HI j x ltac:(lia) Hx') as (c' & Bc' & Ec' & _ & Ic').
      assert (c = c') by (apply (hmem_same _ _ (hinv_hmem _ _ _ walk_HI)); auto; lia).
      subst c'. lia. }
  apply (K 15%nat 0); lia.
Qed.

(** The free blocks of the implicit list are the blocks of the buckets. *)
Lemma buckets_free x :
  In x (buckets_from L 15 0) <-> exists c, B c /\ b_addr c = x /\ b_alloc c = false.
Proof.
  destruct HV as (HI & _ & _ & _ & AL & _).
  rewrite buckets_from_in. split.
  - intros (j & Hj & Hx). destruct (hi_in _ _ _ HI j x ltac:(lia) Hx) as (c & Bc & Ec & Fc & _).
    exists c. auto.
  - intros (c & Bc & Ec & Fc). exists (get_seglist_ind (b_size c)). subst x.
    split; [|apply AL; auto].
    pose proof (hmem_addr _ _ (hinv_hmem _ _ _ HI) c Bc) as (? & ? & ? & ? & _).
    pose proof (get_seglist_ind_range (b_size c) ltac:(lia)). lia.
Qed.

Lemma walk_from n : forall b,
  B b -> e - b_addr b <= Z.of_nat n ->
  exists l,
    (forall fuel, (n < fuel)%nat -> implicit_walk fuel m (b_addr b) = Some l) /\
    (forall x, In x l <-> exists c, B c /\ b_addr c = x /\ b_addr b <= x < e) /\
    NoDup l /\
    (b_addr b < e -> exists t, l = b_addr b :: t) /\
    two_free_in_a_row m l = false.
Proof.
  pose proof walk_HI as HI. pose proof (hinv_hmem _ _ _ HI) as HM.
  induction n as [|k IH]; intros b Bb Hn.
  - pose proof (lay_range _ _ _ (hi_lay _ _ _ HI) b Bb) as (Hr & _). fold e in Hr.
    assert (Ea : b_addr b = e) by lia.
    destruct (lay_epi _ _ _ (hi_lay _ _ _ HI) b Bb Ea) as (Es & _).
    exists []. split; [|split; [|split; [|split]]].
    + intros [|f] Hf; [lia|]. cbn [implicit_walk]. unfold m.
      rewrite (blk_get_size _ _ (hi_mem _ _ _ HI b Bb)), Es. reflexivity.
    + intros x. split; [intros []|intros (c & _ & _ & ?); lia].
    + constructor.
    + lia.
    + reflexivity.
  - pose proof (lay_range _ _ _ (hi_lay _ _ _ HI) b Bb) as (Hr & _). fold e in Hr.
    destruct (Z.eq_dec (b_addr b) e) as [Ea|Ea].
    { destruct (lay_epi _ _ _ (hi_lay _ _ _ HI) b Bb Ea) as (Es & _).
      exists []. split; [|split; [|split; [|split]]].
      + intros [|f] Hf; [lia|]. cbn [implicit_walk]. unfold m.
        rewrite (blk_get_size _ _ (hi_mem _ _ _ HI b Bb)), Es. reflexivity.
      + intros x. split; [intros []|intros (c & _ & _ & ?); lia].
      + constructor.
      + lia.
      + reflexivity. }
    destruct (lay_size _ _ _ (hi_lay _ _ _ HI) b Bb ltac:(fold e; lia)) as (Hs & _).
    destruct (lay_next _ _ _ (hi_lay _ _ _ HI) b Bb ltac:(fold e; lia)) as (n & Bn & En).
    destruct (IH n Bn ltac:(lia)) as (l & Hw & Hin & Hnd & Hhd & Htf).
    pose proof (find_next_spec _ _ _ HI b Bb) as Efn. fold m in Efn.
    assert (Egs : get_size m (b_addr b) = b_size b)
      by apply (blk_get_size _ _ (hi_mem _ _ _ HI b Bb)).
    exists (b_addr b :: l). split; [|split; [|split; [|split]]].
    + intros [|f] Hf; [lia|]. cbn [implicit_walk]. rewrite Egs.
      destruct (Z.gtb_spec (b_size b) 0) as [_|?]; [|lia].
      rewrite Efn, <- En, (Hw f) by lia. reflexivity.
    + intros x. cbn [In]. rewrite Hin. split.
      * intros [<-|(c & Bc & Ec & Hc)]; [exists b; repeat split; auto; lia|].
        exists c. repeat split; auto; lia.
      * intros (c & Bc & Ec & Hc).
        destruct (Z.eq_dec (b_addr c) (b_addr b)) as [E|E]; [left; congruence|].
        right. exists c. repeat split; auto; try lia.
        pose proof (lay_disj _ _ _ (hi_lay _ _ _ HI) b c Bb Bc ltac:(lia)). lia.
    + constructor; [|exact Hnd]. intros Hx. apply Hin in Hx.
      destruct Hx as (c & _ & _ & ?). lia.
    + intros _. exists l. reflexivity.
    + destruct l as [|y t]; [reflexivity|].
      cbn [two_free_in_a_row] in *. rewrite Htf, orb_false_r.
      assert (Ey : y = b_addr n).
      { assert (Hy : In y (y :: t)) by (left; reflexivity).
        apply Hin in Hy. destruct Hy as (c & _ & _ & Hc).
        destruct (Hhd ltac:(lia)) as (t' & Et). congruence. }
      subst y. unfold m.
      rewrite (blk_get_alloc _ _ (hi_mem _ _ _ HI b Bb)),
              (blk_get_alloc _ _ (hi_mem _ _ _ HI n Bn)).
      destruct HV as (_ & PA1 & _ & NF & _).
      destruct (b_alloc b) eqn:Ab; [reflexivity|].
      destruct (b_alloc n) eqn:An; [reflexivity|].
      pose proof (NF n Bn An). pose proof (PA1 b n Bb Bn ltac:(lia) ltac:(lia)). congruence.
Qed.
End Walks.

(** * The concrete heaps *)

Lemma arena0_pre : init_pre arena0.
Proof.
  unfold init_pre, arena0. cbn [mem_heap_lo mem_brk mem_max_addr].
  rewrite const_2_64. lia.
Qed.

Lemma reach_heap1 : reach heap1 [].
Proof.
  apply (reach_init arena0 heap1 arena0_pre).
  unfold heap1. rewrite (surjective_pairing (mm_init arena0)) at 1.
  f_equal; vm_compute; reflexivity.
Qed.

Lemma malloc_heap1 : malloc 10 100 heap1 = Some (ptr2, heap2).
Proof.
  unfold ptr2, heap2. destruct (malloc 10 100 heap1) as [[p s]|] eqn:E; [reflexivity|].
  assert (X : option_map fst (malloc 10 100 heap1) = Some 4112) by (vm_compute; reflexivity).
  rewrite E in X. discriminate.
Qed.

Lemma ptr2_eq : ptr2 = 4112.
Proof. vm_compute. reflexivity. Qed.

Lemma reach_heap2 : reach heap2 [ptr2].
Proof.
  apply (reach_malloc heap1 [] 10 100 ptr2 heap2 reach_heap1).
  - rewrite const_2_64. lia.
  - exact malloc_heap1.
Qed.

(** * The implicit list of a reachable heap *)

Lemma heap_walk st live B L :
  heap_inv st live B L ->
  exists N l,
    (forall fuel, (N < fuel)%nat ->
       implicit_walk fuel (st_mem st) (heap_start st) = Some l) /\
    (forall x, In x l <-> exists c, B c /\ b_addr c = x /\ x < mem_brk st - 8) /\
    NoDup l /\
    two_free_in_a_row (st_mem st) l = false.
Proof.
  intros HV. pose proof HV as (HI & _).
  destruct (lay_first _ _ _ (hi_lay _ _ _ HI)) as (b0 & B0 & E0).
  destruct (walk_from st live B L HV (Z.to_nat (mem_brk st - 8 - b_addr b0)) b0 B0
              ltac:(lia)) as (l & Hw & Hin & Hnd & _ & Htf).
  rewrite E0 in Hw, Hin.
  exists (Z.to_nat (mem_brk st - 8 - heap_start st)), l.
  split; [exact Hw|]. split; [|split; assumption].
  intros x. rewrite Hin. split.
  - intros (c & Bc & Ec & Hc). exists c. repeat split; auto; lia.
  - intros (c & Bc & Ec & Hc). exists c. repeat split; auto; try lia.
    pose proof (lay_range _ _ _ (hi_lay _ _ _ HI) c Bc). lia.
Qed.

Lemma heap_free_blocks st live B L l :
  heap_inv st live B L ->
  (forall x, In x l <-> exists c, B c /\ b_addr c = x /\ x < mem_brk st - 8) ->
  forall x, In x (free_blocks (st_mem st) l) <-> In x (buckets_from L 15 0).
Proof.
  intros HV Hin x. pose proof HV as (HI & _).
  rewrite (buckets_free st live B L HV). unfold free_blocks.
  rewrite filter_In, Hin. split.
  - intros ((c & Bc & Ec & Hc) & Ha). exists c. repeat split; auto.
    rewrite <- Ec, (blk_get_alloc _ _ (hi_mem _ _ _ HI c Bc)) in Ha.
    destruct (b_alloc c); [discriminate|reflexivity].
  - intros (c & Bc & Ec & Fc). split.
    + exists c. repeat split; auto.
      pose proof (hmem_addr _ _ (hinv_hmem _ _ _ HI) c Bc) as (? & ? & ? & ? & ? & ? & _ & Hs).
      specialize (Hs Fc). lia.
    + rewrite <- Ec, (blk_get_alloc _ _ (hi_mem _ _ _ HI c Bc)), Fc. reflexivity.
Qed.

(** ** C1 *)

(** C1: in every state reached from a successful [mm_init] by the public
    operations, the walk of the implicit list from [heap_start] (the loop of
    the heap checker) ends at the epilogue, no two blocks it visits one after
    the other are both free, and [consecutive_free] holds of none of them. *)
Theorem C1_no_adjacent_free st live :
  reach st live ->
  exists N l,
    (forall fuel, (N < fuel)%nat ->
       implicit_walk fuel (st_mem st) (heap_start st) = Some l) /\
    two_free_in_a_row (st_mem st) l = false /\
    (forall block, In block l -> consecutive_free (st_mem st) block = false).
Proof.
  intros HR. destruct (reach_ok st live HR) as (B & L & HV).
  destruct (heap_walk st live B L HV) as (N & l & Hw & Hin & _ & Htf).
  exists N, l. split; [exact Hw|]. split; [exact Htf|].
  intros x Hx. apply Hin in Hx. destruct Hx as (c & Bc & Ec & _).
  destruct HV as (HI & _ & _ & NF & _). unfold consecutive_free.
  rewrite <- Ec, (blk_get_alloc _ _ (hi_mem _ _ _ HI c Bc)),
    (blk_get_prev_alloc _ _ (hi_mem _ _ _ HI c Bc)).
  destruct (b_alloc c) eqn:Ac; [reflexivity|]. rewrite (NF c Bc Ac). reflexivity.
Qed.

Lemma C1_witness :
  exists N l,
    (forall fuel, (N < fuel)%nat ->
       implicit_walk fuel (st_mem heap2) (heap_start heap2) = Some l) /\
    two_free_in_a_row (st_mem heap2) l = false /\
    (forall block, In block l -> consecutive_free (st_mem heap2) block = false).
Proof. exact (C1_no_adjacent_free heap2 [ptr2] reach_heap2). Defined.

(** ** C2 *)

(** C2: in every state reached from a successful [mm_init] by the public
    operations, the walk over the 15 buckets and the walk of the implicit
    list both end; the free blocks of the implicit list are, up to order,
    the blocks of the buckets, and the two counts of the heap checker are
    equal. *)
Theorem C2_free_lists_agree st live :
  reach st live ->
  exists N li le,
    (forall fuel, (N < fuel)%nat ->
       implicit_walk fuel (st_mem st) (heap_start st) = Some li /\
       explicit_walk fuel st (Z.to_nat seglist_length) 0 = Some le /\
       count_free fuel st = explicit_count fuel st /\
       count_free fuel st = Some (Z.of_nat (length le))) /\
    Permutation (free_blocks (st_mem st) li) le /\
    length (free_blocks (st_mem st) li) = length le.
Proof.
  intros HR. destruct (reach_ok st live HR) as (B & L & HV).
  destruct (heap_walk st live B L HV) as (N & li & Hw & Hin & Hnd & _).
  pose proof HV as (HI & _).
  set (le := buckets_from L 15 0).
  assert (HP : Permutation (free_blocks (st_mem st) li) le).
  { apply NoDup_Permutation.
    - apply NoDup_filter. exact Hnd.
    - apply (buckets_nodup st live B L HV).
    - apply (heap_free_blocks st live B L li HV Hin). }
  exists (Nat.max N (length le)), li, le. split; [|split; [exact HP|]].
  - intros fuel Hf.
    pose proof (Nat.le_max_l N (length le)). pose proof (Nat.le_max_r N (length le)).
    assert (E1 : implicit_walk fuel (st_mem st) (heap_start st) = Some li)
      by (apply Hw; lia).
    assert (E2 : explicit_walk fuel st (Z.to_nat seglist_length) 0 = Some le).
    { apply (explicit_walk_spec st L fuel 15 0); try lia.
      - intros j Hj. apply (hi_dl _ _ _ HI j Hj).
      - intros j Hj. pose proof (buckets_from_length L 15 0 j ltac:(lia)). fold le in H1. lia. }
    unfold count_free, explicit_count. rewrite E1, E2.
    rewrite (Permutation_length HP). auto.
  - apply Permutation_length. exact HP.
Qed.

Lemma C2_witness :
  exists N li le,
    (forall fuel, (N < fuel)%nat ->
       implicit_walk fuel (st_mem heap2) (heap_start heap2) = Some li /\
       explicit_walk fuel heap2 (Z.to_nat seglist_length) 0 = Some le /\
       count_free fuel heap2 = explicit_count fuel heap2 /\
       count_free fuel heap2 = Some (Z.of_nat (length le))) /\
    Permutation (free_blocks (st_mem heap2) li) le /\
    length (free_blocks (st_mem heap2) li) = length le.
Proof. exact (C2_free_lists_agree heap2 [ptr2] reach_heap2). Defined.

(** * [malloc] before [mm_init] *)

(** Whether it succeeds or not, [mm_init] with room for the two boundary
    words leaves a heap that satisfies the invariant. *)
Lemma mm_init_any st0 :
  init_pre st0 -> 16 <= mem_max_addr st0 - mem_brk st0 ->
  heap_ok (snd (mm_init st0)) [].
Proof.
  intros Hpre Hroom. rewrite (init_unfold st0 Hpre Hroom).
  pose proof (init_empty st0 Hpre Hroom) as HV.
  pose proof (extend_heap_ok _ _ _ _ chunksize HV) as HE.
  unfold chunksize in HE at 1 2. change (Z.shiftl 1 12) with 4096 in HE.
  specialize (HE ltac:(lia) ltac:(rewrite const_2_64; lia)). cbn zeta in HE.
  match type of HE with
  | if ?c then _ else _ => destruct c
  end.
  - rewrite HE. cbn. eexists _, _. exact HV.
  - destruct HE as (B' & L' & r & HV' & _).
    destruct (extend_heap chunksize _) as [b st4]. cbn [snd] in HV'.
    exists B', L'. destruct (b =? 0); exact HV'.
Qed.

(** Without that room [mm_init] fails, and so does the [malloc] that called it. *)
Lemma malloc_no_room st fuel size p st' :
  init_pre st -> mem_max_addr st - mem_brk st < 16 -> heap_start st = 0 ->
  0 < size < 2 ^ 64 ->
  malloc fuel size st = Some (p, st') -> p = 0.
Proof.
  intros Hpre Hno Hs0 Hs E.
  destruct (asize_spec size ltac:(lia)) as (Ha1 & Ha2 & _).
  unfold malloc in E. rewrite Hs0 in E. cbn [Z.eqb] in E.
  rewrite (proj2 (Z.eqb_neq size 0)) in E by lia.
  set (asize := max (round_up (wrap (size + wsize)) dsize) min_block_size) in *.
  assert (Ei : snd (mm_init st) = free_root_init st).
  { unfold mm_init, mem_sbrk, wsize. change (2 * 8) with 16.
    apply Z.ltb_lt in Hno. rewrite Hno, orb_true_r. rewrite Z.eqb_refl. reflexivity. }
  rewrite Ei in E.
  set (st1 := free_root_init st) in *.
  assert (Hr : forall j, 0 <= j < 15 -> free_root st1 j = 0).
  { intros j Hj. unfold st1, free_root_init, seglist_length. cbn [free_root set_roots].
    destruct (Z.leb_spec 0 j), (Z.ltb_spec j 15); cbn; try reflexivity; lia. }
  pose proof (get_seglist_ind_range asize ltac:(lia)) as Hi.
  assert (Ef : find_fit fuel st1 asize = None \/ find_fit fuel st1 asize = Some 0).
  { unfold find_fit. rewrite (Hr _ Hi). destruct fuel as [|k]; [left; reflexivity|right].
    cbn [find_fit_scan Z.eqb]. rewrite wrap_small by (rewrite const_2_64; lia).
    destruct (find_fit_fallback_spec (free_root st1) (Z.to_nat seglist_length)
                (get_seglist_ind asize + 1) ltac:(lia) ltac:(cbn; lia)
                ltac:(rewrite const_2_64; cbn; lia)) as (F1 & _).
    cbn zeta in F1.
    destruct (Z.eqb_spec (find_fit_fallback (Z.to_nat seglist_length) (free_root st1)
                            (get_seglist_ind asize + 1)) 0) as [->|Hne]; [reflexivity|].
    destruct (F1 Hne) as (j & Hj & Ej). rewrite Hr in Ej by lia. congruence. }
  destruct Ef as [Ef|Ef]; rewrite Ef in E; [discriminate|]. cbn [Z.eqb] in E.
  destruct (max_chunk asize Ha1 Ha2) as (M1 & M2 & M3 & M4).
  assert (Ee : extend_heap (max asize chunksize) st1 = (0, st1)).
  { unfold extend_heap, mem_sbrk. rewrite M3.
    assert (Hlt : mem_max_addr st1 - mem_brk st1 < max asize chunksize).
    { change (mem_max_addr st1) with (mem_max_addr st).
      change (mem_brk st1) with (mem_brk st). destruct Ha1 as (? & _). lia. }
    apply Z.ltb_lt in Hlt. rewrite Hlt.
    rewrite orb_true_r, Z.eqb_refl. reflexivity. }
  rewrite Ee in E. cbn [Z.eqb] in E. congruence.
Qed.

Lemma malloc_after_init st fuel size :
  heap_start st = 0 -> (heap_start (snd (mm_init st)) =? 0) = false ->
  malloc fuel size st = malloc fuel size (snd (mm_init st)).
Proof.
  intros H0 H1. unfold malloc. rewrite H0, H1. reflexivity.
Qed.

(** ** C3 *)

(** C3: [malloc(size)] with [size > 0], called in a state reached from a
    successful [mm_init] or in the state before any initialisation, returns
    either no allocation or a payload address that is a multiple of 16. *)
Theorem C3_malloc_aligned st fuel size p st' :
  (exists live, reach st live) \/ (heap_start st = 0 /\ init_pre st) ->
  0 < size < 2 ^ 64 ->
  malloc fuel size st = Some (p, st') ->
  p <> 0 ->
  p mod 16 = 0.
Proof.
  intros Hst Hs E Hp.
  assert (K : forall s live, heap_ok s live -> malloc fuel size s = Some (p, st') ->
                             p mod 16 = 0).
  { intros s live (B & L & HV) Es.
    destruct (malloc_sound s live B L size fuel p st' HV ltac:(lia) Es)
      as (_ & _ & _ & _ & H1).
    destruct (H1 Hp) as (Hal & _). exact Hal. }
  destruct Hst as [(live & HR)|(H0 & Hpre)].
  - apply (K st live); [apply reach_ok; exact HR|exact E].
  - destruct (Z.ltb_spec (mem_max_addr st - mem_brk st) 16) as [Hno|Hroom].
    + exfalso. apply Hp. apply (malloc_no_room st fuel size p st'); auto.
    + pose proof (mm_init_any st Hpre Hroom) as HO.
      apply (K _ [] HO). rewrite <- malloc_after_init; auto.
      destruct HO as (B & L & HV). apply (heap_inv_start _ _ _ _ HV).
Qed.

Lemma C3_witness : ptr2 mod 16 = 0.
Proof.
  apply (C3_malloc_aligned heap1 10 100 ptr2 heap2).
  - left. exists []. exact reach_heap1.
  - rewrite const_2_64. lia.
  - exact malloc_heap1.
  - rewrite ptr2_eq. lia.
Defined.

(** ** C9 *)

Lemma sbrk_test st live B L sz :
  heap_inv st live B L ->
  (fst (mem_sbrk sz st) =? wrap (-1)) =
  (2 ^ 63 <=? sz) || (mem_max_addr st - mem_brk st <? sz).
Proof.
  intros HV. unfold mem_sbrk.
  destruct ((2 ^ 63 <=? sz) || (mem_max_addr st - mem_brk st <? sz)); cbn [fst].
  - apply Z.eqb_refl.
  - destruct (heap_inv_epilogue _ _ _ _ HV) as (_ & _ & _ & _ & _ & ? & ? & ?).
    apply Z.eqb_neq. unfold wrap. rewrite const_2_64 in *.
    change ((-1) mod 18446744073709551616) with 18446744073709551615. lia.
Qed.

(** C9: [extend_heap] in a reachable state.  When [mem_sbrk] fails, it
    returns NULL and the state is the one it was called in, and a [malloc]
    that found no fit and asked for this extension returns NULL in that same
    state.  When [mem_sbrk] succeeds, the break has moved by the rounded
    size, the word before it is the epilogue, and the block returned is free,
    ends at the epilogue, is at least as large as the rounded size and is a
    member of the bucket of its size; the heap is consistent again. *)
Theorem C9_extend_heap_atomic st live size :
  reach st live -> 0 < size -> size + 15 < 2 ^ 64 ->
  let sz := round_up size dsize in
  if fst (mem_sbrk sz st) =? wrap (-1)
  then
    extend_heap size st = (0, st) /\
    (forall fuel req,
       0 < req < 2 ^ 64 ->
       size = max (max (round_up (wrap (req + wsize)) dsize) min_block_size) chunksize ->
       find_fit fuel st (max (round_up (wrap (req + wsize)) dsize) min_block_size) = Some 0 ->
       malloc fuel req st = Some (0, st))
  else
    exists r st',
      extend_heap size st = (r, st') /\ r <> 0 /\ heap_ok st' live /\
      mem_brk st' = mem_brk st + sz /\
      get_size (st_mem st') (mem_brk st' - 8) = 0 /\
      get_alloc (st_mem st') (mem_brk st' - 8) = true /\
      get_alloc (st_mem st') r = false /\
      r + get_size (st_mem st') r = mem_brk st' - 8 /\
      sz <= get_size (st_mem st') r /\
      exists N l,
        (forall fuel, (N < fuel)%nat ->
           bucket_walk fuel (st_mem st')
             (free_root st' (get_seglist_ind (get_size (st_mem st') r))) = Some l) /\
        In r l.
Proof.
  intros HR H0 H1 sz. destruct (reach_ok st live HR) as (B & L & HV).
  rewrite (sbrk_test st live B L sz HV).
  pose proof (extend_heap_ok st live B L size HV H0 H1) as HE. cbn zeta in HE. fold sz in HE.
  destruct ((2 ^ 63 <=? sz) || (mem_max_addr st - mem_brk st <? sz)).
  - split; [exact HE|]. intros fuel req Hreq Es Ef.
    unfold malloc. rewrite (heap_inv_start _ _ _ _ HV).
    rewrite (proj2 (Z.eqb_neq req 0)) by lia.
    rewrite Ef. cbn [Z.eqb]. rewrite <- Es, HE. reflexivity.
  - destruct HE as (B' & L' & r & HV' & Br & Er & Fr & Hsz & Hle & Hend & F1 & F2 & F3 & F4).
    destruct (extend_heap size st) as [ra st'] eqn:EE. cbn [fst snd] in *.
    pose proof HV' as (HI' & _ & _ & _ & AL' & _).
    pose proof (hmem_addr _ _ (hinv_hmem _ _ _ HI') r Br) as (? & ? & ? & ? & _).
    destruct (lay_last _ _ _ (hi_lay _ _ _ HI')) as (ep & Bep & Eep).
    destruct (lay_epi _ _ _ (hi_lay _ _ _ HI') ep Bep Eep) as (Sep & Aep).
    pose proof (hi_mem _ _ _ HI' r Br) as Okr. pose proof (hi_mem _ _ _ HI' ep Bep) as Oke.
    exists ra, st'. subst ra.
    rewrite (blk_get_size _ _ Okr), (blk_get_alloc _ _ Okr), <- Eep,
      (blk_get_size _ _ Oke), (blk_get_alloc _ _ Oke).
    split; [reflexivity|]. split; [lia|]. split; [exists B', L'; exact HV'|].
    split; [exact F2|]. split; [exact Sep|]. split; [exact Aep|]. split; [exact Fr|].
    split; [lia|]. split; [exact Hsz|].
    set (i := get_seglist_ind (b_size r)).
    assert (Hi : 0 <= i < 15) by (apply get_seglist_ind_range; lia).
    exists (length (L' i)), (L' i). split.
    + intros fuel Hf. apply bucket_walk_spec; [|exact Hf]. apply (hi_dl _ _ _ HI' i Hi).
    + apply AL'; assumption.
Qed.

Lemma C9_witness : extend_heap 4096 heap2 = (0, heap2).
Proof.
  pose proof (C9_extend_heap_atomic heap2 [ptr2] 4096 reach_heap2 ltac:(lia)
                ltac:(rewrite const_2_64; lia)) as H.
  cbn zeta in H.
  change (fst (mem_sbrk (round_up 4096 dsize) heap2) =? wrap (-1)) with true in H.
  exact (proj1 H).
Defined.

(** ** C4 *)

(** C4: let the buckets be null-terminated lists whose blocks are free and
    classify to their bucket, and let [asize] be a multiple of 16, at least
    16.  Then [find_fit asize] returns (with fuel for the home bucket);
    a block it returns is a free block of a bucket from the home bucket
    upward and has at least [asize] bytes, also when it is the head of a
    larger bucket taken without a look at its size; and it returns NULL only
    when no block in those buckets has [asize] bytes. *)
Theorem C4_find_fit st L asize :
  (forall i, 0 <= i < 15 -> fwd (get_next_free (st_mem st)) (free_root st i) (L i)) ->
  (forall i x, 0 <= i < 15 -> In x (L i) ->
     get_alloc (st_mem st) x = false /\ get_seglist_ind (get_size (st_mem st) x) = i) ->
  16 <= asize < 2 ^ 64 -> asize mod 16 = 0 ->
  exists r,
    (forall fuel, (length (L (get_seglist_ind asize)) < fuel)%nat ->
       find_fit fuel st asize = Some r) /\
    (r <> 0 ->
       (exists i, get_seglist_ind asize <= i < 15 /\ In r (L i)) /\
       get_alloc (st_mem st) r = false /\ asize <= get_size (st_mem st) r) /\
    (r = 0 -> forall i x, get_seglist_ind asize <= i < 15 -> In x (L i) ->
              get_size (st_mem st) x < asize).
Proof.
  intros Hfw Hbk Has _. exact (find_fit_spec st L asize Hfw Hbk Has).
Qed.

Lemma buckets1_cases i :
  0 <= i < 15 -> (i = 8 /\ buckets1 i = [4104]) \/ (free_root heap1 i = 0 /\ buckets1 i = []).
Proof.
  intros Hi.
  assert (C : i = 0 \/ i = 1 \/ i = 2 \/ i = 3 \/ i = 4 \/ i = 5 \/ i = 6 \/ i = 7 \/ i = 8 \/
              i = 9 \/ i = 10 \/ i = 11 \/ i = 12 \/ i = 13 \/ i = 14) by lia.
  repeat (destruct C as [->|C]; [first [left; split; reflexivity
                                       |right; split; vm_compute; reflexivity]|]).
  subst i. right; split; vm_compute; reflexivity.
Qed.

Lemma C4_witness :
  exists r,
    (forall fuel, (length (buckets1 (get_seglist_ind 112)) < fuel)%nat ->
       find_fit fuel heap1 112 = Some r) /\
    (r <> 0 ->
       (exists i, get_seglist_ind 112 <= i < 15 /\ In r (buckets1 i)) /\
       get_alloc (st_mem heap1) r = false /\ 112 <= get_size (st_mem heap1) r) /\
    (r = 0 -> forall i x, get_seglist_ind 112 <= i < 15 -> In x (buckets1 i) ->
              get_size (st_mem heap1) x < 112).
Proof.
  apply (C4_find_fit heap1 buckets1 112).
  - intros i Hi. destruct (buckets1_cases i Hi) as [(-> & ->)|(-> & ->)].
    + vm_compute. repeat split. discriminate.
    + reflexivity.
  - intros i x Hi Hx. destruct (buckets1_cases i Hi) as [(-> & E)|(_ & E)]; rewrite E in Hx.
    + destruct Hx as [<-|[]]. vm_compute. split; reflexivity.
    + destruct Hx.
  - rewrite const_2_64. lia.
  - reflexivity.
Defined.

(** ** C10 *)

Lemma C10_witness :
  get_size mini_mem 4104 = min_block_size /\
  forall prev, get_size (set_prev_free mini_mem 4104 prev) 4104 = min_block_size.
Proof. apply (C10_get_size_mini_bit mini_mem 4104). vm_compute. reflexivity. Defined.

(** ** C6 *)

(** C6, as stated, fails: [set_prev_free] on the free mini block of
    [mini_mem] changes the header word of the block, and [get_prev_free]
    reads the pointer back from it. *)
Lemma C6_counterexample :
  get_mini mini_mem 4104 = true /\ get_alloc mini_mem 4104 = false /\
  load mini_mem 4104 = 22 /\
  load (set_prev_free mini_mem 4104 8192) 4104 = 8198 /\
  get_prev_free (set_prev_free mini_mem 4104 8192) 4104 = 8192.
Proof. vm_compute. repeat split; reflexivity. Qed.

(** C6, amended: the predecessor of a free mini block is stored in the
    block.  [set_prev_free] writes only the header word of a mini block: the
    pointer goes to bits 3 to 63, the three flag bits stay.  [get_prev_free]
    reads it back from the header by masking the flag bits, with no look at
    the bucket's root. *)
Theorem C6_mini_prev_stored m block prev :
  get_mini m block = true ->
  0 <= block -> block + 24 < 2 ^ 64 -> 0 <= prev < 2 ^ 64 -> prev mod 8 = 0 ->
  same_out m (set_prev_free m block prev) block (block + 8) /\
  load (set_prev_free m block prev) block = prev + load m block mod 8 /\
  get_prev_free (set_prev_free m block prev) block = prev /\
  get_mini (set_prev_free m block prev) block = true /\
  get_alloc (set_prev_free m block prev) block = get_alloc m block.
Proof.
  intros Hm Hb Hb' Hp Hp8.
  destruct (set_prev_free_self m block prev Hb Hb' Hp Hp8) as (E1 & E2 & E3 & _).
  pose proof (set_prev_free_out m block prev Hb Hb') as So. rewrite Hm in So.
  assert (El : load (set_prev_free m block prev) block = prev + load m block mod 8).
  { unfold set_prev_free. rewrite Hm, load_store_same.
    pose proof (load_range m block) as Hr. rewrite land_7.
    rewrite lor_low8 by lia. rewrite wrap_small by lia. lia. }
  split; [exact So|]. split; [exact El|]. split; [exact E1|].
  split; [congruence|].
  unfold get_alloc. rewrite !extract_alloc_eq. f_equal. f_equal. lia.
Qed.

Lemma C6_witness :
  same_out mini_mem (set_prev_free mini_mem 4104 8192) 4104 (4104 + 8) /\
  load (set_prev_free mini_mem 4104 8192) 4104 = 8192 + load mini_mem 4104 mod 8 /\
  get_prev_free (set_prev_free mini_mem 4104 8192) 4104 = 8192 /\
  get_mini (set_prev_free mini_mem 4104 8192) 4104 = true /\
  get_alloc (set_prev_free mini_mem 4104 8192) 4104 = get_alloc mini_mem 4104.
Proof.
  apply (C6_mini_prev_stored mini_mem 4104 8192).
  - vm_compute. reflexivity.
  - lia.
  - rewrite const_2_64. lia.
  - rewrite const_2_64. lia.
  - reflexivity.
Defined.

(** In a reachable heap the pointer that [get_prev_free] reads is the
    predecessor of the block in the list of its bucket, 0 for the head. *)
Lemma bucket_walk_fwd m : forall fuel root l,
  bucket_walk fuel m root = Some l -> fwd (get_next_free m) root l.
Proof.
  induction fuel as [|k IH]; intros root l E; [discriminate|].
  cbn [bucket_walk] in E. destruct (Z.eqb_spec root 0) as [->|Hr].
  - injection E as <-. reflexivity.
  - destruct (bucket_walk k m (get_next_free m root)) as [t|] eqn:Et; [|discriminate].
    injection E as <-. cbn. auto.
Qed.

Lemma fwd_unique nx : forall l l' root, fwd nx root l -> fwd nx root l' -> l = l'.
Proof.
  induction l as [|x t IH]; intros [|y t'] root H H'; auto.
  - cbn in H. destruct H' as (E & Hy & _). congruence.
  - cbn in H'. destruct H as (E & Hx & _). congruence.
  - destruct H as (-> & _ & H), H' as (<- & _ & H'). f_equal. eapply IH; eauto.
Qed.

Lemma bucket_pred st live i fuel l l1 x l2 :
  reach st live -> 0 <= i < 15 ->
  bucket_walk fuel (st_mem st) (free_root st i) = Some l ->
  l = l1 ++ x :: l2 ->
  get_prev_free (st_mem st) x = last l1 0 /\ get_next_free (st_mem st) x = hd 0 l2.
Proof.
  intros HR Hi E ->. destruct (reach_ok st live HR) as (B & L & HI & _).
  destruct (hi_dl _ _ _ HI i Hi) as (Hfw & Hbw & _).
  pose proof (bucket_walk_fwd _ _ _ _ E) as Hfw'.
  rewrite (fwd_unique _ _ _ _ Hfw Hfw') in Hbw. split.
  - apply (bwd_mid _ _ _ _ _ Hbw).
  - apply (fwd_mid _ _ _ _ _ Hfw').
Qed.

(** ** C8 *)

(** C8: [calloc(elements, size)] returns NULL, in the state it was called
    in, when [elements] is zero or the product does not fit in 64 bits.  When
    it returns a pointer, the product fits, the pointer is the one [malloc]
    returned for the product, and the bytes from the pointer on, as many as
    the product, are zero. *)
Theorem C8_calloc st fuel elements size :
  0 <= elements < 2 ^ 64 -> 0 <= size < 2 ^ 64 ->
  (elements = 0 \/ 2 ^ 64 <= elements * size ->
     calloc fuel elements size st = Some (0, st)) /\
  (forall p st', calloc fuel elements size st = Some (p, st') -> p <> 0 ->
     elements <> 0 /\ elements * size < 2 ^ 64 /\
     (exists st1, malloc fuel (elements * size) st = Some (p, st1)) /\
     forall z, p <= z < p + elements * size -> st_mem st' z = 0).
Proof.
  intros He Hs. unfold calloc. split.
  - intros [->|Hov]; [reflexivity|].
    destruct (Z.eqb_spec elements 0) as [E0|E0]; [reflexivity|].
    rewrite (calloc_guard elements size ltac:(lia) Hs).
    destruct (Z.ltb_spec (elements * size) (2 ^ 64)); [lia|reflexivity].
  - intros p st' E Hp.
    destruct (Z.eqb_spec elements 0) as [E0|E0]; [congruence|].
    rewrite (calloc_guard elements size ltac:(lia) Hs) in E.
    destruct (Z.ltb_spec (elements * size) (2 ^ 64)) as [Hlt|Hge]; cbn [negb] in E;
      [|congruence].
    assert (Hnn : 0 <= elements * size) by nia.
    rewrite (wrap_small (elements * size)) in E by (split; assumption).
    destruct (malloc fuel (elements * size) st) as [[bp st1]|] eqn:EM; [|discriminate].
    destruct (Z.eqb_spec bp 0) as [Eb|Eb]; [congruence|].
    injection E as <- <-. split; [exact E0|]. split; [exact Hlt|].
    split; [exists st1; reflexivity|].
    intros z Hz. cbn [st_mem set_mem]. rewrite memset_in by exact Hz. reflexivity.
Qed.

Lemma C8_witness :
  (0 = 0 \/ 2 ^ 64 <= 0 * 8 -> calloc 10 0 8 heap2 = Some (0, heap2)) /\
  (forall p st', calloc 10 0 8 heap2 = Some (p, st') -> p <> 0 ->
     0 <> 0 /\ 0 * 8 < 2 ^ 64 /\
     (exists st1, malloc 10 (0 * 8) heap2 = Some (p, st1)) /\
     forall z, p <= z < p + 0 * 8 -> st_mem st' z = 0).
Proof.
  apply (C8_calloc heap2 10 0 8); rewrite const_2_64; lia.
Defined.

(** ** C7 *)

(** C7, as stated, fails: in [heap2] the arena is exhausted, and
    [realloc] of the live pointer [ptr2] to 5000 bytes returns NULL and
    leaves the old block allocated. *)
Lemma C7_counterexample :
  reach heap2 [ptr2] /\ ptr2 = 4112 /\
  match realloc 10 ptr2 5000 heap2 with
  | Some (q, st') => q = 0 /\ get_alloc (st_mem st') (payload_to_header ptr2) = true
  | None => False
  end.
Proof.
  split; [exact reach_heap2|]. split; [exact ptr2_eq|].
  destruct (realloc 10 ptr2 5000 heap2) as [[q st']|] eqn:E.
  - assert (X : match realloc 10 ptr2 5000 heap2 with
                | Some (q, st') =>
                    (q =? 0) && get_alloc (st_mem st') (payload_to_header ptr2)
                | None => false
                end = true) by (vm_compute; reflexivity).
    rewrite E in X. apply andb_true_iff in X. destruct X as (X1 & X2).
    apply Z.eqb_eq in X1. auto.
  - assert (X : option_map fst (realloc 10 ptr2 5000 heap2) = Some 0)
      by (vm_compute; reflexivity).
    rewrite E in X. discriminate.
Qed.

Lemma copysize_min size c : (if size <? c then size else c) = Z.min size c.
Proof. destruct (Z.ltb_spec size c); lia. Qed.

(** C7, amended: [realloc(ptr, size)] called in a reachable state on NULL or
    a live pointer.  With [size] zero it is [free(ptr)] and returns NULL;
    with [ptr] NULL it is [malloc(size)].  Otherwise it calls [malloc(size)].
    When that returns NULL, [realloc] returns NULL, the state is unchanged
    and the old block is still allocated.  When that returns a pointer, the
    pointer is fresh (not [ptr], not live before), the first
    min(old payload size, size) bytes of the old payload are copied to it and
    nothing else is written, then the old block is released by [free(ptr)],
    and the new pointer is returned; the heap is consistent, with the new
    pointer live in place of the old one. *)
Theorem C7_realloc st live fuel p size :
  reach st live -> p = 0 \/ In p live -> fits size ->
  (size = 0 -> realloc fuel p size st = Some (0, free p st)) /\
  (size <> 0 -> p = 0 -> realloc fuel p size st = malloc fuel size st) /\
  (size <> 0 -> p <> 0 ->
     match malloc fuel size st with
     | None => realloc fuel p size st = None
     | Some (q, st1) =>
       if q =? 0
       then realloc fuel p size st = Some (0, st) /\ st1 = st /\
            get_alloc (st_mem st) (payload_to_header p) = true
       else
         let n := Z.min size (get_payload_size (st_mem st1) (payload_to_header p)) in
         let m2 := memcpy (st_mem st1) q p n in
         realloc fuel p size st = Some (q, free p (set_mem st1 m2)) /\
         q <> p /\ ~ In q live /\
         (forall i, 0 <= i < n -> m2 (q + i) = st_mem st1 (p + i)) /\
         same_out (st_mem st1) m2 q (q + n) /\
         heap_ok (free p (set_mem st1 m2)) (q :: remove Z.eq_dec p live)
     end).
Proof.
  intros HR Hp Hf. pose proof (reach_ok st live HR) as HO. pose proof HO as (B & L & HV).
  split; [|split].
  - intros ->. reflexivity.
  - intros Hs ->. unfold realloc. rewrite (proj2 (Z.eqb_neq size 0) Hs). reflexivity.
  - intros Hs Hp0. destruct Hp as [?|Hp]; [contradiction|].
    unfold realloc. rewrite (proj2 (Z.eqb_neq size 0) Hs), (proj2 (Z.eqb_neq p 0) Hp0).
    destruct (malloc fuel size st) as [[q st1]|] eqn:EM; [|reflexivity].
    destruct Hf as (F1 & F2).
    pose proof (malloc_sound st live B L size fuel q st1 HV
                  ltac:(rewrite const_2_64 in *; lia) EM) as (_ & _ & _ & H0 & H1).
    destruct (Z.eqb_spec q 0) as [Eq|Eq].
    + rewrite (H0 Eq). split; [reflexivity|]. split; [reflexivity|].
      destruct (live_block _ _ _ _ p HV Hp) as (b & Bb & Eb & Ab & _ & Eh & _).
      destruct HV as (HI & _). rewrite Eh, (blk_get_alloc _ _ (hi_mem _ _ _ HI b Bb)).
      exact Ab.
    + cbn zeta. rewrite copysize_min.
      assert (HO' : heap_ok (free p (set_mem st1 (memcpy (st_mem st1) q p
                       (Z.min size (get_payload_size (st_mem st1) (payload_to_header p))))))
                      (realloc_live p size q live)).
      { apply (realloc_ok st live fuel p size q); auto; [split; assumption|].
        unfold realloc. rewrite (proj2 (Z.eqb_neq size 0) Hs), (proj2 (Z.eqb_neq p 0) Hp0).
        rewrite EM, (proj2 (Z.eqb_neq q 0) Eq), copysize_min. reflexivity. }
      unfold realloc_live in HO'.
      rewrite (proj2 (Z.eqb_neq size 0) Hs), (proj2 (Z.eqb_neq p 0) Hp0),
        (proj2 (Z.eqb_neq q 0) Eq) in HO'.
      destruct (H1 Eq) as (_ & B' & L' & b & HV' & _).
      assert (ND : NoDup (q :: live)) by apply HV'.
      inversion ND as [|? ? Hnin _]; subst.
      split; [reflexivity|]. split; [congruence|]. split; [exact Hnin|].
      split; [intros i Hi; apply memcpy_in; exact Hi|].
      split; [apply memcpy_out|exact HO'].
Qed.

Lemma C7_witness : realloc 10 ptr2 0 heap2 = Some (0, free ptr2 heap2).
Proof.
  refine (proj1 (C7_realloc heap2 [ptr2] 10 ptr2 0 reach_heap2 _ _) eq_refl).
  - right. left. reflexivity.
  - unfold fits. rewrite const_2_64. lia.
Defined.

(** * Further properties of the code

    ** Header words *)

Lemma pack_fields size alloc prev_alloc :
  0 <= size -> size + 16 <= 2 ^ 64 -> size mod 16 = 0 ->
  extract_size (pack size alloc prev_alloc) = size /\
  extract_alloc (pack size alloc prev_alloc) = alloc /\
  extract_prev_alloc (pack size alloc prev_alloc) = prev_alloc /\
  extract_mini (pack size alloc prev_alloc) = (size =? min_block_size).
Proof.
  intros H0 H1 Hm. pose proof (pack_range size alloc prev_alloc H0 H1 Hm) as Hr.
  rewrite extract_size_eq by exact Hr.
  rewrite pack_eq in * by assumption.
  unfold min_block_size, dsize, wsize. change (2 * 8) with 16.
  rewrite const_2_64 in *.
  destruct alloc, prev_alloc, (Z.eqb_spec size 16); cbn [b2z] in *;
    (split; [lia|]); repeat split; flags.
Qed.

(** X1: a header word built by [pack] from a size that is a multiple of 16
    gives back the size and the two flags it was built from, and carries the
    mini bit exactly when the size is the minimum block size. *)
Theorem X1_pack_fields size alloc prev_alloc :
  0 <= size -> size + 16 <= 2 ^ 64 -> size mod 16 = 0 ->
  extract_size (pack size alloc prev_alloc) = size /\
  extract_alloc (pack size alloc prev_alloc) = alloc /\
  extract_prev_alloc (pack size alloc prev_alloc) = prev_alloc /\
  extract_mini (pack size alloc prev_alloc) = (size =? min_block_size).
Proof. exact (pack_fields size alloc prev_alloc). Qed.

Lemma X1_witness :
  extract_size (pack 48 true false) = 48 /\
  extract_alloc (pack 48 true false) = true /\
  extract_prev_alloc (pack 48 true false) = false /\
  extract_mini (pack 48 true false) = (48 =? min_block_size).
Proof.
  apply (X1_pack_fields 48 true false).
  - lia.
  - rewrite const_2_64. lia.
  - reflexivity.
Defined.

(** The two stores of [write_block] on a free block larger than the
    minimum. *)
Lemma write_block_free m block size prev_alloc :
  0 <= block -> 32 <= size -> size mod 16 = 0 -> block + size + 8 < 2 ^ 64 ->
  write_block m block size false prev_alloc =
    store (store m block (pack size false prev_alloc)) (block + size - 8)
          (pack size false prev_alloc).
Proof.
  intros Hx Hs Hm Hr. unfold write_block, min_block_size, dsize, wsize.
  change (2 * 8) with 16. rewrite (proj2 (Z.eqb_neq size 16)) by lia. cbn [negb andb].
  pose proof (pack_range size false prev_alloc ltac:(lia) ltac:(lia) Hm) as Hp.
  rewrite (header_to_footer_eq _ block size); auto; try lia.
  unfold get_size. rewrite load_store_same, wrap_small by lia.
  destruct (pack_fields size false prev_alloc ltac:(lia) ltac:(lia) Hm) as (E2 & _ & _ & E3).
  rewrite E3, E2. unfold min_block_size, dsize, wsize. change (2 * 8) with 16.
  rewrite (proj2 (Z.eqb_neq size 16)) by lia. reflexivity.
Qed.

(** X2: after [write_block] the header reads back the size and the flags
    written, [find_next] steps over exactly that many bytes, a free block
    larger than the minimum has a footer equal to its header, and no byte
    outside the block is written: an allocated or a mini block has only its
    header word written. *)
Theorem X2_write_block_read m block size alloc prev_alloc :
  0 <= block -> 16 <= size -> size mod 16 = 0 -> block + size + 8 < 2 ^ 64 ->
  let m' := write_block m block size alloc prev_alloc in
  get_size m' block = size /\ get_alloc m' block = alloc /\
  get_prev_alloc m' block = prev_alloc /\
  get_mini m' block = (size =? min_block_size) /\
  find_next m' block = block + size /\
  (alloc = false -> size <> min_block_size ->
     header_to_footer m' block = block + size - 8 /\
     load m' (header_to_footer m' block) = load m' block) /\
  (forall z, z < block \/
             block + (if alloc || (size =? min_block_size) then 8 else size) <= z ->
             m' z = m z).
Proof.
  intros Hx Hs Hm Hr m'.
  destruct (write_block_spec m block size alloc prev_alloc Hx Hs Hm Hr) as (_ & OK).
  fold m' in OK.
  pose proof (blk_get_size _ _ OK) as Eg. pose proof (blk_get_alloc _ _ OK) as Ea.
  pose proof (blk_get_prev_alloc _ _ OK) as Ep. pose proof (blk_get_mini _ _ OK) as Em.
  cbn [b_addr b_size b_alloc b_pa] in Eg, Ea, Ep, Em.
  assert (Ef : header_to_footer m' block = block + size - 8)
    by (apply header_to_footer_eq; auto; lia).
  split; [exact Eg|]. split; [exact Ea|]. split; [exact Ep|]. split; [exact Em|].
  split; [unfold find_next; rewrite Eg; apply wrap_small; lia|].
  unfold min_block_size, dsize, wsize in *. change (2 * 8) with 16 in *.
  split.
  - intros -> Hne. split; [exact Ef|]. rewrite Ef. unfold m'.
    rewrite write_block_free by (auto; lia).
    rewrite load_store_same. rewrite load_store_other by lia.
    rewrite load_store_same. reflexivity.
  - intros z Hz. unfold m'.
    destruct alloc; cbn [orb] in Hz.
    + unfold write_block. cbn [negb andb]. apply store_out. lia.
    + destruct (Z.eqb_spec size 16) as [E|E].
      * unfold write_block, min_block_size, dsize, wsize. change (2 * 8) with 16.
        rewrite (proj2 (Z.eqb_eq size 16) E). cbn [negb andb]. apply store_out. lia.
      * rewrite write_block_free by (auto; lia).
        rewrite store_out by lia. apply store_out. lia.
Qed.

Lemma X2_witness :
  let m' := write_block (fun _ => 0) 4104 64 false true in
  get_size m' 4104 = 64 /\ get_alloc m' 4104 = false /\
  get_prev_alloc m' 4104 = true /\
  get_mini m' 4104 = (64 =? min_block_size) /\
  find_next m' 4104 = 4104 + 64 /\
  (false = false -> 64 <> min_block_size ->
     header_to_footer m' 4104 = 4104 + 64 - 8 /\
     load m' (header_to_footer m' 4104) = load m' 4104) /\
  (forall z, z < 4104 \/
             4104 + (if false || (64 =? min_block_size) then 8 else 64) <= z ->
             m' z = (fun _ => 0) z).
Proof.
  apply (X2_write_block_read (fun _ => 0) 4104 64 false true).
  - lia.
  - lia.
  - reflexivity.
  - rewrite const_2_64. lia.
Defined.

(** ** Link fields of a free block *)

Lemma flags_of_low m m' x :
  load m' x mod 8 = load m x mod 8 ->
  get_alloc m' x = get_alloc m x /\ get_prev_alloc m' x = get_prev_alloc m x /\
  get_mini m' x = get_mini m x.
Proof.
  intros E. unfold get_alloc, get_prev_alloc, get_mini.
  rewrite !extract_alloc_eq, !extract_prev_alloc_eq, !extract_mini_eq.
  assert (E1 : load m' x mod 2 = load m x mod 2) by lia.
  assert (E2 : (load m' x / 2) mod 2 = (load m x / 2) mod 2) by lia.
  assert (E3 : (load m' x / 4) mod 2 = (load m x / 4) mod 2) by lia.
  rewrite E1, E2, E3. auto.
Qed.

Lemma link_write_fields m m' x :
  link_write m m' x ->
  get_mini m' x = get_mini m x /\ get_size m' x = get_size m x /\
  get_alloc m' x = get_alloc m x /\ get_prev_alloc m' x = get_prev_alloc m x.
Proof.
  intros (_ & E8 & En). destruct (flags_of_low m m' x E8) as (Fa & Fp & Fm).
  split; [exact Fm|]. split; [|split; assumption].
  unfold get_size. unfold get_mini in Fm. rewrite Fm.
  destruct (extract_mini (load m x)) eqn:Em; [reflexivity|].
  rewrite En; [reflexivity|exact Em].
Qed.

(** X3: the two link setters on one free block.  After [set_next_free] and
    [set_prev_free], [get_next_free] and [get_prev_free] read the two
    pointers written, also on a mini block, which keeps the predecessor in
    its header word; the size and the flags of the header are unchanged, and
    nothing is written outside the 16 bytes of a mini block or the first 24
    bytes of a larger one. *)
Theorem X3_link_fields m block next prev :
  0 <= block -> block + 24 < 2 ^ 64 ->
  0 <= next < 2 ^ 64 -> next mod 8 = 0 -> 0 <= prev < 2 ^ 64 -> prev mod 8 = 0 ->
  let m' := set_prev_free (set_next_free m block next) block prev in
  get_next_free m' block = next /\ get_prev_free m' block = prev /\
  get_mini m' block = get_mini m block /\ get_size m' block = get_size m block /\
  get_alloc m' block = get_alloc m block /\
  get_prev_alloc m' block = get_prev_alloc m block /\
  (forall z, z < block \/ block + (if get_mini m block then 16 else 24) <= z ->
             m' z = m z).
Proof.
  intros Hx Hr Hn Hn8 Hp Hp8 m'.
  destruct (snf_links m block next Hx Hr Hn Hn8) as (W1 & M1 & N1 & _ & _).
  destruct (spf_links (set_next_free m block next) block prev Hx Hr Hp Hp8)
    as (W2 & M2 & N2 & P2 & _).
  fold m' in W2, M2, N2, P2.
  destruct (link_write_fields _ _ _ W1) as (_ & S1 & A1 & Q1).
  destruct (link_write_fields _ _ _ W2) as (_ & S2 & A2 & Q2).
  split; [congruence|]. split; [exact P2|]. split; [congruence|]. split; [congruence|].
  split; [congruence|]. split; [congruence|].
  intros z Hz. destruct W1 as (O1 & _), W2 as (O2 & _). rewrite M1 in O2.
  rewrite (O2 z Hz). apply (O1 z Hz).
Qed.

Lemma X3_witness :
  let m' := set_prev_free (set_next_free mini_mem 4104 4424) 4104 8200 in
  get_next_free m' 4104 = 4424 /\ get_prev_free m' 4104 = 8200 /\
  get_mini m' 4104 = get_mini mini_mem 4104 /\
  get_size m' 4104 = get_size mini_mem 4104 /\
  get_alloc m' 4104 = get_alloc mini_mem 4104 /\
  get_prev_alloc m' 4104 = get_prev_alloc mini_mem 4104 /\
  (forall z, z < 4104 \/ 4104 + (if get_mini mini_mem 4104 then 16 else 24) <= z ->
             m' z = mini_mem z).
Proof.
  apply (X3_link_fields mini_mem 4104 4424 8200).
  - lia.
  - rewrite const_2_64. lia.
  - rewrite const_2_64. lia.
  - reflexivity.
  - rewrite const_2_64. lia.
  - reflexivity.
Defined.

(** X4: [set_prev_alloc] sets the previous-allocated flag of a header and
    nothing else: the size, the allocated flag, the mini bit and, in a mini
    block, the predecessor link kept in the header are the same, and only
    the header word is written. *)
Theorem X4_set_prev_alloc_flag m block v :
  0 <= block -> block + 24 < 2 ^ 64 ->
  let m' := set_prev_alloc m block v in
  get_prev_alloc m' block = v /\ get_alloc m' block = get_alloc m block /\
  get_mini m' block = get_mini m block /\ get_size m' block = get_size m block /\
  get_prev_free m' block = get_prev_free m block /\
  get_next_free m' block = get_next_free m block /\
  (forall z, z < block \/ block + 8 <= z -> m' z = m z).
Proof.
  intros Hx Hr m'. destruct (set_prev_alloc_load m block v) as (E & O). fold m' in E, O.
  pose proof (load_range m block) as R. pose proof (load_range m' block) as R'.
  rewrite const_2_64 in *.
  assert (Ep : get_prev_alloc m' block = v).
  { unfold get_prev_alloc. rewrite extract_prev_alloc_eq, E. destruct v; cbn [b2z]; flags. }
  assert (Ea : get_alloc m' block = get_alloc m block).
  { unfold get_alloc. rewrite !extract_alloc_eq, E.
    replace ((load m block - 2 * ((load m block / 2) mod 2) + 2 * b2z v) mod 2)
      with (load m block mod 2) by (destruct v; cbn [b2z]; lia).
    reflexivity. }
  assert (Em : get_mini m' block = get_mini m block).
  { unfold get_mini. rewrite !extract_mini_eq, E.
    replace (((load m block - 2 * ((load m block / 2) mod 2) + 2 * b2z v) / 4) mod 2)
      with ((load m block / 4) mod 2) by (destruct v; cbn [b2z]; lia).
    reflexivity. }
  assert (E16 : load m' block - load m' block mod 16 = load m block - load m block mod 16)
    by (rewrite E; destruct v; cbn [b2z]; lia).
  assert (E8 : load m' block - load m' block mod 8 = load m block - load m block mod 8)
    by (rewrite E; destruct v; cbn [b2z]; lia).
  split; [exact Ep|]. split; [exact Ea|]. split; [exact Em|].
  split; [|split; [|split]].
  - unfold get_size. unfold get_mini in Em. rewrite Em.
    destruct (extract_mini (load m block)); [reflexivity|].
    rewrite !extract_size_eq by (rewrite const_2_64; lia). exact E16.
  - unfold get_prev_free. rewrite Em. destruct (get_mini m block).
    + rewrite !land_not7 by (rewrite const_2_64; lia). exact E8.
    + unfold off_predecessor. rewrite wrap_small by (rewrite const_2_64; lia).
      apply (load_same_out _ _ _ _ _ O). lia.
  - unfold get_next_free, off_successor. rewrite wrap_small by (rewrite const_2_64; lia).
    f_equal. apply (load_same_out _ _ _ _ _ O). lia.
  - intros z Hz. apply O. lia.
Qed.

Lemma X4_witness :
  let m' := set_prev_alloc mini_mem 4104 false in
  get_prev_alloc m' 4104 = false /\ get_alloc m' 4104 = get_alloc mini_mem 4104 /\
  get_mini m' 4104 = get_mini mini_mem 4104 /\
  get_size m' 4104 = get_size mini_mem 4104 /\
  get_prev_free m' 4104 = get_prev_free mini_mem 4104 /\
  get_next_free m' 4104 = get_next_free mini_mem 4104 /\
  (forall z, z < 4104 \/ 4104 + 8 <= z -> m' z = mini_mem z).
Proof.
  apply (X4_set_prev_alloc_flag mini_mem 4104 false).
  - lia.
  - rewrite const_2_64. lia.
Defined.

(** ** Size classes *)

(** X5: the bucket index is between 0 and 14 for every size, and it does not
    decrease when the size grows: a block that is at least as large as a
    request is in the home bucket of the request or in a later one. *)
Theorem X5_seglist_ind_monotone s t :
  0 <= s <= t -> t < 2 ^ 64 ->
  0 <= get_seglist_ind s /\ get_seglist_ind s <= get_seglist_ind t /\
  get_seglist_ind t < 15.
Proof.
  intros H Ht.
  pose proof (get_seglist_ind_range s ltac:(lia)).
  pose proof (get_seglist_ind_range t ltac:(lia)).
  pose proof (get_seglist_ind_mono s t H Ht). lia.
Qed.

Lemma X5_witness :
  0 <= get_seglist_ind 112 /\ get_seglist_ind 112 <= get_seglist_ind 4096 /\
  get_seglist_ind 4096 < 15.
Proof.
  apply (X5_seglist_ind_monotone 112 4096).
  - lia.
  - rewrite const_2_64. lia.
Defined.

(** ** [malloc] in a reachable heap *)

Lemma implicit_walk_mono m : forall fuel fuel' block l,
  implicit_walk fuel m block = Some l -> (fuel <= fuel')%nat ->
  implicit_walk fuel' m block = Some l.
Proof.
  induction fuel as [|k IH]; intros fuel' block l E Hle; [discriminate|].
  destruct fuel' as [|k']; [inversion Hle|]. cbn [implicit_walk] in *.
  destruct (get_size m block >? 0); [|exact E].
  destruct (implicit_walk k m (find_next m block)) as [t|] eqn:Et; [|discriminate].
  rewrite (IH k' _ t Et (le_S_n _ _ Hle)). exact E.
Qed.

(** Whatever fuel the walk of the implicit list ends with, it visits the
    blocks before the epilogue. *)
Lemma walk_blocks st live B L fuel l :
  heap_inv st live B L -> implicit_walk fuel (st_mem st) (heap_start st) = Some l ->
  (forall x, In x l <-> exists c, B c /\ b_addr c = x /\ x < mem_brk st - 8) /\ NoDup l.
Proof.
  intros HV E. destruct (heap_walk st live B L HV) as (N & l0 & Hw & Hin & Hnd & _).
  pose proof (Nat.le_max_l fuel N) as M1. pose proof (Nat.le_max_r fuel N) as M2.
  pose proof (Hw (S (Nat.max fuel N)) (proj2 (Nat.lt_succ_r _ _) M2)) as E0.
  rewrite (implicit_walk_mono _ fuel _ _ l E (Nat.le_trans _ _ _ M1 (Nat.le_succ_diag_r _)))
    in E0.
  injection E0 as <-. auto.
Qed.

(** No free block has [asize] bytes: over the blocks of the invariant, and
    over the blocks that [count_free] counts. *)
Lemma no_fit_walk st live B L l asize :
  heap_inv st live B L ->
  (forall x, In x l <-> exists c, B c /\ b_addr c = x /\ x < mem_brk st - 8) ->
  (forall b, B b -> b_alloc b = false -> b_size b < asize) <->
  (forall x, In x (free_blocks (st_mem st) l) -> get_size (st_mem st) x < asize).
Proof.
  intros (HI & _) Hin. unfold free_blocks. split.
  - intros H x Hx. apply filter_In in Hx. destruct Hx as (Hx & Ha).
    apply Hin in Hx. destruct Hx as (c & Bc & <- & _).
    rewrite (blk_get_alloc _ _ (hi_mem _ _ _ HI c Bc)) in Ha.
    rewrite (blk_get_size _ _ (hi_mem _ _ _ HI c Bc)).
    apply H; [exact Bc|]. destruct (b_alloc c); [discriminate|reflexivity].
  - intros H b Bb Fb.
    rewrite <- (blk_get_size _ _ (hi_mem _ _ _ HI b Bb)). apply H.
    apply filter_In. split.
    + apply Hin. exists b. split; [exact Bb|]. split; [reflexivity|].
      pose proof (lay_range _ _ _ (hi_lay _ _ _ HI) b Bb) as (? & ?).
      destruct (Z.eq_dec (b_addr b) (mem_brk st - 8)) as [E|E]; [|lia].
      destruct (lay_epi _ _ _ (hi_lay _ _ _ HI) b Bb E). congruence.
    + rewrite (blk_get_alloc _ _ (hi_mem _ _ _ HI b Bb)), Fb. reflexivity.
Qed.

(** What [malloc] returns, with whatever fuel it returns. *)
Lemma malloc_sound_full st live B L size fuel p st' :
  heap_inv st live B L -> 0 <= size < 2 ^ 64 ->
  malloc fuel size st = Some (p, st') ->
  let asize := max (round_up (wrap (size + wsize)) dsize) min_block_size in
  malloc_post st live size p st' /\ live_kept st st' live /\
  (p = 0 <-> size = 0 \/
     ((forall b, B b -> b_alloc b = false -> b_size b < asize) /\
      (2 ^ 63 <=? max asize chunksize) ||
      (mem_max_addr st - mem_brk st <? max asize chunksize) = true)) /\
  (p <> 0 -> get_size (st_mem st') (payload_to_header p) = asize) /\
  (mem_brk st' = mem_brk st \/
   (forall b, B b -> b_alloc b = false -> b_size b < asize) /\
   mem_brk st' = mem_brk st + max asize chunksize) /\
  heap_frame st st'.
Proof.
  intros HV Hs E asize. destruct (malloc_weak_full st live B L size HV Hs) as (N & HN).
  pose proof (Nat.le_max_l fuel N) as M1. pose proof (Nat.le_max_r fuel N) as M2.
  destruct (HN (S (Nat.max fuel N)) (proj2 (Nat.lt_succ_r _ _) M2)) as (p1 & st1 & E1 & HP).
  rewrite (malloc_mono fuel _ size st (p, st') E (Nat.le_trans _ _ _ M1 (Nat.le_succ_diag_r _)))
    in E1.
  injection E1 as <- <-. exact HP.
Qed.

(** The first [malloc] in an arena without room for the two boundary words:
    [mm_init] fails, and [malloc] returns NULL with the roots cleared. *)
Lemma malloc_no_room_returns st fuel size :
  init_pre st -> mem_max_addr st - mem_brk st < 16 -> heap_start st = 0 ->
  0 <= size < 2 ^ 64 -> (0 < fuel)%nat ->
  malloc fuel size st = Some (0, free_root_init st).
Proof.
  intros Hpre Hno Hs0 Hs Hf.
  destruct (asize_spec size ltac:(lia)) as (Ha1 & Ha2 & _).
  unfold malloc. rewrite Hs0. cbn [Z.eqb].
  assert (Ei : snd (mm_init st) = free_root_init st).
  { unfold mm_init, mem_sbrk, wsize. change (2 * 8) with 16.
    apply Z.ltb_lt in Hno. rewrite Hno, orb_true_r. rewrite Z.eqb_refl. reflexivity. }
  rewrite Ei. destruct (Z.eqb_spec size 0) as [Ez|Ez]; [reflexivity|].
  set (asize := max (round_up (wrap (size + wsize)) dsize) min_block_size) in *.
  set (st1 := free_root_init st) in *.
  assert (Hr : forall j, 0 <= j < 15 -> free_root st1 j = 0).
  { intros j Hj. unfold st1, free_root_init, seglist_length. cbn [free_root set_roots].
    destruct (Z.leb_spec 0 j), (Z.ltb_spec j 15); cbn; try reflexivity; lia. }
  pose proof (get_seglist_ind_range asize ltac:(lia)) as Hi.
  assert (Ef : find_fit fuel st1 asize = Some 0).
  { unfold find_fit. rewrite (Hr _ Hi). destruct fuel as [|k]; [inversion Hf|].
    cbn [find_fit_scan Z.eqb]. rewrite wrap_small by (rewrite const_2_64; lia).
    destruct (find_fit_fallback_spec (free_root st1) (Z.to_nat seglist_length)
                (get_seglist_ind asize + 1) ltac:(lia) ltac:(cbn; lia)
                ltac:(rewrite const_2_64; cbn; lia)) as (F1 & _).
    cbn zeta in F1.
    destruct (Z.eqb_spec (find_fit_fallback (Z.to_nat seglist_length) (free_root st1)
                            (get_seglist_ind asize + 1)) 0) as [->|Hne]; [reflexivity|].
    destruct (F1 Hne) as (j & Hj & Ej). rewrite Hr in Ej by lia. congruence. }
  rewrite Ef. cbn [Z.eqb].
  destruct (max_chunk asize Ha1 Ha2) as (M1 & M2 & M3 & M4).
  assert (Ee : extend_heap (max asize chunksize) st1 = (0, st1)).
  { unfold extend_heap, mem_sbrk. rewrite M3.
    assert (Hlt : mem_max_addr st1 - mem_brk st1 < max asize chunksize).
    { change (mem_max_addr st1) with (mem_max_addr st).
      change (mem_brk st1) with (mem_brk st). destruct Ha1 as (? & _). lia. }
    apply Z.ltb_lt in Hlt. rewrite Hlt.
    rewrite orb_true_r, Z.eqb_refl. reflexivity. }
  rewrite Ee. reflexivity.
Qed.

(** X6: [malloc] returns.  In a state reached from a successful [mm_init],
    and in the state before any initialisation, where it calls [mm_init]
    itself, there is an amount of fuel from which on the scan of the home
    bucket ends and [malloc] returns one and the same result. *)
Theorem X6_malloc_returns st size :
  (exists live, reach st live) \/ (heap_start st = 0 /\ init_pre st) ->
  0 <= size < 2 ^ 64 ->
  exists N p st', forall fuel, (N < fuel)%nat -> malloc fuel size st = Some (p, st').
Proof.
  intros Hst Hs.
  destruct Hst as [(live & HR)|(H0 & Hpre)].
  - destruct (reach_ok st live HR) as (B & L & HV).
    exact (malloc_total st live B L size HV Hs).
  - destruct (Z.ltb_spec (mem_max_addr st - mem_brk st) 16) as [Hno|Hroom].
    + exists O, 0, (free_root_init st). intros fuel Hf.
      apply malloc_no_room_returns; auto.
    + destruct (mm_init_any st Hpre Hroom) as (B & L & HV).
      destruct (malloc_total _ _ B L size HV Hs) as (N & p & st' & HN).
      exists N, p, st'. intros fuel Hf. rewrite malloc_after_init; auto.
      apply (heap_inv_start _ _ _ _ HV).
Qed.

Lemma X6_witness :
  exists N p st', forall fuel, (N < fuel)%nat -> malloc fuel 100 arena0 = Some (p, st').
Proof.
  apply (X6_malloc_returns arena0 100).
  - right. split; [reflexivity|exact arena0_pre].
  - rewrite const_2_64. lia.
Defined.

(** X7: when [malloc] of a positive size gives up, and when it grows the
    heap.  It returns NULL exactly when no free block of the implicit list
    has the adjusted size and [mem_sbrk] refuses the extension; the state is
    then the one it was called in.  The break moves only when no free block
    has the adjusted size, and then by the adjusted size or by [chunksize],
    whichever is larger. *)
Theorem X7_malloc_null_iff st live fuel fuel' size p st' l :
  reach st live -> 0 < size < 2 ^ 64 ->
  malloc fuel size st = Some (p, st') ->
  implicit_walk fuel' (st_mem st) (heap_start st) = Some l ->
  let asize := max (round_up (wrap (size + wsize)) dsize) min_block_size in
  let no_fit :=
    forall x, In x (free_blocks (st_mem st) l) -> get_size (st_mem st) x < asize in
  (p = 0 <-> no_fit /\ fst (mem_sbrk (max asize chunksize) st) = wrap (-1)) /\
  (p = 0 -> st' = st) /\
  (mem_brk st' = mem_brk st \/
   no_fit /\ mem_brk st' = mem_brk st + max asize chunksize).
Proof.
  intros HR Hs EM EW asize no_fit.
  destruct (reach_ok st live HR) as (B & L & HV).
  destruct (malloc_sound_full st live B L size fuel p st' HV ltac:(lia) EM)
    as (HP & _ & Hiff & _ & Hbrk & _).
  cbv zeta in Hiff, Hbrk. fold asize in Hiff, Hbrk.
  destruct (walk_blocks st live B L fuel' l HV EW) as (Hin & _).
  pose proof (no_fit_walk st live B L l asize HV Hin) as NW. fold no_fit in NW.
  pose proof (sbrk_test st live B L (max asize chunksize) HV) as ST.
  split; [|split].
  - rewrite Hiff. split.
    + intros [E0|(H1 & H2)]; [lia|]. split; [apply NW; exact H1|].
      apply Z.eqb_eq. rewrite ST. exact H2.
    + intros (H1 & H2). right. split; [apply NW; exact H1|].
      rewrite <- ST. apply Z.eqb_eq. exact H2.
  - destruct HP as (_ & _ & _ & H0 & _). exact H0.
  - destruct Hbrk as [E|(H1 & E)]; [left; exact E|].
    right. split; [apply NW; exact H1|exact E].
Qed.

Lemma malloc_heap1_full : malloc 10 5000 heap1 = Some (0, heap1).
Proof.
  destruct (malloc 10 5000 heap1) as [[p s]|] eqn:E.
  - assert (X : option_map fst (malloc 10 5000 heap1) = Some 0) by (vm_compute; reflexivity).
    rewrite E in X. injection X as ->.
    destruct (reach_ok heap1 [] reach_heap1) as (B & L & HV).
    destruct (malloc_sound heap1 [] B L 5000 10 0 s HV ltac:(rewrite const_2_64; lia) E)
      as (_ & _ & _ & H0 & _).
    rewrite (H0 eq_refl). reflexivity.
  - assert (X : option_map fst (malloc 10 5000 heap1) = Some 0) by (vm_compute; reflexivity).
    rewrite E in X. discriminate.
Qed.

Lemma walk_heap1 : implicit_walk 10 (st_mem heap1) (heap_start heap1) = Some [4104].
Proof. vm_compute. reflexivity. Qed.

Lemma X7_witness :
  let asize := max (round_up (wrap (5000 + wsize)) dsize) min_block_size in
  let no_fit :=
    forall x, In x (free_blocks (st_mem heap1) [4104]) ->
              get_size (st_mem heap1) x < asize in
  (0 = 0 <-> no_fit /\ fst (mem_sbrk (max asize chunksize) heap1) = wrap (-1)) /\
  (0 = 0 -> heap1 = heap1) /\
  (mem_brk heap1 = mem_brk heap1 \/
   no_fit /\ mem_brk heap1 = mem_brk heap1 + max asize chunksize).
Proof.
  apply (X7_malloc_null_iff heap1 [] 10 10 5000 0 heap1 [4104] reach_heap1).
  - rewrite const_2_64. lia.
  - exact malloc_heap1_full.
  - exact walk_heap1.
Defined.

(** X8: the block behind a pointer that [malloc] returns.  The pointer was
    not live before; its block is marked allocated, has exactly the adjusted
    size, so that its payload holds the bytes asked for, lies between the
    start of the heap and the epilogue, and is disjoint from the block of
    every pointer that was live. *)
Theorem X8_malloc_block st live fuel size p st' :
  reach st live -> fits size -> malloc fuel size st = Some (p, st') -> p <> 0 ->
  let asize := max (round_up (wrap (size + wsize)) dsize) min_block_size in
  let psize q := get_payload_size (st_mem st') (payload_to_header q) in
  ~ In p live /\
  get_alloc (st_mem st') (payload_to_header p) = true /\
  get_size (st_mem st') (payload_to_header p) = asize /\
  size <= psize p /\
  heap_start st' + 8 <= p /\ p + psize p <= mem_brk st' - 8 /\
  (forall q, In q live -> q + psize q <= p - 8 \/ p + psize p <= q - 8).
Proof.
  intros HR (F1 & F2) EM Hp asize psize.
  destruct (reach_ok st live HR) as (B & L & HV).
  destruct (malloc_sound_full st live B L size fuel p st' HV
              ltac:(rewrite const_2_64 in *; lia) EM) as (HP & _ & _ & Hsz & _).
  specialize (Hsz Hp). cbv zeta in Hsz. fold asize in Hsz.
  destruct HP as (_ & _ & _ & _ & H1).
  destruct (H1 Hp) as (_ & B' & L' & b & HV' & Bb & Eb & Ab & Hs). specialize (Hs F2).
  destruct (live_block st' (p :: live) B' L' p HV' (or_introl eq_refl))
    as (b0 & Bb0 & Eb0 & Ab0 & S0 & Eh0 & Eps0 & _).
  pose proof HV' as (HI' & _ & _ & _ & _ & _ & ND).
  pose proof (hinv_hmem _ _ _ HI') as HM'.
  assert (b0 = b) by (apply (hmem_same _ _ HM'); auto; lia). subst b0.
  pose proof (hmem_addr _ _ HM' b Bb) as (? & ? & ? & ? & ? & ? & _).
  unfold psize. rewrite Eh0, Eps0.
  split; [inversion ND; assumption|].
  split; [rewrite <- Ab; apply (blk_get_alloc _ _ (hi_mem _ _ _ HI' b Bb))|].
  rewrite Eh0 in Hsz.
  split; [exact Hsz|]. split; [lia|]. split; [lia|]. split; [lia|].
  intros q Hq.
  destruct (live_block st' (p :: live) B' L' q HV' (or_intror Hq))
    as (c & Bc & Ec & Ac & Sc & Ehc & Epc & _).
  rewrite Ehc, Epc.
  assert (Hne : b_addr c <> b_addr b).
  { intros E. inversion ND as [|? ? Hni _]. subst. apply Hni.
    replace (b_addr b + 8) with (b_addr c + 8) by lia. exact Hq. }
  destruct (hmem_sep _ _ HM' c b Bc Bb Hne) as [[? ?]|[? ?]]; lia.
Qed.

Lemma X8_witness :
  let asize := max (round_up (wrap (100 + wsize)) dsize) min_block_size in
  let psize q := get_payload_size (st_mem heap2) (payload_to_header q) in
  ~ In ptr2 [] /\
  get_alloc (st_mem heap2) (payload_to_header ptr2) = true /\
  get_size (st_mem heap2) (payload_to_header ptr2) = asize /\
  100 <= psize ptr2 /\
  heap_start heap2 + 8 <= ptr2 /\ ptr2 + psize ptr2 <= mem_brk heap2 - 8 /\
  (forall q, In q [] -> q + psize q <= ptr2 - 8 \/ ptr2 + psize ptr2 <= q - 8).
Proof.
  apply (X8_malloc_block heap1 [] 10 100 ptr2 heap2 reach_heap1).
  - unfold fits. rewrite const_2_64. lia.
  - exact malloc_heap1.
  - rewrite ptr2_eq. lia.
Defined.

(** X9: [malloc] leaves every live payload as it is: the size its header
    gives and every byte of it. *)
Theorem X9_malloc_keeps_live st live fuel size p st' :
  reach st live -> 0 <= size < 2 ^ 64 -> malloc fuel size st = Some (p, st') ->
  live_kept st st' live.
Proof.
  intros HR Hs EM. destruct (reach_ok st live HR) as (B & L & HV).
  destruct (malloc_sound_full st live B L size fuel p st' HV Hs EM) as (_ & HK & _).
  exact HK.
Qed.

Lemma malloc_heap2 : malloc 10 200 heap2 = Some (ptr4, heap4).
Proof.
  unfold ptr4, heap4. destruct (malloc 10 200 heap2) as [[p s]|] eqn:E; [reflexivity|].
  assert (X : option_map fst (malloc 10 200 heap2) = Some 4224) by (vm_compute; reflexivity).
  rewrite E in X. discriminate.
Qed.

Lemma X9_witness : live_kept heap2 heap4 [ptr2].
Proof.
  apply (X9_malloc_keeps_live heap2 [ptr2] 10 200 ptr4 heap4 reach_heap2).
  - rewrite const_2_64. lia.
  - exact malloc_heap2.
Defined.

(** ** [free], [realloc] and [calloc] in a reachable heap *)

Lemma live_kept_sub st st' live live' :
  live_kept st st' live -> incl live' live -> live_kept st st' live'.
Proof. intros K Hi q Hq. apply K. apply Hi. exact Hq. Qed.

(** A write into the payload of one allocated block keeps the payloads of
    the other live pointers. *)
Lemma payload_write_kept st live B L b m' others :
  heap_inv st live B L -> B b -> b_alloc b = true ->
  same_out (st_mem st) m' (b_addr b + 8) (b_addr b + b_size b) ->
  (forall q, In q others -> In q live /\ q <> b_addr b + 8) ->
  live_kept st (set_mem st m') others.
Proof.
  intros HV Bb Ab S Ho q Hq. destruct (Ho q Hq) as (Hl & Hne).
  destruct (live_block st live B L q HV Hl) as (c & Bc & Ec & Ac & Sc & Eh & Ep & _).
  pose proof HV as (HI & _). pose proof (hinv_hmem _ _ _ HI) as HM.
  pose proof (hmem_addr _ _ HM c Bc) as (? & ? & ? & ? & _).
  assert (Hcb : b_addr c <> b_addr b) by lia.
  assert (Hsep : b_addr c + b_size c <= b_addr b \/ b_addr b + b_size b <= b_addr c)
    by (destruct (hmem_sep _ _ HM c b Bc Bb Hcb) as [[? ?]|[? ?]]; lia).
  cbn [st_mem set_mem]. rewrite Eh. unfold get_payload_size, get_size.
  rewrite (load_same_out _ _ _ _ (b_addr c) S) by lia.
  split; [reflexivity|].
  intros z Hz. apply S.
  fold (get_size (st_mem st) (b_addr c)) in Hz.
  rewrite (blk_get_size _ _ (hi_mem _ _ _ HI c Bc)) in Hz.
  unfold wsize in Hz. rewrite wrap_small in Hz by lia. lia.
Qed.

(** The adjusted size of a request that fits into a block fits into it. *)
Lemma asize_upper size s :
  0 <= size -> size + 8 <= s -> s mod 16 = 0 -> s < 2 ^ 64 ->
  max (round_up (wrap (size + wsize)) dsize) min_block_size <= s.
Proof.
  intros H0 H1 H2 H3. rewrite const_2_64 in *.
  unfold max, round_up, min_block_size, dsize, wsize.
  change (2 * 8 - 1) with 15. change (2 * 8) with 16.
  rewrite (wrap_small (size + 8)) by (rewrite const_2_64; lia).
  rewrite (wrap_small (size + 8 + 15)) by (rewrite const_2_64; lia).
  rewrite (wrap_small (16 * ((size + 8 + 15) / 16))) by (rewrite const_2_64; lia).
  destruct (Z.gtb_spec (16 * ((size + 8 + 15) / 16)) 16); lia.
Qed.

(** X10: [free] of NULL does nothing; [free] of a live pointer leaves the
    payloads of the other live pointers, sizes and bytes, and it moves
    neither the break nor the bounds of the arena nor the start of the
    heap. *)
Theorem X10_free_keeps_live st live p :
  reach st live -> p = 0 \/ In p live ->
  (p = 0 -> free p st = st) /\
  live_kept st (free p st) (remove Z.eq_dec p live) /\
  mem_heap_lo (free p st) = mem_heap_lo st /\ mem_brk (free p st) = mem_brk st /\
  mem_max_addr (free p st) = mem_max_addr st /\ heap_start (free p st) = heap_start st.
Proof.
  intros HR Hp. split; [intros ->; reflexivity|].
  destruct (reach_ok st live HR) as (B & L & HV).
  destruct Hp as [->|Hp].
  - rewrite free_null. split; [apply live_kept_refl|]. repeat split; reflexivity.
  - split; [exact (free_kept st live B L p HV Hp)|].
    destruct (free_full st live B L p HV Hp) as (B'' & L'' & r & _ & _ & FF). exact FF.
Qed.

Lemma X10_witness :
  (ptr2 = 0 -> free ptr2 heap4 = heap4) /\
  live_kept heap4 (free ptr2 heap4) (remove Z.eq_dec ptr2 (live_add ptr4 [ptr2])) /\
  mem_heap_lo (free ptr2 heap4) = mem_heap_lo heap4 /\
  mem_brk (free ptr2 heap4) = mem_brk heap4 /\
  mem_max_addr (free ptr2 heap4) = mem_max_addr heap4 /\
  heap_start (free ptr2 heap4) = heap_start heap4.
Proof.
  apply (X10_free_keeps_live heap4 (live_add ptr4 [ptr2]) ptr2).
  - apply (reach_malloc heap2 [ptr2] 10 200 ptr4 heap4 reach_heap2).
    + rewrite const_2_64. lia.
    + exact malloc_heap2.
  - right. vm_compute. right. left. reflexivity.
Defined.

(** X11: memory that [free] releases is used again.  A request that is not
    larger than the payload just released is served by the [malloc] that
    follows, without growing the heap. *)
Theorem X11_free_then_malloc st live p fuel size q st' :
  reach st live -> In p live ->
  0 < size <= get_payload_size (st_mem st) (payload_to_header p) ->
  malloc fuel size (free p st) = Some (q, st') ->
  q <> 0 /\ mem_brk st' = mem_brk st.
Proof.
  intros HR Hp Hs EM. destruct (reach_ok st live HR) as (B & L & HV).
  destruct (live_block st live B L p HV Hp) as (b & Bb & Eb & Ab & Sb & Eh & Ep & _ & Hlt).
  rewrite Eh, Ep in Hs.
  pose proof HV as (HI & _). pose proof (hinv_hmem _ _ _ HI) as HM.
  pose proof (hmem_addr _ _ HM b Bb) as (? & ? & ? & ? & ? & ? & Hreal & _).
  destruct (free_full st live B L p HV Hp)
    as (B'' & L'' & r & HV'' & (Br & Fr & Hr1 & Hr2) & _ & Ebrk & _).
  rewrite Eh, (blk_get_size _ _ (hi_mem _ _ _ HI b Bb)) in Hr2.
  pose proof HV'' as (HI'' & _).
  pose proof (hmem_addr _ _ (hinv_hmem _ _ _ HI'') r Br) as (? & ? & ? & ? & ? & ? & _ & Hfr).
  specialize (Hfr Fr).
  assert (Hsz : 0 <= size < 2 ^ 64) by lia.
  destruct (malloc_sound_full _ _ B'' L'' size fuel q st' HV'' Hsz EM)
    as (_ & _ & Hiff & _ & Hbrk & _).
  cbv zeta in Hiff, Hbrk.
  assert (Hmod : b_size b mod 16 = 0 /\ 16 <= b_size b) by lia.
  pose proof (asize_upper size (b_size b) ltac:(lia) ltac:(lia) (proj1 Hmod) ltac:(lia)) as Hup.
  assert (Hfit : ~ (forall c, B'' c -> b_alloc c = false ->
                     b_size c < max (round_up (wrap (size + wsize)) dsize) min_block_size)).
  { intros Hno. specialize (Hno r Br Fr). lia. }
  split.
  - intros E0. apply Hiff in E0. destruct E0 as [E0|(E0 & _)]; [lia|auto].
  - destruct Hbrk as [E|(E & _)]; [congruence|contradiction].
Qed.

Lemma malloc_heap5 : malloc 10 50 (free ptr2 heap2) = Some (ptr5, heap5).
Proof.
  unfold ptr5, heap5.
  destruct (malloc 10 50 (free ptr2 heap2)) as [[p s]|] eqn:E; [reflexivity|].
  assert (X : option_map fst (malloc 10 50 (free ptr2 heap2)) = Some 4112)
    by (vm_compute; reflexivity).
  rewrite E in X. discriminate.
Qed.

Lemma X11_witness : ptr5 <> 0 /\ mem_brk heap5 = mem_brk heap2.
Proof.
  apply (X11_free_then_malloc heap2 [ptr2] ptr2 10 50 ptr5 heap5 reach_heap2).
  - left. reflexivity.
  - vm_compute. split; [reflexivity|discriminate].
  - exact malloc_heap5.
Defined.

(** X12: [realloc] of a live pointer to a new size, when it returns a
    pointer.  The new payload has room for the size asked for and begins
    with the bytes the old payload had when [realloc] was called, as many as
    the smaller of the two sizes; the payloads of the other live pointers are
    as they were. *)
Theorem X12_realloc_preserves st live fuel p size q st' :
  reach st live -> In p live -> fits size -> size <> 0 ->
  realloc fuel p size st = Some (q, st') -> q <> 0 ->
  let old := get_payload_size (st_mem st) (payload_to_header p) in
  size <= get_payload_size (st_mem st') (payload_to_header q) /\
  (forall i, 0 <= i < Z.min size old -> st_mem st' (q + i) = st_mem st (p + i)) /\
  live_kept st st' (remove Z.eq_dec p live).
Proof.
  intros HR Hp (F1 & F2) Hs E Hq old.
  destruct (reach_ok st live HR) as (B & L & HV).
  pose proof (live_not_null st live B L HV) as Hnn.
  assert (Hp0 : p <> 0) by (intros ->; contradiction).
  unfold realloc in E.
  rewrite (proj2 (Z.eqb_neq size 0) Hs), (proj2 (Z.eqb_neq p 0) Hp0) in E.
  destruct (malloc fuel size st) as [[np st1]|] eqn:EM; [|discriminate].
  destruct (Z.eqb_spec np 0) as [En|En]; [injection E as <- <-; contradiction|].
  injection E as <- <-.
  destruct (malloc_sound_full st live B L size fuel np st1 HV
              ltac:(rewrite const_2_64 in *; lia) EM) as (HP & K1 & _).
  destruct HP as (_ & _ & _ & _ & H1).
  destruct (H1 En) as (_ & B' & L' & b & HV' & Bb & Eb & Ab & Hsz). specialize (Hsz F2).
  destruct (K1 p Hp) as (Ep1 & Kp). fold old in Ep1, Kp. rewrite Ep1.
  rewrite copysize_min.
  set (n := Z.min size old).
  set (st2 := set_mem st1 (memcpy (st_mem st1) np p n)).
  assert (Sm : same_out (st_mem st1) (st_mem st2) (b_addr b + 8) (b_addr b + b_size b)).
  { unfold st2. cbn [st_mem set_mem].
    eapply same_out_weaken; [apply memcpy_out|lia|unfold n; lia]. }
  assert (HV2 : heap_inv st2 (np :: live) B' L')
    by (apply (heap_inv_payload st1 (np :: live) B' L' b); auto).
  assert (Hne : p <> np).
  { destruct HV' as (_ & _ & _ & _ & _ & _ & ND). inversion ND; subst. congruence. }
  assert (K2 : live_kept st1 st2 live).
  { apply (payload_write_kept st1 (np :: live) B' L' b _ live HV' Bb Ab Sm).
    intros x Hx. split; [right; exact Hx|].
    destruct HV' as (_ & _ & _ & _ & _ & _ & ND). inversion ND; subst. congruence. }
  pose proof (free_kept st2 (np :: live) B' L' p HV2 (or_intror Hp)) as K3.
  cbn [remove] in K3. destruct (Z.eq_dec p np) as [?|_]; [contradiction|].
  destruct (K3 np (or_introl eq_refl)) as (Eq3 & Kq).
  destruct (live_block st2 (np :: live) B' L' np HV2 (or_introl eq_refl))
    as (b0 & Bb0 & Eb0 & _ & _ & Eh0 & Ep0 & _).
  assert (b0 = b).
  { destruct HV2 as (HI2 & _). apply (hmem_same _ _ (hinv_hmem _ _ _ HI2)); auto. lia. }
  subst b0. rewrite Eh0 in Eq3, Kq. rewrite Ep0 in Eq3, Kq. rewrite Eh0.
  split; [rewrite Eq3; lia|]. split.
  - intros i Hi. rewrite Kq by (unfold n in Hi; lia).
    unfold st2. cbn [st_mem set_mem]. rewrite memcpy_in by exact Hi.
    apply Kp. unfold n in Hi. lia.
  - apply (live_kept_trans st st1); [apply (live_kept_sub _ _ live); [exact K1|]|].
    { intros x Hx. apply in_remove in Hx. tauto. }
    apply (live_kept_trans st1 st2); [apply (live_kept_sub _ _ live); [exact K2|]|].
    { intros x Hx. apply in_remove in Hx. tauto. }
    apply (live_kept_sub _ _ (np :: remove Z.eq_dec p live)); [exact K3|].
    intros x Hx. right. exact Hx.
Qed.

Lemma realloc_heap2 : realloc 10 ptr2 200 heap2 = Some (ptr3, heap3).
Proof.
  unfold ptr3, heap3.
  destruct (realloc 10 ptr2 200 heap2) as [[p s]|] eqn:E; [reflexivity|].
  assert (X : option_map fst (realloc 10 ptr2 200 heap2) = Some 4224)
    by (vm_compute; reflexivity).
  rewrite E in X. discriminate.
Qed.

Lemma ptr3_eq : ptr3 = 4224.
Proof. vm_compute. reflexivity. Qed.

Lemma X12_witness :
  let old := get_payload_size (st_mem heap2) (payload_to_header ptr2) in
  200 <= get_payload_size (st_mem heap3) (payload_to_header ptr3) /\
  (forall i, 0 <= i < Z.min 200 old ->
             st_mem heap3 (ptr3 + i) = st_mem heap2 (ptr2 + i)) /\
  live_kept heap2 heap3 (remove Z.eq_dec ptr2 [ptr2]).
Proof.
  apply (X12_realloc_preserves heap2 [ptr2] 10 ptr2 200 ptr3 heap3 reach_heap2).
  - left. reflexivity.
  - unfold fits. rewrite const_2_64. lia.
  - discriminate.
  - exact realloc_heap2.
  - rewrite ptr3_eq. discriminate.
Defined.

(** X13: [calloc] leaves every live payload as it is, and the block it
    returns was not live, has room for the product and is zero on all the
    bytes of the product. *)
Theorem X13_calloc_keeps_live st live fuel elements size p st' :
  reach st live -> 0 <= elements < 2 ^ 64 -> 0 <= size < 2 ^ 64 ->
  (elements * size < 2 ^ 64 -> fits (elements * size)) ->
  calloc fuel elements size st = Some (p, st') ->
  live_kept st st' live /\
  (p <> 0 ->
     ~ In p live /\
     elements * size <= get_payload_size (st_mem st') (payload_to_header p) /\
     forall z, p <= z < p + elements * size -> st_mem st' z = 0).
Proof.
  intros HR He Hs Hfit E. destruct (reach_ok st live HR) as (B & L & HV).
  unfold calloc in E.
  destruct (Z.eqb_spec elements 0) as [E0|E0].
  { injection E as <- <-. split; [apply live_kept_refl|intros C; contradiction]. }
  rewrite (calloc_guard elements size ltac:(lia) Hs) in E.
  destruct (Z.ltb_spec (elements * size) (2 ^ 64)) as [Hlt|Hge]; cbn [negb] in E.
  2:{ injection E as <- <-. split; [apply live_kept_refl|intros C; contradiction]. }
  destruct (Hfit Hlt) as (F1 & F2).
  rewrite (wrap_small (elements * size)) in E by (split; assumption).
  destruct (malloc fuel (elements * size) st) as [[bp st1]|] eqn:EM; [|discriminate].
  destruct (malloc_sound_full st live B L _ fuel bp st1 HV (conj F1 Hlt) EM)
    as (HP & K1 & _).
  destruct (Z.eqb_spec bp 0) as [Eb|Eb].
  - injection E as <- <-. split; [exact K1|intros C; contradiction].
  - injection E as <- <-.
    destruct HP as (_ & _ & _ & _ & H1).
    destruct (H1 Eb) as (_ & B' & L' & b & HV' & Bb & Eb' & Ab & Hsz). specialize (Hsz F2).
    set (st2 := set_mem st1 (memset (st_mem st1) bp 0 (elements * size))).
    assert (Sm : same_out (st_mem st1) (st_mem st2) (b_addr b + 8) (b_addr b + b_size b)).
    { unfold st2. cbn [st_mem set_mem].
      eapply same_out_weaken; [apply memset_out|lia|lia]. }
    assert (ND : ~ In bp live).
    { destruct HV' as (_ & _ & _ & _ & _ & _ & ND). inversion ND; assumption. }
    assert (K2 : live_kept st1 st2 live).
    { apply (payload_write_kept st1 (bp :: live) B' L' b _ live HV' Bb Ab Sm).
      intros x Hx. split; [right; exact Hx|]. intros ->. apply ND. rewrite <- Eb'. exact Hx. }
    split; [exact (live_kept_trans _ _ _ _ K1 K2)|]. intros _.
    split; [exact ND|].
    assert (HV2 : heap_inv st2 (bp :: live) B' L')
      by (apply (heap_inv_payload st1 (bp :: live) B' L' b); auto).
    destruct (live_block st2 (bp :: live) B' L' bp HV2 (or_introl eq_refl))
      as (b0 & Bb0 & Eb0 & _ & _ & Eh0 & Ep0 & _).
    assert (b0 = b).
    { destruct HV2 as (HI2 & _). apply (hmem_same _ _ (hinv_hmem _ _ _ HI2)); auto. lia. }
    subst b0. rewrite Eh0, Ep0. split; [lia|].
    intros z Hz. unfold st2. cbn [st_mem set_mem]. rewrite memset_in by exact Hz. reflexivity.
Qed.

Lemma calloc_heap2 : calloc 10 4 25 heap2 = Some (ptr6, heap6).
Proof.
  unfold ptr6, heap6.
  destruct (calloc 10 4 25 heap2) as [[p s]|] eqn:E; [reflexivity|].
  assert (X : option_map fst (calloc 10 4 25 heap2) = Some 4224)
    by (vm_compute; reflexivity).
  rewrite E in X. discriminate.
Qed.

Lemma X13_witness :
  live_kept heap2 heap6 [ptr2] /\
  (ptr6 <> 0 ->
     ~ In ptr6 [ptr2] /\
     4 * 25 <= get_payload_size (st_mem heap6) (payload_to_header ptr6) /\
     forall z, ptr6 <= z < ptr6 + 4 * 25 -> st_mem heap6 z = 0).
Proof.
  apply (X13_calloc_keeps_live heap2 [ptr2] 10 4 25 ptr6 heap6 reach_heap2).
  - rewrite const_2_64. lia.
  - rewrite const_2_64. lia.
  - intros _. unfold fits. rewrite const_2_64. lia.
  - exact calloc_heap2.
Defined.

(** ** Live payloads *)

(** X14: in every reachable state the live pointers are distinct and not
    NULL, each is 16-byte aligned and is the payload of a block that is
    marked allocated and lies between the start of the heap and the
    epilogue, and the blocks of two live pointers do not overlap. *)
Theorem X14_live_payloads st live :
  reach st live ->
  let psize q := get_payload_size (st_mem st) (payload_to_header q) in
  NoDup live /\
  (forall p, In p live ->
     p <> 0 /\ p mod 16 = 0 /\
     get_alloc (st_mem st) (payload_to_header p) = true /\
     8 <= psize p /\ (psize p + 8) mod 16 = 0 /\
     heap_start st + 8 <= p /\ p + psize p <= mem_brk st - 8) /\
  (forall p q, In p live -> In q live -> p <> q ->
     p + psize p <= q - 8 \/ q + psize q <= p - 8).
Proof.
  intros HR psize. destruct (reach_ok st live HR) as (B & L & HV).
  pose proof HV as (HI & _ & _ & _ & _ & _ & ND).
  pose proof (hinv_hmem _ _ _ HI) as HM.
  split; [exact ND|]. split.
  - intros p Hp.
    destruct (live_block st live B L p HV Hp) as (b & Bb & Eb & Ab & Sb & Eh & Ep & Hn & _).
    pose proof (hmem_addr _ _ HM b Bb) as (? & ? & ? & ? & ? & ? & Hreal & _).
    assert (b_size b mod 16 = 0) by (apply Hreal; lia).
    unfold psize. rewrite Eh, Ep.
    split; [exact Hn|]. split; [lia|].
    split; [rewrite <- Ab; apply (blk_get_alloc _ _ (hi_mem _ _ _ HI b Bb))|].
    split; [lia|]. split; [replace (b_size b - 8 + 8) with (b_size b) by lia; assumption|].
    split; lia.
  - intros p q Hp Hq Hne.
    destruct (live_block st live B L p HV Hp) as (b & Bb & Eb & _ & _ & Eh & Ep & _).
    destruct (live_block st live B L q HV Hq) as (c & Bc & Ec & _ & _ & Ehc & Epc & _).
    unfold psize. rewrite Eh, Ep, Ehc, Epc.
    assert (Hab : b_addr b <> b_addr c) by lia.
    destruct (hmem_sep _ _ HM b c Bb Bc Hab) as [[? ?]|[? ?]]; lia.
Qed.

Lemma reach_heap4 : reach heap4 [ptr4; ptr2].
Proof.
  apply (reach_malloc heap2 [ptr2] 10 200 ptr4 heap4 reach_heap2).
  - rewrite const_2_64. lia.
  - exact malloc_heap2.
Qed.

Lemma X14_witness :
  let psize q := get_payload_size (st_mem heap4) (payload_to_header q) in
  NoDup [ptr4; ptr2] /\
  (forall p, In p [ptr4; ptr2] ->
     p <> 0 /\ p mod 16 = 0 /\
     get_alloc (st_mem heap4) (payload_to_header p) = true /\
     8 <= psize p /\ (psize p + 8) mod 16 = 0 /\
     heap_start heap4 + 8 <= p /\ p + psize p <= mem_brk heap4 - 8) /\
  (forall p q, In p [ptr4; ptr2] -> In q [ptr4; ptr2] -> p <> q ->
     p + psize p <= q - 8 \/ q + psize q <= p - 8).
Proof. exact (X14_live_payloads heap4 [ptr4; ptr2] reach_heap4). Defined.

(** ** [mm_init] *)

Lemma nodup_single (a : Z) l :
  NoDup l -> (forall x, In x l -> x = a) -> l = [] \/ l = [a].
Proof.
  intros ND H. destruct l as [|x [|y t]]; [left; reflexivity| |].
  - right. rewrite (H x (or_introl eq_refl)). reflexivity.
  - exfalso. inversion ND as [|? ? Hni _]. subst. apply Hni.
    rewrite (H x (or_introl eq_refl)), (H y (or_intror (or_introl eq_refl))). left. reflexivity.
Qed.

(** A heap that is one free block: the buckets, the roots and the links. *)
Lemma single_free_block st live B L r :
  heap_inv st live B L -> B r -> b_alloc r = false ->
  b_addr r = heap_start st -> b_addr r + b_size r = mem_brk st - 8 ->
  (forall i, 0 <= i < 15 ->
     free_root st i = if i =? get_seglist_ind (b_size r) then b_addr r else 0) /\
  get_next_free (st_mem st) (b_addr r) = 0 /\
  get_prev_free (st_mem st) (b_addr r) = 0 /\
  (forall fuel l, implicit_walk fuel (st_mem st) (heap_start st) = Some l -> l = [b_addr r]).
Proof.
  intros HV Br Fr Ea Ee. pose proof HV as (HI & _ & _ & _ & AL & _).
  pose proof (hinv_hmem _ _ _ HI) as HM.
  pose proof (hmem_addr _ _ HM r Br) as (? & ? & ? & ? & ? & ? & _ & Hf). specialize (Hf Fr).
  assert (Only : forall c, B c -> b_addr c < mem_brk st - 8 -> c = r).
  { intros c Bc Hc. apply (hmem_same _ _ HM); auto.
    destruct (Z.eq_dec (b_addr c) (b_addr r)) as [E|E]; [exact E|exfalso].
    pose proof (hmem_addr _ _ HM c Bc) as (? & ? & ? & ? & ? & ? & _).
    destruct (hmem_sep _ _ HM c r Bc Br E) as [[? ?]|[? ?]]; lia. }
  assert (Hl : forall i x, 0 <= i < 15 -> In x (L i) ->
                           x = b_addr r /\ i = get_seglist_ind (b_size r)).
  { intros i x Hi Hx. destruct (hi_in _ _ _ HI i x Hi Hx) as (c & Bc & Ec & Fc & Ei).
    assert (c = r); [|subst c; split; congruence].
    apply Only; [exact Bc|].
    pose proof (lay_range _ _ _ (hi_lay _ _ _ HI) c Bc) as (? & ?).
    destruct (Z.eq_dec (b_addr c) (mem_brk st - 8)) as [E|E]; [|lia].
    destruct (lay_epi _ _ _ (hi_lay _ _ _ HI) c Bc E). congruence. }
  pose proof (get_seglist_ind_range (b_size r) ltac:(lia)) as Hh.
  set (h := get_seglist_ind (b_size r)) in *.
  assert (Lh : L h = [b_addr r]).
  { destruct (hi_dl _ _ _ HI h Hh) as (_ & _ & _ & ND).
    destruct (nodup_single (b_addr r) (L h) ND (fun x Hx => proj1 (Hl h x Hh Hx)))
      as [E|E]; [|exact E].
    pose proof (AL r Br Fr) as Hin. fold h in Hin. rewrite E in Hin. destruct Hin. }
  assert (Lo : forall i, 0 <= i < 15 -> i <> h -> L i = []).
  { intros i Hi Hne. destruct (L i) as [|x t] eqn:E; [reflexivity|exfalso].
    apply Hne. apply (Hl i x Hi). rewrite E. left. reflexivity. }
  destruct (hi_dl _ _ _ HI h Hh) as (Fw & Bw & _). rewrite Lh in Fw, Bw.
  cbn [fwd bwd] in Fw, Bw. destruct Fw as (Er & _ & En). destruct Bw as (Ep & _).
  split; [|split; [exact En|split; [exact Ep|]]].
  - intros i Hi. destruct (Z.eqb_spec i h) as [->|Hne]; [exact Er|].
    destruct (hi_dl _ _ _ HI i Hi) as (Fw & _). rewrite (Lo i Hi Hne) in Fw. exact Fw.
  - intros fuel l E. destruct (walk_blocks st live B L fuel l HV E) as (Hin & ND).
    destruct (nodup_single (b_addr r) l ND) as [El|El]; [| |exact El].
    + intros x Hx. apply Hin in Hx. destruct Hx as (c & Bc & <- & Hc).
      rewrite (Only c Bc Hc). reflexivity.
    + exfalso. assert (Hx : In (b_addr r) l) by (apply Hin; exists r; repeat split; auto; lia).
      rewrite El in Hx. destruct Hx.
Qed.

(** X15: what [mm_init] does, by the room left in the arena.  It succeeds
    exactly when the arena has room for the two boundary words and one chunk.
    Without room for the boundary words it only clears the roots.  With room
    for them but not for the chunk it fails after it has written them and
    moved the break by 16.  When it succeeds the heap is one free block of
    [chunksize] bytes at [heap_start], alone in the bucket of its size, with
    null links, and the other roots are null. *)
Theorem X15_mm_init_result st0 :
  init_pre st0 ->
  let st := snd (mm_init st0) in
  let room := mem_max_addr st0 - mem_brk st0 in
  fst (mm_init st0) = (16 + chunksize <=? room) /\
  (room < 16 -> st = free_root_init st0) /\
  (16 <= room ->
     heap_start st = mem_brk st0 + 8 /\
     mem_heap_lo st = mem_heap_lo st0 /\ mem_max_addr st = mem_max_addr st0) /\
  (16 <= room < 16 + chunksize ->
     mem_brk st = mem_brk st0 + 16 /\ forall i, 0 <= i < 15 -> free_root st i = 0) /\
  (16 + chunksize <= room ->
     mem_brk st = mem_brk st0 + 16 + chunksize /\
     get_size (st_mem st) (heap_start st) = chunksize /\
     get_alloc (st_mem st) (heap_start st) = false /\
     get_next_free (st_mem st) (heap_start st) = 0 /\
     get_prev_free (st_mem st) (heap_start st) = 0 /\
     (forall i, 0 <= i < 15 ->
        free_root st i = if i =? get_seglist_ind chunksize then heap_start st else 0) /\
     (forall fuel l, implicit_walk fuel (st_mem st) (heap_start st) = Some l ->
                     l = [heap_start st])).
Proof.
  intros Hpre st room.
  assert (Ech : chunksize = 4096) by reflexivity.
  destruct (Z.ltb_spec room 16) as [Hno|Hroom].
  - assert (Em : mm_init st0 = (false, free_root_init st0)).
    { unfold mm_init, mem_sbrk, wsize. change (2 * 8) with 16.
      apply Z.ltb_lt in Hno. unfold room in Hno. rewrite Hno, orb_true_r.
      rewrite Z.eqb_refl. reflexivity. }
    unfold st. rewrite Em. cbn [fst snd].
    split; [symmetry; apply Z.leb_gt; lia|].
    split; [reflexivity|]. repeat split; intros; lia.
  - pose proof (init_empty st0 Hpre Hroom) as HV.
    pose proof (extend_heap_ok _ _ _ _ chunksize HV) as HE.
    unfold chunksize in HE at 1 2. change (Z.shiftl 1 12) with 4096 in HE.
    specialize (HE ltac:(lia) ltac:(rewrite const_2_64; lia)). cbn zeta in HE.
    change (round_up chunksize dsize) with 4096 in HE.
    cbn [set_heap_start set_mem free_root_init set_roots set_brk
         mem_heap_lo mem_brk mem_max_addr heap_start] in HE.
    unfold st. rewrite (init_unfold st0 Hpre Hroom).
    match type of HE with
    | if ?c then _ else _ => destruct c eqn:Ec
    end.
    + rewrite HE. cbn [fst snd Z.eqb].
      cbn [set_heap_start set_mem free_root_init set_roots set_brk
           mem_heap_lo mem_brk mem_max_addr heap_start free_root].
      apply orb_true_iff in Ec. destruct Ec as [Ec|Ec]; [discriminate|].
      apply Z.ltb_lt in Ec.
      split; [symmetry; apply Z.leb_gt; unfold room; lia|].
      split; [intros; lia|]. split; [auto|]. split; [|intros; unfold room in *; lia].
      intros _. split; [reflexivity|]. intros i Hi. unfold seglist_length.
      destruct (Z.leb_spec 0 i), (Z.ltb_spec i 15); cbn; try reflexivity; lia.
    + apply orb_false_iff in Ec. destruct Ec as (_ & Ec). apply Z.ltb_ge in Ec.
      destruct HE as (B' & L' & r & HV' & Br & Er & Fr & Hsz & Hle & Hend & G1 & G2 & G3 & G4).
      destruct (extend_heap chunksize _) as [b st4]. cbn [fst snd] in *. subst b.
      pose proof HV' as (HI' & _).
      pose proof (hmem_addr _ _ (hinv_hmem _ _ _ HI') r Br) as (? & ? & ? & ? & ? & Hs & _).
      rewrite G4 in Hs.
      assert (Ea : b_addr r = mem_brk st0 + 8) by lia.
      assert (Es : b_size r = 4096) by lia.
      assert (Hnz : (b_addr r =? 0) = false) by (apply Z.eqb_neq; lia).
      rewrite Hnz. cbn [fst snd].
      destruct (single_free_block st4 [] B' L' r HV' Br Fr ltac:(lia) ltac:(lia))
        as (S1 & S2 & S3 & S4).
      assert (Eh : heap_start st4 = b_addr r) by lia.
      rewrite Eh, Ech, <- Es.
      split; [symmetry; apply Z.leb_le; unfold room; lia|].
      split; [intros; lia|]. split; [intros _; repeat split; lia|].
      split; [intros; unfold room in *; lia|]. intros _.
      split; [lia|].
      split; [apply (blk_get_size _ _ (hi_mem _ _ _ HI' r Br))|].
      split; [rewrite <- Fr; apply (blk_get_alloc _ _ (hi_mem _ _ _ HI' r Br))|].
      split; [exact S2|]. split; [exact S3|]. split; [exact S1|].
      intros fuel l E. apply (S4 fuel l). rewrite Eh. exact E.
Qed.

Lemma X15_witness :
  let st := snd (mm_init arena0) in
  let room := mem_max_addr arena0 - mem_brk arena0 in
  fst (mm_init arena0) = (16 + chunksize <=? room) /\
  (room < 16 -> st = free_root_init arena0) /\
  (16 <= room ->
     heap_start st = mem_brk arena0 + 8 /\
     mem_heap_lo st = mem_heap_lo arena0 /\ mem_max_addr st = mem_max_addr arena0) /\
  (16 <= room < 16 + chunksize ->
     mem_brk st = mem_brk arena0 + 16 /\ forall i, 0 <= i < 15 -> free_root st i = 0) /\
  (16 + chunksize <= room ->
     mem_brk st = mem_brk arena0 + 16 + chunksize /\
     get_size (st_mem st) (heap_start st) = chunksize /\
     get_alloc (st_mem st) (heap_start st) = false /\
     get_next_free (st_mem st) (heap_start st) = 0 /\
     get_prev_free (st_mem st) (heap_start st) = 0 /\
     (forall i, 0 <= i < 15 ->
        free_root st i = if i =? get_seglist_ind chunksize then heap_start st else 0) /\
     (forall fuel l, implicit_walk fuel (st_mem st) (heap_start st) = Some l ->
                     l = [heap_start st])).
Proof. exact (X15_mm_init_result arena0 arena0_pre). Defined.

(** ** The tests of the heap checker in a reachable heap *)

Lemma snoc_cons {A} (l1 : list A) x l2 : (l1 ++ [x]) ++ l2 = l1 ++ x :: l2.
Proof. rewrite <- app_assoc. reflexivity. Qed.

Lemma last_snoc (l : list Z) x d : last (l ++ [x]) d = x.
Proof. apply last_last. Qed.

Section CheckList.
Variables (st : state) (live : list Z) (B : blk -> Prop) (L : Z -> list Z).
Hypothesis HV : heap_inv st live B L.
Variable i : Z.
Hypothesis Hi : 0 <= i < 15.

Let m := st_mem st.

(** The loop of [check_explicit_list], entered at a block of bucket [i]
    with the blocks [l1] before it. *)
Lemma check_list_from : forall l2 l1 c fuel,
  L i = l1 ++ l2 -> fwd (get_next_free m) c l2 -> (length l2 < fuel)%nat ->
  check_explicit_list fuel st i c = Some true.
Proof.
  pose proof HV as (HI & _). pose proof (hinv_hmem _ _ _ HI) as HM.
  destruct (hi_dl _ _ _ HI i Hi) as (Fw & Bw & _). fold m in Fw, Bw.
  induction l2 as [|x t IH]; intros l1 c fuel El Hf Hlen.
  - cbn in Hf. subst c. destruct fuel as [|k]; [inversion Hlen|]. reflexivity.
  - destruct Hf as (-> & Hx & Hf). destruct fuel as [|k]; [inversion Hlen|].
    cbn [length] in Hlen. apply Nat.succ_lt_mono in Hlen.
    assert (Hin : In x (L i)) by (rewrite El; apply in_elt).
    destruct (hinv_listed _ _ _ HI i x Hi Hin) as (b & Bb & Eb & Fb & Ei & Ok & Em).
    pose proof (hmem_addr _ _ HM b Bb) as (? & ? & ? & ? & ? & ? & _ & Hs).
    specialize (Hs Fb).
    pose proof (hi_start _ _ _ HI) as Hst. destruct (hi_lo _ _ _ HI) as (Hlo & _).
    cbn [check_explicit_list]. fold m.
    rewrite (proj2 (Z.eqb_neq x 0) Hx).
    assert (Ea : get_alloc m x = false)
      by (rewrite <- Eb, <- Fb; apply (blk_get_alloc _ _ Ok)).
    assert (Eg : get_size m x = b_size b) by (rewrite <- Eb; apply (blk_get_size _ _ Ok)).
    rewrite Ea, Eg. fold m in Em. rewrite Em.
    unfold min_block_size, dsize, wsize. change (2 * 8) with 16.
    rewrite andb_negb_r.
    assert (Ec : negb (x =? free_root st i) &&
                 negb (explicit_list_pointer_consistency m x) = false).
    { destruct l1 as [|y l1'] using rev_ind.
      - cbn [app] in El. rewrite El in Fw. destruct Fw as (-> & _).
        rewrite Z.eqb_refl. reflexivity.
      - clear IHl1'.
        assert (Ep : get_prev_free m x = y).
        { rewrite El in Bw. pose proof (bwd_mid _ _ (l1' ++ [y]) x t Bw) as E.
          rewrite E. apply last_snoc. }
        rewrite snoc_cons in El.
        assert (En : get_next_free m y = x).
        { rewrite El in Fw. exact (fwd_mid _ _ l1' y (x :: t) Fw). }
        assert (Hy : y <> 0).
        { apply (fwd_nonzero _ _ _ Fw). rewrite El. apply in_elt. }
        unfold explicit_list_pointer_consistency. rewrite Ep.
        rewrite (proj2 (Z.eqb_neq y 0) Hy). rewrite En, Z.eqb_refl.
        cbn [negb]. apply andb_false_r. }
    rewrite Ec.
    assert (Ew : within_heap_boundaries st x = true).
    { unfold within_heap_boundaries, mem_heap_hi.
      rewrite (wrap_small (mem_brk st - 1)) by lia.
      apply andb_true_iff. split; [apply Z.ltb_lt|apply Z.gtb_lt]; lia. }
    rewrite Ew. cbn [negb]. rewrite Ei, Z.eqb_refl. cbn [negb].
    apply (IH (l1 ++ [x])); [rewrite snoc_cons; exact El|exact Hf|exact Hlen].
Qed.
End CheckList.

(** X16: [check_explicit_list] accepts every bucket of a reachable heap.
    Its loop ends, and no block of the bucket is marked allocated, carries
    the mini bit with another size, has a predecessor link that its
    predecessor's successor link does not answer, lies outside the heap, or
    is in the wrong bucket for its size. *)
Theorem X16_check_explicit_list st live i :
  reach st live -> 0 <= i < 15 ->
  exists N, forall fuel, (N < fuel)%nat ->
    check_explicit_list fuel st i (free_root st i) = Some true.
Proof.
  intros HR Hi. destruct (reach_ok st live HR) as (B & L & HV).
  exists (length (L i)). intros fuel Hf.
  apply (check_list_from st live B L HV i Hi (L i) [] (free_root st i) fuel);
    [reflexivity| |exact Hf].
  destruct HV as (HI & _). apply (hi_dl _ _ _ HI i Hi).
Qed.

Lemma reach_heap3 : reach heap3 [ptr3].
Proof.
  pose proof (reach_realloc heap2 [ptr2] 10 ptr2 200 ptr3 heap3 reach_heap2) as H.
  replace (realloc_live ptr2 200 ptr3 [ptr2]) with [ptr3] in H by (vm_compute; reflexivity).
  apply H.
  - right. left. reflexivity.
  - unfold fits. rewrite const_2_64. lia.
  - exact realloc_heap2.
Qed.

Lemma X16_witness :
  exists N, forall fuel, (N < fuel)%nat ->
    check_explicit_list fuel heap3 2 (free_root heap3 2) = Some true.
Proof.
  apply (X16_check_explicit_list heap3 [ptr3] 2 reach_heap3). lia.
Defined.

(** X17: the tests of [mm_checkheap] on the implicit list of a reachable
    heap.  [check_epilogue] holds; every block that the loop visits passes
    [check_address_alignment] and [within_heap_boundaries], has at least the
    minimum size, a multiple of 16, and ends at or before the epilogue; and
    the previous-allocated flag of the block after it is its own allocated
    flag. *)
Theorem X17_checkheap_blocks st live fuel l :
  reach st live ->
  implicit_walk fuel (st_mem st) (heap_start st) = Some l ->
  check_epilogue st = true /\
  (forall block, In block l ->
     check_address_alignment block = true /\
     within_heap_boundaries st block = true /\
     min_block_size <= get_size (st_mem st) block /\
     get_size (st_mem st) block mod 16 = 0 /\
     find_next (st_mem st) block <= mem_brk st - 8 /\
     get_prev_alloc (st_mem st) (find_next (st_mem st) block) =
       get_alloc (st_mem st) block).
Proof.
  intros HR EW. destruct (reach_ok st live HR) as (B & L & HV).
  destruct (walk_blocks st live B L fuel l HV EW) as (Hin & _).
  pose proof HV as (HI & PA1 & _). pose proof (hinv_hmem _ _ _ HI) as HM.
  pose proof (hi_start _ _ _ HI) as Hst. destruct (hi_lo _ _ _ HI) as (Hlo & _).
  split.
  - destruct (heap_inv_epilogue _ _ _ _ HV) as (ep & Bep & Eep & Sep & Aep & _ & Hb & Hmx).
    unfold check_epilogue, mem_heap_hi.
    rewrite (wrap_small (mem_brk st - 1)) by lia.
    replace (wrap (mem_brk st - 1 - 7)) with (b_addr ep) by (rewrite wrap_small; lia).
    rewrite (blk_get_size _ _ (hi_mem _ _ _ HI ep Bep)), Sep.
    rewrite (blk_get_alloc _ _ (hi_mem _ _ _ HI ep Bep)), Aep. reflexivity.
  - intros x Hx. apply Hin in Hx. destruct Hx as (b & Bb & <- & Hb).
    pose proof (hmem_addr _ _ HM b Bb) as (? & ? & ? & ? & ? & ? & Hreal & _).
    specialize (Hreal Hb).
    rewrite (find_next_spec _ _ _ HI b Bb).
    rewrite (blk_get_size _ _ (hi_mem _ _ _ HI b Bb)).
    rewrite (blk_get_alloc _ _ (hi_mem _ _ _ HI b Bb)).
    split; [|split; [|split; [|split; [|split]]]].
    + unfold check_address_alignment, header_to_payload, off_payload.
      rewrite wrap_small by lia. rewrite land_15. apply Z.eqb_eq. lia.
    + unfold within_heap_boundaries, mem_heap_hi.
      rewrite (wrap_small (mem_brk st - 1)) by lia.
      apply andb_true_iff. split; [apply Z.ltb_lt|apply Z.gtb_lt]; lia.
    + unfold min_block_size, dsize, wsize. lia.
    + lia.
    + lia.
    + destruct (lay_next _ _ _ (hi_lay _ _ _ HI) b Bb Hb) as (n & Bn & En).
      rewrite <- En. rewrite (blk_get_prev_alloc _ _ (hi_mem _ _ _ HI n Bn)).
      apply (PA1 b n Bb Bn); lia.
Qed.

Lemma walk_heap3 :
  implicit_walk 10 (st_mem heap3) (heap_start heap3) = Some [4104; 4216; 4424].
Proof. vm_compute. reflexivity. Qed.

Lemma X17_witness :
  check_epilogue heap3 = true /\
  (forall block, In block [4104; 4216; 4424] ->
     check_address_alignment block = true /\
     within_heap_boundaries heap3 block = true /\
     min_block_size <= get_size (st_mem heap3) block /\
     get_size (st_mem heap3) block mod 16 = 0 /\
     find_next (st_mem heap3) block <= mem_brk heap3 - 8 /\
     get_prev_alloc (st_mem heap3) (find_next (st_mem heap3) block) =
       get_alloc (st_mem heap3) block).
Proof.
  exact (X17_checkheap_blocks heap3 [ptr3] 10 [4104; 4216; 4424] reach_heap3 walk_heap3).
Defined.

(** X18: [find_prev] from the block after a free block is that free block,
    whether it is a mini block, found by the mini bit of the word before the
    header, or a larger one, found by its footer.  This is the use
    [coalesce_block] makes of it. *)
Theorem X18_find_prev_of_next st live fuel l block :
  reach st live ->
  implicit_walk fuel (st_mem st) (heap_start st) = Some l ->
  In block l -> get_alloc (st_mem st) block = false ->
  find_prev (st_mem st) (find_next (st_mem st) block) = block.
Proof.
  intros HR EW Hx Ha. destruct (reach_ok st live HR) as (B & L & HV).
  destruct (walk_blocks st live B L fuel l HV EW) as (Hin & _).
  pose proof HV as (HI & _ & _ & _ & AL & _). pose proof (hinv_hmem _ _ _ HI) as HM.
  apply Hin in Hx. destruct Hx as (b & Bb & <- & Hb).
  pose proof (hi_mem _ _ _ HI b Bb) as Ok.
  rewrite (blk_get_alloc _ _ Ok) in Ha.
  pose proof (hmem_addr _ _ HM b Bb) as (? & ? & ? & ? & ? & ? & Hreal & _).
  specialize (Hreal Hb).
  rewrite (find_next_spec _ _ _ HI b Bb).
  unfold find_prev, find_prev_footer, wsize.
  rewrite (wrap_small (b_addr b + b_size b - 8)) by lia.
  destruct (Z.eq_dec (b_size b) 16) as [E16|E16].
  - pose proof (AL b Bb Ha) as Hl.
    pose proof (get_seglist_ind_range (b_size b) ltac:(lia)) as Hi.
    destruct (hi_dl _ _ _ HI _ Hi) as (_ & _ & Tg & _).
    assert (Em : get_mini (st_mem st) (b_addr b) = true)
      by (rewrite (blk_get_mini _ _ Ok); apply Z.eqb_eq; exact E16).
    pose proof (Tg _ Hl Em) as Et. unfold tag in Et.
    replace (b_addr b + b_size b - 8) with (b_addr b + 8) by lia.
    rewrite Et. rewrite wrap_small by lia. lia.
  - destruct Ok as (_ & _ & _ & _ & Ft). destruct (Ft Ha E16) as (Fs & Fm).
    rewrite Fm, Fs. rewrite (proj2 (Z.eqb_neq (b_size b) 0)) by lia.
    unfold footer_to_header, wsize. rewrite Fs.
    rewrite (wrap_small (b_addr b + b_size b - 8 + 8)) by lia.
    rewrite wrap_small by lia. lia.
Qed.

Lemma X18_witness : find_prev (st_mem heap3) (find_next (st_mem heap3) 4104) = 4104.
Proof.
  apply (X18_find_prev_of_next heap3 [ptr3] 10 [4104; 4216; 4424] 4104
           reach_heap3 walk_heap3).
  - left. reflexivity.
  - vm_compute. reflexivity.
Defined.

(** ** The free-list manager in a reachable heap *)

Lemma bucket_walk_len m : forall fuel root l,
  bucket_walk fuel m root = Some l -> (length l < fuel)%nat.
Proof.
  induction fuel as [|k IH]; intros root l E; [discriminate|].
  cbn [bucket_walk] in E. destruct (root =? 0).
  - injection E as <-. cbn. apply Nat.lt_0_succ.
  - destruct (bucket_walk k m (get_next_free m root)) as [t|] eqn:Et; [|discriminate].
    injection E as <-. cbn [length]. apply (proj1 (Nat.succ_lt_mono _ _)). exact (IH _ _ Et).
Qed.

Lemma lupd_same L i l : lupd L i l i = l.
Proof. unfold lupd. rewrite Z.eqb_refl. reflexivity. Qed.

Lemma lupd_other L i l j : j <> i -> lupd L i l j = L j.
Proof. intros H. unfold lupd. rewrite (proj2 (Z.eqb_neq j i) H). reflexivity. Qed.

(** The walk of a bucket is the list the invariant has for it. *)
Lemma bucket_walk_inv st B L j fuel l :
  hinv st B L -> 0 <= j < 15 ->
  bucket_walk fuel (st_mem st) (free_root st j) = Some l -> l = L j.
Proof.
  intros HI Hj E. destruct (hi_dl _ _ _ HI j Hj) as (Fw & _).
  exact (fwd_unique _ _ _ _ (bucket_walk_fwd _ _ _ _ E) Fw).
Qed.

Lemma bucket_walk_of st B L j fuel :
  hinv st B L -> 0 <= j < 15 -> (length (L j) < fuel)%nat ->
  bucket_walk fuel (st_mem st) (free_root st j) = Some (L j).
Proof.
  intros HI Hj Hf. destruct (hi_dl _ _ _ HI j Hj) as (Fw & _).
  apply bucket_walk_spec; assumption.
Qed.

(** X19: [remove_from_free] and [add_to_free] on a block of a bucket of a
    reachable heap.  Removal takes the block out of its bucket and keeps the
    order of the others; adding it again puts it at the head of the same
    bucket; the other buckets are walked as before, after each of the two
    steps. *)
Theorem X19_remove_then_add st live i fuel l1 x l2 :
  reach st live -> 0 <= i < 15 ->
  bucket_walk fuel (st_mem st) (free_root st i) = Some (l1 ++ x :: l2) ->
  let st1 := remove_from_free st x in
  let st2 := add_to_free st1 x in
  (forall k, (length (l1 ++ l2) < k)%nat ->
     bucket_walk k (st_mem st1) (free_root st1 i) = Some (l1 ++ l2)) /\
  (forall k, (S (length (l1 ++ l2)) < k)%nat ->
     bucket_walk k (st_mem st2) (free_root st2 i) = Some (x :: l1 ++ l2)) /\
  (forall j k l, 0 <= j < 15 -> j <> i ->
     bucket_walk k (st_mem st) (free_root st j) = Some l ->
     bucket_walk k (st_mem st1) (free_root st1 j) = Some l /\
     bucket_walk k (st_mem st2) (free_root st2 j) = Some l).
Proof.
  intros HR Hi EW st1 st2. destruct (reach_ok st live HR) as (B & L & HV).
  pose proof HV as (HI & _).
  pose proof (bucket_walk_inv st B L i fuel _ HI Hi EW) as EL. symmetry in EL.
  assert (Hin : In x (L i)) by (rewrite EL; apply in_elt).
  destruct (hi_in _ _ _ HI i x Hi Hin) as (b & Bb & Eb & Fb & Ei).
  subst x. rewrite <- Ei in EL.
  pose proof (hinv_remove st B L b l1 l2 HI Bb Fb EL) as HI1.
  rewrite Ei in HI1, EL. fold st1 in HI1.
  assert (Hni : forall j, 0 <= j < 15 -> ~ In (b_addr b) (lupd L i (l1 ++ l2) j)).
  { intros j Hj Hx. destruct (Z.eq_dec j i) as [->|Hne].
    - rewrite lupd_same in Hx.
      destruct (hi_dl _ _ _ HI i Hi) as (_ & _ & _ & ND). rewrite EL in ND.
      exact (NoDup_remove_2 _ _ _ ND Hx).
    - rewrite lupd_other in Hx by exact Hne.
      apply Hne. rewrite <- Ei. apply (hinv_bucket_of st B L HI j b Hj Bb Hx). }
  pose proof (hinv_add st1 B _ b HI1 Bb Fb Hni) as HI2.
  rewrite Ei in HI2. rewrite lupd_same in HI2. fold st2 in HI2.
  split; [|split].
  - intros k Hk. pose proof (bucket_walk_of st1 B _ i k HI1 Hi) as W.
    rewrite lupd_same in W. apply W. exact Hk.
  - intros k Hk. pose proof (bucket_walk_of st2 B _ i k HI2 Hi) as W.
    rewrite lupd_same in W. apply W. exact Hk.
  - intros j k l Hj Hne E.
    pose proof (bucket_walk_inv st B L j k l HI Hj E) as ->.
    pose proof (bucket_walk_len _ _ _ _ E) as Hlen.
    split.
    + pose proof (bucket_walk_of st1 B _ j k HI1 Hj) as W.
      rewrite lupd_other in W by exact Hne. apply W. exact Hlen.
    + pose proof (bucket_walk_of st2 B _ j k HI2 Hj) as W.
      rewrite !lupd_other in W by exact Hne. apply W. exact Hlen.
Qed.

Lemma bucket_heap3 : bucket_walk 10 (st_mem heap3) (free_root heap3 7) = Some ([] ++ 4424 :: []).
Proof. vm_compute. reflexivity. Qed.

Lemma X19_witness :
  let st1 := remove_from_free heap3 4424 in
  let st2 := add_to_free st1 4424 in
  (forall k, (length ([] ++ @nil Z) < k)%nat ->
     bucket_walk k (st_mem st1) (free_root st1 7) = Some ([] ++ [])) /\
  (forall k, (S (length ([] ++ @nil Z)) < k)%nat ->
     bucket_walk k (st_mem st2) (free_root st2 7) = Some (4424 :: [] ++ [])) /\
  (forall j k l, 0 <= j < 15 -> j <> 7 ->
     bucket_walk k (st_mem heap3) (free_root heap3 j) = Some l ->
     bucket_walk k (st_mem st1) (free_root st1 j) = Some l /\
     bucket_walk k (st_mem st2) (free_root st2 j) = Some l).
Proof.
  apply (X19_remove_then_add heap3 [ptr3] 7 10 [] 4424 [] reach_heap3).
  - lia.
  - exact bucket_heap3.
Defined.

(** X20: what [free] leaves of the block it releases.  The bytes of the block
    lie in one free block, whose previous-allocated flag is set and whose
    successor is allocated, so that it is merged with every free neighbour
    the block had; and that free block is found by the walk of the bucket of
    its size. *)
Theorem X20_free_coalesces st live p :
  reach st live -> In p live ->
  let st' := free p st in
  let block := payload_to_header p in
  exists r,
    r <= block /\
    block + get_size (st_mem st) block <= r + get_size (st_mem st') r /\
    get_alloc (st_mem st') r = false /\
    get_prev_alloc (st_mem st') r = true /\
    get_alloc (st_mem st') (find_next (st_mem st') r) = true /\
    exists N l,
      (forall fuel, (N < fuel)%nat ->
         bucket_walk fuel (st_mem st')
           (free_root st' (get_seglist_ind (get_size (st_mem st') r))) = Some l) /\
      In r l.
Proof.
  intros HR Hp st' block. destruct (reach_ok st live HR) as (B & L & HV).
  destruct (free_full st live B L p HV Hp)
    as (B'' & L'' & r & HV'' & (Br & Fr & Hr1 & Hr2) & _).
  fold st' in HV''. fold block in Hr1, Hr2.
  pose proof HV'' as (HI & PA1 & _ & NF & AL & _).
  pose proof (hinv_hmem _ _ _ HI) as HM.
  pose proof (hi_mem _ _ _ HI r Br) as Ok.
  pose proof (hmem_addr _ _ HM r Br) as (? & ? & ? & ? & ? & ? & _ & Hs). specialize (Hs Fr).
  exists (b_addr r).
  rewrite (blk_get_size _ _ Ok), (blk_get_alloc _ _ Ok), (blk_get_prev_alloc _ _ Ok).
  rewrite (find_next_spec _ _ _ HI r Br).
  split; [exact Hr1|]. split; [exact Hr2|]. split; [exact Fr|].
  split; [exact (NF r Br Fr)|]. split.
  - assert (Hreal : b_addr r < mem_brk st' - 8).
    { pose proof (lay_range _ _ _ (hi_lay _ _ _ HI) r Br) as (? & ?).
      destruct (Z.eq_dec (b_addr r) (mem_brk st' - 8)) as [E|E]; [|lia].
      destruct (lay_epi _ _ _ (hi_lay _ _ _ HI) r Br E). congruence. }
    destruct (lay_next _ _ _ (hi_lay _ _ _ HI) r Br Hreal) as (n & Bn & En).
    rewrite <- En, (blk_get_alloc _ _ (hi_mem _ _ _ HI n Bn)).
    pose proof (PA1 r n Br Bn (eq_sym En) ltac:(lia)) as Pn.
    destruct (b_alloc n) eqn:An; [reflexivity|].
    rewrite (NF n Bn An) in Pn. congruence.
  - pose proof (get_seglist_ind_range (b_size r) ltac:(lia)) as Hi.
    exists (length (L'' (get_seglist_ind (b_size r)))), (L'' (get_seglist_ind (b_size r))).
    split; [|exact (AL r Br Fr)].
    intros fuel Hf. apply (bucket_walk_of st' B'' L'' _ fuel HI Hi Hf).
Qed.

Lemma X20_witness :
  let st' := free ptr2 heap4 in
  let block := payload_to_header ptr2 in
  exists r,
    r <= block /\
    block + get_size (st_mem heap4) block <= r + get_size (st_mem st') r /\
    get_alloc (st_mem st') r = false /\
    get_prev_alloc (st_mem st') r = true /\
    get_alloc (st_mem st') (find_next (st_mem st') r) = true /\
    exists N l,
      (forall fuel, (N < fuel)%nat ->
         bucket_walk fuel (st_mem st')
           (free_root st' (get_seglist_ind (get_size (st_mem st') r))) = Some l) /\
      In r l.
Proof.
  apply (X20_free_coalesces heap4 [ptr4; ptr2] ptr2 reach_heap4).
  right. left. reflexivity.
Defined.

(** ** Sizes *)

(** X21: [round_up size n] is the least multiple of [n] that is not below
    [size], as long as [size + n - 1] fits in 64 bits. *)
Theorem X21_round_up size n :
  0 < n -> 0 <= size -> size + n - 1 < 2 ^ 64 ->
  round_up size n mod n = 0 /\ size <= round_up size n < size + n /\
  (forall s, s mod n = 0 -> size <= s -> round_up size n <= s).
Proof.
  intros Hn Hs Hr. rewrite const_2_64 in *. unfold round_up.
  rewrite (wrap_small (size + (n - 1))) by (rewrite const_2_64; lia).
  pose proof (Z.div_mod (size + (n - 1)) n ltac:(lia)) as D.
  pose proof (Z.mod_pos_bound (size + (n - 1)) n Hn) as M.
  set (q := (size + (n - 1)) / n) in *.
  assert (Hq : 0 <= q) by (apply Z.div_pos; lia).
  rewrite wrap_small by (rewrite const_2_64; nia).
  split; [rewrite Z.mul_comm; apply Z.mod_mul; lia|].
  split; [lia|].
  intros s Hm Hle.
  pose proof (Z.div_mod s n ltac:(lia)) as Ds. rewrite Hm in Ds.
  assert (q <= s / n); [|nia].
  destruct (Z.le_gt_cases q (s / n)) as [?|Hgt]; [assumption|exfalso].
  assert (s / n + 1 <= q) by lia. nia.
Qed.

Lemma X21_witness :
  round_up 100 16 mod 16 = 0 /\ 100 <= round_up 100 16 < 100 + 16 /\
  (forall s, s mod 16 = 0 -> 100 <= s -> round_up 100 16 <= s).
Proof.
  apply (X21_round_up 100 16).
  - lia.
  - lia.
  - rewrite const_2_64. lia.
Defined.

(** X22: the block size [malloc] computes for a request of [size] bytes,
    with [size + 23] below 2^64: the least multiple of 16 that holds the
    payload and the header word, and at least the minimum block size. *)
Theorem X22_adjusted_size size :
  0 <= size -> size + 23 < 2 ^ 64 ->
  let asize := max (round_up (wrap (size + wsize)) dsize) min_block_size in
  asize mod 16 = 0 /\ min_block_size <= asize /\ size + 8 <= asize < size + 24 /\
  (forall s, s mod 16 = 0 -> min_block_size <= s -> size + 8 <= s -> asize <= s).
Proof.
  intros H0 H1 asize.
  destruct (asize_spec size ltac:(rewrite const_2_64 in *; lia)) as (A1 & A2 & A3).
  fold asize in A1, A2, A3. specialize (A3 H1).
  assert (Hup : forall s, s mod 16 = 0 -> min_block_size <= s -> size + 8 <= s -> asize <= s).
  { intros s Hm Hmin Hle. destruct (Z.lt_ge_cases s (2 ^ 64)) as [Hlt|Hge]; [|lia].
    exact (asize_upper size s H0 Hle Hm Hlt). }
  split; [exact A2|]. unfold min_block_size, dsize, wsize in *. change (2 * 8) with 16 in *.
  split; [lia|]. split; [|exact Hup].
  split; [exact A3|].
  pose proof (Hup (16 * ((size + 8 + 15) / 16)) ltac:(lia) ltac:(lia) ltac:(lia)). lia.
Qed.

Lemma X22_witness :
  let asize := max (round_up (wrap (100 + wsize)) dsize) min_block_size in
  asize mod 16 = 0 /\ min_block_size <= asize /\ 100 + 8 <= asize < 100 + 24 /\
  (forall s, s mod 16 = 0 -> min_block_size <= s -> 100 + 8 <= s -> asize <= s).
Proof.
  apply (X22_adjusted_size 100).
  - lia.
  - rewrite const_2_64. lia.
Defined.

(** ** The allocator writes only inside the heap *)

Lemma free_frame st live B L p :
  heap_inv st live B L -> In p live -> heap_frame st (free p st).
Proof.
  intros HV Hp z Hz. pose proof HV as (HI & _). pose proof (hinv_hmem _ _ _ HI) as HM.
  destruct (live_block st live B L p HV Hp) as (b & Bb & Eb & Ab & Sb & Eh & _).
  pose proof (hmem_addr _ _ HM b Bb) as (? & ? & ? & ? & ? & ? & _).
  destruct (free_full st live B L p HV Hp) as (_ & _ & _ & _ & _ & _ & Ebrk & _).
  rewrite Ebrk in Hz. destruct Hz as [Hz|Hz].
  - apply (free_keeps st live B L p (z - 15) 16 HV Hp); [|rewrite Eh; lia|lia].
    right. left. split; [lia|]. intros c Bc.
    pose proof (hmem_addr _ _ HM c Bc) as (? & ? & ? & ? & ? & ? & _). lia.
  - apply (free_keeps st live B L p (z - 8) 16 HV Hp); [|rewrite Eh; lia|lia].
    right. right. intros c Bc.
    pose proof (lay_range _ _ _ (hi_lay _ _ _ HI) c Bc) as (? & ?). lia.
Qed.

Lemma payload_write_frame st live B L b m' :
  heap_inv st live B L -> B b ->
  same_out (st_mem st) m' (b_addr b + 8) (b_addr b + b_size b) ->
  heap_frame st (set_mem st m').
Proof.
  intros (HI & _) Bb S z Hz. cbn [st_mem set_mem mem_brk] in *. apply S.
  pose proof (hmem_addr _ _ (hinv_hmem _ _ _ HI) b Bb) as (? & ? & ? & ? & ? & ? & _).
  destruct Hz; lia.
Qed.

(** What a sequence of two steps leaves as it was. *)
Lemma kept_trans st1 st2 st3 :
  heap_frame st1 st2 /\ mem_heap_lo st2 = mem_heap_lo st1 /\
  mem_max_addr st2 = mem_max_addr st1 /\ heap_start st2 = heap_start st1 /\
  mem_brk st1 <= mem_brk st2 ->
  heap_frame st2 st3 /\ mem_heap_lo st3 = mem_heap_lo st2 /\
  mem_max_addr st3 = mem_max_addr st2 /\ heap_start st3 = heap_start st2 /\
  mem_brk st2 <= mem_brk st3 ->
  heap_frame st1 st3 /\ mem_heap_lo st3 = mem_heap_lo st1 /\
  mem_max_addr st3 = mem_max_addr st1 /\ heap_start st3 = heap_start st1 /\
  mem_brk st1 <= mem_brk st3.
Proof.
  intros (F1 & A1 & A2 & A3 & A4) (G1 & C1 & C2 & C3 & C4).
  split; [exact (heap_frame_trans _ _ _ A3 C4 F1 G1)|].
  split; [congruence|]. split; [congruence|]. split; [congruence|lia].
Qed.

Lemma kept_refl st :
  heap_frame st st /\ mem_heap_lo st = mem_heap_lo st /\
  mem_max_addr st = mem_max_addr st /\ heap_start st = heap_start st /\
  mem_brk st <= mem_brk st.
Proof. split; [apply heap_frame_refl|]. repeat split; lia. Qed.

Lemma malloc_kept st live B L size fuel p st' :
  heap_inv st live B L -> 0 <= size < 2 ^ 64 ->
  malloc fuel size st = Some (p, st') ->
  heap_frame st st' /\ mem_heap_lo st' = mem_heap_lo st /\
  mem_max_addr st' = mem_max_addr st /\ heap_start st' = heap_start st /\
  mem_brk st <= mem_brk st'.
Proof.
  intros HV Hs EM.
  destruct (malloc_sound_full st live B L size fuel p st' HV Hs EM)
    as ((G1 & G2 & G3 & _) & _ & _ & _ & Hbrk & HF).
  cbv zeta in Hbrk.
  destruct (asize_spec size Hs) as (Ha1 & Ha2 & _).
  destruct (max_chunk _ Ha1 Ha2) as (M1 & _).
  split; [exact HF|]. split; [exact G1|]. split; [exact G2|]. split; [exact G3|].
  destruct Hbrk as [E|(_ & E)]; lia.
Qed.

Lemma free_kept_arena st live B L p :
  heap_inv st live B L -> p = 0 \/ In p live ->
  heap_frame st (free p st) /\ mem_heap_lo (free p st) = mem_heap_lo st /\
  mem_max_addr (free p st) = mem_max_addr st /\ heap_start (free p st) = heap_start st /\
  mem_brk st <= mem_brk (free p st).
Proof.
  intros HV [->|Hp]; [rewrite free_null; apply kept_refl|].
  destruct (free_full st live B L p HV Hp) as (_ & _ & _ & _ & _ & F1 & F2 & F3 & F4).
  split; [exact (free_frame st live B L p HV Hp)|].
  split; [exact F1|]. split; [exact F3|]. split; [exact F4|lia].
Qed.

Lemma write_kept_arena st live B L b m' :
  heap_inv st live B L -> B b ->
  same_out (st_mem st) m' (b_addr b + 8) (b_addr b + b_size b) ->
  heap_frame st (set_mem st m') /\ mem_heap_lo (set_mem st m') = mem_heap_lo st /\
  mem_max_addr (set_mem st m') = mem_max_addr st /\
  heap_start (set_mem st m') = heap_start st /\
  mem_brk st <= mem_brk (set_mem st m').
Proof.
  intros HV Bb S. split; [exact (payload_write_frame st live B L b m' HV Bb S)|].
  cbn. repeat split; lia.
Qed.

(** One public operation: the frame of the heap and the bounds. *)
Lemma op_step_kept st live B L st' :
  heap_inv st live B L -> op_step st live st' ->
  heap_frame st st' /\ mem_heap_lo st' = mem_heap_lo st /\
  mem_max_addr st' = mem_max_addr st /\ heap_start st' = heap_start st /\
  mem_brk st <= mem_brk st'.
Proof.
  intros HV [fuel size p Hs EM|p Hp ->|fuel p size q Hp (F1 & F2) E|fuel n size p Hn Hs Hfit E].
  - exact (malloc_kept st live B L size fuel p st' HV Hs EM).
  - exact (free_kept_arena st live B L p HV Hp).
  - unfold realloc in E.
    destruct (Z.eqb_spec size 0) as [Ez|Ez].
    { injection E as _ <-. exact (free_kept_arena st live B L p HV Hp). }
    assert (Hs : 0 <= size < 2 ^ 64) by (rewrite const_2_64 in *; lia).
    destruct (Z.eqb_spec p 0) as [Ep|Ep].
    { exact (malloc_kept st live B L size fuel q st' HV Hs E). }
    destruct Hp as [?|Hp]; [contradiction|].
    destruct (malloc fuel size st) as [[np st1]|] eqn:EM; [|discriminate].
    pose proof (malloc_kept st live B L size fuel np st1 HV Hs EM) as K1.
    destruct (Z.eqb_spec np 0) as [En|En]; [injection E as _ <-; exact K1|].
    injection E as _ <-.
    destruct (malloc_sound st live B L size fuel np st1 HV Hs EM) as (_ & _ & _ & _ & H1).
    destruct (H1 En) as (_ & B' & L' & b & HV' & Bb & Eb & Ab & Hsz). specialize (Hsz F2).
    set (n := if size <? get_payload_size (st_mem st1) (payload_to_header p)
              then size else get_payload_size (st_mem st1) (payload_to_header p)).
    assert (Hn : n <= size) by (unfold n; destruct (Z.ltb_spec size
                 (get_payload_size (st_mem st1) (payload_to_header p))); lia).
    assert (Sm : same_out (st_mem st1) (memcpy (st_mem st1) np p n)
                   (b_addr b + 8) (b_addr b + b_size b))
      by (eapply same_out_weaken; [apply memcpy_out|lia|lia]).
    pose proof (write_kept_arena st1 _ B' L' b _ HV' Bb Sm) as K2.
    assert (HV2 : heap_inv (set_mem st1 (memcpy (st_mem st1) np p n)) (np :: live) B' L')
      by (apply (heap_inv_payload st1 (np :: live) B' L' b); auto).
    pose proof (free_kept_arena _ _ B' L' p HV2 (or_intror (or_intror Hp))) as K3.
    exact (kept_trans _ _ _ (kept_trans _ _ _ K1 K2) K3).
  - unfold calloc in E.
    destruct (Z.eqb_spec n 0) as [E0|E0]; [injection E as _ <-; apply kept_refl|].
    rewrite (calloc_guard n size ltac:(lia) Hs) in E.
    destruct (Z.ltb_spec (n * size) (2 ^ 64)) as [Hlt|Hge]; cbn [negb] in E;
      [|injection E as _ <-; apply kept_refl].
    destruct (Hfit Hlt) as (F1 & F2).
    rewrite (wrap_small (n * size)) in E by (split; assumption).
    destruct (malloc fuel (n * size) st) as [[bp st1]|] eqn:EM; [|discriminate].
    pose proof (malloc_kept st live B L _ fuel bp st1 HV (conj F1 Hlt) EM) as K1.
    destruct (Z.eqb_spec bp 0) as [Eb|Eb]; [injection E as _ <-; exact K1|].
    injection E as _ <-.
    destruct (malloc_sound st live B L _ fuel bp st1 HV (conj F1 Hlt) EM)
      as (_ & _ & _ & _ & H1).
    destruct (H1 Eb) as (_ & B' & L' & b & HV' & Bb & Eb' & Ab & Hsz). specialize (Hsz F2).
    assert (Sm : same_out (st_mem st1) (memset (st_mem st1) bp 0 (n * size))
                   (b_addr b + 8) (b_addr b + b_size b))
      by (eapply same_out_weaken; [apply memset_out|lia|lia]).
    pose proof (write_kept_arena st1 _ B' L' b _ HV' Bb Sm) as K2.
    exact (kept_trans _ _ _ K1 K2).
Qed.

(** X23: the public operations write only inside the heap.  After a call of
    [malloc], [free], [realloc] or [calloc] in a reachable state, every byte
    below [heap_start] and every byte at or above the new break is what it
    was; the bounds of the arena and [heap_start] are the same, and the
    break has not moved back. *)
Theorem X23_writes_inside_heap st live st' :
  reach st live -> op_step st live st' ->
  heap_frame st st' /\ mem_heap_lo st' = mem_heap_lo st /\
  mem_max_addr st' = mem_max_addr st /\ heap_start st' = heap_start st /\
  mem_brk st <= mem_brk st'.
Proof.
  intros HR Hop. destruct (reach_ok st live HR) as (B & L & HV).
  exact (op_step_kept st live B L st' HV Hop).
Qed.

Lemma X23_witness :
  heap_frame heap2 heap3 /\ mem_heap_lo heap3 = mem_heap_lo heap2 /\
  mem_max_addr heap3 = mem_max_addr heap2 /\ heap_start heap3 = heap_start heap2 /\
  mem_brk heap2 <= mem_brk heap3.
Proof.
  apply (X23_writes_inside_heap heap2 [ptr2] heap3 reach_heap2).
  apply (step_realloc heap2 [ptr2] heap3 10 ptr2 200 ptr3).
  - right. left. reflexivity.
  - unfold fits. rewrite const_2_64. lia.
  - exact realloc_heap2.
Defined.

Lemma prologue_kept st st' :
  heap_frame st st' -> mem_heap_lo st' = mem_heap_lo st ->
  mem_heap_lo st + 8 <= heap_start st ->
  check_prologue st' = check_prologue st.
Proof.
  intros HF El Hs. unfold check_prologue, get_size, get_alloc, get_prev_alloc.
  rewrite El.
  rewrite (load_ext (st_mem st) (st_mem st') (mem_heap_lo st)); [reflexivity|].
  intros x Hx. apply HF. lia.
Qed.

(** X24: no public operation changes what [check_prologue] reads: in a
    reachable state the prologue word lies below [heap_start], and
    [check_prologue] gives after the call what it gave before. *)
Theorem X24_check_prologue_kept st live st' :
  reach st live -> op_step st live st' ->
  mem_heap_lo st + 8 <= heap_start st /\
  check_prologue st' = check_prologue st.
Proof.
  intros HR Hop. destruct (reach_ok st live HR) as (B & L & HV).
  destruct (op_step_kept st live B L st' HV Hop) as (HF & El & _).
  destruct HV as (HI & _). pose proof (hi_start _ _ _ HI) as Hs.
  split; [exact Hs|]. exact (prologue_kept st st' HF El Hs).
Qed.

Lemma X24_witness :
  mem_heap_lo heap2 + 8 <= heap_start heap2 /\
  check_prologue heap3 = check_prologue heap2.
Proof.
  apply (X24_check_prologue_kept heap2 [ptr2] heap3 reach_heap2).
  apply (step_realloc heap2 [ptr2] heap3 10 ptr2 200 ptr3).
  - right. left. reflexivity.
  - unfold fits. rewrite const_2_64. lia.
  - exact realloc_heap2.
Defined.

(** The empty heap that [mm_init] builds passes [check_prologue] when the
    arena was empty. *)
Lemma init_prologue st0 :
  mem_brk st0 = mem_heap_lo st0 ->
  let s := mem_brk st0 in
  let m2 := store (store (st_mem st0) s (pack 0 true true)) (s + 8) (pack 0 true true) in
  check_prologue
    (set_heap_start (set_mem (free_root_init (set_brk st0 (s + 16))) m2) (s + 8)) = true.
Proof.
  intros E s m2. unfold check_prologue.
  cbn [set_heap_start set_mem free_root_init set_roots set_brk mem_heap_lo st_mem].
  rewrite <- E. fold s.
  assert (El : load m2 s = 3).
  { unfold m2. rewrite load_store_other by lia. rewrite load_store_same. reflexivity. }
  unfold get_size, get_alloc, get_prev_alloc. rewrite El. reflexivity.
Qed.

(** X25: [mm_init] on an empty arena that has room for the two boundary
    words leaves a heap that passes [check_prologue], whether the extension
    by the first chunk succeeds or not. *)
Theorem X25_mm_init_prologue st0 :
  init_pre st0 -> mem_brk st0 = mem_heap_lo st0 ->
  16 <= mem_max_addr st0 - mem_brk st0 ->
  check_prologue (snd (mm_init st0)) = true.
Proof.
  intros Hpre Hfresh Hroom.
  pose proof (init_empty st0 Hpre Hroom) as HV.
  pose proof (init_prologue st0 Hfresh) as P3. cbv zeta in P3.
  pose proof (extend_heap_full _ _ _ _ chunksize HV) as HE.
  unfold chunksize in HE at 1 2. change (Z.shiftl 1 12) with 4096 in HE.
  specialize (HE ltac:(lia) ltac:(rewrite const_2_64; lia)). cbn zeta in HE.
  change (round_up chunksize dsize) with 4096 in HE.
  rewrite (init_unfold st0 Hpre Hroom).
  match type of HE with
  | if ?c then _ else _ => destruct c
  end.
  - rewrite HE. cbn [Z.eqb snd]. exact P3.
  - destruct HE as (B' & L' & r & HV' & _ & _ & _ & _ & _ & _ & G1 & G2 & _ & G4 & HK).
    destruct (extend_heap chunksize _) as [b st4]. cbn [fst snd] in *.
    assert (E4 : check_prologue st4 = true).
    { rewrite <- P3. destruct HV as (HI & _).
      apply prologue_kept; [|exact G1|apply (hi_start _ _ _ HI)].
      apply (frame_of_guarded _ _ _ (hinv_hmem _ _ _ HI)); [rewrite G2; lia|].
      intros a s Ha Hs Hab. apply (HK a s Ha Hs). intros Hc. specialize (Hab Hc).
      rewrite G2 in Hab. exact Hab. }
    destruct (b =? 0); exact E4.
Qed.

Lemma X25_witness : check_prologue (snd (mm_init arena0)) = true.
Proof.
  apply (X25_mm_init_prologue arena0 arena0_pre).
  - reflexivity.
  - vm_compute. discriminate.
Defined.

(** ** The implicit list tiles the heap *)

Lemma walk_sizes st live B L :
  heap_inv st live B L ->
  forall fuel b l,
    B b -> implicit_walk fuel (st_mem st) (b_addr b) = Some l ->
    b_addr b + fold_right Z.add 0 (map (get_size (st_mem st)) l) = mem_brk st - 8.
Proof.
  intros HV. pose proof HV as (HI & _). pose proof (hinv_hmem _ _ _ HI) as HM.
  induction fuel as [|k IH]; intros b l Bb E; [discriminate|].
  cbn [implicit_walk] in E.
  rewrite (blk_get_size _ _ (hi_mem _ _ _ HI b Bb)) in E.
  pose proof (lay_range _ _ _ (hi_lay _ _ _ HI) b Bb) as (? & ?).
  destruct (Z.eq_dec (b_addr b) (mem_brk st - 8)) as [Ee|Ee].
  - destruct (lay_epi _ _ _ (hi_lay _ _ _ HI) b Bb Ee) as (Es & _).
    rewrite Es in E. cbn in E. injection E as <-. cbn. lia.
  - destruct (lay_size _ _ _ (hi_lay _ _ _ HI) b Bb ltac:(lia)) as (Hs & _).
    destruct (Z.gtb_spec (b_size b) 0) as [_|?]; [|lia].
    rewrite (find_next_spec _ _ _ HI b Bb) in E.
    destruct (lay_next _ _ _ (hi_lay _ _ _ HI) b Bb ltac:(lia)) as (n & Bn & En).
    rewrite <- En in E.
    destruct (implicit_walk k (st_mem st) (b_addr n)) as [t|] eqn:Et; [|discriminate].
    injection E as <-. cbn [map fold_right].
    rewrite (blk_get_size _ _ (hi_mem _ _ _ HI b Bb)).
    pose proof (IH n t Bn Et). lia.
Qed.

(** X26: the blocks of the implicit list tile the heap.  In a reachable
    state the sizes of the blocks that the walk from [heap_start] visits add
    up to the distance from [heap_start] to the epilogue: no byte between
    them is outside a block. *)
Theorem X26_blocks_tile_heap st live fuel l :
  reach st live ->
  implicit_walk fuel (st_mem st) (heap_start st) = Some l ->
  heap_start st + fold_right Z.add 0 (map (get_size (st_mem st)) l) = mem_brk st - 8.
Proof.
  intros HR E. destruct (reach_ok st live HR) as (B & L & HV).
  pose proof HV as (HI & _).
  destruct (lay_first _ _ _ (hi_lay _ _ _ HI)) as (f & Bf & Ef).
  rewrite <- Ef in *. exact (walk_sizes st live B L HV fuel f l Bf E).
Qed.

Lemma X26_witness :
  heap_start heap3 +
  fold_right Z.add 0 (map (get_size (st_mem heap3)) [4104; 4216; 4424]) =
  mem_brk heap3 - 8.
Proof.
  exact (X26_blocks_tile_heap heap3 [ptr3] 10 [4104; 4216; 4424] reach_heap3 walk_heap3).
Defined.

(** ** The scan of the home bucket *)

Section Scan.
Variables (m : mem) (asize : Z).

(** [min] is a smallest block among those of [seen] that have [asize]
    bytes, or null when none has. *)
Let best (min : Z) (seen : list Z) : Prop :=
  (min = 0 -> forall y, In y seen -> get_size m y < asize) /\
  (min <> 0 ->
     In min seen /\ asize <= get_size m min /\
     forall y, In y seen -> asize <= get_size m y -> get_size m min <= get_size m y).

Lemma scan_best : forall l c min checked seen fuel r early,
  fwd (get_next_free m) c l -> best min seen ->
  find_fit_scan fuel m asize c min checked = Some (r, early) ->
  exists l1 l2,
    l = l1 ++ l2 /\ best r (seen ++ l1) /\
    (early = false -> l2 = []) /\
    (early = true -> r <> 0 /\ max_check + 1 < checked + Z.of_nat (length l1)).
Proof.
  induction l as [|x t IH]; intros c min checked seen fuel r early Hf Hb E.
  - cbn in Hf. subst c. destruct fuel as [|k]; [discriminate|].
    cbn in E. injection E as <- <-. exists [], []. rewrite (app_nil_r seen).
    split; [reflexivity|]. split; [exact Hb|]. split; [reflexivity|discriminate].
  - destruct Hf as (-> & Hx & Hf). destruct fuel as [|k]; [discriminate|].
    cbn [find_fit_scan] in E. rewrite (proj2 (Z.eqb_neq x 0) Hx) in E.
    destruct Hb as (Hb0 & Hb1).
    destruct (Z.leb_spec asize (get_size m x)) as [Hfit|Hno].
    + set (min1 := if min =? 0 then x else min) in *.
      set (min2 := if get_size m x <? get_size m min1 then x else min1) in *.
      assert (Hb2 : best min2 (seen ++ [x]) /\ min2 <> 0).
      { unfold min2, min1. destruct (Z.eqb_spec min 0) as [E0|E0].
        - rewrite Z.ltb_irrefl. split; [|exact Hx]. split; [intros; contradiction|].
          intros _. split; [apply in_or_app; right; left; reflexivity|].
          split; [exact Hfit|]. intros y Hy Hyf. apply in_app_or in Hy.
          destruct Hy as [Hy|[<-|[]]]; [|lia]. specialize (Hb0 E0 y Hy). lia.
        - destruct (Hb1 E0) as (Hi & Hm & Hbest).
          destruct (Z.ltb_spec (get_size m x) (get_size m min)) as [Hlt|Hge].
          + split; [|exact Hx]. split; [intros; contradiction|].
            intros _. split; [apply in_or_app; right; left; reflexivity|].
            split; [exact Hfit|]. intros y Hy Hyf. apply in_app_or in Hy.
            destruct Hy as [Hy|[<-|[]]]; [|lia]. specialize (Hbest y Hy Hyf). lia.
          + split; [|exact E0]. split; [intros; contradiction|].
            intros _. split; [apply in_or_app; left; exact Hi|].
            split; [exact Hm|]. intros y Hy Hyf. apply in_app_or in Hy.
            destruct Hy as [Hy|[<-|[]]]; [apply Hbest; assumption|lia]. }
      destruct Hb2 as (Hb2 & Hn2). rewrite (proj2 (Z.eqb_neq min2 0) Hn2) in E.
      cbn [negb andb] in E.
      destruct (Z.gtb_spec checked max_check) as [Hc|Hc].
      * injection E as <- <-. exists [x], t. split; [reflexivity|].
        split; [exact Hb2|]. split; [discriminate|]. intros _. split; [exact Hn2|].
        cbn [length]. lia.
      * destruct (IH _ min2 (checked + 1) (seen ++ [x]) k r early Hf Hb2 E)
          as (l1 & l2 & El & Hbr & He0 & He1).
        exists (x :: l1), l2. split; [cbn; rewrite El; reflexivity|].
        rewrite <- app_assoc in Hbr. split; [exact Hbr|]. split; [exact He0|].
        intros Ee. destruct (He1 Ee) as (? & ?). split; [assumption|].
        cbn [length]. lia.
    + assert (Hb2 : best min (seen ++ [x])).
      { split.
        - intros E0 y Hy. apply in_app_or in Hy.
          destruct Hy as [Hy|[<-|[]]]; [exact (Hb0 E0 y Hy)|exact Hno].
        - intros E0. destruct (Hb1 E0) as (Hi & Hm & Hbest).
          split; [apply in_or_app; left; exact Hi|]. split; [exact Hm|].
          intros y Hy Hyf. apply in_app_or in Hy.
          destruct Hy as [Hy|[<-|[]]]; [apply Hbest; assumption|lia]. }
      destruct (IH _ min (checked + 1) (seen ++ [x]) k r early Hf Hb2 E)
        as (l1 & l2 & El & Hbr & He0 & He1).
      exists (x :: l1), l2. split; [cbn; rewrite El; reflexivity|].
      rewrite <- app_assoc in Hbr. split; [exact Hbr|]. split; [exact He0|].
      intros Ee. destruct (He1 Ee) as (? & ?). split; [assumption|].
      cbn [length]. lia.
Qed.
End Scan.

(** X27: [find_fit] is a best fit over a bounded part of the home bucket.
    When the home bucket of [asize] holds a block of at least [asize] bytes,
    [find_fit] returns a block of the home bucket that is a smallest one
    among the blocks of at least [asize] bytes in the part of the bucket it
    has looked at; that part is the whole bucket, or its first eleven blocks
    or more. *)
Theorem X27_find_fit_best st fuel fuel' asize r l :
  bucket_walk fuel' (st_mem st) (free_root st (get_seglist_ind asize)) = Some l ->
  find_fit fuel st asize = Some r ->
  (exists y, In y l /\ asize <= get_size (st_mem st) y) ->
  exists l1 l2,
    l = l1 ++ l2 /\ (l2 = [] \/ (11 <= length l1)%nat) /\
    In r l1 /\ asize <= get_size (st_mem st) r /\
    forall y, In y l1 -> asize <= get_size (st_mem st) y ->
              get_size (st_mem st) r <= get_size (st_mem st) y.
Proof.
  intros EW EF (y & Hy & Hyf). pose proof (bucket_walk_fwd _ _ _ _ EW) as Hf.
  unfold find_fit in EF.
  destruct (find_fit_scan fuel (st_mem st) asize
              (free_root st (get_seglist_ind asize)) 0 0) as [[r0 early]|] eqn:ES;
    [|discriminate].
  destruct (scan_best (st_mem st) asize l _ 0 0 [] fuel r0 early Hf) as
    (l1 & l2 & El & (Hb0 & Hb1) & He0 & He1); [|exact ES|].
  { split; [intros _ z []|intros C; contradiction]. }
  cbn [app] in Hb0, Hb1.
  assert (Hr0 : r0 <> 0 /\ (l2 = [] \/ (11 <= length l1)%nat)).
  { destruct early.
    - destruct (He1 eq_refl) as (Hn & Hlen). split; [exact Hn|right].
      unfold max_check in Hlen. lia.
    - specialize (He0 eq_refl). subst l2. rewrite app_nil_r in El. subst l1.
      split; [|left; reflexivity]. intros E0. specialize (Hb0 E0 y Hy). lia. }
  destruct Hr0 as (Hr0 & Hlen).
  assert (r = r0).
  { destruct early; [congruence|].
    rewrite (proj2 (Z.eqb_neq r0 0) Hr0) in EF. congruence. }
  subst r0. destruct (Hb1 Hr0) as (Hi & Hm & Hbest).
  exists l1, l2. split; [exact El|]. split; [exact Hlen|]. split; [exact Hi|].
  split; [exact Hm|exact Hbest].
Qed.

Lemma X27_witness :
  exists l1 l2,
    [4424] = l1 ++ l2 /\ (l2 = [] \/ (11 <= length l1)%nat) /\
    In 4424 l1 /\ 2048 <= get_size (st_mem heap3) 4424 /\
    forall y, In y l1 -> 2048 <= get_size (st_mem heap3) y ->
              get_size (st_mem heap3) 4424 <= get_size (st_mem heap3) y.
Proof.
  apply (X27_find_fit_best heap3 10 10 2048 4424 [4424]).
  - vm_compute. reflexivity.
  - vm_compute. reflexivity.
  - exists 4424. split; [left; reflexivity|]. vm_compute. discriminate.
Defined.
